(** * Route-graph viewer: layout engine and playback controller

    A shallow embedding of the view-graph script (the DOMContentLoaded
    handler that normalises the route, projects it on the canvas, resolves
    collisions and plays the traveller along the route) and of the distance
    helper of [static/js/optimize_route.js].  The later parts add the graph
    of the route page (nodes, links and labels of [displayRouteGraph]), the
    cookie reader [getCookie] and the manual zoom of the optimize page.

    JavaScript numbers are IEEE doubles.  Here a finite double is idealised
    as a real number: the arithmetic of the script has no rounding and no
    overflow.  [NaN] and the infinities appear where the script can meet
    them: in the module that models input normalisation, where the
    conversion [+v] can produce them (a numeral beyond the range of the
    doubles reads as an infinity), and in the clamp that stores the [y] of a
    node whose latitude is [NaN].  The great-circle distance of two points
    that are antipodal up to rounding, which the script computes as [NaN],
    is excluded by a hypothesis where a statement about its range depends
    on it.

    The browser and d3 are parameters of the model (viewport size, label
    measurement, [Math.random], the force simulation).  Of the drawing only
    the centre of the traveller marker is kept; the promises of
    [playSequence] and [animateTo] are modelled by the closures registered
    for the next animation frame and by the pending 250 ms timers, and what
    happens to the page is a sequence of events (clicks, speed input,
    animation frames, timers). *)

From Stdlib Require Import Reals Lra Lia List Bool Arith ZArith String Ascii.
From Stdlib Require Import Machin DecimalString DecimalNat.
Import ListNotations.

Open Scope R_scope.

(** ** The [Math] object over the reals *)

Module JsMath.

Definition max (a b : R) : R := Rmax a b.
Definition min (a b : R) : R := Rmin a b.
Definition abs (x : R) : R := Rabs x.

Definition sign (x : R) : R :=
  if Rlt_dec x 0 then -1 else if Rlt_dec 0 x then 1 else 0.

(** [Math.pow b e] for a base [b >= 0] and an exponent [e > 0], the only
    use the script makes of it ([Math.pow(Math.abs(d), 0.6)]). *)
Definition pow (b e : R) : R :=
  if Req_dec_T b 0 then 0 else Rpower b e.

Definition sqrt (x : R) : R := R_sqrt.sqrt x.
Definition hypot (x y : R) : R := R_sqrt.sqrt (x * x + y * y).

(** [Math.round]: the nearest integer, halves going up. *)
Definition round (x : R) : R := IZR (Int_part (x + / 2)).

Definition sin (x : R) : R := Rtrigo_def.sin x.
Definition cos (x : R) : R := Rtrigo_def.cos x.
Definition acos (x : R) : R := Ratan.acos x.

(** [Math.atan2 y x]: the angle of the point [(x, y)], in [(-PI, PI]]. *)
Definition atan2 (y x : R) : R :=
  if Rlt_dec 0 x then atan (y / x)
  else if Rlt_dec x 0 then
         (if Rle_dec 0 y then atan (y / x) + PI else atan (y / x) - PI)
  else if Rlt_dec 0 y then PI / 2
  else if Rlt_dec y 0 then - (PI / 2)
  else 0.

(** [a < b] as a boolean. *)
Definition lt (a b : R) : bool := if Rlt_dec a b then true else false.

(** [a || b] on numbers: [0] is the falsy number. *)
Definition or_else (a b : R) : R := if Req_dec_T a 0 then b else a.

End JsMath.

(** ** Great-circle distance *)

(** [haversineKm] of the view-graph script. *)
Definition toRad (d : R) : R := d * PI / 180.

Definition haversineKm (lat1 lon1 lat2 lon2 : R) : R :=
  let R := 6371 in
  let dLat := toRad (lat2 - lat1) in
  let dLon := toRad (lon2 - lon1) in
  let a := JsMath.sin (dLat / 2) * JsMath.sin (dLat / 2)
           + JsMath.cos (toRad lat1) * JsMath.cos (toRad lat2)
             * JsMath.sin (dLon / 2) * JsMath.sin (dLon / 2) in
  let c := 2 * JsMath.atan2 (JsMath.sqrt a) (JsMath.sqrt (1 - a)) in
  R * c.

(** [calculateDistance] of [optimize_route.js]. *)
Record Coord := mkCoord { c_lat : R; c_lng : R }.

Definition calculateDistance (coord1 coord2 : Coord) : R :=
  let R := 6371 in
  let dLat := (c_lat coord2 - c_lat coord1) * PI / 180 in
  let dLon := (c_lng coord2 - c_lng coord1) * PI / 180 in
  let a := JsMath.sin (dLat / 2) * JsMath.sin (dLat / 2)
           + JsMath.cos (c_lat coord1 * PI / 180)
             * JsMath.cos (c_lat coord2 * PI / 180)
             * JsMath.sin (dLon / 2) * JsMath.sin (dLon / 2) in
  let c := 2 * JsMath.atan2 (JsMath.sqrt a) (JsMath.sqrt (1 - a)) in
  R * c.

(** The haversine formula as the textbooks give it: the haversine of the
    central angle, and the distance [2 R asin (sqrt h)] on a sphere of radius
    [R] kilometres. *)
Definition hav (theta : R) : R := Rsqr (Rtrigo_def.sin (theta / 2)).

Definition haversine_formula (radius lat1 lon1 lat2 lon2 : R) : R :=
  let phi1 := lat1 * PI / 180 in
  let phi2 := lat2 * PI / 180 in
  let lam1 := lon1 * PI / 180 in
  let lam2 := lon2 * PI / 180 in
  let h := hav (phi2 - phi1)
           + Rtrigo_def.cos phi1 * Rtrigo_def.cos phi2 * hav (lam2 - lam1) in
  2 * radius * asin (R_sqrt.sqrt h).

(** ** Input normalisation *)

Module Input.

(** A JavaScript number as the conversion [+v] can produce it. *)
Inductive Number :=
| NaN
| Infinity (negative : bool)
| Fin (r : R).

(** The values a coordinate field of a route record can hold. *)
Inductive JsValue :=
| JUndefined
| JNull
| JBool (b : bool)
| JNumber (n : Number)
| JString (s : string).

(** *** [StringToNumber]: the grammar of [StringNumericLiteral] *)

(** A string is read as its code units, of which the type [ascii] holds
    those below 256.  Of [WhiteSpace] and [LineTerminator] these are tab,
    line feed, vertical tab, form feed, carriage return (9 to 13), the space
    (32) and the no-break space (160). *)
Definition isWhiteSpace (c : ascii) : bool :=
  let n := nat_of_ascii c in
  ((9 <=? n) && (n <=? 13))%nat || (n =? 32)%nat || (n =? 160)%nat.

Fixpoint dropWhite (l : list ascii) : list ascii :=
  match l with
  | c :: t => if isWhiteSpace c then dropWhite t else l
  | [] => []
  end.

Definition trim (l : list ascii) : list ascii :=
  rev (dropWhite (rev (dropWhite l))).

(** The value of a digit in the given radix, if it is one. *)
Definition digitValue (radix : nat) (c : ascii) : option nat :=
  let n := nat_of_ascii c in
  let v := if ((48 <=? n) && (n <=? 57))%nat then Some (n - 48)%nat
           else if ((97 <=? n) && (n <=? 102))%nat then Some (n - 87)%nat
           else if ((65 <=? n) && (n <=? 70))%nat then Some (n - 55)%nat
           else None in
  match v with
  | Some d => if (d <? radix)%nat then Some d else None
  | None => None
  end.

(** Reads the longest run of digits: its value, its length, what follows. *)
Fixpoint readDigits (radix : nat) (acc : Z) (count : nat) (l : list ascii)
  : Z * nat * list ascii :=
  match l with
  | c :: t =>
      match digitValue radix c with
      | Some d => readDigits radix (acc * Z.of_nat radix + Z.of_nat d)%Z (S count) t
      | None => (acc, count, l)
      end
  | [] => (acc, count, [])
  end.

Definition isChar (c : ascii) (s : string) : bool :=
  match s with
  | String d EmptyString => Ascii.eqb c d
  | _ => false
  end.

(** The mathematical value of a literal is rounded to the nearest double
    (ties to even): from [2^1024 - 2^970] on, half-way between the largest
    double and [2^1024], the result is [Infinity].  Below that bound the
    model keeps the value itself. *)
Definition overflowBound : Z := (2 ^ 1024 - 2 ^ 970)%Z.

(** Whether [mant * 10^k] reaches the bound, for [mant >= 0]. *)
Definition overflows (mant k : Z) : bool :=
  if (0 <=? k)%Z then (overflowBound <=? mant * 10 ^ k)%Z
  else (overflowBound * 10 ^ (- k) <=? mant)%Z.

(** A non-decimal integer literal: the digits after [0x], [0o] or [0b]. *)
Definition nonDecimal (radix : nat) (l : list ascii) : Number :=
  match readDigits radix 0%Z 0 l with
  | (v, S _, []) => if overflows v 0 then Infinity false else Fin (IZR v)
  | _ => NaN
  end.

(** The optional exponent part [e], [e+], [e-] followed by digits. *)
Definition exponentPart (l : list ascii) : option Z :=
  match l with
  | [] => Some 0%Z
  | c :: t =>
      if isChar c "e" || isChar c "E" then
        let '(neg, t') :=
          match t with
          | s :: u => if isChar s "-" then (true, u)
                      else if isChar s "+" then (false, u) else (false, t)
          | [] => (false, t)
          end in
        match readDigits 10 0%Z 0 t' with
        | (v, S _, []) => Some (if neg then (- v)%Z else v)
        | _ => None
        end
      else None
  end.

(** [StrUnsignedDecimalLiteral]: [Infinity], or digits with an optional
    fraction and exponent, at least one digit in all. *)
Definition unsignedDecimal (negative : bool) (l : list ascii) : Number :=
  if list_eq_dec ascii_dec l (list_ascii_of_string "Infinity") then Infinity negative
  else
    let '(ip, ni, rest) := readDigits 10 0%Z 0 l in
    let '(fp, nf, rest') :=
      match rest with
      | c :: t => if isChar c "." then readDigits 10 0%Z 0 t else (0%Z, 0%nat, rest)
      | [] => (0%Z, 0%nat, rest)
      end in
    match (ni + nf)%nat, exponentPart rest' with
    | S _, Some e =>
        let mant := (ip * 10 ^ Z.of_nat nf + fp)%Z in
        if overflows mant (e - Z.of_nat nf) then Infinity negative
        else
          let v := IZR mant * powerRZ 10 (e - Z.of_nat nf) in
          Fin (if negative then - v else v)
    | _, _ => NaN
    end.

Definition StringToNumber (s : string) : Number :=
  match trim (list_ascii_of_string s) with
  | [] => Fin 0
  | c :: t =>
      if isChar c "-" then unsignedDecimal true t
      else if isChar c "+" then unsignedDecimal false t
      else
        match t with
        | p :: u =>
            if isChar c "0" && (isChar p "x" || isChar p "X") then nonDecimal 16 u
            else if isChar c "0" && (isChar p "o" || isChar p "O") then nonDecimal 8 u
            else if isChar c "0" && (isChar p "b" || isChar p "B") then nonDecimal 2 u
            else unsignedDecimal false (c :: t)
        | [] => unsignedDecimal false (c :: t)
        end
  end.

(** The unary plus [+v]. *)
Definition ToNumber (v : JsValue) : Number :=
  match v with
  | JUndefined => NaN
  | JNull => Fin 0
  | JBool true => Fin 1
  | JBool false => Fin 0
  | JNumber n => n
  | JString s => StringToNumber s
  end.

(** [v !== undefined]. *)
Definition defined (v : JsValue) : bool :=
  match v with
  | JUndefined => false
  | _ => true
  end.

(** [Math.min(a, b)] and [Math.max(a, b)] on numbers: [NaN] when one of the
    two is [NaN]. *)
Definition MathMin (a b : Number) : Number :=
  match a, b with
  | NaN, _ | _, NaN => NaN
  | Infinity true, _ | _, Infinity true => Infinity true
  | Infinity false, v | v, Infinity false => v
  | Fin u, Fin v => Fin (Rmin u v)
  end.

Definition MathMax (a b : Number) : Number :=
  match a, b with
  | NaN, _ | _, NaN => NaN
  | Infinity false, _ | _, Infinity false => Infinity false
  | Infinity true, v | v, Infinity true => v
  | Fin u, Fin v => Fin (Rmax u v)
  end.

(** [lo <= n && n <= hi] for two finite bounds: a comparison with [NaN] is
    false. *)
Definition between (lo hi : R) (n : Number) : Prop :=
  match n with
  | Fin v => lo <= v <= hi
  | _ => False
  end.

(** A record of [route_with_coords] or [coordinates].  The coordinate fields
    hold any value; the two name fields are absent or hold a string, as the
    input contract has them. *)
Record RawPoint := mkRaw {
  r_lat : JsValue;
  r_lng : JsValue;
  r_latitude : JsValue;
  r_longitude : JsValue;
  r_location : option string;
  r_name : option string
}.

(** A normalised point [{lat, lng, name}]. *)
Record NPoint := mkNPoint {
  n_lat : Number;
  n_lng : Number;
  n_name : string
}.

(** [a || b] on an absent-or-string field: absent and the empty string are falsy. *)
Definition strOr (a : option string) (b : string) : string :=
  match a with
  | Some s => if String.eqb s EmptyString then b else s
  | None => b
  end.

(** The callback of [.map]: a point, or [null]. *)
Definition normalizePoint (p : RawPoint) : option NPoint :=
  if defined (r_lat p) && defined (r_lng p) then
    Some (mkNPoint (ToNumber (r_lat p)) (ToNumber (r_lng p))
                   (strOr (r_location p) (strOr (r_name p) EmptyString)))
  else if defined (r_latitude p) && defined (r_longitude p) then
    Some (mkNPoint (ToNumber (r_latitude p)) (ToNumber (r_longitude p))
                   (strOr (r_name p) EmptyString))
  else None.

(** A record has coordinates when both fields of one of the two shapes are
    there. *)
Definition hasCoordinates (p : RawPoint) : bool :=
  (defined (r_lat p) && defined (r_lng p))
  || (defined (r_latitude p) && defined (r_longitude p)).

(** A field that is there but does not parse as a number. *)
Definition unparseable (v : JsValue) : Prop :=
  defined v = true /\ ToNumber v = NaN.

(** [.filter(Boolean)] on the mapped array: the [null]s go. *)
Fixpoint filterBoolean {A : Type} (l : list (option A)) : list A :=
  match l with
  | Some a :: t => a :: filterBoolean t
  | None :: t => filterBoolean t
  | [] => []
  end.

(** [ROUTE_DATA]: each of the two arrays may be absent. *)
Record RouteData := mkRouteData {
  route_with_coords : option (list RawPoint);
  coordinates : option (list RawPoint)
}.

(** [ROUTE_DATA.route_with_coords || ROUTE_DATA.coordinates || []]: an array,
    even an empty one, is truthy. *)
Definition rawPoints (d : RouteData) : list RawPoint :=
  match route_with_coords d with
  | Some l => l
  | None => match coordinates d with
            | Some l => l
            | None => []
            end
  end.

Definition normalize (d : RouteData) : list NPoint :=
  filterBoolean (map normalizePoint (rawPoints d)).

End Input.

(** ** The page environment *)

(** A point of the route with finite coordinates. *)
Record Point := mkPoint {
  lat : R;
  lng : R;
  name : string
}.

(** A node of the force simulation, as [applyUniformLinkLayout] builds it. *)
Record SimNode := mkSimNode {
  sn_id : nat;
  sn_x : R;
  sn_y : R;
  sn_sizeScale : R;
  sn_labelWidth : R;
  sn_labelHeight : R;
  sn_fontSize : R
}.

(** What the script takes from the browser and from d3:
    - the viewport size;
    - [getBBox label fontSize]: width and height of the rendered label, or
      [None] when [getBBox] throws;
    - [random k]: the result of the [k]-th call of [Math.random()];
    - [simulate nodes target w h id]: where the d3 force simulation (link
      distance [target], charge, collision and centring forces on a [w] by
      [h] canvas) has put node [id] after its 300 ticks;
    - whether the page has the uniform-layout button;
    - the number parsed from the speed slider at load, [None] for [NaN]. *)
Record Env := mkEnv {
  innerWidth : R;
  innerHeight : R;
  getBBox : string -> R -> option (R * R);
  random : nat -> R;
  simulate : list SimNode -> R -> R -> R -> nat -> R * R;
  hasUniformBtn : bool;
  speedRangeValue : option R
}.

(** ** d3 helpers *)

(** [d3.min] and [d3.max] of a non-empty array of numbers.  (Of an empty
    array they are [undefined]; the script takes them only after it has
    checked that there are points, and the model gives 0 there.) *)
Definition d3_min (l : list R) : R :=
  match l with
  | [] => 0
  | x :: t => fold_left Rmin t x
  end.

Definition d3_max (l : list R) : R :=
  match l with
  | [] => 0
  | x :: t => fold_left Rmax t x
  end.

(** [d3.scaleLinear().domain([d0, d1]).range([r0, r1])]: the value is
    normalised on the domain (to 0.5 when the domain is a single point) and
    interpolated on the range. *)
Definition scaleLinear (d0 d1 r0 r1 : R) (v : R) : R :=
  let t := if Req_dec_T (d1 - d0) 0 then 0.5 else (v - d0) / (d1 - d0) in
  r0 * (1 - t) + r1 * t.

(** ** Coordinate projector *)

Section Projector.

Variable E : Env.
Variable points : list Point.

Definition width : R := JsMath.max 600 (innerWidth E).
Definition height : R := JsMath.max 400 (innerHeight E).
Definition pad : R := 40.

Definition longitudes : list R := map lng points.
Definition latitudes : list R := map lat points.

(** [if (Math.abs(hi - lo) < 1e-6) { lo -= 0.5; hi += 0.5; }] *)
Definition widen (lo hi : R) : R * R :=
  if Rlt_dec (JsMath.abs (hi - lo)) 1e-6 then (lo - 0.5, hi + 0.5) else (lo, hi).

Definition lonDomain : R * R := widen (d3_min longitudes) (d3_max longitudes).
Definition latDomain : R * R := widen (d3_min latitudes) (d3_max latitudes).

Definition compressionExp : R := 0.6.
Definition lonCenter : R := (fst lonDomain + snd lonDomain) / 2.
Definition latCenter : R := (fst latDomain + snd latDomain) / 2.

(** The callback of [lonTrans] and [latTrans]. *)
Definition compress (center l : R) : R :=
  let d := l - center in
  JsMath.sign d * JsMath.pow (JsMath.abs d) compressionExp + center.

Definition lonTrans : list R := map (compress lonCenter) longitudes.
Definition latTrans : list R := map (compress latCenter) latitudes.

Definition lonTDomain : R * R := widen (d3_min lonTrans) (d3_max lonTrans).
Definition latTDomain : R * R := widen (d3_min latTrans) (d3_max latTrans).

Definition xScale (v : R) : R :=
  scaleLinear (fst lonTDomain) (snd lonTDomain) pad (width - pad) v.
Definition yScale (v : R) : R :=
  scaleLinear (snd latTDomain) (fst latTDomain) pad (height - pad) v.

End Projector.

(** The projected coordinates of a waypoint.  The power-law compression
    shapes the domain of the two linear scales; the scales are then applied
    to the raw coordinate: [xScale(p.lng)], [yScale(p.lat)]. *)
Definition projectX (E : Env) (points : list Point) (p : Point) : R :=
  xScale E points (lng p).
Definition projectY (E : Env) (points : list Point) (p : Point) : R :=
  yScale E points (lat p).

(** ** Label metrics and initial positions *)

(** An entry of [nodePositions]. *)
Record NodePos := mkNodePos {
  x : R;
  y : R;
  label : string;
  fontSize : R;
  sizeScale : R;
  labelY : R;
  labelWidth : R;
  labelHeight : R;
  _drawn : bool
}.

Definition set_xy (p : NodePos) (nx ny : R) : NodePos :=
  mkNodePos nx ny (label p) (fontSize p) (sizeScale p) (labelY p)
            (labelWidth p) (labelHeight p) (_drawn p).

Definition set_drawn (p : NodePos) : NodePos :=
  mkNodePos (x p) (y p) (label p) (fontSize p) (sizeScale p) (labelY p)
            (labelWidth p) (labelHeight p) true.

(** [l[i] = v] for an index inside the array. *)
Fixpoint list_set {A : Type} (i : nat) (v : A) (l : list A) : list A :=
  match l, i with
  | [], _ => []
  | _ :: t, O => v :: t
  | h :: t, S k => h :: list_set k v t
  end.

(** [for (let i = lo; i < hi; i++) body(i)] on a state. *)
Definition for_range {S : Type} (lo hi : nat) (body : nat -> S -> S) (s : S) : S :=
  fold_left (fun acc i => body i acc) (seq lo (hi - lo)) s.

(** The decimal numeral of a natural number ([`${i+1}`]). *)
Definition decimal (n : nat) : string :=
  DecimalString.NilEmpty.string_of_uint (Nat.to_uint n).

Section Layout.

Variable E : Env.
Variable points : list Point.

(** [Math.max(8, Math.min(24, Math.round(600 / points.length) + 6))] *)
Definition nodeSize : R :=
  JsMath.max 8 (JsMath.min 24 (JsMath.round (600 / INR (List.length points)) + 6)).

(** [Math.max(10, Math.min(20, Math.round(sizeScale * 0.9)))] *)
Definition nodeFont : R :=
  JsMath.max 10 (JsMath.min 20 (JsMath.round (nodeSize * 0.9))).

Definition makeLabel (i : nat) (p : Point) : string :=
  let label := if String.eqb (name p) EmptyString then decimal (i + 1) else name p in
  let maxLabelLen := 60%nat in
  if (maxLabelLen <? String.length label)%nat
  then (substring 0 (maxLabelLen - 3) label ++ "...")%string
  else label.

(** The measured box of the label; when [getBBox] throws, the width comes
    from the number of characters and the height stays 0. *)
Definition measure (label : string) (fontSize : R) : R * R :=
  match getBBox E label fontSize with
  | Some bbox => bbox
  | None =>
      (JsMath.min (width E - 2 * pad)
                  (INR (String.length label)
                   * JsMath.max 6 (JsMath.round (fontSize * 0.6))),
       0)
  end.

(** The body of the loop of [computeAllPositions]. *)
Definition computePosition (i : nat) (p : Point) : NodePos :=
  let sizeScale := nodeSize in
  let fontSize := nodeFont in
  let label := makeLabel i p in
  let bbox := measure label fontSize in
  let labelWidth := JsMath.min (width E - 2 * pad) (fst bbox) in
  let labelHeight := JsMath.or_else (snd bbox) (fontSize + 4) in
  let rawX := xScale E points (lng p) in
  let rawY := yScale E points (lat p) in
  let clampedX :=
    JsMath.max (pad + labelWidth / 2)
               (JsMath.min (width E - pad - labelWidth / 2) rawX) in
  let minY := pad + sizeScale in
  let maxY := height E - pad - sizeScale - labelHeight - 4 in
  let clampedY := JsMath.max minY (JsMath.min maxY rawY) in
  let labelY := sizeScale + JsMath.round (fontSize / 1.5) in
  let labelY :=
    if Rlt_dec (height E - pad) (clampedY + labelY + 4)
    then - JsMath.round (fontSize / 2) - 4 else labelY in
  mkNodePos clampedX clampedY label fontSize sizeScale labelY
            labelWidth labelHeight false.

(** [computeAllPositions]: every entry of [nodePositions] is written anew. *)
Fixpoint computeFrom (i : nat) (ps : list Point) : list NodePos :=
  match ps with
  | [] => []
  | p :: t => computePosition i p :: computeFrom (S i) t
  end.

Definition computeAllPositions : list NodePos := computeFrom 0 points.

(** [drawNode]: the node is appended to the node layer and its entry is
    marked.  (Every point has an entry once [computeAllPositions] has run, so
    the fallback placement for a missing entry is never taken; the model
    leaves the array alone there.) *)
Definition drawNode (index : nat) (nodePositions : list NodePos) : list NodePos :=
  match nth_error nodePositions index with
  | Some pre => if _drawn pre then nodePositions
                else list_set index (set_drawn pre) nodePositions
  | None => nodePositions
  end.

(** [Math.max(lo, Math.min(hi, v))] on the two axes of the canvas. *)
Definition clampX (v : R) : R := JsMath.max pad (JsMath.min (width E - pad) v).
Definition clampY (v : R) : R := JsMath.max pad (JsMath.min (height E - pad) v).

(** ** Collision and collinearity resolver *)

(** The state the two relaxation loops work on: the array, the number of
    calls of [Math.random()] made so far, and the flag of the pass
    ([moved], [adjusted]). *)
Record Relax := mkRelax {
  nodes : list NodePos;
  calls : nat;
  flag : bool
}.

(** The real-world distance of two points of the route;
    [None] where the script's [try] would catch a missing point. *)
Definition realKm (i j : nat) : option R :=
  match nth_error points i, nth_error points j with
  | Some p, Some q => Some (haversineKm (lat p) (lng p) (lat q) (lng q))
  | _, _ => None
  end.

Definition proximityFactor (i j : nat) : R :=
  match realKm i j with
  | Some km => if Rlt_dec km 1000 then 1.6 else 1.0
  | None => 1.0
  end.

(** The required separation of two entries, before the proximity factor. *)
Definition baseSep (a b : NodePos) : R :=
  (sizeScale a + sizeScale b)
  + JsMath.max (JsMath.or_else (labelWidth a) 0) (JsMath.or_else (labelWidth b) 0) / 2
  + 8.

Definition minSep (i j : nat) (a b : NodePos) : R :=
  baseSep a b * proximityFactor i j.

(** The direction and distance from [a] to [b]; a zero distance is replaced
    by a random offset, at the cost of two calls of [Math.random()]. *)
Definition direction (a b : NodePos) (rng : nat) : R * R * R * nat :=
  let dx := x b - x a in
  let dy := y b - y a in
  let dist := JsMath.hypot dx dy in
  if Req_dec_T dist 0 then
    let dx := (random E rng - 0.5) * 1 in
    let dy := (random E (S rng) - 0.5) * 1 in
    (dx, dy, JsMath.hypot dx dy, S (S rng))
  else (dx, dy, dist, rng).

(** Where a push by [overlap] along [(nx, ny)] puts [a] and [b]. *)
Definition pushed (a b : NodePos) (dx dy dist sep : R) : (R * R) * (R * R) :=
  let overlap := (sep - dist) / 2 in
  let nx := dx / JsMath.or_else dist 1 in
  let ny := dy / JsMath.or_else dist 1 in
  ((clampX (x a - nx * overlap), clampY (y a - ny * overlap)),
   (clampX (x b + nx * overlap), clampY (y b + ny * overlap))).

Definition xy_changed (a : NodePos) (new : R * R) : bool :=
  if Req_dec_T (fst new) (x a) then
    (if Req_dec_T (snd new) (y a) then false else true)
  else true.

Definition write_pair (i j : nat) (pa pb : R * R) (l : list NodePos) : list NodePos :=
  let l1 := match nth_error l i with
            | Some a => list_set i (set_xy a (fst pa) (snd pa)) l
            | None => l
            end in
  match nth_error l1 j with
  | Some b => list_set j (set_xy b (fst pb) (snd pb)) l1
  | None => l1
  end.

(** The body of the inner loop of [resolveCollisions]. *)
Definition separatePair (i j : nat) (s : Relax) : Relax :=
  match nth_error (nodes s) i, nth_error (nodes s) j with
  | Some a, Some b =>
      let '(dx, dy, dist, rng') := direction a b (calls s) in
      let sep := minSep i j a b in
      if Rlt_dec dist sep then
        let '(pa, pb) := pushed a b dx dy dist sep in
        mkRelax (write_pair i j pa pb (nodes s)) rng'
                (flag s || xy_changed a pa || xy_changed b pb)
      else mkRelax (nodes s) rng' (flag s)
  | _, _ => s
  end.

(** One pass over all pairs [i < j]. *)
Definition separationPass (s : Relax) : Relax :=
  let n := List.length points in
  for_range 0 n (fun i => for_range (i + 1) n (fun j => separatePair i j)) s.

(** [for (it = 0; it < iterations; it++) { ...; if (!moved) break; }]:
    the array and the random counter at the end, and whether the loop left
    through [break]. *)
Fixpoint separationLoop (iterations : nat) (l : list NodePos) (rng : nat)
  : list NodePos * nat * bool :=
  match iterations with
  | O => (l, rng, false)
  | S k =>
      let s := separationPass (mkRelax l rng false) in
      if flag s then separationLoop k (nodes s) (calls s)
      else (nodes s, calls s, true)
  end.

(** The body of the innermost loop of [resolveCollinearity]. *)
Definition nudgeTriple (i j k : nat) (s : Relax) : Relax :=
  if (i =? j)%nat || (j =? k)%nat || (i =? k)%nat then s else
  match nth_error (nodes s) i, nth_error (nodes s) j, nth_error (nodes s) k with
  | Some a, Some b, Some c =>
      let angleThreshold := 45 * PI / 180 in
      let v1x := x a - x b in
      let v1y := y a - y b in
      let v2x := x c - x b in
      let v2y := y c - y b in
      let mag1 := JsMath.hypot v1x v1y in
      let mag2 := JsMath.hypot v2x v2y in
      if Rlt_dec mag1 1e-6 then s else
      if Rlt_dec mag2 1e-6 then s else
      let dot := v1x * v2x + v1y * v2y in
      let ang := JsMath.acos (JsMath.max (-1) (JsMath.min 1 (dot / (mag1 * mag2)))) in
      if JsMath.lt ang angleThreshold || JsMath.lt (JsMath.abs (PI - ang)) angleThreshold then
        let nx := v1x / mag1 in
        let ny := v1y / mag1 in
        let px := - ny in
        let py := nx in
        let aSize := JsMath.or_else (sizeScale a) 12 in
        let cSize := JsMath.or_else (sizeScale c) 12 in
        let close (km : option R) : bool :=
          match km with
          | Some d => if Req_dec_T d 0 then false else JsMath.lt d 1000
          | None => false
          end in
        let nudgeMultiplier :=
          match realKm i j, realKm k j with
          | Some abKm, Some cbKm =>
              if close (Some abKm) || close (Some cbKm) then 1.6 else 1.0
          | _, _ => 1.0
          end in
        let nudge := JsMath.max 10 ((aSize + cSize) * 0.6 * nudgeMultiplier) in
        let dir := if (j mod 2 =? 0)%nat then 1 else -1 in
        let b' := set_xy b (clampX (x b + px * nudge * dir))
                           (clampY (y b + py * nudge * dir)) in
        mkRelax (list_set j b' (nodes s)) (calls s) true
      else s
  | _, _, _ => s
  end.

(** [resolveCollinearity]: one pass over all triples; the flag of the result
    is [adjusted]. *)
Definition resolveCollinearity (l : list NodePos) (rng : nat) : Relax :=
  let n := List.length points in
  for_range 0 n (fun i =>
    for_range 0 n (fun j =>
      for_range 0 n (fun k => nudgeTriple i j k)))
    (mkRelax l rng false).

(** [for (pass = 0; pass < 6; pass++) { if (!resolveCollinearity()) break; }] *)
Fixpoint collinearityLoop (passes : nat) (l : list NodePos) (rng : nat)
  : list NodePos * nat :=
  match passes with
  | O => (l, rng)
  | S k =>
      let s := resolveCollinearity l rng in
      if flag s then collinearityLoop k (nodes s) (calls s)
      else (nodes s, calls s)
  end.

(** [resolveCollisions]: up to 25 separation passes, then up to 6
    collinearity passes. *)
Definition resolveCollisions (l : list NodePos) (rng : nat) : list NodePos * nat :=
  let '(l1, rng1, _) := separationLoop 25 l rng in
  collinearityLoop 6 l1 rng1.

(** The lighter relaxation of the click handler that goes back to the
    geographic layout: 20 passes, no proximity factor, [moved] set on every
    push, no collinearity pass. *)
Definition relaxPair (i j : nat) (s : Relax) : Relax :=
  match nth_error (nodes s) i, nth_error (nodes s) j with
  | Some a, Some b =>
      let '(dx, dy, dist, rng') := direction a b (calls s) in
      let sep := baseSep a b in
      if Rlt_dec dist sep then
        let '(pa, pb) := pushed a b dx dy dist sep in
        mkRelax (write_pair i j pa pb (nodes s)) rng' true
      else mkRelax (nodes s) rng' (flag s)
  | _, _ => s
  end.

Definition relaxPass (s : Relax) : Relax :=
  let n := List.length points in
  for_range 0 n (fun i => for_range (i + 1) n (fun j => relaxPair i j)) s.

Fixpoint relaxLoop (iterations : nat) (l : list NodePos) (rng : nat)
  : list NodePos * nat :=
  match iterations with
  | O => (l, rng)
  | S k =>
      let s := relaxPass (mkRelax l rng false) in
      if flag s then relaxLoop k (nodes s) (calls s)
      else (nodes s, calls s)
  end.

End Layout.

(** *** A latitude that is not a number *)

(** [yScale(p.lat)] for a latitude that is [NaN]: a linear scale of d3
    returns its [unknown] value, which is [undefined] unless it was set
    (d3-scale 2.1 and later), or the [NaN] of the interpolation (before). *)
Definition scaleOfNaN (hasUnknown : bool) : Input.JsValue :=
  if hasUnknown then Input.JUndefined else Input.JNumber Input.NaN.

(** The [y] that [computeAllPositions] stores for a node of size [sizeScale]
    with a label [labelHeight] high, from the value [rawY] of the scale:
    [Math.max(minY, Math.min(maxY, rawY))], where [Math.min] converts its
    arguments to numbers. *)
Definition clampedY (E : Env) (sizeScale labelHeight : R) (rawY : Input.JsValue)
  : Input.Number :=
  let minY := pad + sizeScale in
  let maxY := height E - pad - sizeScale - labelHeight - 4 in
  Input.MathMax (Input.Fin minY)
                (Input.MathMin (Input.Fin maxY) (Input.ToNumber rawY)).

(** ** Page state *)

(** The closure of one call of [animateTo]: the [step] callback with the
    variables it captures.  [a_next] is the [next] of the [playSequence] call
    that awaits it; [a_start] is the mutable [start]. *)
Record Anim := mkAnim {
  a_next : nat;
  a_ax : R;
  a_ay : R;
  a_bx : R;
  a_by : R;
  a_duration : R;
  a_start : option R
}.

(** The mutable state of the page.  Of the drawing only the centre of the
    traveller marker is kept (a d3 transition is taken at its target value);
    [frameCallbacks] are the [step] closures registered with
    [requestAnimationFrame], oldest first, and [timeouts] the times at which
    the 250 ms pauses of the suspended [playSequence] calls are due. *)
Record App := mkApp {
  nodePositions : list NodePos;
  traveller : R * R;
  playing : bool;
  speed : R;
  currentIndex : nat;
  isUniform : bool;
  randomCalls : nat;
  frameCallbacks : list Anim;
  timeouts : list R
}.

Definition set_layout (st : App) (l : list NodePos) (c : nat) (tr : R * R) : App :=
  mkApp l tr (playing st) (speed st) (currentIndex st) (isUniform st) c
        (frameCallbacks st) (timeouts st).

Definition set_nodePositions (st : App) (l : list NodePos) : App :=
  mkApp l (traveller st) (playing st) (speed st) (currentIndex st) (isUniform st)
        (randomCalls st) (frameCallbacks st) (timeouts st).

Definition set_traveller (st : App) (tr : R * R) : App :=
  mkApp (nodePositions st) tr (playing st) (speed st) (currentIndex st)
        (isUniform st) (randomCalls st) (frameCallbacks st) (timeouts st).

Definition set_playing (st : App) (b : bool) : App :=
  mkApp (nodePositions st) (traveller st) b (speed st) (currentIndex st)
        (isUniform st) (randomCalls st) (frameCallbacks st) (timeouts st).

Definition set_speed (st : App) (v : R) : App :=
  mkApp (nodePositions st) (traveller st) (playing st) v (currentIndex st)
        (isUniform st) (randomCalls st) (frameCallbacks st) (timeouts st).

Definition set_currentIndex (st : App) (i : nat) : App :=
  mkApp (nodePositions st) (traveller st) (playing st) (speed st) i
        (isUniform st) (randomCalls st) (frameCallbacks st) (timeouts st).

Definition set_isUniform (st : App) (b : bool) : App :=
  mkApp (nodePositions st) (traveller st) (playing st) (speed st) (currentIndex st)
        b (randomCalls st) (frameCallbacks st) (timeouts st).

Definition set_frameCallbacks (st : App) (l : list Anim) : App :=
  mkApp (nodePositions st) (traveller st) (playing st) (speed st) (currentIndex st)
        (isUniform st) (randomCalls st) l (timeouts st).

Definition set_timeouts (st : App) (l : list R) : App :=
  mkApp (nodePositions st) (traveller st) (playing st) (speed st) (currentIndex st)
        (isUniform st) (randomCalls st) (frameCallbacks st) l.

(** [parseFloat(speedRange.value) || 1] *)
Definition parseSpeed (v : option R) : R :=
  match v with
  | Some r => JsMath.or_else r 1
  | None => 1
  end.

Section Page.

Variable E : Env.
Variable points : list Point.

(** [if (nodePositions[0]) traveller.attr('cx', ...).attr('cy', ...)] *)
Definition travellerToStart (l : list NodePos) (tr : R * R) : R * R :=
  match nth_error l 0 with
  | Some p => (x p, y p)
  | None => tr
  end.

(** ** Uniform-edge-length layout *)

(** [String(p.name || i+1).length * 6] *)
Definition fallbackLabelWidth (i : nat) (p : Point) : R :=
  INR (String.length (if String.eqb (name p) EmptyString then decimal (i + 1) else name p)) * 6.

(** The callback of [points.map] in [applyUniformLinkLayout]. *)
Definition simNode (l : list NodePos) (i : nat) (p : Point) : SimNode :=
  match nth_error l i with
  | Some pre =>
      mkSimNode i
        (JsMath.or_else (x pre) (xScale E points (lng p)))
        (JsMath.or_else (y pre) (yScale E points (lat p)))
        (JsMath.or_else (sizeScale pre) (nodeSize points))
        (JsMath.or_else (labelWidth pre) (fallbackLabelWidth i p))
        (JsMath.or_else (labelHeight pre) 12)
        (JsMath.or_else (fontSize pre) 12)
  | None =>
      mkSimNode i (xScale E points (lng p)) (yScale E points (lat p))
                (nodeSize points) (fallbackLabelWidth i p) 12 12
  end.

Fixpoint simNodesFrom (l : list NodePos) (i : nat) (ps : list Point) : list SimNode :=
  match ps with
  | [] => []
  | p :: t => simNode l i p :: simNodesFrom l (S i) t
  end.

(** The callback of [nodes.forEach]: the settled position, clamped, is
    written over entry [n.id] together with the node's metrics.  (Every
    node has an entry; the model leaves the array alone otherwise.) *)
Definition writeBack (settled : nat -> R * R) (l : list NodePos) (n : SimNode)
  : list NodePos :=
  match nth_error l (sn_id n) with
  | Some old =>
      let p := settled (sn_id n) in
      list_set (sn_id n)
        (mkNodePos (clampX E (fst p)) (clampY E (snd p)) (label old)
                   (sn_fontSize n) (sn_sizeScale n) (labelY old)
                   (sn_labelWidth n) (sn_labelHeight n) (_drawn old))
        l
  | None => l
  end.

Definition applyUniformLinkLayout (targetLength : R) (st : App) : App :=
  if (List.length points <=? 1)%nat then st else
  let simNodes := simNodesFrom (nodePositions st) 0 points in
  let settled := simulate E simNodes targetLength (width E) (height E) in
  let l := fold_left (writeBack settled) simNodes (nodePositions st) in
  set_layout st l (randomCalls st) (travellerToStart l (traveller st)).

(** The [else] branch of the click handler: back to the geographic layout. *)
Definition revertToGeographic (st : App) : App :=
  let l0 := computeAllPositions E points in
  let '(l, c) := relaxLoop E points 20 l0 (randomCalls st) in
  set_layout st l c (travellerToStart l (traveller st)).

(** The click handler of the uniform-layout button. *)
Definition clickUniform (st : App) : App :=
  if hasUniformBtn E then
    let st1 := set_isUniform st (negb (isUniform st)) in
    if isUniform st1 then applyUniformLinkLayout 320 st1
    else revertToGeographic st1
  else st.

(** ** Loading the page *)

(** The geographic layout as the page first computes it: positions and
    label metrics, the first node drawn, collisions resolved. *)
Definition geographicLayout : list NodePos * nat :=
  resolveCollisions E points (drawNode 0 (computeAllPositions E points)) 0.

(** The state when the [DOMContentLoaded] handler returns (for a non-empty
    list of points). *)
Definition load : App :=
  let '(l, c) := geographicLayout in
  let first := travellerToStart (drawNode 0 (computeAllPositions E points)) (0, 0) in
  let st := mkApp l (travellerToStart l first) false
                  (parseSpeed (speedRangeValue E)) 0 false c [] [] in
  if hasUniformBtn E
  then applyUniformLinkLayout 250 (set_isUniform st true)
  else st.

(** ** Playback controller *)

(** [nodePositions[i] || {x: xScale(p.lng), y: yScale(p.lat)}] *)
Definition positionOf (l : list NodePos) (i : nat) : R * R :=
  match nth_error l i with
  | Some p => (x p, y p)
  | None =>
      match nth_error points i with
      | Some p => (xScale E points (lng p), yScale E points (lat p))
      | None => (0, 0)
      end
  end.

(** [Math.max(400, Math.min(6000, distance * 6))] *)
Definition baseMs (a b : R * R) : R :=
  let distance := JsMath.hypot (fst b - fst a) (snd b - snd a) in
  JsMath.max 400 (JsMath.min 6000 (distance * 6)).

(** [animateTo(nextIndex)] up to its [requestAnimationFrame(step)]: the
    closure is built from the positions and the speed of this moment. *)
Definition animateTo (nextIndex : nat) (st : App) : App :=
  let apos := positionOf (nodePositions st) (nextIndex - 1) in
  let bpos := positionOf (nodePositions st) nextIndex in
  let duration := baseMs apos bpos / speed st in
  let closure := mkAnim nextIndex (fst apos) (snd apos) (fst bpos) (snd bpos)
                        duration None in
  set_frameCallbacks st (frameCallbacks st ++ [closure]).

(** [!start]: [null] and [0] are falsy. *)
Definition noStart (s : option R) : bool :=
  match s with
  | None => true
  | Some v => if Req_dec_T v 0 then true else false
  end.

(** The progress [t] that [step] computes at time [ts] from an anchor. *)
Definition progress (a : Anim) (start ts : R) : R :=
  JsMath.min 1 ((ts - start) / a_duration a).

(** One call of [step(ts)]: the closure afterwards, the centre of the
    traveller, and whether the promise was resolved (otherwise the closure
    has registered itself for the next frame). *)
Definition step (isPlaying : bool) (a : Anim) (ts : R) (tr : R * R)
  : Anim * (R * R) * bool :=
  if negb isPlaying then
    (mkAnim (a_next a) (a_ax a) (a_ay a) (a_bx a) (a_by a) (a_duration a) None,
     tr, false)
  else
    let start := if noStart (a_start a) then ts
                 else match a_start a with
                      | Some s => s
                      | None => ts
                      end in
    let t := progress a start ts in
    let cx := a_ax a + (a_bx a - a_ax a) * t in
    let cy := a_ay a + (a_by a - a_ay a) * t in
    (mkAnim (a_next a) (a_ax a) (a_ay a) (a_bx a) (a_by a) (a_duration a)
            (Some start),
     (cx, cy), negb (JsMath.lt t 1)).

(** One registered callback run in a frame.  When [step] resolves the
    promise, the awaiting [playSequence] goes on at once:
    [currentIndex = next], then the 250 ms pause. *)
Definition runCallback (ts : R) (st : App) (a : Anim) : App :=
  let '(a', tr, resolved) := step (playing st) a ts (traveller st) in
  if resolved then
    set_timeouts (set_currentIndex (set_traveller st tr) (a_next a))
                 (timeouts st ++ [ts + 250])
  else
    set_frameCallbacks (set_traveller st tr) (frameCallbacks st ++ [a']).

(** An animation frame at time [ts]: the callbacks registered before it run
    in the order of their registration. *)
Definition animationFrame (ts : R) (st : App) : App :=
  fold_left (runCallback ts) (frameCallbacks st) (set_frameCallbacks st []).

(** The [while] of [playSequence], from its test: the next node is drawn and
    the animation of the next segment starts, or the loop ends. *)
Definition playLoop (st : App) : App :=
  if playing st && (currentIndex st <? List.length points - 1)%nat then
    let next := (currentIndex st + 1)%nat in
    animateTo next (set_nodePositions st (drawNode next (nodePositions st)))
  else set_playing st false.

(** [playSequence()] up to its first [await]. *)
Definition playSequence (st : App) : App :=
  if (List.length points - 1 <=? currentIndex st)%nat then st
  else playLoop (set_playing st true).

Definition clickPlay (st : App) : App :=
  if playing st then st else playSequence st.

Definition clickPause (st : App) : App := set_playing st false.

Definition speedInput (v : option R) (st : App) : App :=
  set_speed st (parseSpeed v).

(** The oldest pending 250 ms pause ends, if it is due at time [now]: the
    suspended [playSequence] goes back to the test of its loop. *)
Definition timeout (now : R) (st : App) : App :=
  match timeouts st with
  | due :: rest =>
      if Rle_dec due now then playLoop (set_timeouts st rest) else st
  | [] => st
  end.

(** What can happen to the page after it has loaded. *)
Inductive Event :=
| ClickPlay
| ClickPause
| SpeedInput (v : option R)
| ClickUniform
| AnimationFrame (ts : R)
| Timeout (now : R).

Definition handle (st : App) (e : Event) : App :=
  match e with
  | ClickPlay => clickPlay st
  | ClickPause => clickPause st
  | SpeedInput v => speedInput v st
  | ClickUniform => clickUniform st
  | AnimationFrame ts => animationFrame ts st
  | Timeout now => timeout now st
  end.

Definition run (es : list Event) (st : App) : App := fold_left handle es st.

(** The states of the page. *)
Inductive reachable : App -> Prop :=
| reach_load : reachable load
| reach_step st e : reachable st -> reachable (handle st e).

End Page.

(** ** The [DOMContentLoaded] handler *)

Definition finitePoint (p : Input.NPoint) : option Point :=
  match Input.n_lat p, Input.n_lng p with
  | Input.Fin la, Input.Fin lo => Some (mkPoint la lo (Input.n_name p))
  | _, _ => None
  end.

Fixpoint finitePoints (l : list Input.NPoint) : option (list Point) :=
  match l with
  | [] => Some []
  | p :: t =>
      match finitePoint p, finitePoints t with
      | Some q, Some r => Some (q :: r)
      | _, _ => None
      end
  end.

(** What the handler leaves in the container: a message in place of the
    canvas, or the canvas with its layout and playback state.  Of a canvas
    drawn from coordinates that are [NaN] or infinite only the points are
    kept (and, by [clampedY], the [y] stored for a latitude that is
    [NaN]). *)
Inductive Page :=
| EmptyState (html : string)
| Canvas (points : list Point) (st : App)
| CanvasNotFinite (points : list Input.NPoint).

(** The double-quote character of the markup. *)
Definition dq : string := String (ascii_of_nat 34) EmptyString.

Definition noDataMessage : string :=
  ("<div style=" ++ dq ++ "padding:20px;color:#fff" ++ dq
   ++ ">No route data available. Open this page via the " ++ dq
   ++ "Watch Graph" ++ dq ++ " button after optimizing a route.</div>")%string.

Definition noCoordinatesMessage : string :=
  ("<div style=" ++ dq ++ "padding:20px;color:#fff" ++ dq
   ++ ">Route data had no coordinates to display.</div>")%string.

Definition viewGraph (E : Env) (ROUTE_DATA : option Input.RouteData) : Page :=
  match ROUTE_DATA with
  | None => EmptyState noDataMessage
  | Some data =>
      let points := Input.normalize data in
      if (List.length points =? 0)%nat then EmptyState noCoordinatesMessage
      else match finitePoints points with
           | Some ps => Canvas ps (load E ps)
           | None => CanvasNotFinite points
           end
  end.

(** ** Properties of a layout *)

(** A node lies inside the padded canvas. *)
Definition inBounds (E : Env) (p : NodePos) : Prop :=
  pad <= x p <= width E - pad /\ pad <= y p <= height E - pad.

(** What is assumed of [getBBox]: a box has no negative side. *)
Definition measuresNonnegative (E : Env) : Prop :=
  forall (l : string) (f w h : R), getBBox E l f = Some (w, h) -> 0 <= w /\ 0 <= h.

(** The shape of the invariants of the layout: no entry is added or removed
    and every entry has the property [P]. *)
Definition layoutOk (P : NodePos -> Prop) (n : nat) (l : list NodePos) : Prop :=
  List.length l = n /\ Forall P l.

(** The traveller marker sits on the first node. *)
Definition travellerAtStart (st : App) : Prop :=
  exists p, nth_error (nodePositions st) 0 = Some p /\ traveller st = (x p, y p).

(** With a single point nothing is ever animated: no callback and no pause
    is pending and the marker is on the node. *)
Definition idleAtStart (st : App) : Prop :=
  frameCallbacks st = [] /\ timeouts st = [] /\ travellerAtStart st.

(** The pixel distance of two nodes. *)
Definition pixelDistance (a b : NodePos) : R :=
  JsMath.hypot (x b - x a) (y b - y a).

(** Every two nodes are as far apart as their required separation, up to a
    tolerance. *)
Definition separated (points : list Point) (tol : R) (l : list NodePos) : Prop :=
  forall i j a b,
    i <> j -> nth_error l i = Some a -> nth_error l j = Some b ->
    minSep points i j a b - tol <= pixelDistance a b.

(** The separation loop ran out of its 25 passes (it did not leave through
    [break]). *)
Definition budgetExhausted (E : Env) (points : list Point)
           (l : list NodePos) (c : nat) : Prop :=
  snd (separationLoop E points 25 l c) = false.

(** Two nodes are pinned: on every axis on which they differ they sit on
    opposite borders of the padded canvas, so that the clamp undoes any push
    along the line that joins them. *)
Definition pinnedOn (lo hi u v : R) : Prop :=
  u = v \/ (u = lo /\ v = hi) \/ (u = hi /\ v = lo).

Definition pinned (E : Env) (a b : NodePos) : Prop :=
  pinnedOn pad (width E - pad) (x a) (x b)
  /\ pinnedOn pad (height E - pad) (y a) (y b).

(** What a pass that reports no move has seen of a pair, with the direction
    it took after [k] calls of [Math.random()]: far enough apart, or a push
    that the clamp undid. *)
Definition settledPair (E : Env) (points : list Point) (l : list NodePos)
           (i j : nat) : Prop :=
  forall a b,
    nth_error l i = Some a -> nth_error l j = Some b ->
    exists k,
      minSep points i j a b <= snd (fst (direction E a b k))
      \/ pushed E a b (fst (fst (fst (direction E a b k))))
                (snd (fst (fst (direction E a b k))))
                (snd (fst (direction E a b k)))
                (minSep points i j a b)
         = ((x a, y a), (x b, y b)).

(** The resolver as the page runs it: the pairwise loop on the positions
    just computed, with the first node drawn. *)
Definition afterSeparation (E : Env) (points : list Point)
  : list NodePos * nat * bool :=
  separationLoop E points 25 (drawNode 0 (computeAllPositions E points)) 0.

(** A collinearity nudge has displaced node [i]: its entry at the end of the
    resolver is not the one the pairwise loop left. *)
Definition nudged (E : Env) (points : list Point) (i : nat) : Prop :=
  nth_error (fst (geographicLayout E points)) i
  <> nth_error (fst (fst (afterSeparation E points))) i.

(** Two nodes sit on one spot and the random direction drawn to part them
    was the zero vector: both calls of [Math.random()] returned one half. *)
Definition zeroDirection (E : Env) (a b : NodePos) : Prop :=
  pixelDistance a b = 0
  /\ exists k, random E k = 0.5 /\ random E (S k) = 0.5.

(** What is assumed of [Math.random()]: a number in [[0, 1)]. *)
Definition randomInUnit (E : Env) : Prop :=
  forall k, 0 <= random E k < 1.

(** A layout of two nodes of size 24 and label width [w] on the vertical
    line [x = 300], the first at height [ya] and the second at [yb]. *)
Definition column (w : R) (l : list NodePos) (ya yb : R) : Prop :=
  exists a b,
    l = [a; b]
    /\ (x a = 300 /\ y a = ya /\ sizeScale a = 24 /\ labelWidth a = w)
    /\ (x b = 300 /\ y b = yb /\ sizeScale b = 24 /\ labelWidth b = w).

(** A layout of three nodes of size 24: the first at [(50, 64)] with a
    label 20 pixels wide, the second at [(400, y1)] with a label 320 wide,
    the third at [(145, 308)] with a label 210 wide. *)
Definition corner (l : list NodePos) (y1 : R) : Prop :=
  exists a b c,
    l = [a; b; c]
    /\ (x a = 50 /\ y a = 64 /\ sizeScale a = 24 /\ labelWidth a = 20)
    /\ (x b = 400 /\ y b = y1 /\ sizeScale b = 24 /\ labelWidth b = 320)
    /\ (x c = 145 /\ y c = 308 /\ sizeScale c = 24 /\ labelWidth c = 210).

(** The state of a pass in which nothing has moved so far: the flag is not
    set and the array is the one the pass started from. *)
Definition quiet (l0 : list NodePos) (s : Relax) : Prop :=
  flag s = false /\ nodes s = l0.

(** The coordinates of a layout. *)
Definition coords (l : list NodePos) : list (R * R) :=
  map (fun p => (x p, y p)) l.

(** A closure with another anchor. *)
Definition with_start (a : Anim) (s : option R) : Anim :=
  mkAnim (a_next a) (a_ax a) (a_ay a) (a_bx a) (a_by a) (a_duration a) s.

(** What playback reads and writes of a state: the coordinates of the
    nodes, the centre of the marker, the three control variables, the
    registered closures and the pending pauses. *)
Definition shows (st : App) (cs : list (R * R)) (tr : R * R) (isPlaying : bool)
           (v : R) (index : nat) (callbacks : list Anim) (pauses : list R) : Prop :=
  coords (nodePositions st) = cs
  /\ traveller st = tr
  /\ playing st = isPlaying
  /\ speed st = v
  /\ currentIndex st = index
  /\ frameCallbacks st = callbacks
  /\ timeouts st = pauses.

(** The time a closure still has to run at time [now]. *)
Definition remaining (a : Anim) (now : R) : R :=
  match a_start a with
  | Some s => s + a_duration a - now
  | None => a_duration a
  end.

(** ** Example inputs *)

Module Examples.

(** A record whose latitude is the string [abc]. *)
Definition badRecord : Input.RawPoint :=
  Input.mkRaw (Input.JString "abc") (Input.JNumber (Input.Fin 10))
              Input.JUndefined Input.JUndefined (Some "Depot"%string) None.

Definition badRoute : Input.RouteData :=
  Input.mkRouteData (Some [badRecord]) None.

(** A 600 by 400 viewport in which every label measures [w] by 24 pixels,
    [Math.random()] returns 0.25, and the force simulation puts node [i] at
    [(50 + 250 i, 200)]. *)
Definition viewport (w : R) : Env :=
  mkEnv 600 400 (fun _ _ => Some (w, 24)) (fun _ => 0.25)
        (fun _ _ _ _ id => (50 + 250 * INR id, 200)) true (Some 1).

(** The same viewport with [Math.random()] returning one half. *)
Definition evenDraws (w : R) : Env :=
  mkEnv 600 400 (fun _ _ => Some (w, 24)) (fun _ => 0.5)
        (fun _ _ _ _ id => (50 + 250 * INR id, 200)) true (Some 1).

(** A 600 by 400 viewport in which a label measures 10 pixels for each of
    its characters, by 24 pixels. *)
Definition monospace : Env :=
  mkEnv 600 400 (fun label _ => Some (10 * INR (String.length label), 24))
        (fun _ => 0.25)
        (fun _ _ _ _ id => (50 + 250 * INR id, 200)) true (Some 1).

(** Two stops on the equator, four degrees (445 km) apart, and a third one
    four degrees south of the first: labels of 2, 32 and 21 characters. *)
Definition cornerStops : list Point :=
  [mkPoint 0 0 "Ur";
   mkPoint 0 4 "Llanfairpwllgwyngyll Interchange";
   mkPoint (-4) 0 "North Harbour Station"].

(** The same stop twice. *)
Definition twins : list Point :=
  [mkPoint 0 0 "Depot"; mkPoint 0 0 "Depot"].

(** Two stops on one meridian, four degrees (445 km) apart. *)
Definition twoStops : list Point :=
  [mkPoint 0 0 "South Harbour Terminal"; mkPoint 4 0 "North Ridge Interchange"].

(** Three stops on one meridian. *)
Definition threeStops : list Point :=
  [mkPoint 0 0 "A"; mkPoint 4 0 "B"; mkPoint 8 0 "C"].

(** The page with the three stops, as loaded in the small viewport: the
    uniform layout is on and has put the nodes at [x = 50, 300, 550]. *)
Definition threeLoaded : App := load (viewport 100) threeStops.

(** Play, two frames, pause, a frame. *)
Definition pausedMidway : list Event :=
  [ClickPlay; AnimationFrame 1000; AnimationFrame 1750; ClickPause;
   AnimationFrame 1800].

(** ... then play again and the first frame after it. *)
Definition resumed : list Event :=
  pausedMidway ++ [ClickPlay; AnimationFrame 2000].

(** Play and two frames: half of the first segment is done. *)
Definition halfway : list Event :=
  [ClickPlay; AnimationFrame 1000; AnimationFrame 1750].

(** ... then the speed is doubled from 1 to 2, and a frame comes 450 ms
    later. *)
Definition doubledMidway : list Event :=
  halfway ++ [SpeedInput (Some 2); AnimationFrame 2200].

(** Play at speed 1.25, pause during the first segment, set the speed to 4,
    play again; frames and the end of the 250 ms pause follow on time. *)
Definition replayFaster : list Event :=
  [SpeedInput (Some 1.25); ClickPlay; AnimationFrame 1000; ClickPause;
   AnimationFrame 1016; SpeedInput (Some 4); ClickPlay;
   AnimationFrame 2000; AnimationFrame 2375; Timeout 2625;
   AnimationFrame 2640; AnimationFrame 3015].

End Examples.

(** ** Further properties of the great-circle distance *)

(** The quantity [a] of [haversineKm] and of [calculateDistance]: the
    haversine of the central angle of the two points. *)
Definition haversineA (lat1 lon1 lat2 lon2 : R) : R :=
  let dLat := toRad (lat2 - lat1) in
  let dLon := toRad (lon2 - lon1) in
  JsMath.sin (dLat / 2) * JsMath.sin (dLat / 2)
  + JsMath.cos (toRad lat1) * JsMath.cos (toRad lat2)
    * JsMath.sin (dLon / 2) * JsMath.sin (dLon / 2).

(** Where the two functions compute what they compute over the reals: both
    latitudes are latitudes, so that no term of [a] is negative, and the two
    points are not antipodal up to rounding, so that the computed [a] stays
    below 1 and [Math.sqrt(1 - a)] is a number.  (For a pair such as
    [(2.5, 0)] and [(-2.5, 180)] the script computes an [a] above 1 and
    returns [NaN].) *)
Definition clearOfAntipode (lat1 lon1 lat2 lon2 : R) : Prop :=
  -90 <= lat1 <= 90 /\ -90 <= lat2 <= 90
  /\ haversineA lat1 lon1 lat2 lon2 <= 1 - 1e-9.

(** ** Further properties of the layout *)

(** Two entries that differ at most in their position. *)
Definition sameMetrics (p q : NodePos) : Prop :=
  label p = label q
  /\ fontSize p = fontSize q
  /\ sizeScale p = sizeScale q
  /\ labelY p = labelY q
  /\ labelWidth p = labelWidth q
  /\ labelHeight p = labelHeight q
  /\ _drawn p = _drawn q.

(** Every two of the first [n] entries of a layout are at different
    positions, at least [sep] apart. *)
Definition apart (sep : nat -> nat -> NodePos -> NodePos -> R) (n : nat)
           (l : list NodePos) : Prop :=
  forall i j a b,
    (i < j < n)%nat -> nth_error l i = Some a -> nth_error l j = Some b ->
    pixelDistance a b <> 0 /\ sep i j a b <= pixelDistance a b.

(** ** Further properties of the playback *)

(** A closure that animates towards one of the nodes [1 .. n-1] over a
    duration that is not zero. *)
Definition closureOk (n : nat) (a : Anim) : Prop :=
  (1 <= a_next a <= n - 1)%nat /\ a_duration a <> 0.

(** The playback variables are in range: the index points at a node, the
    speed can be divided by, and every registered closure is well formed. *)
Definition playbackOk (n : nat) (st : App) : Prop :=
  (currentIndex st <= n - 1)%nat
  /\ speed st <> 0
  /\ Forall (closureOk n) (frameCallbacks st).

(** A run of events in which Pause is never clicked. *)
Definition noPause (es : list Event) : Prop :=
  Forall (fun e => e <> ClickPause) es.

(** At most one [playSequence] is alive: the page is idle, or one closure
    animates towards the node after the current one, or one 250 ms pause is
    pending. *)
Definition singleSequence (st : App) : Prop :=
  (playing st = false /\ frameCallbacks st = [] /\ timeouts st = [])
  \/ (playing st = true /\ timeouts st = []
      /\ exists a, frameCallbacks st = [a] /\ a_next a = S (currentIndex st))
  \/ (playing st = true /\ frameCallbacks st = []
      /\ exists d, timeouts st = [d]).

(** The [_drawn] marks of a layout. *)
Definition drawnFlags (l : list NodePos) : list bool := map _drawn l.

(** The entries [0 .. m] of a layout are marked as drawn. *)
Definition drawnUpTo (m : nat) (l : list NodePos) : Prop :=
  forall j, (j <= m)%nat -> (j < List.length l)%nat ->
            nth_error (drawnFlags l) j = Some true.

(** The events of one segment played to its end: the frame that anchors the
    animation at time [t], a frame [d] milliseconds later, and the end of the
    250 ms pause that follows. *)
Definition segmentEvents (t d : R) : list Event :=
  [AnimationFrame t; AnimationFrame (t + d); Timeout (t + d + 250)].

(** [k] segments played one after the other. *)
Fixpoint playThrough (k : nat) (t d : R) : list Event :=
  match k with
  | O => []
  | S k' => segmentEvents t d ++ playThrough k' (t + d + 250) d
  end.

(** ** The route page ([optimize_route.js]) *)

Module RoutePage.

(** What [displayRouteGraph] takes from the browser: the size of the
    container ([getBoundingClientRect]) and the results of [Math.random()]. *)
Record GraphEnv := mkGraphEnv {
  rectWidth : R;
  rectHeight : R;
  randomAt : nat -> R
}.

(** The id of a node: its index, or the string [end-<index>]. *)
Inductive NodeId :=
| IdIndex (i : nat)
| IdEnd (i : nat).

Record GraphNode := mkGraphNode {
  g_id : NodeId;
  originalIndex : nat;
  g_name : string;
  rank : nat;
  isStart : bool;
  isEnd : bool;
  g_x : R;
  g_y : R
}.

(** A link holds its two nodes ([graphNodes[i]] is [undefined] past the end
    of the array) and the distance as [toFixed(1)] prints it.  (For two
    coordinates that are antipodal up to rounding the script's distance is
    [NaN] and the label is the string [NaN]; the distance is read over the
    reals here, and the statements about it assume [clearOfAntipode].) *)
Record GraphLink := mkGraphLink {
  source : option GraphNode;
  target : option GraphNode;
  distance : R
}.

(** [route[0] === route[route.length - 1]]; of an empty array both are
    [undefined]. *)
Definition sameEnds (route : list string) : bool :=
  match nth_error route 0, nth_error route (List.length route - 1) with
  | Some a, Some b => String.eqb a b
  | None, None => true
  | _, _ => false
  end.

(** [containerRect.width || 600], [containerRect.height || 500]. *)
Definition graphWidth (G : GraphEnv) : R := JsMath.or_else (rectWidth G) 600.
Definition graphHeight (G : GraphEnv) : R := JsMath.or_else (rectHeight G) 500.

(** The callback of [route.map]; the two coordinates of a node take the
    calls [2 index] and [2 index + 1] of [Math.random()].  (The function
    runs only when there is a coordinate, so [coordinates.length - 1] is
    not negative.) *)
Definition makeNode (G : GraphEnv) (route : list string) (coordinatesLength : nat)
           (index : nat) (cityName : string) : GraphNode :=
  let isStart := (index =? 0)%nat in
  let isEnd := (index =? coordinatesLength - 1)%nat
               && (1 <? List.length route)%nat
               && sameEnds route
               && (index =? coordinatesLength - 1)%nat in
  let nodeId := if isEnd && sameEnds route && (index =? List.length route - 1)%nat
                then IdEnd index else IdIndex index in
  mkGraphNode nodeId index cityName (index + 1) isStart (isEnd && negb isStart)
              (graphWidth G / 2 + (randomAt G (2 * index) - 0.5) * 100)
              (graphHeight G / 2 + (randomAt G (2 * index + 1) - 0.5) * 100).

Fixpoint mapIndexed {A B : Type} (f : nat -> A -> B) (i : nat) (l : list A) : list B :=
  match l with
  | [] => []
  | a :: t => f i a :: mapIndexed f (S i) t
  end.

Definition makeNodes (G : GraphEnv) (route : list string) (coordinatesLength : nat)
  : list GraphNode :=
  mapIndexed (makeNode G route coordinatesLength) 0 route.

(** [x.toFixed(1)] of a distance (a number that is not negative), read back
    by [parseFloat]: the nearest multiple of a tenth, halves going up. *)
Definition toFixed1 (v : R) : R := JsMath.round (v * 10) / 10.

(** The body of the loop that fills [graphLinks]. *)
Definition makeLink (nodes : list GraphNode) (coordinates : list Coord) (i : nat)
  : option GraphLink :=
  match nth_error coordinates i, nth_error coordinates (i + 1) with
  | Some a, Some b =>
      Some (mkGraphLink (nth_error nodes i) (nth_error nodes (i + 1))
                        (toFixed1 (calculateDistance a b)))
  | _, _ => None
  end.

Definition makeLinks (nodes : list GraphNode) (coordinates : list Coord)
  : list GraphLink :=
  for_range 0 (List.length coordinates - 1)
            (fun i acc => match makeLink nodes coordinates i with
                          | Some l => acc ++ [l]
                          | None => acc
                          end)
            [].

(** The distance the link force aims at:
    [120 + Math.min(parseFloat(d.distance) / 10, 80)]. *)
Definition linkDistance (l : GraphLink) : R :=
  120 + JsMath.min (distance l / 10) 80.

(** The text under a node: a long name is cut. *)
Definition cityLabel (d : GraphNode) : string :=
  let maxLength := 15%nat in
  if (maxLength <? String.length (g_name d))%nat
  then (substring 0 maxLength (g_name d) ++ "...")%string
  else g_name d.

(** The width of the border of a node. *)
Definition strokeWidth (d : GraphNode) : R :=
  if isStart d || isEnd d then 4 else 3.

(** [displayRouteGraph(routeData)] with d3 loaded and the container there:
    the nodes and links handed to the simulation, or nothing when there are
    no coordinates. *)
Definition displayRouteGraph (G : GraphEnv) (route : list string)
           (coordinates : option (list Coord))
  : option (list GraphNode * list GraphLink) :=
  match coordinates with
  | None => None
  | Some [] => None
  | Some cs =>
      let nodes := makeNodes G route (List.length cs) in
      Some (nodes, makeLinks nodes cs)
  end.

End RoutePage.

(** ** The CSRF cookie ([getCookie]) *)

(** Strings are lists of code units here (the code units below 256). *)
Module Cookie.

Definition charEq (s : string) (c : ascii) : bool :=
  match s with
  | String d EmptyString => Ascii.eqb c d
  | _ => false
  end.

(** The white space that [String.prototype.trim] strips. *)
Definition isTrimmed (c : ascii) : bool :=
  let n := nat_of_ascii c in
  ((9 <=? n) && (n <=? 13))%nat || (n =? 32)%nat || (n =? 160)%nat.

Fixpoint dropWhite (l : list ascii) : list ascii :=
  match l with
  | c :: t => if isTrimmed c then dropWhite t else l
  | [] => []
  end.

Definition trim (l : list ascii) : list ascii :=
  rev (dropWhite (rev (dropWhite l))).

(** [s.split(';')]: the pieces between the separators, empty ones included. *)
Fixpoint split (l : list ascii) : list (list ascii) :=
  match l with
  | [] => [[]]
  | c :: t =>
      if charEq ";" c then [] :: split t
      else match split t with
           | h :: r => (c :: h) :: r
           | [] => [[c]]
           end
  end.

Fixpoint eqList (a b : list ascii) : bool :=
  match a, b with
  | [], [] => true
  | c :: a', d :: b' => Ascii.eqb c d && eqList a' b'
  | _, _ => false
  end.

Definition equals : list ascii := list_ascii_of_string "=".

(** What a call returns, or that it threw ([decodeURIComponent] throws on a
    malformed escape sequence). *)
Inductive Outcome :=
| Returned (cookieValue : option (list ascii))
| Threw.

Section GetCookie.

(** [decodeURIComponent]; [None] when it throws. *)
Variable decodeURIComponent : list ascii -> option (list ascii).

(** The loop over [cookies], with its [break]. *)
Fixpoint scan (name : list ascii) (cookies : list (list ascii)) : Outcome :=
  match cookies with
  | [] => Returned None
  | raw :: rest =>
      let cookie := trim raw in
      if eqList (firstn (List.length name + 1) cookie) (name ++ equals) then
        match decodeURIComponent (skipn (List.length name + 1) cookie) with
        | Some v => Returned (Some v)
        | None => Threw
        end
      else scan name rest
  end.

(** [getCookie(name)] when [document.cookie] reads [jar]. *)
Definition getCookie (jar name : list ascii) : Outcome :=
  match jar with
  | [] => Returned None
  | _ => scan name (split jar)
  end.

End GetCookie.

(** [document.cookie] as the browser serialises a list of cookies:
    [name=value] pairs joined by a semicolon and a space. *)
Definition pair (e : list ascii * list ascii) : list ascii :=
  fst e ++ equals ++ snd e.

Fixpoint serialize (entries : list (list ascii * list ascii)) : list ascii :=
  match entries with
  | [] => []
  | [e] => pair e
  | e :: rest => pair e ++ list_ascii_of_string "; " ++ serialize rest
  end.

(** A list has no occurrence of a character. *)
Definition without (s : string) (l : list ascii) : bool :=
  negb (existsb (charEq s) l).

(** A cookie whose name and value hold no semicolon, whose name holds no
    equals sign, and which has no white space around it. *)
Definition plainCookie (e : list ascii * list ascii) : bool :=
  without ";" (fst e) && without ";" (snd e) && without "=" (fst e)
  && eqList (trim (pair e)) (pair e).

(** The value of the first cookie of that name. *)
Fixpoint lookup (name : list ascii) (entries : list (list ascii * list ascii))
  : option (list ascii) :=
  match entries with
  | [] => None
  | e :: rest => if eqList (fst e) name then Some (snd e) else lookup name rest
  end.

End Cookie.

(** ** The zoom buttons of the optimize page *)

Module Zoom.

(** A d3 zoom transform: a point [p] of the graph is shown at
    [p * k + (x, y)]. *)
Record Transform := mkTransform {
  zk : R;
  zx : R;
  zy : R
}.

Definition applyX (t : Transform) (p : R) : R := p * zk t + zx t.
Definition applyY (t : Transform) (p : R) : R := p * zk t + zy t.
Definition invertX (t : Transform) (s : R) : R := (s - zx t) / zk t.
Definition invertY (t : Transform) (s : R) : R := (s - zy t) / zk t.

(** The manual fallback of the two click handlers, taken when
    [zoomBehavior.scaleBy] throws: the transform handed to
    [zoomBehavior.transform] for an svg of the given size.  The factor is
    1.2 for the zoom-in button and 1 / 1.2 for the zoom-out button. *)
Definition zoomFallback (rectWidth rectHeight scaleFactor : R) (t : Transform)
  : Transform :=
  let centerX := rectWidth / 2 in
  let centerY := rectHeight / 2 in
  let minK := 0.2 in
  let maxK := 6 in
  let newK := JsMath.max minK (JsMath.min maxK (zk t * scaleFactor)) in
  let newX := zx t - centerX * (newK / zk t - 1) in
  let newY := zy t - centerY * (newK / zk t - 1) in
  mkTransform newK newX newY.

End Zoom.

(** ** The collinearity pass *)

(** The angle at [b] between the directions to [a] and to [c], as
    [resolveCollinearity] computes it. *)
Definition angleAt (a b c : NodePos) : R :=
  let v1x := x a - x b in
  let v1y := y a - y b in
  let v2x := x c - x b in
  let v2y := y c - y b in
  let mag1 := JsMath.hypot v1x v1y in
  let mag2 := JsMath.hypot v2x v2y in
  let dot := v1x * v2x + v1y * v2y in
  JsMath.acos (JsMath.max (-1) (JsMath.min 1 (dot / (mag1 * mag2)))).

(** [ang < angleThreshold || Math.abs(Math.PI - ang) < angleThreshold] *)
Definition nearCollinear (a b c : NodePos) : bool :=
  let angleThreshold := 45 * PI / 180 in
  JsMath.lt (angleAt a b c) angleThreshold
  || JsMath.lt (JsMath.abs (PI - angleAt a b c)) angleThreshold.
(** * Proofs *)

(** ** Facts about the [Math] functions *)

Lemma round_bounds (x : R) : x - / 2 < JsMath.round x <= x + / 2.
Proof.
  unfold JsMath.round.
  destruct (base_Int_part (x + / 2)) as [H1 H2]. lra.
Qed.

Lemma round_IZR (z : Z) : JsMath.round (IZR z) = IZR z.
Proof.
  unfold JsMath.round. f_equal. symmetry. apply Int_part_spec. lra.
Qed.

Lemma hypot_nonneg (x y : R) : 0 <= JsMath.hypot x y.
Proof. apply sqrt_pos. Qed.

Lemma hypot_x_0 (x : R) : 0 <= x -> JsMath.hypot x 0 = x.
Proof.
  intros Hx. unfold JsMath.hypot.
  replace (x * x + 0 * 0) with (x * x) by ring. now apply sqrt_square.
Qed.

Lemma hypot_0_y (y : R) : 0 <= y -> JsMath.hypot 0 y = y.
Proof.
  intros Hy. unfold JsMath.hypot.
  replace (0 * 0 + y * y) with (y * y) by ring. now apply sqrt_square.
Qed.

Lemma hypot_eq_0 (x y : R) : JsMath.hypot x y = 0 -> x = 0 /\ y = 0.
Proof.
  unfold JsMath.hypot. intros H.
  assert (Hs : x * x + y * y = 0).
  { apply sqrt_eq_0; [nra | exact H]. }
  split; nra.
Qed.

Lemma atan2_pos_x (y x : R) : 0 < x -> JsMath.atan2 y x = atan (y / x).
Proof. intros Hx. unfold JsMath.atan2. destruct (Rlt_dec 0 x); [reflexivity | lra]. Qed.

Lemma atan2_1_0 : JsMath.atan2 1 0 = PI / 2.
Proof.
  unfold JsMath.atan2.
  destruct (Rlt_dec 0 0); [lra |].
  destruct (Rlt_dec 0 1); [reflexivity | lra].
Qed.

Lemma atan2_0_1 : JsMath.atan2 0 1 = 0.
Proof.
  rewrite atan2_pos_x by lra.
  replace (0 / 1) with 0 by field. apply atan_0.
Qed.

(** ** Great-circle distance *)

(** The quantity under the square roots lies in [[0, 1]] for all angles. *)
Lemma hav_sum_range (p1 p2 v : R) :
  let a := Rtrigo_def.sin ((p2 - p1) / 2) * Rtrigo_def.sin ((p2 - p1) / 2)
           + Rtrigo_def.cos p1 * Rtrigo_def.cos p2
             * Rtrigo_def.sin v * Rtrigo_def.sin v in
  0 <= a <= 1.
Proof.
  intros a. subst a.
  set (u := (p2 - p1) / 2).
  assert (Hm : Rtrigo_def.cos (p2 - p1) = 1 - 2 * Rtrigo_def.sin u * Rtrigo_def.sin u).
  { replace (p2 - p1) with (2 * u) by (unfold u; field). apply cos_2a_sin. }
  pose proof (cos_minus p2 p1) as Hcm.
  pose proof (cos_plus p2 p1) as Hcp.
  pose proof (COS_bound (p2 + p1)) as [Hb1 Hb2].
  pose proof (sin2_cos2 v) as Hv. unfold Rsqr in Hv.
  pose proof (sin2_cos2 u) as Hu. unfold Rsqr in Hu.
  set (su := Rtrigo_def.sin u) in *. set (sv := Rtrigo_def.sin v) in *.
  set (cv := Rtrigo_def.cos v) in *. set (cu := Rtrigo_def.cos u) in *.
  set (c1 := Rtrigo_def.cos p1) in *. set (c2 := Rtrigo_def.cos p2) in *.
  set (s1 := Rtrigo_def.sin p1) in *. set (s2 := Rtrigo_def.sin p2) in *.
  assert (Hc : c1 * c2 = (Rtrigo_def.cos (p2 - p1) + Rtrigo_def.cos (p2 + p1)) / 2) by lra.
  assert (Hlo : - (su * su) <= c1 * c2) by lra.
  assert (Hhi : c1 * c2 <= cu * cu) by lra.
  assert (Hsv : 0 <= sv * sv <= 1) by nra.
  split.
  - replace (c1 * c2 * sv * sv) with ((c1 * c2) * (sv * sv)) by ring. nra.
  - replace (c1 * c2 * sv * sv) with ((c1 * c2) * (sv * sv)) by ring. nra.
Qed.

Lemma atan2_sqrt_asin (a : R) :
  0 <= a <= 1 ->
  JsMath.atan2 (JsMath.sqrt a) (JsMath.sqrt (1 - a)) = asin (R_sqrt.sqrt a).
Proof.
  intros [H0 H1]. unfold JsMath.sqrt.
  destruct (Req_dec a 1) as [-> | Hne].
  - replace (1 - 1) with 0 by ring.
    rewrite sqrt_0, sqrt_1, asin_1. apply atan2_1_0.
  - assert (Hlt : a < 1) by lra.
    assert (Hs : 0 < R_sqrt.sqrt (1 - a)) by (apply sqrt_lt_R0; lra).
    rewrite atan2_pos_x by exact Hs.
    assert (Hx : 0 <= R_sqrt.sqrt a < 1).
    { split; [apply sqrt_pos |].
      rewrite <- sqrt_1. apply sqrt_lt_1; lra. }
    rewrite asin_atan by lra.
    unfold Rsqr. rewrite sqrt_sqrt by exact H0. reflexivity.
Qed.

Lemma haversineKm_formula (lat1 lon1 lat2 lon2 : R) :
  haversineKm lat1 lon1 lat2 lon2 = haversine_formula 6371 lat1 lon1 lat2 lon2.
Proof.
  unfold haversineKm, haversine_formula, hav, toRad, JsMath.sin, JsMath.cos, Rsqr.
  cbv zeta.
  replace ((lat2 - lat1) * PI / 180) with (lat2 * PI / 180 - lat1 * PI / 180) by field.
  replace ((lon2 - lon1) * PI / 180) with (lon2 * PI / 180 - lon1 * PI / 180) by field.
  set (p1 := lat1 * PI / 180). set (p2 := lat2 * PI / 180).
  set (v := (lon2 * PI / 180 - lon1 * PI / 180) / 2).
  pose proof (hav_sum_range p1 p2 v) as Hr. cbv zeta in Hr.
  set (a := Rtrigo_def.sin ((p2 - p1) / 2) * Rtrigo_def.sin ((p2 - p1) / 2)
            + Rtrigo_def.cos p1 * Rtrigo_def.cos p2
              * Rtrigo_def.sin v * Rtrigo_def.sin v) in *.
  rewrite (atan2_sqrt_asin a Hr).
  replace (Rtrigo_def.sin ((p2 - p1) / 2) * Rtrigo_def.sin ((p2 - p1) / 2)
           + Rtrigo_def.cos p1 * Rtrigo_def.cos p2
             * (Rtrigo_def.sin v * Rtrigo_def.sin v)) with a
    by (unfold a; ring).
  ring.
Qed.

Lemma calculateDistance_haversineKm (c1 c2 : Coord) :
  calculateDistance c1 c2
  = haversineKm (c_lat c1) (c_lng c1) (c_lat c2) (c_lng c2).
Proof. reflexivity. Qed.

Lemma haversineKm_same (lat lon : R) : haversineKm lat lon lat lon = 0.
Proof.
  unfold haversineKm, toRad, JsMath.sin, JsMath.cos, JsMath.sqrt. cbv zeta.
  replace ((lat - lat) * PI / 180 / 2) with 0 by field.
  replace ((lon - lon) * PI / 180 / 2) with 0 by field.
  rewrite sin_0.
  replace (0 * 0 + Rtrigo_def.cos (lat * PI / 180) * Rtrigo_def.cos (lat * PI / 180) * 0 * 0)
    with 0 by ring.
  replace (1 - 0) with 1 by ring.
  rewrite sqrt_0, sqrt_1, atan2_0_1. ring.
Qed.

(** Two terms and three terms of Machin's series bracket [PI]. *)
Lemma PI_bounds : 3.135 < PI < 3.143.
Proof.
  pose proof (PI_2_3_7_ineq 0) as [Hlo _].
  pose proof (PI_2_3_7_ineq 1) as [_ Hhi].
  simpl in Hlo, Hhi.
  unfold tg_alt, PI_2_3_7_tg, Ratan_seq in Hlo, Hhi.
  simpl in Hlo, Hhi.
  split; lra.
Qed.

(** One degree of longitude on the equator subtends [PI / 180] radians. *)
Lemma haversineKm_one_degree : haversineKm 0 0 0 1 = 6371 * PI / 180.
Proof.
  pose proof PI_bounds as [Hp1 Hp2].
  unfold haversineKm, toRad, JsMath.sin, JsMath.cos, JsMath.sqrt. cbv zeta.
  replace ((0 - 0) * PI / 180 / 2) with 0 by field.
  replace (0 * PI / 180) with 0 by field.
  replace ((1 - 0) * PI / 180 / 2) with (PI / 360) by field.
  rewrite sin_0, cos_0.
  set (s := Rtrigo_def.sin (PI / 360)).
  set (c := Rtrigo_def.cos (PI / 360)).
  assert (Hs : 0 < s).
  { apply sin_gt_0; lra. }
  assert (Hc : 0 < c).
  { apply cos_gt_0; lra. }
  assert (Hsc : s * s + c * c = 1).
  { pose proof (sin2_cos2 (PI / 360)) as H. unfold Rsqr in H. exact H. }
  replace (0 * 0 + 1 * 1 * s * s) with (s * s) by ring.
  replace (1 - s * s) with (c * c) by lra.
  rewrite !sqrt_square by lra.
  rewrite atan2_pos_x by exact Hc.
  change (s / c) with (tan (PI / 360)).
  rewrite atan_tan by lra.
  field.
Qed.

(** C4: both distance functions are the haversine great-circle formula on a
    sphere of radius 6371 km; the distance from a coordinate to itself is 0,
    and one degree of longitude on the equator is 111.19 km within 0.5%. *)
Theorem C4_haversine_distance :
  (forall lat1 lon1 lat2 lon2,
      haversineKm lat1 lon1 lat2 lon2
      = haversine_formula 6371 lat1 lon1 lat2 lon2) /\
  (forall c1 c2,
      calculateDistance c1 c2
      = haversine_formula 6371 (c_lat c1) (c_lng c1) (c_lat c2) (c_lng c2)) /\
  (forall lat lon, haversineKm lat lon lat lon = 0) /\
  (forall c, calculateDistance c c = 0) /\
  Rabs (haversineKm 0 0 0 1 - 111.19) <= 0.005 * 111.19 /\
  Rabs (calculateDistance (mkCoord 0 0) (mkCoord 0 1) - 111.19) <= 0.005 * 111.19.
Proof.
  pose proof PI_bounds as [Hp1 Hp2].
  assert (Hd : Rabs (haversineKm 0 0 0 1 - 111.19) <= 0.005 * 111.19).
  { rewrite haversineKm_one_degree. apply Rabs_le. lra. }
  repeat split.
  - apply haversineKm_formula.
  - intros c1 c2. rewrite calculateDistance_haversineKm. apply haversineKm_formula.
  - apply haversineKm_same.
  - intros c. rewrite calculateDistance_haversineKm. apply haversineKm_same.
  - exact Hd.
  - rewrite calculateDistance_haversineKm. exact Hd.
Qed.

(** ** Coordinate projector *)

Lemma fold_Rmin_le (t : list R) (v : R) : fold_left Rmin t v <= v.
Proof.
  revert v. induction t as [|h t IH]; intros v; simpl.
  - lra.
  - eapply Rle_trans; [apply IH | apply Rmin_l].
Qed.

Lemma fold_Rmax_ge (t : list R) (v : R) : v <= fold_left Rmax t v.
Proof.
  revert v. induction t as [|h t IH]; intros v; simpl.
  - lra.
  - eapply Rle_trans; [apply Rmax_l | apply IH].
Qed.

Lemma d3_min_le_max (l : list R) : d3_min l <= d3_max l.
Proof.
  destruct l as [|h t]; simpl.
  - lra.
  - eapply Rle_trans; [apply fold_Rmin_le | apply fold_Rmax_ge].
Qed.

(** After widening, a domain is never a single point. *)
Lemma widen_lt (lo hi : R) : lo <= hi -> fst (widen lo hi) < snd (widen lo hi).
Proof.
  intros Hle. unfold widen, JsMath.abs.
  destruct (Rlt_dec (Rabs (hi - lo)) 1e-6) as [Hs | Hs]; simpl.
  - lra.
  - rewrite Rabs_pos_eq in Hs by lra. lra.
Qed.

Lemma lonTDomain_lt (E : Env) (points : list Point) :
  fst (lonTDomain points) < snd (lonTDomain points).
Proof. apply widen_lt, d3_min_le_max. Qed.

Lemma latTDomain_lt (E : Env) (points : list Point) :
  fst (latTDomain points) < snd (latTDomain points).
Proof. apply widen_lt, d3_min_le_max. Qed.

Lemma width_ge (E : Env) : 600 <= width E.
Proof. apply Rmax_l. Qed.

Lemma height_ge (E : Env) : 400 <= height E.
Proof. apply Rmax_l. Qed.

Lemma scaleLinear_increasing (d0 d1 r0 r1 u v : R) :
  d0 < d1 -> r0 < r1 -> u < v ->
  scaleLinear d0 d1 r0 r1 u < scaleLinear d0 d1 r0 r1 v.
Proof.
  intros Hd Hr Huv. unfold scaleLinear.
  destruct (Req_dec_T (d1 - d0) 0) as [H0 | H0]; [lra |].
  assert (Hi : 0 < / (d1 - d0)) by (apply Rinv_0_lt_compat; lra).
  assert (Ht : (u - d0) / (d1 - d0) < (v - d0) / (d1 - d0)).
  { unfold Rdiv. apply Rmult_lt_compat_r; lra. }
  nra.
Qed.

Lemma scaleLinear_decreasing (d0 d1 r0 r1 u v : R) :
  d1 < d0 -> r0 < r1 -> u < v ->
  scaleLinear d0 d1 r0 r1 v < scaleLinear d0 d1 r0 r1 u.
Proof.
  intros Hd Hr Huv. unfold scaleLinear.
  destruct (Req_dec_T (d1 - d0) 0) as [H0 | H0]; [lra |].
  assert (Hi : 0 < / (d0 - d1)) by (apply Rinv_0_lt_compat; lra).
  assert (He : forall w, (w - d0) / (d1 - d0) = (d0 - w) * / (d0 - d1)).
  { intros w. field. split; lra. }
  rewrite !He.
  assert (Ht : (d0 - v) * / (d0 - d1) < (d0 - u) * / (d0 - d1)).
  { apply Rmult_lt_compat_r; lra. }
  nra.
Qed.

Lemma xScale_increasing (E : Env) (points : list Point) (u v : R) :
  u < v -> xScale E points u < xScale E points v.
Proof.
  intros Huv. unfold xScale. apply scaleLinear_increasing.
  - apply (lonTDomain_lt E).
  - pose proof (width_ge E). unfold pad. lra.
  - exact Huv.
Qed.

Lemma yScale_decreasing (E : Env) (points : list Point) (u v : R) :
  u < v -> yScale E points v < yScale E points u.
Proof.
  intros Huv. unfold yScale. apply scaleLinear_decreasing.
  - apply (latTDomain_lt E).
  - pose proof (height_ge E). unfold pad. lra.
  - exact Huv.
Qed.

Lemma pow_pos (b e : R) : 0 < b -> 0 < JsMath.pow b e.
Proof.
  intros Hb. unfold JsMath.pow.
  destruct (Req_dec_T b 0); [lra |]. unfold Rpower. apply exp_pos.
Qed.

Lemma pow_increasing (b c e : R) : 0 < e -> 0 < b < c -> JsMath.pow b e < JsMath.pow c e.
Proof.
  intros He Hbc. unfold JsMath.pow.
  destruct (Req_dec_T b 0); [lra |]. destruct (Req_dec_T c 0); [lra |].
  now apply Rlt_Rpower_l.
Qed.

Lemma sign_pos (d : R) : 0 < d -> JsMath.sign d = 1.
Proof.
  intros H. unfold JsMath.sign.
  destruct (Rlt_dec d 0); [lra |]. destruct (Rlt_dec 0 d); [reflexivity | lra].
Qed.

Lemma sign_neg (d : R) : d < 0 -> JsMath.sign d = -1.
Proof. intros H. unfold JsMath.sign. destruct (Rlt_dec d 0); [reflexivity | lra]. Qed.

Lemma sign_zero : JsMath.sign 0 = 0.
Proof.
  unfold JsMath.sign. destruct (Rlt_dec 0 0); [lra |]. reflexivity.
Qed.

(** The compressed offset [sign(d) * |d|^0.6] has the sign of [d]. *)
Lemma compress_offset (center l : R) :
  let c := compress center l - center in
  (l < center -> c = - JsMath.pow (center - l) compressionExp /\ c < 0) /\
  (l = center -> c = 0) /\
  (center < l -> c = JsMath.pow (l - center) compressionExp /\ 0 < c).
Proof.
  cbv zeta. unfold compress, JsMath.abs.
  split; [| split]; intros H.
  - rewrite sign_neg by lra. rewrite Rabs_left by lra.
    replace (- (l - center)) with (center - l) by ring.
    pose proof (pow_pos (center - l) compressionExp). split; lra.
  - subst l. replace (center - center) with 0 by ring. rewrite sign_zero. ring.
  - rewrite sign_pos by lra. rewrite Rabs_pos_eq by lra.
    pose proof (pow_pos (l - center) compressionExp). split; lra.
Qed.

(** The power-law compression keeps the order of the coordinates. *)
Lemma compress_increasing (center u v : R) :
  u < v -> compress center u < compress center v.
Proof.
  intros Huv.
  assert (Hk : 0 < compressionExp) by (unfold compressionExp; lra).
  destruct (compress_offset center u) as (Hu1 & Hu2 & Hu3).
  destruct (compress_offset center v) as (Hv1 & Hv2 & Hv3).
  destruct (Rtotal_order u center) as [Hu | [Hu | Hu]];
    destruct (Rtotal_order v center) as [Hv | [Hv | Hv]]; try lra.
  - destruct (Hu1 Hu) as [Eu _]. destruct (Hv1 Hv) as [Ev _].
    pose proof (pow_increasing (center - v) (center - u) compressionExp Hk). lra.
  - destruct (Hu3 Hu) as [Eu _]. destruct (Hv3 Hv) as [Ev _].
    pose proof (pow_increasing (u - center) (v - center) compressionExp Hk). lra.
Qed.

(** C3: the projection is monotonic on each axis.  Further east is further
    right and further north is further up (a smaller [y]); over the reals two
    different coordinates never project on the same pixel, and the power-law
    compression that shapes the scales keeps the order as well. *)
Theorem C3_projection_monotonic (E : Env) (points : list Point) (a b : Point) :
  (lng a < lng b ->
   projectX E points a <= projectX E points b
   /\ projectX E points a <> projectX E points b) /\
  (lat a < lat b ->
   projectY E points b <= projectY E points a
   /\ projectY E points a <> projectY E points b) /\
  (lng a < lng b ->
   compress (lonCenter points) (lng a) < compress (lonCenter points) (lng b)) /\
  (lat a < lat b ->
   compress (latCenter points) (lat a) < compress (latCenter points) (lat b)).
Proof.
  unfold projectX, projectY.
  split; [| split; [| split]]; intros H.
  - pose proof (xScale_increasing E points _ _ H). split; lra.
  - pose proof (yScale_decreasing E points _ _ H). split; lra.
  - now apply compress_increasing.
  - now apply compress_increasing.
Qed.

(** ** Input normalisation *)

Lemma normalizePoint_kept (p : Input.RawPoint) :
  Input.normalizePoint p <> None <-> Input.hasCoordinates p = true.
Proof.
  unfold Input.normalizePoint, Input.hasCoordinates.
  destruct (Input.defined (Input.r_lat p) && Input.defined (Input.r_lng p)); simpl.
  - split; [reflexivity | discriminate].
  - destruct (Input.defined (Input.r_latitude p)
              && Input.defined (Input.r_longitude p)); simpl.
    + split; [reflexivity | discriminate].
    + split; [congruence | discriminate].
Qed.

Lemma filterBoolean_In {A : Type} (l : list (option A)) (a : A) :
  In a (Input.filterBoolean l) <-> In (Some a) l.
Proof.
  induction l as [|[b|] t IH]; simpl.
  - tauto.
  - rewrite IH. split; intros [H | H]; auto; left; congruence.
  - rewrite IH. split; [auto | intros [H | H]; [discriminate | exact H]].
Qed.

Lemma filterBoolean_length (l : list Input.RawPoint) :
  List.length (Input.filterBoolean (map Input.normalizePoint l))
  = List.length (filter Input.hasCoordinates l).
Proof.
  induction l as [|p t IH]; simpl; [reflexivity |].
  pose proof (normalizePoint_kept p) as Hk.
  destruct (Input.normalizePoint p) as [q|]; destruct (Input.hasCoordinates p); simpl.
  - now rewrite IH.
  - exfalso. assert (H : false = true) by (apply Hk; discriminate). discriminate.
  - exfalso. apply (proj2 Hk); reflexivity.
  - exact IH.
Qed.

(** A field that is there is converted, never tested: what [+v] gives is
    what the point gets. *)
Lemma normalizePoint_lat_lng (p : Input.RawPoint) (q : Input.NPoint) :
  Input.normalizePoint p = Some q ->
  (Input.n_lat q = Input.ToNumber (Input.r_lat p)
   /\ Input.n_lng q = Input.ToNumber (Input.r_lng p))
  \/ (Input.n_lat q = Input.ToNumber (Input.r_latitude p)
      /\ Input.n_lng q = Input.ToNumber (Input.r_longitude p)).
Proof.
  unfold Input.normalizePoint.
  destruct (Input.defined (Input.r_lat p) && Input.defined (Input.r_lng p)).
  - intros H. injection H as <-. left. split; reflexivity.
  - destruct (Input.defined (Input.r_latitude p)
              && Input.defined (Input.r_longitude p)).
    + intros H. injection H as <-. right. split; reflexivity.
    + discriminate.
Qed.

Lemma viewGraph_empty (E : Env) (d : Input.RouteData) :
  Input.normalize d = [] -> viewGraph E (Some d) = EmptyState noCoordinatesMessage.
Proof. intros H. unfold viewGraph. rewrite H. reflexivity. Qed.

Lemma viewGraph_nonempty (E : Env) (d : Input.RouteData) :
  Input.normalize d <> [] -> forall html, viewGraph E (Some d) <> EmptyState html.
Proof.
  intros H html. unfold viewGraph.
  destruct (Input.normalize d) as [|q t]; [congruence |].
  cbn [List.length Nat.eqb].
  destruct (finitePoints (q :: t)); discriminate.
Qed.

(** C9, as the script has it: a record is kept exactly when it has both
    fields of one of the two shapes, whatever the fields parse to, and
    without route data or without a kept record a message takes the place of
    the canvas. *)
Theorem C9_normalization (E : Env) (d : Input.RouteData) :
  (forall q, In q (Input.normalize d) <->
             exists p, In p (Input.rawPoints d)
                       /\ Input.hasCoordinates p = true
                       /\ Input.normalizePoint p = Some q) /\
  List.length (Input.normalize d)
  = List.length (filter Input.hasCoordinates (Input.rawPoints d)) /\
  (forall p q, Input.normalizePoint p = Some q ->
     (Input.n_lat q = Input.ToNumber (Input.r_lat p)
      /\ Input.n_lng q = Input.ToNumber (Input.r_lng p))
     \/ (Input.n_lat q = Input.ToNumber (Input.r_latitude p)
         /\ Input.n_lng q = Input.ToNumber (Input.r_longitude p))) /\
  viewGraph E None = EmptyState noDataMessage /\
  (Input.normalize d = [] ->
   viewGraph E (Some d) = EmptyState noCoordinatesMessage) /\
  (Input.normalize d <> [] ->
   forall html, viewGraph E (Some d) <> EmptyState html).
Proof.
  split; [| split; [| split; [| split; [| split]]]].
  - intros q. unfold Input.normalize. rewrite filterBoolean_In, in_map_iff.
    split.
    + intros (p & Hp & Hin). exists p. repeat split; try assumption.
      apply normalizePoint_kept. congruence.
    + intros (p & Hin & _ & Hp). exists p. split; assumption.
  - apply filterBoolean_length.
  - apply normalizePoint_lat_lng.
  - reflexivity.
  - apply viewGraph_empty.
  - apply viewGraph_nonempty.
Qed.

(** C9 as the spec words it fails on a record whose latitude is the string
    [abc]: the field does not parse, yet the record is kept, with a [NaN]
    latitude, and the canvas is drawn. *)
Lemma C9_unparseable_kept :
  Input.unparseable (Input.r_lat Examples.badRecord)
  /\ Input.normalize Examples.badRoute
     = [Input.mkNPoint Input.NaN (Input.Fin 10) "Depot"]
  /\ viewGraph (Examples.viewport 400) (Some Examples.badRoute)
     = CanvasNotFinite [Input.mkNPoint Input.NaN (Input.Fin 10) "Depot"].
Proof.
  repeat split.
Qed.

Lemma C9_normalization_witness :
  Input.normalize (Input.mkRouteData None None) = [] /\
  viewGraph (Examples.viewport 400) (Some (Input.mkRouteData None None))
  = EmptyState noCoordinatesMessage.
Proof.
  split; [reflexivity |].
  apply (proj1 (proj2 (proj2 (proj2 (proj2
           (C9_normalization (Examples.viewport 400)
                             (Input.mkRouteData None None))))))).
  reflexivity.
Defined.

(** ** Bounds of the layout *)

Lemma max_bounds (lo hi v : R) :
  lo <= hi -> lo <= JsMath.max lo (JsMath.min hi v) <= hi.
Proof.
  intros H. unfold JsMath.max, JsMath.min. split.
  - apply Rmax_l.
  - apply Rmax_lub; [exact H | apply Rmin_l].
Qed.

Lemma clampX_bounds (E : Env) (v : R) : pad <= clampX E v <= width E - pad.
Proof.
  apply max_bounds. pose proof (width_ge E). unfold pad. lra.
Qed.

Lemma clampY_bounds (E : Env) (v : R) : pad <= clampY E v <= height E - pad.
Proof.
  apply max_bounds. pose proof (height_ge E). unfold pad. lra.
Qed.

Lemma clampX_id (E : Env) (v : R) : pad <= v <= width E - pad -> clampX E v = v.
Proof.
  intros [H1 H2]. unfold clampX, JsMath.max, JsMath.min.
  rewrite Rmin_right by exact H2. now rewrite Rmax_right.
Qed.

Lemma clampY_id (E : Env) (v : R) : pad <= v <= height E - pad -> clampY E v = v.
Proof.
  intros [H1 H2]. unfold clampY, JsMath.max, JsMath.min.
  rewrite Rmin_right by exact H2. now rewrite Rmax_right.
Qed.

Lemma nodeSize_bounds (points : list Point) : 8 <= nodeSize points <= 24.
Proof. unfold nodeSize. apply max_bounds. lra. Qed.

Lemma nodeFont_bounds (points : list Point) : 10 <= nodeFont points <= 20.
Proof. unfold nodeFont. apply max_bounds. lra. Qed.

Lemma round_nonneg (v : R) : 0 <= v -> 0 <= JsMath.round v.
Proof.
  intros Hv. unfold JsMath.round.
  apply IZR_le.
  destruct (base_Int_part (v + / 2)) as [_ H2].
  assert (H : (-1 < IZR (Int_part (v + / 2)))) by lra.
  apply lt_IZR in H. lia.
Qed.

Lemma measure_nonneg (E : Env) (l : string) (f : R) :
  measuresNonnegative E -> 0 <= f ->
  0 <= fst (measure E l f) /\ 0 <= snd (measure E l f).
Proof.
  intros HE Hf. unfold measure.
  destruct (getBBox E l f) as [[w h]|] eqn:Hb; simpl.
  - exact (HE _ _ _ _ Hb).
  - split; [| lra].
    unfold JsMath.min, JsMath.max. apply Rmin_glb.
    + pose proof (width_ge E). unfold pad. lra.
    + apply Rmult_le_pos; [apply pos_INR |].
      eapply Rle_trans; [| apply Rmax_l]. lra.
Qed.

Lemma or_else_nonneg (a b : R) : 0 <= a -> 0 <= b -> 0 <= JsMath.or_else a b.
Proof. intros Ha Hb. unfold JsMath.or_else. destruct (Req_dec_T a 0); assumption. Qed.

Lemma computePosition_inBounds (E : Env) (points : list Point) (i : nat) (p : Point) :
  measuresNonnegative E -> inBounds E (computePosition E points i p).
Proof.
  intros HE. unfold inBounds, computePosition. cbv zeta. simpl.
  pose proof (width_ge E) as Hw. pose proof (height_ge E) as Hh.
  pose proof (nodeSize_bounds points) as [Hs1 Hs2].
  pose proof (nodeFont_bounds points) as [Hf1 Hf2].
  destruct (measure_nonneg E (makeLabel i p) (nodeFont points) HE) as [Hm1 Hm2]; [lra |].
  set (lw := JsMath.min (width E - 2 * pad) (fst (measure E (makeLabel i p) (nodeFont points)))).
  set (lh := JsMath.or_else (snd (measure E (makeLabel i p) (nodeFont points)))
                            (nodeFont points + 4)).
  assert (Hlw : 0 <= lw <= width E - 2 * pad).
  { unfold lw, JsMath.min. split; [| apply Rmin_l].
    apply Rmin_glb; [unfold pad; lra | exact Hm1]. }
  assert (Hlh : 0 <= lh) by (apply or_else_nonneg; lra).
  unfold pad in *. unfold JsMath.max, JsMath.min.
  repeat split.
  - eapply Rle_trans; [| apply Rmax_l]. lra.
  - apply Rmax_lub; [lra |]. eapply Rle_trans; [apply Rmin_l |]. lra.
  - eapply Rle_trans; [| apply Rmax_l]. lra.
  - apply Rmax_lub; [lra |]. eapply Rle_trans; [apply Rmin_l |]. lra.
Qed.

Lemma computeFrom_inBounds (E : Env) (points ps : list Point) (i : nat) :
  measuresNonnegative E -> Forall (inBounds E) (computeFrom E points i ps).
Proof.
  intros HE. revert i. induction ps as [|p t IH]; intros i; simpl; constructor.
  - now apply computePosition_inBounds.
  - apply IH.
Qed.

Lemma computeFrom_length (E : Env) (points ps : list Point) (i : nat) :
  List.length (computeFrom E points i ps) = List.length ps.
Proof. revert i. induction ps as [|p t IH]; intros i; simpl; [reflexivity | now rewrite IH]. Qed.

(** *** Writes into the array *)

Lemma list_set_length {A : Type} (i : nat) (v : A) (l : list A) :
  List.length (list_set i v l) = List.length l.
Proof.
  revert i. induction l as [|h t IH]; intros [|i]; simpl; try reflexivity.
  now rewrite IH.
Qed.

Lemma list_set_Forall {A : Type} (P : A -> Prop) (i : nat) (v : A) (l : list A) :
  P v -> Forall P l -> Forall P (list_set i v l).
Proof.
  intros Hv Hl. revert i. induction Hl as [|h t Hh Ht IH]; intros [|i]; simpl;
    constructor; auto.
Qed.

Lemma list_set_same {A : Type} (i : nat) (v : A) (l : list A) :
  nth_error l i = Some v -> list_set i v l = l.
Proof.
  revert i. induction l as [|h t IH]; intros [|i]; simpl; try discriminate.
  - intros H. injection H as ->. reflexivity.
  - intros H. f_equal. now apply IH.
Qed.

Lemma nth_error_Forall {A : Type} (P : A -> Prop) (l : list A) (i : nat) (a : A) :
  Forall P l -> nth_error l i = Some a -> P a.
Proof.
  intros Hl Hn. apply nth_error_In in Hn.
  rewrite Forall_forall in Hl. now apply Hl.
Qed.

(** *** Loops *)

Lemma for_range_ind {S : Type} (P : S -> Prop) (lo hi : nat) (body : nat -> S -> S) :
  (forall i s, P s -> P (body i s)) ->
  forall s, P s -> P (for_range lo hi body s).
Proof.
  intros Hb. unfold for_range.
  generalize (seq lo (hi - lo)) as l.
  induction l as [|i t IH]; intros s Hs; simpl; [exact Hs |].
  apply IH, Hb, Hs.
Qed.

(** *** The relaxation loops keep what every clamped write establishes *)

Section LayoutInvariant.

Variable E : Env.
Variable points : list Point.
Variable P : NodePos -> Prop.

Hypothesis P_written :
  forall u v lab fs ss ly lw lh d,
    P (mkNodePos (clampX E u) (clampY E v) lab fs ss ly lw lh d).
Hypothesis P_drawn : forall p, P p -> P (set_drawn p).
Hypothesis P_computed : forall i p, P (computePosition E points i p).

Lemma set_xy_ok (p : NodePos) (u v : R) : P (set_xy p (clampX E u) (clampY E v)).
Proof. apply P_written. Qed.

Lemma write_pair_ok (i j : nat) (a b : NodePos) (dx dy dist sep : R) (l : list NodePos) :
  layoutOk P (List.length points) l ->
  layoutOk P (List.length points) (write_pair i j (fst (pushed E a b dx dy dist sep))
                              (snd (pushed E a b dx dy dist sep)) l).
Proof.
  intros [Hlen Hall]. unfold write_pair, pushed; simpl.
  set (l1 := match nth_error l i with
             | Some a0 => list_set i _ l
             | None => l
             end).
  assert (H1 : layoutOk P (List.length points) l1).
  { unfold l1. destruct (nth_error l i); [| now split].
    split; [now rewrite list_set_length |].
    apply list_set_Forall; [apply set_xy_ok | exact Hall]. }
  destruct H1 as [Hlen1 Hall1].
  destruct (nth_error l1 j); [| now split].
  split; [now rewrite list_set_length |].
  apply list_set_Forall; [apply set_xy_ok | exact Hall1].
Qed.

Lemma separatePair_ok (i j : nat) (s : Relax) :
  layoutOk P (List.length points) (nodes s) -> layoutOk P (List.length points) (nodes (separatePair E points i j s)).
Proof.
  intros Hok. unfold separatePair.
  destruct (nth_error (nodes s) i) as [a|]; [| exact Hok].
  destruct (nth_error (nodes s) j) as [b|]; [| exact Hok].
  destruct (direction E a b (calls s)) as [[[dx dy] dist] rng'].
  destruct (Rlt_dec dist (minSep points i j a b)); [| exact Hok].
  pose proof (write_pair_ok i j a b dx dy dist (minSep points i j a b) _ Hok) as H.
  destruct (pushed E a b dx dy dist (minSep points i j a b)) as [pa pb].
  exact H.
Qed.

Lemma relaxPair_ok (i j : nat) (s : Relax) :
  layoutOk P (List.length points) (nodes s) -> layoutOk P (List.length points) (nodes (relaxPair E i j s)).
Proof.
  intros Hok. unfold relaxPair.
  destruct (nth_error (nodes s) i) as [a|]; [| exact Hok].
  destruct (nth_error (nodes s) j) as [b|]; [| exact Hok].
  destruct (direction E a b (calls s)) as [[[dx dy] dist] rng'].
  destruct (Rlt_dec dist (baseSep a b)); [| exact Hok].
  pose proof (write_pair_ok i j a b dx dy dist (baseSep a b) _ Hok) as H.
  destruct (pushed E a b dx dy dist (baseSep a b)) as [pa pb].
  exact H.
Qed.

Lemma separationPass_ok (s : Relax) :
  layoutOk P (List.length points) (nodes s) -> layoutOk P (List.length points) (nodes (separationPass E points s)).
Proof.
  unfold separationPass.
  apply (for_range_ind (fun s => layoutOk P (List.length points) (nodes s))). intros i s1.
  apply (for_range_ind (fun s => layoutOk P (List.length points) (nodes s))). intros j s2.
  apply separatePair_ok.
Qed.

Lemma relaxPass_ok (s : Relax) :
  layoutOk P (List.length points) (nodes s) -> layoutOk P (List.length points) (nodes (relaxPass E points s)).
Proof.
  unfold relaxPass.
  apply (for_range_ind (fun s => layoutOk P (List.length points) (nodes s))). intros i s1.
  apply (for_range_ind (fun s => layoutOk P (List.length points) (nodes s))). intros j s2.
  apply relaxPair_ok.
Qed.

Lemma separationLoop_ok (k : nat) (l : list NodePos) (c : nat) :
  layoutOk P (List.length points) l -> layoutOk P (List.length points) (fst (fst (separationLoop E points k l c))).
Proof.
  revert l c. induction k as [|k IH]; intros l c Hok; simpl; [exact Hok |].
  pose proof (separationPass_ok (mkRelax l c false) Hok) as Hp.
  destruct (flag (separationPass E points (mkRelax l c false))).
  - now apply IH.
  - exact Hp.
Qed.

Lemma relaxLoop_ok (k : nat) (l : list NodePos) (c : nat) :
  layoutOk P (List.length points) l -> layoutOk P (List.length points) (fst (relaxLoop E points k l c)).
Proof.
  revert l c. induction k as [|k IH]; intros l c Hok; simpl; [exact Hok |].
  pose proof (relaxPass_ok (mkRelax l c false) Hok) as Hp.
  destruct (flag (relaxPass E points (mkRelax l c false))).
  - now apply IH.
  - exact Hp.
Qed.

Lemma nudgeTriple_ok (i j k : nat) (s : Relax) :
  layoutOk P (List.length points) (nodes s) -> layoutOk P (List.length points) (nodes (nudgeTriple E points i j k s)).
Proof.
  intros Hok. unfold nudgeTriple.
  destruct ((i =? j)%nat || (j =? k)%nat || (i =? k)%nat); [exact Hok |].
  destruct (nth_error (nodes s) i) as [a|]; [| exact Hok].
  destruct (nth_error (nodes s) j) as [b|]; [| exact Hok].
  destruct (nth_error (nodes s) k) as [c|]; [| exact Hok].
  cbv zeta.
  destruct (Rlt_dec _ 1e-6); [exact Hok |].
  destruct (Rlt_dec _ 1e-6); [exact Hok |].
  match goal with |- context [if ?c then _ else _] => destruct c end; [| exact Hok].
  simpl. destruct Hok as [Hlen Hall].
  split; [now rewrite list_set_length |].
  apply list_set_Forall; [apply set_xy_ok | exact Hall].
Qed.

Lemma resolveCollinearity_ok (l : list NodePos) (c : nat) :
  layoutOk P (List.length points) l -> layoutOk P (List.length points) (nodes (resolveCollinearity E points l c)).
Proof.
  intros Hok. unfold resolveCollinearity.
  apply (for_range_ind (fun s => layoutOk P (List.length points) (nodes s))); [| exact Hok]. intros i s1.
  apply (for_range_ind (fun s => layoutOk P (List.length points) (nodes s))). intros j s2.
  apply (for_range_ind (fun s => layoutOk P (List.length points) (nodes s))). intros k s3.
  apply nudgeTriple_ok.
Qed.

Lemma collinearityLoop_ok (k : nat) (l : list NodePos) (c : nat) :
  layoutOk P (List.length points) l -> layoutOk P (List.length points) (fst (collinearityLoop E points k l c)).
Proof.
  revert l c. induction k as [|k IH]; intros l c Hok; simpl; [exact Hok |].
  pose proof (resolveCollinearity_ok l c Hok) as Hp.
  destruct (flag (resolveCollinearity E points l c)).
  - now apply IH.
  - exact Hp.
Qed.

Lemma resolveCollisions_ok (l : list NodePos) (c : nat) :
  layoutOk P (List.length points) l -> layoutOk P (List.length points) (fst (resolveCollisions E points l c)).
Proof.
  intros Hok. unfold resolveCollisions.
  pose proof (separationLoop_ok 25 l c Hok) as Hs.
  destruct (separationLoop E points 25 l c) as [[l1 c1] early]. simpl in Hs.
  now apply collinearityLoop_ok.
Qed.

Lemma drawNode_ok (i : nat) (l : list NodePos) :
  layoutOk P (List.length points) l -> layoutOk P (List.length points) (drawNode i l).
Proof.
  intros [Hlen Hall]. unfold drawNode.
  destruct (nth_error l i) as [pre|] eqn:Hn; [| now split].
  destruct (_drawn pre); [now split |].
  split; [now rewrite list_set_length |].
  apply list_set_Forall; [| exact Hall].
  apply P_drawn. exact (nth_error_Forall _ _ _ _ Hall Hn).
Qed.

Lemma computeFrom_ok (ps : list Point) (i : nat) :
  Forall P (computeFrom E points i ps).
Proof.
  revert i. induction ps as [|p t IH]; intros i; simpl; constructor.
  - apply P_computed.
  - apply IH.
Qed.

Lemma computeAllPositions_ok : layoutOk P (List.length points) (computeAllPositions E points).
Proof.
  split.
  - apply computeFrom_length.
  - apply computeFrom_ok.
Qed.

Lemma geographicLayout_ok : layoutOk P (List.length points) (fst (geographicLayout E points)).
Proof.
  unfold geographicLayout.
  apply resolveCollisions_ok, drawNode_ok, computeAllPositions_ok.
Qed.

(** *** The uniform layout and the way back *)

Lemma writeBack_ok (settled : nat -> R * R) (l : list NodePos) (sn : SimNode) :
  layoutOk P (List.length points) l -> layoutOk P (List.length points) (writeBack E settled l sn).
Proof.
  intros [Hlen Hall]. unfold writeBack.
  destruct (nth_error l (sn_id sn)) as [old|]; [| now split].
  split; [now rewrite list_set_length |].
  apply list_set_Forall; [apply P_written | exact Hall].
Qed.

Lemma writeBack_fold_ok (settled : nat -> R * R) (sns : list SimNode) (l : list NodePos) :
  layoutOk P (List.length points) l -> layoutOk P (List.length points) (fold_left (writeBack E settled) sns l).
Proof.
  revert l. induction sns as [|sn t IH]; intros l Hok; simpl; [exact Hok |].
  apply IH. now apply writeBack_ok.
Qed.

Lemma applyUniformLinkLayout_ok (target : R) (st : App) :
  layoutOk P (List.length points) (nodePositions st) ->
  layoutOk P (List.length points) (nodePositions (applyUniformLinkLayout E points target st)).
Proof.
  intros Hok. unfold applyUniformLinkLayout.
  destruct (List.length points <=? 1)%nat; [exact Hok |].
  cbv zeta. simpl. now apply writeBack_fold_ok.
Qed.

Lemma revertToGeographic_ok (st : App) :
  layoutOk P (List.length points) (nodePositions (revertToGeographic E points st)).
Proof.
  unfold revertToGeographic.
  pose proof (relaxLoop_ok 20 _ (randomCalls st) computeAllPositions_ok) as H.
  destruct (relaxLoop E points 20 (computeAllPositions E points) (randomCalls st))
    as [l c].
  exact H.
Qed.

Lemma load_ok : layoutOk P (List.length points) (nodePositions (load E points)).
Proof.
  unfold load.
  pose proof geographicLayout_ok as H.
  destruct (geographicLayout E points) as [l c]. simpl in H.
  destruct (hasUniformBtn E); [| exact H].
  apply applyUniformLinkLayout_ok. exact H.
Qed.

(** *** Playback leaves the layout alone *)

Lemma runCallback_nodePositions (ts : R) (st : App) (a : Anim) :
  nodePositions (runCallback ts st a) = nodePositions st.
Proof.
  unfold runCallback.
  destruct (step (playing st) a ts (traveller st)) as [[a' tr] resolved].
  destruct resolved; reflexivity.
Qed.

Lemma animationFrame_nodePositions (ts : R) (st : App) :
  nodePositions (animationFrame ts st) = nodePositions st.
Proof.
  unfold animationFrame.
  assert (H : forall l s, nodePositions (fold_left (runCallback ts) l s)
                          = nodePositions s).
  { induction l as [|a t IH]; intros s; simpl; [reflexivity |].
    rewrite IH. apply runCallback_nodePositions. }
  now rewrite H.
Qed.

Lemma playLoop_ok (st : App) :
  layoutOk P (List.length points) (nodePositions st) -> layoutOk P (List.length points) (nodePositions (playLoop E points st)).
Proof.
  intros Hok. unfold playLoop.
  destruct (playing st && (currentIndex st <? List.length points - 1)%nat);
    [| exact Hok].
  simpl. now apply drawNode_ok.
Qed.

Lemma handle_ok (st : App) (e : Event) :
  layoutOk P (List.length points) (nodePositions st) ->
  layoutOk P (List.length points) (nodePositions (handle E points st e)).
Proof.
  intros Hok. destruct e; simpl.
  - unfold clickPlay. destruct (playing st); [exact Hok |].
    unfold playSequence.
    destruct (List.length points - 1 <=? currentIndex st)%nat; [exact Hok |].
    now apply playLoop_ok.
  - exact Hok.
  - exact Hok.
  - unfold clickUniform. destruct (hasUniformBtn E); [| exact Hok].
    destruct (isUniform (set_isUniform st (negb (isUniform st)))).
    + now apply applyUniformLinkLayout_ok.
    + apply revertToGeographic_ok.
  - now rewrite animationFrame_nodePositions.
  - unfold timeout. destruct (timeouts st) as [|due rest]; [exact Hok |].
    destruct (Rle_dec due now); [| exact Hok].
    now apply playLoop_ok.
Qed.

Lemma reachable_ok (st : App) :
  reachable E points st -> layoutOk P (List.length points) (nodePositions st).
Proof.
  induction 1 as [| st e Hr IH].
  - apply load_ok.
  - now apply handle_ok.
Qed.

End LayoutInvariant.

Lemma inBounds_written (E : Env) (u v : R) (lab : string) (fs ss ly lw lh : R) (d : bool) :
  inBounds E (mkNodePos (clampX E u) (clampY E v) lab fs ss ly lw lh d).
Proof.
  unfold inBounds; simpl. split; [apply clampX_bounds | apply clampY_bounds].
Qed.

Lemma inBounds_drawn (E : Env) (p : NodePos) : inBounds E p -> inBounds E (set_drawn p).
Proof. intros H. exact H. Qed.

(** On finite values the clamp of [computePosition] is the one of
    [clampedY]. *)
Lemma clampedY_finite (E : Env) (points : list Point) (i : nat) (p : Point) :
  clampedY E (nodeSize points)
           (labelHeight (computePosition E points i p))
           (Input.JNumber (Input.Fin (yScale E points (lat p))))
  = Input.Fin (y (computePosition E points i p)).
Proof. reflexivity. Qed.

(** C1 as the spec words it fails on a route whose one record has the
    string [abc] as its latitude: the record is kept with a latitude that is
    [NaN], the scale gives [undefined] or [NaN] for it, the clamp stores
    [NaN] as the [y] of the node, and [NaN] is not between the two bounds.
    (With a single node neither the resolver nor the uniform layout writes
    the entry again.) *)
Lemma C1_nan_latitude_outside_padding :
  viewGraph (Examples.viewport 400) (Some Examples.badRoute)
  = CanvasNotFinite [Input.mkNPoint Input.NaN (Input.Fin 10) "Depot"]
  /\ finitePoints (Input.normalize Examples.badRoute) = None
  /\ (forall E sizeScale labelHeight hasUnknown,
        clampedY E sizeScale labelHeight (scaleOfNaN hasUnknown) = Input.NaN)
  /\ (forall lo hi, ~ Input.between lo hi Input.NaN).
Proof.
  split; [reflexivity |]. split; [reflexivity |]. split.
  - intros E s h [|]; reflexivity.
  - intros lo hi H. exact H.
Qed.

(** C1, for points with finite coordinates: in both layout modes every node
    lies inside the padded canvas.  This holds for the geographic layout as
    the page first computes it, for every state the page can reach
    afterwards (whichever layout is active, however often the button was
    clicked), and right after each of the two layouts of the button; no
    layout adds or removes a node. *)
Theorem C1_positions_within_padding (E : Env) (input : list Input.NPoint)
        (points : list Point) :
  measuresNonnegative E ->
  finitePoints input = Some points ->
  points <> [] ->
  (List.length (fst (geographicLayout E points)) = List.length points
   /\ forall p, In p (fst (geographicLayout E points)) ->
                pad <= x p <= width E - pad /\ pad <= y p <= height E - pad) /\
  (forall st, reachable E points st ->
     List.length (nodePositions st) = List.length points
     /\ forall p, In p (nodePositions st) ->
                  pad <= x p <= width E - pad /\ pad <= y p <= height E - pad) /\
  (forall st target, reachable E points st ->
     forall p, In p (nodePositions (applyUniformLinkLayout E points target st)) ->
               pad <= x p <= width E - pad /\ pad <= y p <= height E - pad) /\
  (forall st p, In p (nodePositions (revertToGeographic E points st)) ->
                pad <= x p <= width E - pad /\ pad <= y p <= height E - pad).
Proof.
  intros HE _ _.
  assert (Hc : forall i p, inBounds E (computePosition E points i p)).
  { intros i p. now apply computePosition_inBounds. }
  pose proof (geographicLayout_ok E points (inBounds E)
                (inBounds_written E) (inBounds_drawn E) Hc) as [Hg1 Hg2].
  pose proof (reachable_ok E points (inBounds E)
                (inBounds_written E) (inBounds_drawn E) Hc) as Hr.
  split; [| split; [| split]].
  - split; [exact Hg1 |]. intros p Hp. rewrite Forall_forall in Hg2. exact (Hg2 p Hp).
  - intros st Hst. destruct (Hr st Hst) as [H1 H2].
    split; [exact H1 |]. intros p Hp. rewrite Forall_forall in H2. exact (H2 p Hp).
  - intros st target Hst p Hp.
    destruct (applyUniformLinkLayout_ok E points (inBounds E) (inBounds_written E)
                target st (Hr st Hst)) as [_ H2].
    rewrite Forall_forall in H2. exact (H2 p Hp).
  - intros st p Hp.
    destruct (revertToGeographic_ok E points (inBounds E) (inBounds_written E) Hc st)
      as [_ H2].
    rewrite Forall_forall in H2. exact (H2 p Hp).
Qed.

(** ** The traveller after a change of layout *)

Lemma travellerToStart_at (l : list NodePos) (tr : R * R) :
  l <> [] ->
  exists p, nth_error l 0 = Some p /\ travellerToStart l tr = (x p, y p).
Proof.
  intros Hl. destruct l as [|p t]; [congruence |].
  exists p. split; reflexivity.
Qed.

Lemma layout_nonempty (n : nat) (l : list NodePos) :
  layoutOk (fun _ => True) n l -> n <> 0%nat -> l <> [].
Proof. intros [Hlen _] Hn ->. simpl in Hlen. congruence. Qed.

Section Traveller.

Variable E : Env.
Variable points : list Point.
Hypothesis points_nonempty : points <> [].

Lemma n_nonzero : List.length points <> 0%nat.
Proof.
  destruct points; [congruence | simpl; congruence].
Qed.

Lemma anyLayout_reachable (st : App) :
  reachable E points st -> layoutOk (fun _ => True) (List.length points) (nodePositions st).
Proof. apply reachable_ok; auto. Qed.

Lemma applyUniformLinkLayout_frame (target : R) (st : App) :
  let st' := applyUniformLinkLayout E points target st in
  playing st' = playing st /\ speed st' = speed st
  /\ currentIndex st' = currentIndex st /\ isUniform st' = isUniform st
  /\ frameCallbacks st' = frameCallbacks st /\ timeouts st' = timeouts st.
Proof.
  cbv zeta. unfold applyUniformLinkLayout.
  destruct (List.length points <=? 1)%nat; repeat split; reflexivity.
Qed.

Lemma revertToGeographic_frame (st : App) :
  let st' := revertToGeographic E points st in
  playing st' = playing st /\ speed st' = speed st
  /\ currentIndex st' = currentIndex st /\ isUniform st' = isUniform st
  /\ frameCallbacks st' = frameCallbacks st /\ timeouts st' = timeouts st.
Proof.
  cbv zeta. unfold revertToGeographic.
  destruct (relaxLoop E points 20 (computeAllPositions E points) (randomCalls st)).
  repeat split; reflexivity.
Qed.

Lemma revertToGeographic_traveller (st : App) :
  travellerAtStart (revertToGeographic E points st).
Proof.
  pose proof (revertToGeographic_ok E points (fun _ => True)
                (fun _ _ _ _ _ _ _ _ _ => I) (fun _ _ => I) st) as Hok.
  unfold travellerAtStart. revert Hok. unfold revertToGeographic.
  destruct (relaxLoop E points 20 (computeAllPositions E points) (randomCalls st))
    as [l c]. simpl. intros Hok.
  apply travellerToStart_at. exact (layout_nonempty _ _ Hok n_nonzero).
Qed.

Lemma applyUniformLinkLayout_traveller (target : R) (st : App) :
  layoutOk (fun _ => True) (List.length points) (nodePositions st) ->
  (List.length points = 1%nat -> travellerAtStart st) ->
  travellerAtStart (applyUniformLinkLayout E points target st).
Proof.
  intros Hok H1.
  pose proof (applyUniformLinkLayout_ok E points (fun _ => True)
                (fun _ _ _ _ _ _ _ _ _ => I) target st Hok) as Hok'.
  revert Hok'. unfold applyUniformLinkLayout.
  destruct (List.length points <=? 1)%nat eqn:Hn.
  - intros _. apply H1. apply Nat.leb_le in Hn.
    pose proof n_nonzero. lia.
  - cbv zeta. simpl. intros Hok'. unfold travellerAtStart. simpl.
    apply travellerToStart_at. exact (layout_nonempty _ _ Hok' n_nonzero).
Qed.

Lemma load_single : List.length points = 1%nat -> idleAtStart (load E points).
Proof.
  intros Hn. unfold load.
  pose proof (geographicLayout_ok E points (fun _ => True)
                (fun _ _ _ _ _ _ _ _ _ => I) (fun _ _ => I) (fun _ _ => I)) as Hok.
  destruct (geographicLayout E points) as [l c]. simpl in Hok.
  assert (Hidle : forall b, idleAtStart
            (set_isUniform
               (mkApp l (travellerToStart l
                           (travellerToStart (drawNode 0 (computeAllPositions E points))
                                             (0, 0)))
                      false (parseSpeed (speedRangeValue E)) 0 false c [] []) b)).
  { intros b. repeat split. unfold travellerAtStart. simpl.
    apply travellerToStart_at. exact (layout_nonempty _ _ Hok n_nonzero). }
  destruct (hasUniformBtn E).
  - unfold applyUniformLinkLayout. rewrite Hn. simpl. apply Hidle.
  - apply (Hidle false).
Qed.

Lemma handle_single (st : App) (e : Event) :
  List.length points = 1%nat -> idleAtStart st -> idleAtStart (handle E points st e).
Proof.
  intros Hn (Hf & Ht & Htr). destruct e; simpl.
  - unfold clickPlay. destruct (playing st); [now repeat split |].
    unfold playSequence. rewrite Hn. simpl. now repeat split.
  - now repeat split.
  - now repeat split.
  - unfold clickUniform. destruct (hasUniformBtn E); [| now repeat split].
    destruct (isUniform (set_isUniform st (negb (isUniform st)))).
    + unfold applyUniformLinkLayout. rewrite Hn. simpl. now repeat split.
    + destruct (revertToGeographic_frame (set_isUniform st (negb (isUniform st))))
        as (_ & _ & _ & _ & Hf' & Ht').
      repeat split.
      * now rewrite Hf'.
      * now rewrite Ht'.
      * apply revertToGeographic_traveller.
  - unfold animationFrame. rewrite Hf. simpl. now repeat split.
  - unfold timeout. rewrite Ht. now repeat split.
Qed.

Lemma reachable_single (st : App) :
  List.length points = 1%nat -> reachable E points st -> idleAtStart st.
Proof.
  intros Hn. induction 1 as [| st e Hr IH].
  - now apply load_single.
  - now apply handle_single.
Qed.

End Traveller.

(** C10: after the uniform layout is applied, and after the way back to the
    geographic layout, the traveller marker is on node 0 whatever the
    playback index is, and the playback index is what it was. *)
Theorem C10_toggle_moves_traveller_to_start
        (E : Env) (points : list Point) (st : App) :
  points <> [] ->
  hasUniformBtn E = true ->
  reachable E points st ->
  (forall target,
      travellerAtStart (applyUniformLinkLayout E points target st)
      /\ currentIndex (applyUniformLinkLayout E points target st) = currentIndex st) /\
  (travellerAtStart (revertToGeographic E points st)
   /\ currentIndex (revertToGeographic E points st) = currentIndex st) /\
  (travellerAtStart (clickUniform E points st)
   /\ currentIndex (clickUniform E points st) = currentIndex st
   /\ isUniform (clickUniform E points st) = negb (isUniform st)).
Proof.
  intros Hne Hbtn Hst.
  pose proof (anyLayout_reachable E points st Hst) as Hok.
  assert (H1 : List.length points = 1%nat -> travellerAtStart st).
  { intros Hn. now destruct (reachable_single E points Hne st Hn Hst) as (_ & _ & H). }
  assert (Hu : forall target s, nodePositions s = nodePositions st ->
                                traveller s = traveller st ->
             travellerAtStart (applyUniformLinkLayout E points target s)).
  { intros target s Hs1 Hs2.
    apply applyUniformLinkLayout_traveller; [exact Hne | now rewrite Hs1 |].
    intros Hn. destruct (H1 Hn) as (p & Hp1 & Hp2).
    exists p. now rewrite Hs1, Hs2. }
  split; [| split].
  - intros target. split; [now apply Hu |].
    now destruct (applyUniformLinkLayout_frame E points target st) as (_ & _ & H & _).
  - split; [now apply revertToGeographic_traveller |].
    now destruct (revertToGeographic_frame E points st) as (_ & _ & H & _).
  - unfold clickUniform. rewrite Hbtn.
    set (s := set_isUniform st (negb (isUniform st))).
    assert (Hs : isUniform s = negb (isUniform st)) by reflexivity.
    destruct (isUniform s) eqn:Hi.
    + split; [now apply Hu |].
      destruct (applyUniformLinkLayout_frame E points 320 s) as (_ & _ & Hc & Hiu & _).
      split; [exact Hc | now rewrite Hiu, Hi].
    + split; [now apply revertToGeographic_traveller |].
      destruct (revertToGeographic_frame E points s) as (_ & _ & Hc & Hiu & _).
      split; [exact Hc | now rewrite Hiu, Hi].
Qed.

(** ** The separation loop *)

Lemma or_else_same (a : R) : JsMath.or_else a 0 = a.
Proof. unfold JsMath.or_else. destruct (Req_dec_T a 0); congruence. Qed.

Lemma or_else_nonzero (a b : R) : a <> 0 -> JsMath.or_else a b = a.
Proof. intros H. unfold JsMath.or_else. destruct (Req_dec_T a 0); congruence. Qed.

Lemma set_xy_same (p : NodePos) : set_xy p (x p) (y p) = p.
Proof. destruct p; reflexivity. Qed.

Lemma xy_changed_false (a : NodePos) (new : R * R) :
  xy_changed a new = false -> new = (x a, y a).
Proof.
  unfold xy_changed. destruct new as [u v]; simpl.
  destruct (Req_dec_T u (x a)); [| discriminate].
  destruct (Req_dec_T v (y a)); [| discriminate].
  intros _. congruence.
Qed.

Lemma write_pair_same (i j : nat) (a b : NodePos) (l : list NodePos) :
  nth_error l i = Some a -> nth_error l j = Some b ->
  write_pair i j (x a, y a) (x b, y b) l = l.
Proof.
  intros Ha Hb. unfold write_pair; simpl. rewrite Ha.
  rewrite set_xy_same, (list_set_same _ _ _ Ha), Hb.
  now rewrite set_xy_same, (list_set_same _ _ _ Hb).
Qed.

Section SeparationPass.

Variable E : Env.
Variable points : list Point.
Variable l0 : list NodePos.

Lemma separatePair_quiet (i j : nat) (s : Relax) :
  quiet l0 (separatePair E points i j s) -> quiet l0 s /\ settledPair E points l0 i j.
Proof.
  unfold quiet, separatePair, settledPair.
  destruct (nth_error (nodes s) i) as [a|] eqn:Ha.
  2:{ intros [Hf Hn]. split; [now split |]. intros a b Ha'. rewrite <- Hn in Ha'. congruence. }
  destruct (nth_error (nodes s) j) as [b|] eqn:Hb.
  2:{ intros [Hf Hn]. split; [now split |]. intros a' b' _ Hb'. rewrite <- Hn in Hb'. congruence. }
  destruct (direction E a b (calls s)) as [[[dx dy] dist] rng'] eqn:Hd.
  destruct (Rlt_dec dist (minSep points i j a b)) as [Hlt | Hge].
  - destruct (pushed E a b dx dy dist (minSep points i j a b)) as [pa pb] eqn:Hp. simpl.
    intros [Hf Hn].
    apply orb_false_elim in Hf as [Hf Hcb]. apply orb_false_elim in Hf as [Hf Hca].
    apply xy_changed_false in Hca, Hcb. subst pa pb.
    rewrite (write_pair_same _ _ _ _ _ Ha Hb) in Hn.
    split; [now split |].
    intros a' b' Ha' Hb'. rewrite <- Hn in Ha', Hb'.
    assert (a' = a) by congruence. assert (b' = b) by congruence. subst a' b'.
    exists (calls s). rewrite Hd. cbn [fst snd]. right. exact Hp.
  - simpl. intros [Hf Hn]. split; [now split |].
    intros a' b' Ha' Hb'. rewrite <- Hn in Ha', Hb'.
    assert (a' = a) by congruence. assert (b' = b) by congruence. subst a' b'.
    exists (calls s). rewrite Hd. cbn [fst snd]. left. lra.
Qed.

(** Going back through a loop whose last state is quiet: every state was
    quiet and every index was settled. *)
Lemma fold_quiet {I : Type} (body : I -> Relax -> Relax) (G : I -> Prop) :
  (forall i s, quiet l0 (body i s) -> quiet l0 s /\ G i) ->
  forall (idx : list I) (s : Relax),
    quiet l0 (fold_left (fun acc i => body i acc) idx s) -> quiet l0 s /\ Forall G idx.
Proof.
  intros Hb. induction idx as [|i t IH]; intros s Hq; simpl in Hq.
  - split; [exact Hq | constructor].
  - destruct (IH _ Hq) as [Hq1 Ht]. destruct (Hb _ _ Hq1) as [Hq0 Hi].
    split; [exact Hq0 | now constructor].
Qed.

Lemma separationPass_quiet (s : Relax) :
  quiet l0 (separationPass E points s) ->
  quiet l0 s /\
  forall i j, (i < j < List.length points)%nat -> settledPair E points l0 i j.
Proof.
  unfold separationPass, for_range. intros Hq.
  apply (fold_quiet
           (fun i => for_range (i + 1) (List.length points)
                               (fun j => separatePair E points i j))
           (fun i => Forall (settledPair E points l0 i)
                            (seq (i + 1) (List.length points - (i + 1))))) in Hq.
  - destruct Hq as [Hq Hall]. split; [exact Hq |].
    intros i j Hij. rewrite Forall_forall in Hall.
    assert (Hi : In i (seq 0 (List.length points - 0))) by (apply in_seq; lia).
    specialize (Hall i Hi). rewrite Forall_forall in Hall.
    apply Hall. apply in_seq. lia.
  - intros i s1 Hq1. unfold for_range in Hq1.
    apply (fold_quiet (fun j => separatePair E points i j)
                      (settledPair E points l0 i)) in Hq1; [exact Hq1 |].
    intros j s2. apply separatePair_quiet.
Qed.

End SeparationPass.

(** A pass that starts with [moved = false] and ends so has changed
    nothing. *)
Lemma separatePair_unmoved (E : Env) (points : list Point) (l0 : list NodePos)
      (i j : nat) (s : Relax) :
  (flag s = false -> nodes s = l0) ->
  flag (separatePair E points i j s) = false ->
  nodes (separatePair E points i j s) = l0.
Proof.
  intros Hinv. unfold separatePair.
  destruct (nth_error (nodes s) i) as [a|] eqn:Ha; [| exact Hinv].
  destruct (nth_error (nodes s) j) as [b|] eqn:Hb; [| exact Hinv].
  destruct (direction E a b (calls s)) as [[[dx dy] dist] rng'].
  destruct (Rlt_dec dist (minSep points i j a b)); [| exact Hinv].
  destruct (pushed E a b dx dy dist (minSep points i j a b)) as [pa pb]. simpl.
  intros Hf.
  apply orb_false_elim in Hf as [Hf Hcb]. apply orb_false_elim in Hf as [Hf Hca].
  apply xy_changed_false in Hca, Hcb. subst pa pb.
  rewrite (write_pair_same _ _ _ _ _ Ha Hb). now apply Hinv.
Qed.

Lemma separationPass_unmoved (E : Env) (points : list Point) (l0 : list NodePos) (c : nat) :
  flag (separationPass E points (mkRelax l0 c false)) = false ->
  nodes (separationPass E points (mkRelax l0 c false)) = l0.
Proof.
  unfold separationPass.
  apply (for_range_ind (fun s => flag s = false -> nodes s = l0)); [| reflexivity].
  intros i s1.
  apply (for_range_ind (fun s => flag s = false -> nodes s = l0)).
  intros j s2. apply separatePair_unmoved.
Qed.

(** When the loop leaves through [break], the last pass has found every
    pair settled in the array it leaves. *)
Lemma separationLoop_settled (E : Env) (points : list Point) (k : nat)
      (l : list NodePos) (c : nat) (l' : list NodePos) (c' : nat) :
  separationLoop E points k l c = (l', c', true) ->
  forall i j, (i < j < List.length points)%nat -> settledPair E points l' i j.
Proof.
  revert l c. induction k as [|k IH]; intros l c; simpl; [discriminate |].
  destruct (flag (separationPass E points (mkRelax l c false))) eqn:Hf.
  - apply IH.
  - intros Heq. injection Heq as Hl Hc.
    pose proof (separationPass_unmoved E points l c Hf) as Hn.
    assert (Hq : flag (separationPass E points (mkRelax l c false)) = false
                 /\ nodes (separationPass E points (mkRelax l c false)) = l').
    { split; [exact Hf | exact Hl]. }
    apply (separationPass_quiet E points l') in Hq. apply Hq.
Qed.

(** *** A push that the clamp undoes *)

Lemma clamp_fixed_below (lo hi u v : R) :
  lo <= hi -> v < u -> u <= hi -> JsMath.max lo (JsMath.min hi v) = u -> u = lo.
Proof.
  intros Hlh Hvu Huh. unfold JsMath.max, JsMath.min.
  rewrite Rmin_right by lra.
  destruct (Rle_dec lo v).
  - rewrite Rmax_right by assumption. lra.
  - rewrite Rmax_left by lra. congruence.
Qed.

Lemma clamp_fixed_above (lo hi u v : R) :
  lo <= hi -> u < v -> lo <= u -> JsMath.max lo (JsMath.min hi v) = u -> u = hi.
Proof.
  intros Hlh Huv Hlu. unfold JsMath.max, JsMath.min.
  destruct (Rle_dec v hi).
  - rewrite Rmin_right by assumption. rewrite Rmax_right by lra. lra.
  - rewrite Rmin_left by lra. rewrite Rmax_right by lra. congruence.
Qed.

Lemma pinnedOn_of_absorbed (lo hi u v n o : R) :
  lo <= hi -> lo <= u <= hi -> lo <= v <= hi -> 0 < o ->
  (0 < n <-> u < v) -> (n < 0 <-> v < u) ->
  JsMath.max lo (JsMath.min hi (u - n * o)) = u ->
  JsMath.max lo (JsMath.min hi (v + n * o)) = v ->
  pinnedOn lo hi u v.
Proof.
  intros Hlh Hu Hv Ho Hpos Hneg Hcu Hcv. unfold pinnedOn.
  destruct (Rtotal_order u v) as [Huv | [Huv | Huv]].
  - right; left.
    assert (Hn : 0 < n) by (apply Hpos; exact Huv).
    assert (Hno : 0 < n * o) by (apply Rmult_lt_0_compat; assumption).
    split.
    + apply (clamp_fixed_below lo hi u (u - n * o)); lra.
    + apply (clamp_fixed_above lo hi v (v + n * o)); lra.
  - left. exact Huv.
  - right; right.
    assert (Hn : n < 0) by (apply Hneg; exact Huv).
    assert (Hno : n * o < 0).
    { replace (n * o) with (- ((- n) * o)) by ring.
      assert (0 < (- n) * o) by (apply Rmult_lt_0_compat; lra). lra. }
    split.
    + apply (clamp_fixed_above lo hi u (u - n * o)); lra.
    + apply (clamp_fixed_below lo hi v (v + n * o)); lra.
Qed.

Lemma div_sign (d dist : R) :
  0 < dist -> (0 < d / dist <-> 0 < d) /\ (d / dist < 0 <-> d < 0).
Proof.
  intros Hd. assert (Hi : 0 < / dist) by now apply Rinv_0_lt_compat.
  unfold Rdiv. split; split; intros H; nra.
Qed.

Lemma absorbed_pinned (E : Env) (a b : NodePos) (sep : R) :
  inBounds E a -> inBounds E b ->
  pixelDistance a b <> 0 ->
  pixelDistance a b < sep ->
  pushed E a b (x b - x a) (y b - y a) (pixelDistance a b) sep
  = ((x a, y a), (x b, y b)) ->
  pinned E a b.
Proof.
  intros [Hax Hay] [Hbx Hby] Hd Hlt. unfold pushed.
  rewrite (or_else_nonzero _ _ Hd).
  assert (Hpos : 0 < pixelDistance a b).
  { pose proof (hypot_nonneg (x b - x a) (y b - y a)). unfold pixelDistance in *. lra. }
  intros Heq. injection Heq as H1 H2 H3 H4.
  pose proof (width_ge E) as Hw. pose proof (height_ge E) as Hh.
  destruct (div_sign (x b - x a) _ Hpos) as [Hx1 Hx2].
  destruct (div_sign (y b - y a) _ Hpos) as [Hy1 Hy2].
  split.
  - apply (pinnedOn_of_absorbed pad (width E - pad) (x a) (x b)
             ((x b - x a) / pixelDistance a b) ((sep - pixelDistance a b) / 2));
      try assumption; unfold pad; lra.
  - apply (pinnedOn_of_absorbed pad (height E - pad) (y a) (y b)
             ((y b - y a) / pixelDistance a b) ((sep - pixelDistance a b) / 2));
      try assumption; unfold pad; lra.
Qed.

(** A collinearity pass that reports no adjustment has changed nothing. *)
Lemma nudgeTriple_unmoved (E : Env) (points : list Point) (l0 : list NodePos)
      (i j k : nat) (s : Relax) :
  (flag s = false -> nodes s = l0) ->
  flag (nudgeTriple E points i j k s) = false ->
  nodes (nudgeTriple E points i j k s) = l0.
Proof.
  intros Hinv. unfold nudgeTriple.
  destruct ((i =? j)%nat || (j =? k)%nat || (i =? k)%nat); [exact Hinv |].
  destruct (nth_error (nodes s) i) as [a|]; [| exact Hinv].
  destruct (nth_error (nodes s) j) as [b|]; [| exact Hinv].
  destruct (nth_error (nodes s) k) as [c|]; [| exact Hinv].
  cbv zeta.
  destruct (Rlt_dec _ 1e-6); [exact Hinv |].
  destruct (Rlt_dec _ 1e-6); [exact Hinv |].
  match goal with |- context [if ?c then _ else _] => destruct c end; [| exact Hinv].
  simpl. discriminate.
Qed.

Lemma resolveCollinearity_unmoved (E : Env) (points : list Point)
      (l0 : list NodePos) (c : nat) :
  flag (resolveCollinearity E points l0 c) = false ->
  nodes (resolveCollinearity E points l0 c) = l0.
Proof.
  unfold resolveCollinearity.
  apply (for_range_ind (fun s => flag s = false -> nodes s = l0)); [| reflexivity].
  intros i s1.
  apply (for_range_ind (fun s => flag s = false -> nodes s = l0)). intros j s2.
  apply (for_range_ind (fun s => flag s = false -> nodes s = l0)). intros k s3.
  apply nudgeTriple_unmoved.
Qed.

(** ** Two stops on a meridian in a small viewport *)

Lemma hypot_0_abs (v : R) : JsMath.hypot 0 v = Rabs v.
Proof.
  unfold JsMath.hypot. replace (0 * 0 + v * v) with (Rsqr v) by (unfold Rsqr; ring).
  apply sqrt_Rsqr_abs.
Qed.

(** Along a meridian the distance is the arc of the difference of the
    latitudes. *)
Lemma haversineKm_meridian (lat1 lat2 lon : R) :
  0 <= lat2 - lat1 < 180 ->
  haversineKm lat1 lon lat2 lon = 6371 * ((lat2 - lat1) * PI / 180).
Proof.
  intros [Hlo Hhi]. pose proof PI_bounds as [Hp1 Hp2].
  unfold haversineKm, toRad, JsMath.sin, JsMath.cos, JsMath.sqrt. cbv zeta.
  replace ((lon - lon) * PI / 180 / 2) with 0 by field.
  rewrite sin_0.
  set (u := (lat2 - lat1) * PI / 180 / 2).
  assert (Hu : 0 <= u < PI / 2).
  { unfold u. split.
    - apply Rmult_le_pos; [| lra]. apply Rmult_le_pos; [| lra].
      apply Rmult_le_pos; lra.
    - assert ((lat2 - lat1) * PI < 180 * PI) by (apply Rmult_lt_compat_r; lra). lra. }
  set (s := Rtrigo_def.sin u). set (c := Rtrigo_def.cos u).
  assert (Hs : 0 <= s) by (apply sin_ge_0; lra).
  assert (Hc : 0 < c) by (apply cos_gt_0; lra).
  assert (Hsc : s * s + c * c = 1).
  { pose proof (sin2_cos2 u) as H. unfold Rsqr in H. exact H. }
  match goal with
  | |- context [R_sqrt.sqrt (1 - ?a)] => replace a with (s * s) by ring
  end.
  replace (1 - s * s) with (c * c) by lra.
  rewrite !sqrt_square by lra.
  rewrite atan2_pos_x by exact Hc.
  change (s / c) with (tan u).
  rewrite atan_tan by lra.
  unfold u. field.
Qed.

Lemma Rpower_2_06 : 1 < Rpower 2 0.6 < 2.
Proof.
  split.
  - rewrite <- (Rpower_O 2) by lra. apply Rpower_lt; lra.
  - rewrite <- (Rpower_1 2) at 2 by lra. apply Rpower_lt; lra.
Qed.

Section TwoStops.

Variable w : R.
Hypothesis w_range : 0 < w <= 520.

Local Abbreviation E := (Examples.viewport w).
Local Abbreviation pts := Examples.twoStops.

Lemma viewport_width : width E = 600.
Proof. unfold width, Examples.viewport, JsMath.max; simpl. apply Rmax_left; lra. Qed.

Lemma viewport_height : height E = 400.
Proof. unfold height, Examples.viewport, JsMath.max; simpl. apply Rmax_left; lra. Qed.

Lemma twoStops_nodeSize : nodeSize pts = 24.
Proof.
  unfold nodeSize, Examples.twoStops, JsMath.max, JsMath.min. simpl List.length.
  replace (600 / INR 2) with (IZR 300) by (simpl; field).
  rewrite round_IZR. rewrite Rmin_left by lra. apply Rmax_right; lra.
Qed.

Lemma twoStops_nodeFont : nodeFont pts = 20.
Proof.
  unfold nodeFont. rewrite twoStops_nodeSize. unfold JsMath.max, JsMath.min.
  pose proof (round_bounds (24 * 0.9)) as [Hr _].
  rewrite Rmin_left by lra. apply Rmax_right; lra.
Qed.

Lemma twoStops_xScale : xScale E pts 0 = 300.
Proof.
  unfold xScale. rewrite viewport_width.
  unfold lonTDomain, lonTrans, lonCenter, lonDomain, longitudes, Examples.twoStops.
  cbn [map lng d3_min d3_max fold_left].
  rewrite (Rmin_left 0 0), (Rmax_left 0 0) by lra.
  assert (Hw : widen 0 0 = (0 - 0.5, 0 + 0.5)).
  { unfold widen, JsMath.abs. replace (0 - 0) with 0 by ring. rewrite Rabs_R0.
    destruct (Rlt_dec 0 1e-6); [reflexivity | lra]. }
  rewrite Hw. cbn [fst snd].
  replace ((0 - 0.5 + (0 + 0.5)) / 2) with 0 by field.
  assert (Hc : compress 0 0 = 0).
  { unfold compress. replace (0 - 0) with 0 by ring. rewrite sign_zero. ring. }
  rewrite Hc.
  rewrite (Rmin_left 0 0), (Rmax_left 0 0) by lra. rewrite Hw. cbn [fst snd].
  unfold scaleLinear, pad.
  destruct (Req_dec_T (0 + 0.5 - (0 - 0.5)) 0); [lra |]. field. lra.
Qed.

(** The two latitudes fall outside the compressed domain: the raw [y] of the
    southern stop is below the canvas and that of the northern stop above. *)
Lemma twoStops_yScale : 360 < yScale E pts 0 /\ yScale E pts 4 < 40.
Proof.
  pose proof Rpower_2_06 as [Hc1 Hc2].
  unfold yScale. rewrite viewport_height.
  unfold latTDomain, latTrans, latCenter, latDomain, latitudes, Examples.twoStops.
  cbn [map lat d3_min d3_max fold_left].
  rewrite (Rmin_left 0 4), (Rmax_right 0 4) by lra.
  assert (Hw : widen 0 4 = (0, 4)).
  { unfold widen, JsMath.abs. rewrite Rabs_pos_eq by lra.
    destruct (Rlt_dec (4 - 0) 1e-6); [lra | reflexivity]. }
  rewrite Hw. cbn [fst snd].
  replace ((0 + 4) / 2) with 2 by field.
  set (c := Rpower 2 0.6) in *.
  assert (H0 : compress 2 0 = 2 - c).
  { destruct (compress_offset 2 0) as (H & _ & _).
    destruct H as [H _]; [lra |].
    replace (2 - 0) with 2 in H by ring.
    unfold JsMath.pow, compressionExp in H.
    destruct (Req_dec_T 2 0); [lra |]. fold c in H. lra. }
  assert (H4 : compress 2 4 = 2 + c).
  { destruct (compress_offset 2 4) as (_ & _ & H).
    destruct H as [H _]; [lra |].
    replace (4 - 2) with 2 in H by ring.
    unfold JsMath.pow, compressionExp in H.
    destruct (Req_dec_T 2 0); [lra |]. fold c in H. lra. }
  rewrite H0, H4.
  rewrite (Rmin_left (2 - c) (2 + c)), (Rmax_right (2 - c) (2 + c)) by lra.
  assert (Hw2 : widen (2 - c) (2 + c) = (2 - c, 2 + c)).
  { unfold widen, JsMath.abs. rewrite Rabs_pos_eq by lra.
    destruct (Rlt_dec (2 + c - (2 - c)) 1e-6); [lra | reflexivity]. }
  rewrite Hw2. cbn [fst snd].
  unfold scaleLinear, pad.
  destruct (Req_dec_T (2 - c - (2 + c)) 0); [lra |].
  assert (Hi : 0 < / c) by (apply Rinv_0_lt_compat; lra).
  assert (Hci : c * / c = 1) by (apply Rinv_r; lra).
  replace ((0 - (2 + c)) / (2 - c - (2 + c))) with (/ c + / 2) by (field; lra).
  replace ((4 - (2 + c)) / (2 - c - (2 + c))) with (/ 2 - / c) by (field; lra).
  assert (Hh : / 2 < / c) by nra.
  split; nra.
Qed.

Lemma twoStops_proximity : proximityFactor pts 0 1 = 1.6.
Proof.
  pose proof PI_bounds as [Hp1 Hp2].
  unfold proximityFactor, realKm, Examples.twoStops. simpl.
  rewrite haversineKm_meridian by lra.
  destruct (Rlt_dec (6371 * ((4 - 0) * PI / 180)) 1000); [reflexivity | lra].
Qed.

(** The two entries as [computeAllPositions] leaves them. *)
Lemma twoStops_positions :
  exists a b,
    computeAllPositions E pts = [a; b]
    /\ (x a = 300 /\ y a = 308 /\ sizeScale a = 24 /\ labelWidth a = w)
    /\ (x b = 300 /\ y b = 64 /\ sizeScale b = 24 /\ labelWidth b = w).
Proof.
  destruct twoStops_yScale as [Hy0 Hy4].
  unfold computeAllPositions. unfold Examples.twoStops at 2.
  cbn [computeFrom].
  eexists. eexists. split; [reflexivity |].
  unfold computePosition. cbv zeta. cbn [x y sizeScale labelWidth lat lng].
  fold Examples.twoStops.
  rewrite viewport_width, viewport_height, twoStops_nodeSize, twoStops_nodeFont.
  rewrite twoStops_xScale.
  assert (Hm : forall l, measure E l 20 = (w, 24)) by reflexivity.
  rewrite !Hm. cbn [fst snd].
  rewrite (or_else_nonzero 24) by lra.
  unfold pad, JsMath.max, JsMath.min.
  rewrite (Rmin_right (600 - 2 * 40) w) by lra.
  repeat split.
  - rewrite Rmin_right by lra. rewrite Rmax_right by lra. reflexivity.
  - rewrite Rmin_left by lra. rewrite Rmax_right by lra. lra.
  - rewrite Rmin_right by lra. rewrite Rmax_right by lra. reflexivity.
  - rewrite Rmin_right by lra. rewrite Rmax_left by lra. lra.
Qed.

End TwoStops.

(** *** Passes over two nodes *)

Lemma separationPass_two (E : Env) (points : list Point) (s : Relax) :
  List.length points = 2%nat ->
  separationPass E points s = separatePair E points 0 1 s.
Proof. intros H. unfold separationPass, for_range. rewrite H. reflexivity. Qed.

Lemma relaxPass_two (E : Env) (points : list Point) (s : Relax) :
  List.length points = 2%nat ->
  relaxPass E points s = relaxPair E 0 1 s.
Proof. intros H. unfold relaxPass, for_range. rewrite H. reflexivity. Qed.

(** Two nodes make no triple. *)
Lemma resolveCollinearity_two (E : Env) (points : list Point)
      (l : list NodePos) (c : nat) :
  List.length points = 2%nat ->
  resolveCollinearity E points l c = mkRelax l c false.
Proof. intros H. unfold resolveCollinearity, for_range. rewrite H. reflexivity. Qed.

Lemma collinearityLoop_two (E : Env) (points : list Point)
      (l : list NodePos) (c : nat) :
  List.length points = 2%nat ->
  collinearityLoop E points 6 l c = (l, c).
Proof.
  intros H. cbn [collinearityLoop]. rewrite (resolveCollinearity_two E points l c H).
  reflexivity.
Qed.

(** Two nodes on one vertical line, [a] below [b] and too close: the push is
    vertical. *)
Lemma pushed_vertical (E : Env) (a b : NodePos) (sep : R) :
  x a = x b -> pad <= x a <= width E - pad -> y b < y a ->
  pushed E a b (x b - x a) (y b - y a) (y a - y b) sep
  = ((x a, clampY E (y a + (sep - (y a - y b)) / 2)),
     (x b, clampY E (y b - (sep - (y a - y b)) / 2))).
Proof.
  intros Hx Hax Hy. unfold pushed.
  rewrite or_else_nonzero by lra.
  replace (x b - x a) with 0 by lra.
  replace ((y b - y a) / (y a - y b)) with (-1) by (field; lra).
  replace (0 / (y a - y b)) with 0 by (field; lra).
  replace (x a - 0 * ((sep - (y a - y b)) / 2)) with (x a) by ring.
  replace (x b + 0 * ((sep - (y a - y b)) / 2)) with (x b) by ring.
  rewrite !clampX_id by lra.
  replace (y a - -1 * ((sep - (y a - y b)) / 2))
    with (y a + (sep - (y a - y b)) / 2) by ring.
  replace (y b + -1 * ((sep - (y a - y b)) / 2))
    with (y b - (sep - (y a - y b)) / 2) by ring.
  reflexivity.
Qed.

Lemma direction_vertical (E : Env) (a b : NodePos) (c : nat) :
  x a = x b -> y b < y a ->
  direction E a b c = (x b - x a, y b - y a, y a - y b, c).
Proof.
  intros Hx Hy. unfold direction.
  assert (Hd : JsMath.hypot (x b - x a) (y b - y a) = y a - y b).
  { replace (x b - x a) with 0 by lra. rewrite hypot_0_abs.
    rewrite Rabs_left by lra. ring. }
  rewrite Hd. destruct (Req_dec_T (y a - y b) 0); [lra | reflexivity].
Qed.

Lemma separatePair_vertical (E : Env) (points : list Point) (a b : NodePos)
      (c : nat) (f : bool) :
  x a = x b -> pad <= x a <= width E - pad -> y b < y a ->
  y a - y b < minSep points 0 1 a b ->
  let o := (minSep points 0 1 a b - (y a - y b)) / 2 in
  let pa := (x a, clampY E (y a + o)) in
  let pb := (x b, clampY E (y b - o)) in
  separatePair E points 0 1 (mkRelax [a; b] c f)
  = mkRelax [set_xy a (fst pa) (snd pa); set_xy b (fst pb) (snd pb)] c
            (f || xy_changed a pa || xy_changed b pb).
Proof.
  intros Hx Hax Hy Hlt. cbv zeta.
  unfold separatePair. cbn [nodes calls flag nth_error].
  rewrite (direction_vertical E a b c Hx Hy).
  destruct (Rlt_dec (y a - y b) (minSep points 0 1 a b)); [| lra].
  rewrite (pushed_vertical E a b _ Hx Hax Hy). reflexivity.
Qed.

Lemma separatePair_far (E : Env) (points : list Point) (a b : NodePos)
      (c : nat) (f : bool) :
  x a = x b -> y b < y a ->
  minSep points 0 1 a b <= y a - y b ->
  separatePair E points 0 1 (mkRelax [a; b] c f) = mkRelax [a; b] c f.
Proof.
  intros Hx Hy Hge.
  unfold separatePair. cbn [nodes calls flag nth_error].
  rewrite (direction_vertical E a b c Hx Hy).
  destruct (Rlt_dec (y a - y b) (minSep points 0 1 a b)); [lra | reflexivity].
Qed.

Lemma relaxPair_far (E : Env) (a b : NodePos) (c : nat) (f : bool) :
  x a = x b -> y b < y a ->
  baseSep a b <= y a - y b ->
  relaxPair E 0 1 (mkRelax [a; b] c f) = mkRelax [a; b] c f.
Proof.
  intros Hx Hy Hge.
  unfold relaxPair. cbn [nodes calls flag nth_error].
  rewrite (direction_vertical E a b c Hx Hy).
  destruct (Rlt_dec (y a - y b) (baseSep a b)); [lra | reflexivity].
Qed.

Lemma xy_changed_true_y (a : NodePos) (u v : R) : v <> y a -> xy_changed a (u, v) = true.
Proof.
  intros H. unfold xy_changed; simpl.
  destruct (Req_dec_T u (x a)); [| reflexivity].
  destruct (Req_dec_T v (y a)); [contradiction | reflexivity].
Qed.

Lemma xy_changed_same (a : NodePos) : xy_changed a (x a, y a) = false.
Proof.
  unfold xy_changed; simpl.
  destruct (Req_dec_T (x a) (x a)); [| congruence].
  destruct (Req_dec_T (y a) (y a)); [reflexivity | congruence].
Qed.

Lemma baseSep_24 (a b : NodePos) (w : R) :
  sizeScale a = 24 -> sizeScale b = 24 -> labelWidth a = w -> labelWidth b = w ->
  baseSep a b = 56 + w / 2.
Proof.
  intros H1 H2 H3 H4. unfold baseSep. rewrite H1, H2, H3, H4, or_else_same.
  unfold JsMath.max. rewrite Rmax_left by lra. lra.
Qed.

Lemma drawNode_0_two (a b : NodePos) :
  exists a', drawNode 0 [a; b] = [a'; b]
             /\ x a' = x a /\ y a' = y a
             /\ sizeScale a' = sizeScale a /\ labelWidth a' = labelWidth a.
Proof.
  unfold drawNode. cbn [nth_error].
  destruct (_drawn a).
  - exists a. repeat split.
  - exists (set_drawn a). repeat split.
Qed.

Lemma separationLoop_step (E : Env) (points : list Point) (k : nat)
      (l : list NodePos) (c : nat) (s : Relax) :
  separationPass E points (mkRelax l c false) = s ->
  separationLoop E points (S k) l c
  = if flag s then separationLoop E points k (nodes s) (calls s)
    else (nodes s, calls s, true).
Proof. intros <-. reflexivity. Qed.

Lemma relaxLoop_step (E : Env) (points : list Point) (k : nat)
      (l : list NodePos) (c : nat) (s : Relax) :
  relaxPass E points (mkRelax l c false) = s ->
  relaxLoop E points (S k) l c
  = if flag s then relaxLoop E points k (nodes s) (calls s)
    else (nodes s, calls s).
Proof. intros <-. reflexivity. Qed.

Section MeridianPasses.

Variable w : R.
Hypothesis w_range : 0 < w <= 520.

Local Abbreviation E := (Examples.viewport w).
Local Abbreviation pts := Examples.twoStops.

Lemma column_computed : column w (computeAllPositions E pts) 308 64.
Proof.
  destruct (twoStops_positions w w_range) as (a & b & Hl & Ha & Hb).
  exists a, b. repeat split; tauto.
Qed.

Lemma column_drawn (l : list NodePos) (ya yb : R) :
  column w l ya yb -> column w (drawNode 0 l) ya yb.
Proof.
  intros (a & b & -> & (Ha1 & Ha2 & Ha3 & Ha4) & Hb).
  destruct (drawNode_0_two a b) as (a' & Hd & H1 & H2 & H3 & H4).
  exists a', b. rewrite Hd. repeat split; try tauto; congruence.
Qed.

Lemma column_coords (l : list NodePos) (ya yb : R) :
  column w l ya yb -> coords l = [(300, ya); (300, yb)].
Proof.
  intros (a & b & -> & (Ha1 & Ha2 & _) & (Hb1 & Hb2 & _)).
  unfold coords; simpl. now rewrite Ha1, Ha2, Hb1, Hb2.
Qed.

Lemma column_minSep (a b : NodePos) :
  sizeScale a = 24 -> sizeScale b = 24 -> labelWidth a = w -> labelWidth b = w ->
  minSep pts 0 1 a b = (56 + w / 2) * 1.6.
Proof.
  intros H1 H2 H3 H4. unfold minSep.
  rewrite (baseSep_24 a b w H1 H2 H3 H4). now rewrite twoStops_proximity.
Qed.

Lemma viewport_clampY (v : R) : clampY E v = Rmax 40 (Rmin 360 v).
Proof.
  unfold clampY. rewrite (viewport_height w).
  unfold pad, JsMath.max, JsMath.min. replace (400 - 40) with 360 by lra. reflexivity.
Qed.

(** A pass over a column whose nodes are too close: both are pushed, as far
    as the clamp lets them, and the pass reports whether one of them has
    moved. *)
Lemma column_push (l : list NodePos) (ya yb : R) (c : nat) :
  column w l ya yb ->
  40 <= yb -> yb < ya -> ya <= 360 ->
  ya - yb < (56 + w / 2) * 1.6 ->
  let o := ((56 + w / 2) * 1.6 - (ya - yb)) / 2 in
  exists l' f,
    separationPass E pts (mkRelax l c false) = mkRelax l' c f
    /\ column w l' (Rmin 360 (ya + o)) (Rmax 40 (yb - o))
    /\ (ya + o <= 360 \/ 40 <= yb - o \/ ya < 360 \/ 40 < yb -> f = true)
    /\ (360 <= ya + o -> yb - o <= 40 -> ya = 360 -> yb = 40 -> f = false).
Proof.
  intros (a & b & -> & (Ha1 & Ha2 & Ha3 & Ha4) & (Hb1 & Hb2 & Hb3 & Hb4)) H40 Hlt H360 Hsep.
  cbv zeta.
  pose proof (column_minSep a b Ha3 Hb3 Ha4 Hb4) as Hm.
  rewrite (separationPass_two E pts _ eq_refl).
  assert (Hx : x a = x b) by congruence.
  assert (Hax : pad <= x a <= width E - pad).
  { rewrite (viewport_width w). unfold pad. lra. }
  rewrite (separatePair_vertical E pts a b c false Hx Hax) by (rewrite ?Hm; lra).
  cbv zeta. cbn [fst snd orb]. rewrite Hm, Ha2, Hb2, !viewport_clampY.
  set (o := ((56 + w / 2) * 1.6 - (ya - yb)) / 2).
  assert (Ho : 0 < o) by (unfold o; lra).
  assert (Hya : Rmax 40 (Rmin 360 (ya + o)) = Rmin 360 (ya + o)).
  { apply Rmax_right. apply Rmin_glb; lra. }
  assert (Hyb : Rmin 360 (yb - o) = yb - o) by (apply Rmin_right; lra).
  rewrite Hya, Hyb.
  eexists. eexists. split; [reflexivity |]. split.
  - eexists. eexists. split; [reflexivity |]. cbn [x y sizeScale labelWidth set_xy].
    repeat split; assumption.
  - split.
    + intros Hmove.
      destruct (Rle_dec (ya + o) 360) as [Hr | Hr].
      * rewrite xy_changed_true_y; [reflexivity |].
        rewrite Rmin_right by lra. lra.
      * destruct (Rle_dec 40 (yb - o)) as [Hs | Hs].
        { rewrite (xy_changed_true_y b); [apply orb_true_r |].
          rewrite Rmax_right by lra. lra. }
        { destruct (Rlt_dec ya 360) as [Ht | Ht].
          - rewrite xy_changed_true_y; [reflexivity |].
            rewrite Rmin_left by lra. lra.
          - rewrite (xy_changed_true_y b); [apply orb_true_r |].
            rewrite Rmax_left by lra. lra. }
    + intros H1 H2 H3 H4.
      rewrite Rmin_left by lra. rewrite Rmax_left by lra.
      replace 360 with (y a) by lra. replace 40 with (y b) by lra.
      now rewrite !xy_changed_same.
Qed.

(** A pass over a column whose nodes are far enough apart changes nothing. *)
Lemma column_far (l : list NodePos) (ya yb : R) (c : nat) :
  column w l ya yb -> yb < ya ->
  (56 + w / 2) * 1.6 <= ya - yb ->
  separationPass E pts (mkRelax l c false) = mkRelax l c false.
Proof.
  intros (a & b & -> & (Ha1 & Ha2 & Ha3 & Ha4) & (Hb1 & Hb2 & Hb3 & Hb4)) Hlt Hsep.
  pose proof (column_minSep a b Ha3 Hb3 Ha4 Hb4) as Hm.
  rewrite (separationPass_two E pts _ eq_refl).
  apply separatePair_far; [congruence | lra | rewrite Hm; lra].
Qed.

(** The lighter pass of the way back asks for less. *)
Lemma column_relax_far (l : list NodePos) (ya yb : R) (c : nat) :
  column w l ya yb -> yb < ya ->
  56 + w / 2 <= ya - yb ->
  relaxPass E pts (mkRelax l c false) = mkRelax l c false.
Proof.
  intros (a & b & -> & (Ha1 & Ha2 & Ha3 & Ha4) & (Hb1 & Hb2 & Hb3 & Hb4)) Hlt Hsep.
  rewrite (relaxPass_two E pts _ eq_refl).
  apply relaxPair_far; [congruence | lra |].
  rewrite (baseSep_24 a b w Ha3 Hb3 Ha4 Hb4). lra.
Qed.

End MeridianPasses.

Lemma column_eq (w : R) (l : list NodePos) (ya yb ya' yb' : R) :
  ya = ya' -> yb = yb' -> column w l ya yb -> column w l ya' yb'.
Proof. intros -> ->. exact (fun H => H). Qed.

Lemma column_distance (w : R) (l : list NodePos) (ya yb : R) :
  column w l ya yb -> yb <= ya ->
  exists a b, nth_error l 0 = Some a /\ nth_error l 1 = Some b
              /\ pixelDistance a b = ya - yb
              /\ minSep Examples.twoStops 0 1 a b = (56 + w / 2) * 1.6.
Proof.
  intros (a & b & -> & (Ha1 & Ha2 & Ha3 & Ha4) & (Hb1 & Hb2 & Hb3 & Hb4)) Hle.
  exists a, b. repeat split.
  - unfold pixelDistance. replace (x b - x a) with 0 by lra.
    rewrite hypot_0_abs. rewrite Rabs_left1 by lra. lra.
  - unfold minSep. rewrite (baseSep_24 a b w Ha3 Hb3 Ha4 Hb4).
    now rewrite twoStops_proximity.
Qed.

(** *** Labels 400 pixels wide: the two stops end up pinned *)

Lemma cramped_separation :
  exists l,
    separationLoop (Examples.viewport 400) Examples.twoStops 25
      (drawNode 0 (computeAllPositions (Examples.viewport 400) Examples.twoStops)) 0
    = (l, 0%nat, true)
    /\ column 400 l 360 40.
Proof.
  assert (Hw : 0 < 400 <= 520) by lra.
  pose proof (column_drawn 400 Hw _ _ _ (column_computed 400 Hw)) as H0.
  destruct (column_push 400 _ 308 64 0%nat H0) as (l1 & f1 & Hp1 & Hc1 & Hf1 & _);
    try lra.
  rewrite (Hf1 ltac:(lra)) in Hp1.
  apply (column_eq 400 l1 _ _ 360 40) in Hc1;
    [| rewrite Rmin_left; lra | rewrite Rmax_left; lra].
  destruct (column_push 400 _ 360 40 0%nat Hc1) as (l2 & f2 & Hp2 & Hc2 & _ & Hf2);
    try lra.
  rewrite (Hf2 ltac:(lra) ltac:(lra) eq_refl eq_refl) in Hp2.
  apply (column_eq 400 l2 _ _ 360 40) in Hc2;
    [| rewrite Rmin_left; lra | rewrite Rmax_left; lra].
  exists l2. split; [| exact Hc2].
  rewrite (separationLoop_step _ _ 24 _ _ _ Hp1). cbn [flag nodes calls].
  rewrite (separationLoop_step _ _ 23 _ _ _ Hp2). reflexivity.
Qed.

Lemma cramped_layout :
  exists l,
    geographicLayout (Examples.viewport 400) Examples.twoStops = (l, 0%nat)
    /\ column 400 l 360 40.
Proof.
  destruct cramped_separation as (l & Hs & Hc).
  exists l. split; [| exact Hc].
  unfold geographicLayout, resolveCollisions. rewrite Hs.
  apply collinearityLoop_two. reflexivity.
Qed.

(** *** Labels 200 pixels wide: the way back differs from the first layout *)

Lemma roomy_layout :
  exists l,
    geographicLayout (Examples.viewport 200) Examples.twoStops = (l, 0%nat)
    /\ column 200 l 310.8 61.2.
Proof.
  assert (Hw : 0 < 200 <= 520) by lra.
  pose proof (column_drawn 200 Hw _ _ _ (column_computed 200 Hw)) as H0.
  destruct (column_push 200 _ 308 64 0%nat H0) as (l1 & f1 & Hp1 & Hc1 & Hf1 & _);
    try lra.
  rewrite (Hf1 ltac:(lra)) in Hp1.
  apply (column_eq 200 l1 _ _ 310.8 61.2) in Hc1;
    [| rewrite Rmin_right; lra | rewrite Rmax_right; lra].
  pose proof (column_far 200 l1 310.8 61.2 0%nat Hc1 ltac:(lra) ltac:(lra)) as Hp2.
  exists l1. split; [| exact Hc1].
  unfold geographicLayout, resolveCollisions.
  rewrite (separationLoop_step _ _ 24 _ _ _ Hp1). cbn [flag nodes calls].
  rewrite (separationLoop_step _ _ 23 _ _ _ Hp2). cbn [flag nodes calls].
  apply collinearityLoop_two. reflexivity.
Qed.

Lemma roomy_revert (st : App) :
  column 200 (nodePositions (revertToGeographic (Examples.viewport 200)
                                                Examples.twoStops st)) 308 64.
Proof.
  assert (Hw : 0 < 200 <= 520) by lra.
  pose proof (column_computed 200 Hw) as H0.
  pose proof (column_relax_far 200 _ 308 64 (randomCalls st) H0 ltac:(lra) ltac:(lra))
    as Hp.
  unfold revertToGeographic.
  rewrite (relaxLoop_step _ _ 19 _ _ _ Hp). cbn [flag nodes calls nodePositions set_layout].
  exact H0.
Qed.

Lemma load_isUniform (E : Env) (points : list Point) :
  hasUniformBtn E = true -> isUniform (load E points) = true.
Proof.
  intros Hb. unfold load. destruct (geographicLayout E points) as [l c]. rewrite Hb.
  match goal with
  | |- isUniform (applyUniformLinkLayout _ _ _ ?s) = _ =>
      destruct (applyUniformLinkLayout_frame E points 250 s) as (_ & _ & _ & H & _)
  end.
  now rewrite H.
Qed.

(** C5 as the spec words it fails on the same two stops with labels 200 pixels
    wide: the page loads with the uniform layout on, one click goes back to
    the geographic layout, and the nodes are then at heights 308 and 64,
    where the first geographic layout had put them at 310.8 and 61.2. *)
Lemma C5_revert_differs_from_first_layout :
  isUniform (load (Examples.viewport 200) Examples.twoStops) = true
  /\ isUniform (clickUniform (Examples.viewport 200) Examples.twoStops
                  (load (Examples.viewport 200) Examples.twoStops)) = false
  /\ coords (nodePositions
               (clickUniform (Examples.viewport 200) Examples.twoStops
                  (load (Examples.viewport 200) Examples.twoStops)))
     = [(300, 308); (300, 64)]
  /\ coords (fst (geographicLayout (Examples.viewport 200) Examples.twoStops))
     = [(300, 310.8); (300, 61.2)]
  /\ nodePositions
       (clickUniform (Examples.viewport 200) Examples.twoStops
          (load (Examples.viewport 200) Examples.twoStops))
     <> fst (geographicLayout (Examples.viewport 200) Examples.twoStops).
Proof.
  pose proof (load_isUniform (Examples.viewport 200) Examples.twoStops eq_refl) as Hu.
  assert (Hclick :
    clickUniform (Examples.viewport 200) Examples.twoStops
      (load (Examples.viewport 200) Examples.twoStops)
    = revertToGeographic (Examples.viewport 200) Examples.twoStops
        (set_isUniform (load (Examples.viewport 200) Examples.twoStops) false)).
  { unfold clickUniform. cbn [hasUniformBtn Examples.viewport]. rewrite Hu. reflexivity. }
  destruct roomy_layout as (l & Hl & Hc).
  pose proof (roomy_revert
                (set_isUniform (load (Examples.viewport 200) Examples.twoStops) false))
    as Hr.
  rewrite <- Hclick in Hr.
  pose proof (column_coords 200 _ _ _ Hr) as Hcr.
  pose proof (column_coords 200 _ _ _ Hc) as Hcl.
  rewrite Hl. cbn [fst].
  split; [exact Hu |]. split.
  - rewrite Hclick.
    destruct (revertToGeographic_frame (Examples.viewport 200) Examples.twoStops
                (set_isUniform (load (Examples.viewport 200) Examples.twoStops) false))
      as (_ & _ & _ & H & _).
    now rewrite H.
  - split; [exact Hcr |]. split; [exact Hcl |].
    intros Heq. rewrite Heq, Hcl in Hcr.
    injection Hcr as H1 H2. lra.
Qed.

(** C5, as the script has it: the way back to the geographic layout takes
    nothing from the positions it finds.  Projection and label metrics are
    computed anew and relaxed by the lighter loop (20 passes at most, no
    proximity factor, no collinearity pass), so every return to the
    geographic layout that sees the same random draws gives the same
    positions; they are not the positions of the first geographic layout in
    general. *)
Theorem C5_revert_recomputes_from_scratch
        (E : Env) (points : list Point) (st1 st2 : App) :
  randomCalls st1 = randomCalls st2 ->
  nodePositions (revertToGeographic E points st1)
  = nodePositions (revertToGeographic E points st2)
  /\ nodePositions (revertToGeographic E points st1)
     = fst (relaxLoop E points 20 (computeAllPositions E points) (randomCalls st1))
  /\ (hasUniformBtn E = true -> isUniform st1 = true ->
      nodePositions (clickUniform E points st1)
      = fst (relaxLoop E points 20 (computeAllPositions E points) (randomCalls st1))).
Proof.
  intros Hc.
  assert (Hr : forall st,
             nodePositions (revertToGeographic E points st)
             = fst (relaxLoop E points 20 (computeAllPositions E points) (randomCalls st))).
  { intros st. unfold revertToGeographic.
    destruct (relaxLoop E points 20 (computeAllPositions E points) (randomCalls st)).
    reflexivity. }
  split; [| split].
  - rewrite !Hr, Hc. reflexivity.
  - apply Hr.
  - intros Hb Hu. unfold clickUniform. rewrite Hb.
    cbn [isUniform set_isUniform]. rewrite Hu. cbn [negb].
    rewrite Hr. reflexivity.
Qed.

Lemma clickPause_randomCalls (st : App) : randomCalls st = randomCalls (clickPause st).
Proof. reflexivity. Qed.

Lemma C5_revert_recomputes_from_scratch_witness :
  nodePositions
    (revertToGeographic (Examples.viewport 200) Examples.twoStops
       (load (Examples.viewport 200) Examples.twoStops))
  = nodePositions
      (revertToGeographic (Examples.viewport 200) Examples.twoStops
         (clickPause (load (Examples.viewport 200) Examples.twoStops))).
Proof.
  exact (proj1 (C5_revert_recomputes_from_scratch
                  (Examples.viewport 200) Examples.twoStops
                  (load (Examples.viewport 200) Examples.twoStops)
                  (clickPause (load (Examples.viewport 200) Examples.twoStops))
                  (clickPause_randomCalls _))).
Defined.

(** ** Playback: one animation closure *)

Lemma lt_true (u v : R) : u < v -> JsMath.lt u v = true.
Proof. intros H. unfold JsMath.lt. destruct (Rlt_dec u v); [reflexivity | lra]. Qed.

Lemma lt_false (u v : R) : v <= u -> JsMath.lt u v = false.
Proof. intros H. unfold JsMath.lt. destruct (Rlt_dec u v); [lra | reflexivity]. Qed.

Lemma noStart_Some (s : R) : s <> 0 -> noStart (Some s) = false.
Proof. intros H. unfold noStart. destruct (Req_dec_T s 0); [contradiction | reflexivity]. Qed.

Lemma progress_anchor (a : Anim) (ts : R) : progress a ts ts = 0.
Proof.
  unfold progress, JsMath.min. replace ((ts - ts) / a_duration a) with 0.
  - apply Rmin_right; lra.
  - unfold Rdiv. ring.
Qed.

Lemma progress_running (a : Anim) (s ts : R) :
  0 < a_duration a -> ts - s < a_duration a ->
  progress a s ts = (ts - s) / a_duration a /\ progress a s ts < 1.
Proof.
  intros Hd Hlt. unfold progress, JsMath.min.
  assert (H : (ts - s) / a_duration a < 1).
  { apply (Rmult_lt_reg_r (a_duration a)); [exact Hd |].
    unfold Rdiv. rewrite Rmult_assoc, Rinv_l by lra. lra. }
  rewrite Rmin_right by lra. split; [reflexivity | exact H].
Qed.

Lemma progress_done (a : Anim) (s ts : R) :
  0 < a_duration a -> a_duration a <= ts - s -> progress a s ts = 1.
Proof.
  intros Hd Hge. unfold progress, JsMath.min.
  assert (H : 1 <= (ts - s) / a_duration a).
  { apply (Rmult_le_reg_r (a_duration a)); [exact Hd |].
    unfold Rdiv. rewrite Rmult_assoc, Rinv_l by lra. lra. }
  now apply Rmin_left.
Qed.

(** While paused, [step] forgets its anchor, leaves the marker and registers
    itself again. *)
Lemma step_paused (a : Anim) (ts : R) (tr : R * R) :
  step false a ts tr
  = (mkAnim (a_next a) (a_ax a) (a_ay a) (a_bx a) (a_by a) (a_duration a) None,
     tr, false).
Proof. reflexivity. Qed.

(** A closure without an anchor takes the time of the frame as its anchor:
    the marker is at the start of the segment. *)
Lemma step_anchor (a : Anim) (ts : R) (tr : R * R) :
  noStart (a_start a) = true ->
  step true a ts tr
  = (mkAnim (a_next a) (a_ax a) (a_ay a) (a_bx a) (a_by a) (a_duration a) (Some ts),
     (a_ax a, a_ay a), false).
Proof.
  intros Hn. unfold step. cbn [negb]. rewrite Hn, progress_anchor.
  rewrite lt_true by lra. cbn [negb].
  repeat f_equal; ring.
Qed.

(** An anchored closure before the end of its duration. *)
Lemma step_running (a : Anim) (s ts : R) (tr : R * R) :
  a_start a = Some s -> s <> 0 ->
  0 < a_duration a -> ts - s < a_duration a ->
  step true a ts tr
  = (a,
     (a_ax a + (a_bx a - a_ax a) * ((ts - s) / a_duration a),
      a_ay a + (a_by a - a_ay a) * ((ts - s) / a_duration a)),
     false).
Proof.
  intros Hs Hs0 Hd Hlt. unfold step. cbn [negb].
  rewrite Hs, (noStart_Some s Hs0).
  destruct (progress_running a s ts Hd Hlt) as [Hp Hp1].
  rewrite lt_true by exact Hp1. rewrite Hp. cbn [negb].
  destruct a; simpl in *. now rewrite Hs.
Qed.

(** An anchored closure at or after the end of its duration: the marker is
    on the next node and the promise is resolved. *)
Lemma step_done (a : Anim) (s ts : R) (tr : R * R) :
  a_start a = Some s -> s <> 0 ->
  0 < a_duration a -> a_duration a <= ts - s ->
  step true a ts tr = (a, (a_bx a, a_by a), true).
Proof.
  intros Hs Hs0 Hd Hge. unfold step. cbn [negb].
  rewrite Hs, (noStart_Some s Hs0), (progress_done a s ts Hd Hge).
  rewrite lt_false by lra. cbn [negb].
  destruct a; simpl in *. rewrite Hs. repeat f_equal; ring.
Qed.

(** ** Playback: the page *)

Lemma coords_set_drawn_entry (i : nat) (p : NodePos) (l : list NodePos) :
  nth_error l i = Some p -> coords (list_set i (set_drawn p) l) = coords l.
Proof.
  revert i. induction l as [|h t IH]; intros [|i]; simpl; try discriminate.
  - intros H. injection H as ->. reflexivity.
  - intros H. unfold coords in *. simpl. f_equal. now apply IH.
Qed.

Lemma drawNode_coords (i : nat) (l : list NodePos) : coords (drawNode i l) = coords l.
Proof.
  unfold drawNode. destruct (nth_error l i) as [pre|] eqn:Hn; [| reflexivity].
  destruct (_drawn pre); [reflexivity |]. now apply coords_set_drawn_entry.
Qed.

Lemma positionOf_coords (E : Env) (points : list Point) (l : list NodePos)
      (i : nat) (q : R * R) :
  nth_error (coords l) i = Some q -> positionOf E points l i = q.
Proof.
  unfold positionOf, coords. rewrite nth_error_map.
  destruct (nth_error l i); simpl; [| discriminate].
  intros H. now injection H.
Qed.

Section PlaybackSteps.

Variable E : Env.
Variable points : list Point.

Lemma clickPause_shows st cs tr pl v i fcs tos :
  shows st cs tr pl v i fcs tos ->
  shows (clickPause st) cs tr false v i fcs tos.
Proof. intros (H1 & H2 & H3 & H4 & H5 & H6 & H7). repeat split; assumption. Qed.

Lemma speedInput_shows st cs tr pl v i fcs tos (u : R) :
  u <> 0 ->
  shows st cs tr pl v i fcs tos ->
  shows (speedInput (Some u) st) cs tr pl u i fcs tos.
Proof.
  intros Hu (H1 & H2 & H3 & H4 & H5 & H6 & H7). repeat split; try assumption.
  cbn. now apply or_else_nonzero.
Qed.

(** The loop of [playSequence] starts the next segment. *)
Lemma playLoop_shows st cs tr v i fcs tos (pa pb : R * R) :
  shows st cs tr true v i fcs tos ->
  (i < List.length points - 1)%nat ->
  nth_error cs i = Some pa -> nth_error cs (i + 1) = Some pb ->
  shows (playLoop E points st) cs tr true v i
        (fcs ++ [mkAnim (i + 1) (fst pa) (snd pa) (fst pb) (snd pb)
                        (baseMs pa pb / v) None])
        tos.
Proof.
  intros (H1 & H2 & H3 & H4 & H5 & H6 & H7) Hi Ha Hb.
  unfold playLoop. rewrite H3, H5.
  assert (Hlt : (i <? List.length points - 1)%nat = true) by now apply Nat.ltb_lt.
  rewrite Hlt. cbn [andb].
  unfold animateTo. cbn [nodePositions set_nodePositions speed frameCallbacks].
  replace (i + 1 - 1)%nat with i by lia.
  rewrite (positionOf_coords E points _ i pa) by (now rewrite drawNode_coords, H1).
  rewrite (positionOf_coords E points _ (i + 1) pb) by (now rewrite drawNode_coords, H1).
  repeat split; cbn; try assumption.
  - now rewrite drawNode_coords.
  - now rewrite H6, H4.
Qed.

Lemma clickPlay_shows st cs tr v i fcs tos (pa pb : R * R) :
  shows st cs tr false v i fcs tos ->
  (i < List.length points - 1)%nat ->
  nth_error cs i = Some pa -> nth_error cs (i + 1) = Some pb ->
  shows (clickPlay E points st) cs tr true v i
        (fcs ++ [mkAnim (i + 1) (fst pa) (snd pa) (fst pb) (snd pb)
                        (baseMs pa pb / v) None])
        tos.
Proof.
  intros Hs Hi Ha Hb. pose proof Hs as (H1 & H2 & H3 & H4 & H5 & H6 & H7).
  unfold clickPlay. rewrite H3. unfold playSequence. rewrite H5.
  assert (Hle : (List.length points - 1 <=? i)%nat = false) by (apply Nat.leb_gt; lia).
  rewrite Hle.
  apply playLoop_shows; try assumption.
  repeat split; assumption.
Qed.

Lemma timeout_shows st cs tr v i fcs (due now : R) (rest : list R) (pa pb : R * R) :
  shows st cs tr true v i fcs (due :: rest) ->
  due <= now ->
  (i < List.length points - 1)%nat ->
  nth_error cs i = Some pa -> nth_error cs (i + 1) = Some pb ->
  shows (timeout E points now st) cs tr true v i
        (fcs ++ [mkAnim (i + 1) (fst pa) (snd pa) (fst pb) (snd pb)
                        (baseMs pa pb / v) None])
        rest.
Proof.
  intros (H1 & H2 & H3 & H4 & H5 & H6 & H7) Hdue Hi Ha Hb.
  unfold timeout. rewrite H7. destruct (Rle_dec due now); [| lra].
  apply playLoop_shows; try assumption.
  repeat split; assumption.
Qed.

(** *** One callback of a frame *)

Lemma runCallback_paused ts st a cs tr v i fcs tos :
  shows st cs tr false v i fcs tos ->
  shows (runCallback ts st a) cs tr false v i (fcs ++ [with_start a None]) tos.
Proof.
  intros (H1 & H2 & H3 & H4 & H5 & H6 & H7).
  unfold runCallback. rewrite H3, step_paused.
  repeat split; cbn; try assumption. now rewrite H6.
Qed.

Lemma runCallback_anchor ts st a cs tr v i fcs tos :
  shows st cs tr true v i fcs tos ->
  noStart (a_start a) = true ->
  shows (runCallback ts st a) cs (a_ax a, a_ay a) true v i
        (fcs ++ [with_start a (Some ts)]) tos.
Proof.
  intros (H1 & H2 & H3 & H4 & H5 & H6 & H7) Hn.
  unfold runCallback. rewrite H3, (step_anchor a ts _ Hn).
  repeat split; cbn; try assumption. now rewrite H6.
Qed.

Lemma runCallback_running ts st a (s : R) cs tr v i fcs tos :
  shows st cs tr true v i fcs tos ->
  a_start a = Some s -> s <> 0 ->
  0 < a_duration a -> ts - s < a_duration a ->
  shows (runCallback ts st a) cs
        (a_ax a + (a_bx a - a_ax a) * ((ts - s) / a_duration a),
         a_ay a + (a_by a - a_ay a) * ((ts - s) / a_duration a))
        true v i (fcs ++ [a]) tos.
Proof.
  intros (H1 & H2 & H3 & H4 & H5 & H6 & H7) Hs Hs0 Hd Hlt.
  unfold runCallback. rewrite H3, (step_running a s ts _ Hs Hs0 Hd Hlt).
  repeat split; cbn; try assumption. now rewrite H6.
Qed.

Lemma runCallback_done ts st a (s : R) cs tr v i fcs tos :
  shows st cs tr true v i fcs tos ->
  a_start a = Some s -> s <> 0 ->
  0 < a_duration a -> a_duration a <= ts - s ->
  shows (runCallback ts st a) cs (a_bx a, a_by a) true v (a_next a) fcs
        (tos ++ [ts + 250]).
Proof.
  intros (H1 & H2 & H3 & H4 & H5 & H6 & H7) Hs Hs0 Hd Hge.
  unfold runCallback. rewrite H3, (step_done a s ts _ Hs Hs0 Hd Hge).
  repeat split; cbn; try assumption. now rewrite H7.
Qed.

(** A frame runs the registered callbacks from an empty registry. *)
Lemma frame_start ts st cs tr pl v i fcs tos :
  shows st cs tr pl v i fcs tos ->
  animationFrame ts st = fold_left (runCallback ts) fcs (set_frameCallbacks st [])
  /\ shows (set_frameCallbacks st []) cs tr pl v i [] tos.
Proof.
  intros (H1 & H2 & H3 & H4 & H5 & H6 & H7). split.
  - unfold animationFrame. now rewrite H6.
  - repeat split; assumption.
Qed.

End PlaybackSteps.

(** A frame during a pause: the marker, the index and the pauses stay, and
    every closure is registered again, without its anchor. *)
Lemma animationFrame_paused (ts : R) (st : App) :
  playing st = false ->
  traveller (animationFrame ts st) = traveller st
  /\ currentIndex (animationFrame ts st) = currentIndex st
  /\ playing (animationFrame ts st) = false
  /\ timeouts (animationFrame ts st) = timeouts st
  /\ frameCallbacks (animationFrame ts st)
     = map (fun a => with_start a None) (frameCallbacks st).
Proof.
  intros Hp. unfold animationFrame.
  assert (H : forall l s,
             playing s = false ->
             let s' := fold_left (runCallback ts) l s in
             traveller s' = traveller s /\ currentIndex s' = currentIndex s
             /\ playing s' = false /\ timeouts s' = timeouts s
             /\ frameCallbacks s'
                = frameCallbacks s ++ map (fun a => with_start a None) l).
  { induction l as [|a t IH]; intros s Hs; cbn [fold_left map].
    - rewrite app_nil_r. repeat split; assumption.
    - assert (Hr : runCallback ts s a
                   = set_frameCallbacks s (frameCallbacks s ++ [with_start a None])).
      { unfold runCallback. rewrite Hs, step_paused. cbn.
        destruct s; reflexivity. }
      rewrite Hr.
      destruct (IH (set_frameCallbacks s (frameCallbacks s ++ [with_start a None])) Hs)
        as (I1 & I2 & I3 & I4 & I5).
      cbn [traveller currentIndex timeouts frameCallbacks set_frameCallbacks]
        in I1, I2, I4, I5.
      repeat split; try assumption.
      rewrite I5, <- app_assoc. reflexivity. }
  destruct (H (frameCallbacks st) (set_frameCallbacks st []) Hp) as (I1 & I2 & I3 & I4 & I5).
  repeat split; assumption.
Qed.

(** ** Three stops, loaded with the uniform layout *)

Lemma baseMs_horizontal (u v h : R) :
  u <= v -> 400 <= (v - u) * 6 <= 6000 -> baseMs (u, h) (v, h) = (v - u) * 6.
Proof.
  intros Huv [H1 H2]. unfold baseMs. cbn [fst snd].
  replace (h - h) with 0 by ring. rewrite hypot_x_0 by lra.
  unfold JsMath.max, JsMath.min.
  rewrite Rmin_right by lra. now apply Rmax_right.
Qed.

Lemma three_entries (l : list NodePos) :
  List.length l = 3%nat -> exists a b c, l = [a; b; c].
Proof.
  destruct l as [|a [|b [|c [|d t]]]]; simpl; try discriminate.
  intros _. now exists a, b, c.
Qed.

Lemma threeLoaded_shows :
  shows Examples.threeLoaded [(50, 200); (300, 200); (550, 200)] (50, 200)
        false 1 0 [] [].
Proof.
  unfold Examples.threeLoaded, load.
  pose proof (geographicLayout_ok (Examples.viewport 100) Examples.threeStops
                (fun _ => True) (fun _ _ _ _ _ _ _ _ _ => I) (fun _ _ => I)
                (fun _ _ => I)) as [Hlen _].
  destruct (geographicLayout (Examples.viewport 100) Examples.threeStops) as [l c].
  cbn [fst] in Hlen.
  destruct (three_entries l Hlen) as (n0 & n1 & n2 & ->).
  cbn [hasUniformBtn Examples.viewport].
  unfold applyUniformLinkLayout.
  change (List.length Examples.threeStops <=? 1)%nat with false. cbv zeta.
  cbn [nodePositions set_isUniform].
  set (nodes0 := simNodesFrom (Examples.viewport 100) Examples.threeStops
                              [n0; n1; n2] 0 Examples.threeStops).
  assert (Hids : map sn_id nodes0 = [0; 1; 2]%nat) by reflexivity.
  destruct nodes0 as [|s0 [|s1 [|s2 [|s3 t]]]]; try discriminate.
  injection Hids as Hi0 Hi1 Hi2.
  change (simulate (Examples.viewport 100) [s0; s1; s2] 250
                   (width (Examples.viewport 100)) (height (Examples.viewport 100)))
    with (fun id : nat => (50 + 250 * INR id, 200)).
  cbn [nodePositions set_isUniform fold_left].
  unfold writeBack. rewrite Hi0, Hi1, Hi2.
  cbn [nth_error list_set fst snd].
  assert (Hx : forall v, 40 <= v <= 560 -> clampX (Examples.viewport 100) v = v).
  { intros v Hv. apply clampX_id. rewrite viewport_width. unfold pad. lra. }
  assert (Hy : clampY (Examples.viewport 100) 200 = 200).
  { apply clampY_id. rewrite viewport_height. unfold pad. lra. }
  unfold shows.
  cbn [set_layout nodePositions traveller playing speed currentIndex
       frameCallbacks timeouts travellerToStart nth_error coords map x y fst snd
       set_isUniform].
  rewrite Hy. simpl INR.
  rewrite !Hx by lra.
  repeat split.
  - repeat f_equal; lra.
  - f_equal; lra.
  - cbn. apply or_else_nonzero. lra.
Qed.

Lemma run_app (E : Env) (points : list Point) (es1 es2 : list Event) (st : App) :
  run E points (es1 ++ es2) st = run E points es2 (run E points es1 st).
Proof. unfold run. apply fold_left_app. Qed.

Section ThreeStopsPlayback.

Local Abbreviation E := (Examples.viewport 100).
Local Abbreviation P := Examples.threeStops.
Local Abbreviation cs := [(50, 200); (300, 200); (550, 200)].

(** The closure of the first segment and that of the second, for a
    duration and an anchor. *)
Local Abbreviation first d s := (mkAnim 1 50 200 300 200 d s).
Local Abbreviation second d s := (mkAnim 2 300 200 550 200 d s).

Lemma baseMs_first : baseMs (50, 200) (300, 200) = 1500.
Proof. rewrite baseMs_horizontal; lra. Qed.

Lemma baseMs_second : baseMs (300, 200) (550, 200) = 1500.
Proof. rewrite baseMs_horizontal; lra. Qed.

(** Play from the loaded page. *)
Lemma play_first (st : App) (tr : R * R) (v : R) (fcs : list Anim) (tos : list R) :
  shows st cs tr false v 0 fcs tos ->
  shows (handle E P st ClickPlay) cs tr true v 0 (fcs ++ [first (1500 / v) None]) tos.
Proof.
  intros H. rewrite <- baseMs_first.
  exact (clickPlay_shows E P st cs tr v 0 fcs tos (50, 200) (300, 200) H
           ltac:(cbn; lia) eq_refl eq_refl).
Qed.

(** A frame with one registered closure. *)
Lemma frame_one (st : App) (ts : R) (a : Anim) tr pl v i tos :
  shows st cs tr pl v i [a] tos ->
  handle E P st (AnimationFrame ts)
  = runCallback ts (set_frameCallbacks st []) a
  /\ shows (set_frameCallbacks st []) cs tr pl v i [] tos.
Proof.
  intros H. destruct (frame_start ts st _ _ _ _ _ _ _ H) as [Heq H0].
  split; [exact Heq | exact H0].
Qed.

(** A frame with two registered closures. *)
Lemma frame_two (st : App) (ts : R) (a b : Anim) tr pl v i tos :
  shows st cs tr pl v i [a; b] tos ->
  handle E P st (AnimationFrame ts)
  = runCallback ts (runCallback ts (set_frameCallbacks st []) a) b
  /\ shows (set_frameCallbacks st []) cs tr pl v i [] tos.
Proof.
  intros H. destruct (frame_start ts st _ _ _ _ _ _ _ H) as [Heq H0].
  split; [exact Heq | exact H0].
Qed.

(** Half way through the first segment, paused: the marker stays at
    [x = 175]. *)
Lemma pausedMidway_shows :
  shows (run E P Examples.pausedMidway Examples.threeLoaded) cs (175, 200)
        false 1 0 [first (1500 / 1) None] [].
Proof.
  pose proof threeLoaded_shows as H0.
  unfold Examples.pausedMidway, run. cbn [fold_left].
  set (s1 := handle E P Examples.threeLoaded ClickPlay).
  assert (H1 : shows s1 cs (50, 200) true 1 0 [first (1500 / 1) None] []).
  { exact (play_first _ _ _ _ _ H0). }
  set (s2 := handle E P s1 (AnimationFrame 1000)).
  assert (H2 : shows s2 cs (50, 200) true 1 0 [first (1500 / 1) (Some 1000)] []).
  { destruct (frame_one s1 1000 _ _ _ _ _ _ H1) as [Heq Hs]. unfold s2. rewrite Heq.
    exact (runCallback_anchor 1000 _ (first (1500 / 1) None) _ _ _ _ _ _ Hs eq_refl). }
  set (s3 := handle E P s2 (AnimationFrame 1750)).
  assert (H3 : shows s3 cs (175, 200) true 1 0 [first (1500 / 1) (Some 1000)] []).
  { destruct (frame_one s2 1750 _ _ _ _ _ _ H2) as [Heq Hs]. unfold s3. rewrite Heq.
    pose proof (runCallback_running 1750 _ (first (1500 / 1) (Some 1000)) 1000
                  _ _ _ _ _ _ Hs eq_refl ltac:(lra) ltac:(cbn; lra) ltac:(cbn; lra)) as Hr.
    cbn [a_ax a_ay a_bx a_by a_duration app] in Hr.
    replace (175, 200) with
      (50 + (300 - 50) * ((1750 - 1000) / (1500 / 1)),
       200 + (200 - 200) * ((1750 - 1000) / (1500 / 1))); [exact Hr |].
    f_equal; field. }
  set (s4 := handle E P s3 ClickPause).
  assert (H4 : shows s4 cs (175, 200) false 1 0 [first (1500 / 1) (Some 1000)] []).
  { exact (clickPause_shows s3 _ _ _ _ _ _ _ H3). }
  destruct (frame_one s4 1800 _ _ _ _ _ _ H4) as [Heq Hs]. rewrite Heq.
  exact (runCallback_paused 1800 _ (first (1500 / 1) (Some 1000)) _ _ _ _ _ _ Hs).
Qed.

(** Play again: a second closure for the same segment is registered, and at
    the next frame both take that frame as their anchor. *)
Lemma resumed_shows :
  shows (run E P Examples.resumed Examples.threeLoaded) cs (50, 200)
        true 1 0
        [first (1500 / 1) (Some 2000); first (1500 / 1) (Some 2000)] [].
Proof.
  pose proof pausedMidway_shows as H5.
  unfold Examples.resumed. rewrite run_app.
  set (s5 := run E P Examples.pausedMidway Examples.threeLoaded) in *.
  unfold run. cbn [fold_left].
  set (s6 := handle E P s5 ClickPlay).
  assert (H6 : shows s6 cs (175, 200) true 1 0
                     [first (1500 / 1) None; first (1500 / 1) None] []).
  { exact (play_first _ _ _ _ _ H5). }
  destruct (frame_two s6 2000 _ _ _ _ _ _ _ H6) as [Heq Hs]. rewrite Heq.
  pose proof (runCallback_anchor 2000 _ (first (1500 / 1) None) _ _ _ _ _ _ Hs eq_refl)
    as Ha.
  exact (runCallback_anchor 2000 _ (first (1500 / 1) None) _ _ _ _ _ _ Ha eq_refl).
Qed.

(** Half way through the first segment. *)
Lemma halfway_shows :
  shows (run E P Examples.halfway Examples.threeLoaded) cs (175, 200)
        true 1 0 [first (1500 / 1) (Some 1000)] [].
Proof.
  pose proof threeLoaded_shows as H0.
  unfold Examples.halfway, run. cbn [fold_left].
  set (s1 := handle E P Examples.threeLoaded ClickPlay).
  assert (H1 : shows s1 cs (50, 200) true 1 0 [first (1500 / 1) None] []).
  { exact (play_first _ _ _ _ _ H0). }
  set (s2 := handle E P s1 (AnimationFrame 1000)).
  assert (H2 : shows s2 cs (50, 200) true 1 0 [first (1500 / 1) (Some 1000)] []).
  { destruct (frame_one s1 1000 _ _ _ _ _ _ H1) as [Heq Hs]. unfold s2. rewrite Heq.
    exact (runCallback_anchor 1000 _ (first (1500 / 1) None) _ _ _ _ _ _ Hs eq_refl). }
  destruct (frame_one s2 1750 _ _ _ _ _ _ H2) as [Heq Hs]. rewrite Heq.
  pose proof (runCallback_running 1750 _ (first (1500 / 1) (Some 1000)) 1000
                _ _ _ _ _ _ Hs eq_refl ltac:(lra) ltac:(cbn; lra) ltac:(cbn; lra)) as Hr.
  cbn [a_ax a_ay a_bx a_by a_duration app] in Hr.
  replace (175, 200) with
    (50 + (300 - 50) * ((1750 - 1000) / (1500 / 1)),
     200 + (200 - 200) * ((1750 - 1000) / (1500 / 1))); [exact Hr |].
  f_equal; field.
Qed.

(** The speed doubled half way: 450 ms later the closure still runs on its
    first duration and the marker is at [x = 250]. *)
Lemma doubledMidway_shows :
  shows (run E P Examples.doubledMidway Examples.threeLoaded) cs (250, 200)
        true 2 0 [first (1500 / 1) (Some 1000)] [].
Proof.
  pose proof halfway_shows as H3.
  unfold Examples.doubledMidway. rewrite run_app.
  set (s3 := run E P Examples.halfway Examples.threeLoaded) in *.
  unfold run. cbn [fold_left].
  set (s4 := handle E P s3 (SpeedInput (Some 2))).
  assert (H4 : shows s4 cs (175, 200) true 2 0 [first (1500 / 1) (Some 1000)] []).
  { exact (speedInput_shows s3 _ _ _ _ _ _ _ 2 ltac:(lra) H3). }
  destruct (frame_one s4 2200 _ _ _ _ _ _ H4) as [Heq Hs]. rewrite Heq.
  pose proof (runCallback_running 2200 _ (first (1500 / 1) (Some 1000)) 1000
                _ _ _ _ _ _ Hs eq_refl ltac:(lra) ltac:(cbn; lra) ltac:(cbn; lra)) as Hr.
  cbn [a_ax a_ay a_bx a_by a_duration app] in Hr.
  replace (250, 200) with
    (50 + (300 - 50) * ((2200 - 1000) / (1500 / 1)),
     200 + (200 - 200) * ((2200 - 1000) / (1500 / 1))); [exact Hr |].
  f_equal; field.
Qed.

(** Play at speed 1.25, pause, play again at speed 4: the second call of
    [playSequence] finishes both segments while the closure of the first
    call is still on the first one. *)
Lemma replayFaster_shows :
  exists tr,
    shows (run E P Examples.replayFaster Examples.threeLoaded) cs tr
          true 4 2 [first (1500 / 1.25) (Some 2000)] [3015 + 250].
Proof.
  pose proof threeLoaded_shows as H0.
  unfold Examples.replayFaster, run. cbn [fold_left].
  set (s1 := handle E P Examples.threeLoaded (SpeedInput (Some 1.25))).
  assert (H1 : shows s1 cs (50, 200) false 1.25 0 [] []).
  { exact (speedInput_shows _ _ _ _ _ _ _ _ 1.25 ltac:(lra) H0). }
  set (s2 := handle E P s1 ClickPlay).
  assert (H2 : shows s2 cs (50, 200) true 1.25 0 [first (1500 / 1.25) None] []).
  { exact (play_first _ _ _ _ _ H1). }
  set (s3 := handle E P s2 (AnimationFrame 1000)).
  assert (H3 : shows s3 cs (50, 200) true 1.25 0 [first (1500 / 1.25) (Some 1000)] []).
  { destruct (frame_one s2 1000 _ _ _ _ _ _ H2) as [Heq Hs]. unfold s3. rewrite Heq.
    exact (runCallback_anchor 1000 _ (first (1500 / 1.25) None) _ _ _ _ _ _ Hs eq_refl). }
  set (s4 := handle E P s3 ClickPause).
  assert (H4 : shows s4 cs (50, 200) false 1.25 0 [first (1500 / 1.25) (Some 1000)] []).
  { exact (clickPause_shows s3 _ _ _ _ _ _ _ H3). }
  set (s5 := handle E P s4 (AnimationFrame 1016)).
  assert (H5 : shows s5 cs (50, 200) false 1.25 0 [first (1500 / 1.25) None] []).
  { destruct (frame_one s4 1016 _ _ _ _ _ _ H4) as [Heq Hs]. unfold s5. rewrite Heq.
    exact (runCallback_paused 1016 _ (first (1500 / 1.25) (Some 1000)) _ _ _ _ _ _ Hs). }
  set (s6 := handle E P s5 (SpeedInput (Some 4))).
  assert (H6 : shows s6 cs (50, 200) false 4 0 [first (1500 / 1.25) None] []).
  { exact (speedInput_shows _ _ _ _ _ _ _ _ 4 ltac:(lra) H5). }
  set (s7 := handle E P s6 ClickPlay).
  assert (H7 : shows s7 cs (50, 200) true 4 0
                     [first (1500 / 1.25) None; first (1500 / 4) None] []).
  { exact (play_first _ _ _ _ _ H6). }
  set (s8 := handle E P s7 (AnimationFrame 2000)).
  assert (H8 : shows s8 cs (50, 200) true 4 0
                     [first (1500 / 1.25) (Some 2000); first (1500 / 4) (Some 2000)] []).
  { destruct (frame_two s7 2000 _ _ _ _ _ _ _ H7) as [Heq Hs]. unfold s8. rewrite Heq.
    pose proof (runCallback_anchor 2000 _ (first (1500 / 1.25) None)
                  _ _ _ _ _ _ Hs eq_refl) as Ha.
    exact (runCallback_anchor 2000 _ (first (1500 / 4) None) _ _ _ _ _ _ Ha eq_refl). }
  set (s9 := handle E P s8 (AnimationFrame 2375)).
  assert (H9 : shows s9 cs (300, 200) true 4 1
                     [first (1500 / 1.25) (Some 2000)] [2375 + 250]).
  { destruct (frame_two s8 2375 _ _ _ _ _ _ _ H8) as [Heq Hs]. unfold s9. rewrite Heq.
    pose proof (runCallback_running 2375 _ (first (1500 / 1.25) (Some 2000)) 2000
                  _ _ _ _ _ _ Hs eq_refl ltac:(lra) ltac:(cbn; lra) ltac:(cbn; lra)) as Ha.
    exact (runCallback_done 2375 _ (first (1500 / 4) (Some 2000)) 2000
             _ _ _ _ _ _ Ha eq_refl ltac:(lra) ltac:(cbn; lra) ltac:(cbn; lra)). }
  set (s10 := handle E P s9 (Timeout 2625)).
  assert (H10 : shows s10 cs (300, 200) true 4 1
                      [first (1500 / 1.25) (Some 2000); second (1500 / 4) None] []).
  { replace (1500 / 4) with (baseMs (300, 200) (550, 200) / 4)
      by now rewrite baseMs_second.
    exact (timeout_shows E P s9 cs _ _ 1 _ (2375 + 250) 2625 [] (300, 200) (550, 200)
             H9 ltac:(lra) ltac:(cbn; lia) eq_refl eq_refl). }
  set (s11 := handle E P s10 (AnimationFrame 2640)).
  assert (H11 : shows s11 cs (300, 200) true 4 1
                      [first (1500 / 1.25) (Some 2000); second (1500 / 4) (Some 2640)] []).
  { destruct (frame_two s10 2640 _ _ _ _ _ _ _ H10) as [Heq Hs]. unfold s11. rewrite Heq.
    pose proof (runCallback_running 2640 _ (first (1500 / 1.25) (Some 2000)) 2000
                  _ _ _ _ _ _ Hs eq_refl ltac:(lra) ltac:(cbn; lra) ltac:(cbn; lra)) as Ha.
    exact (runCallback_anchor 2640 _ (second (1500 / 4) None) _ _ _ _ _ _ Ha eq_refl). }
  destruct (frame_two s11 3015 _ _ _ _ _ _ _ H11) as [Heq Hs]. rewrite Heq.
  pose proof (runCallback_running 3015 _ (first (1500 / 1.25) (Some 2000)) 2000
                _ _ _ _ _ _ Hs eq_refl ltac:(lra) ltac:(cbn; lra) ltac:(cbn; lra)) as Ha.
  exists (550, 200).
  exact (runCallback_done 3015 _ (second (1500 / 4) (Some 2640)) 2640
           _ _ _ _ _ _ Ha eq_refl ltac:(lra) ltac:(cbn; lra) ltac:(cbn; lra)).
Qed.

(** The next frame ends the closure of the first call: it writes its own
    [next], 1, over the index. *)
Lemma replayFaster_then_frame :
  shows (run E P (Examples.replayFaster ++ [AnimationFrame 3200]) Examples.threeLoaded)
        cs (300, 200) true 4 1 [] [3015 + 250; 3200 + 250].
Proof.
  destruct replayFaster_shows as (tr & H).
  rewrite run_app.
  set (s := run E P Examples.replayFaster Examples.threeLoaded) in *.
  unfold run. cbn [fold_left].
  destruct (frame_one s 3200 _ _ _ _ _ _ H) as [Heq Hs]. rewrite Heq.
  exact (runCallback_done 3200 _ (first (1500 / 1.25) (Some 2000)) 2000
           _ _ _ _ _ _ Hs eq_refl ltac:(lra) ltac:(cbn; lra) ltac:(cbn; lra)).
Qed.

End ThreeStopsPlayback.

(** ** Pause and resume *)

(** C6, as the script has it: a paused [step] leaves the marker where it is,
    forgets its anchor and registers itself for the next frame; the first
    frame after the pause becomes the new anchor, so the time spent paused is
    not run through, but the progress starts again from zero: the marker is
    back on the start node of the segment and the whole duration runs
    again. *)
Theorem C6_pause_freezes_resume_restarts
        (a : Anim) (tr : R * R) (ts1 ts2 ts3 : R) (st : App) :
  ts2 <> 0 ->
  0 < a_duration a ->
  step false a ts1 tr = (with_start a None, tr, false)
  /\ (playing st = false ->
      traveller (animationFrame ts1 st) = traveller st
      /\ currentIndex (animationFrame ts1 st) = currentIndex st
      /\ frameCallbacks (animationFrame ts1 st)
         = map (fun c => with_start c None) (frameCallbacks st))
  /\ step true (with_start a None) ts2 tr
     = (with_start a (Some ts2), (a_ax a, a_ay a), false)
  /\ (ts3 - ts2 < a_duration a ->
      step true (with_start a (Some ts2)) ts3 tr
      = (with_start a (Some ts2),
         (a_ax a + (a_bx a - a_ax a) * ((ts3 - ts2) / a_duration a),
          a_ay a + (a_by a - a_ay a) * ((ts3 - ts2) / a_duration a)),
         false))
  /\ (a_duration a <= ts3 - ts2 ->
      step true (with_start a (Some ts2)) ts3 tr
      = (with_start a (Some ts2), (a_bx a, a_by a), true)).
Proof.
  intros Hts Hd. split; [| split; [| split; [| split]]].
  - apply step_paused.
  - intros Hp.
    destruct (animationFrame_paused ts1 st Hp) as (H1 & H2 & _ & _ & H5).
    repeat split; assumption.
  - exact (step_anchor (with_start a None) ts2 tr eq_refl).
  - intros Hlt.
    exact (step_running (with_start a (Some ts2)) ts2 ts3 tr eq_refl Hts Hd Hlt).
  - intros Hge.
    exact (step_done (with_start a (Some ts2)) ts2 ts3 tr eq_refl Hts Hd Hge).
Qed.

Lemma C6_pause_freezes_resume_restarts_witness :
  step true (with_start (mkAnim 1 50 200 300 200 1500 (Some 1000)) None) 2000 (175, 200)
  = (mkAnim 1 50 200 300 200 1500 (Some 2000), (50, 200), false).
Proof.
  exact (proj1 (proj2 (proj2
           (C6_pause_freezes_resume_restarts
              (mkAnim 1 50 200 300 200 1500 (Some 1000)) (175, 200)
              1800 2000 2300 Examples.threeLoaded
              ltac:(lra) ltac:(cbn; lra))))).
Defined.

(** C6 as the spec words it fails on the three stops: paused half way through
    the first segment the marker is frozen at [x = 175]; at the first frame
    after Play it is back at [x = 50], on the start node, and both closures
    of the segment have that frame as their anchor. *)
Lemma C6_resume_goes_back_to_segment_start :
  traveller (run (Examples.viewport 100) Examples.threeStops
                 Examples.pausedMidway Examples.threeLoaded) = (175, 200)
  /\ traveller (run (Examples.viewport 100) Examples.threeStops
                    Examples.resumed Examples.threeLoaded) = (50, 200)
  /\ frameCallbacks (run (Examples.viewport 100) Examples.threeStops
                         Examples.resumed Examples.threeLoaded)
     = [mkAnim 1 50 200 300 200 (1500 / 1) (Some 2000);
        mkAnim 1 50 200 300 200 (1500 / 1) (Some 2000)]
  /\ currentIndex (run (Examples.viewport 100) Examples.threeStops
                       Examples.resumed Examples.threeLoaded) = 0%nat.
Proof.
  destruct pausedMidway_shows as (_ & Ht & _).
  destruct resumed_shows as (_ & Ht' & _ & _ & Hi & Hf & _).
  repeat split; assumption.
Qed.

(** ** The speed multiplier *)

Lemma runCallback_speed (ts : R) (st : App) (a : Anim) (v : R) :
  runCallback ts (set_speed st v) a = set_speed (runCallback ts st a) v.
Proof.
  unfold runCallback. cbn [playing traveller set_speed].
  destruct (step (playing st) a ts (traveller st)) as [[a' tr] resolved].
  destruct resolved; reflexivity.
Qed.

Lemma animationFrame_speed (ts : R) (st : App) (v : R) :
  animationFrame ts (set_speed st v) = set_speed (animationFrame ts st) v.
Proof.
  unfold animationFrame. cbn [frameCallbacks set_speed].
  change (set_frameCallbacks (set_speed st v) [])
    with (set_speed (set_frameCallbacks st []) v).
  generalize (set_frameCallbacks st []) as s.
  induction (frameCallbacks st) as [|a t IH]; intros s; cbn [fold_left].
  - reflexivity.
  - rewrite runCallback_speed. apply IH.
Qed.

(** C7, as the script has it: the speed is read once for each segment, when
    [animateTo] builds its closure.  A change of the speed leaves the
    registered closures as they are, and a frame gives the same state whether
    the speed was changed before it or after it: the new speed only counts
    from the next segment on. *)
Theorem C7_speed_read_at_segment_start (E : Env) (points : list Point) :
  (forall v ts st,
      animationFrame ts (speedInput v st) = speedInput v (animationFrame ts st)) /\
  (forall v st, frameCallbacks (speedInput v st) = frameCallbacks st) /\
  (forall next st,
      frameCallbacks (animateTo E points next st)
      = frameCallbacks st
        ++ [mkAnim next
              (fst (positionOf E points (nodePositions st) (next - 1)))
              (snd (positionOf E points (nodePositions st) (next - 1)))
              (fst (positionOf E points (nodePositions st) next))
              (snd (positionOf E points (nodePositions st) next))
              (baseMs (positionOf E points (nodePositions st) (next - 1))
                      (positionOf E points (nodePositions st) next)
               / speed st)
              None]).
Proof.
  split; [| split].
  - intros v ts st. unfold speedInput. apply animationFrame_speed.
  - reflexivity.
  - reflexivity.
Qed.

(** C7 as the spec words it fails on the three stops: half way through the
    first segment 750 ms remain; the speed is doubled, and 750 ms remain, not
    375; a frame 450 ms later finds the segment still in flight, the marker
    at [x = 250] of 300 and the index at 0. *)
Lemma C7_doubled_speed_not_read_midway :
  frameCallbacks (run (Examples.viewport 100) Examples.threeStops
                      Examples.halfway Examples.threeLoaded)
  = [mkAnim 1 50 200 300 200 (1500 / 1) (Some 1000)]
  /\ remaining (mkAnim 1 50 200 300 200 (1500 / 1) (Some 1000)) 1750 = 750
  /\ speed (handle (Examples.viewport 100) Examples.threeStops
                   (run (Examples.viewport 100) Examples.threeStops
                        Examples.halfway Examples.threeLoaded)
                   (SpeedInput (Some 2))) = 2
  /\ frameCallbacks (handle (Examples.viewport 100) Examples.threeStops
                            (run (Examples.viewport 100) Examples.threeStops
                                 Examples.halfway Examples.threeLoaded)
                            (SpeedInput (Some 2)))
     = [mkAnim 1 50 200 300 200 (1500 / 1) (Some 1000)]
  /\ traveller (run (Examples.viewport 100) Examples.threeStops
                    Examples.doubledMidway Examples.threeLoaded) = (250, 200)
  /\ currentIndex (run (Examples.viewport 100) Examples.threeStops
                       Examples.doubledMidway Examples.threeLoaded) = 0%nat
  /\ frameCallbacks (run (Examples.viewport 100) Examples.threeStops
                         Examples.doubledMidway Examples.threeLoaded)
     = [mkAnim 1 50 200 300 200 (1500 / 1) (Some 1000)].
Proof.
  pose proof halfway_shows as H.
  pose proof (speedInput_shows _ _ _ _ _ _ _ _ 2 ltac:(lra) H)
    as (_ & _ & _ & Hv & _ & Hf2 & _).
  destruct H as (_ & _ & _ & _ & _ & Hf & _).
  destruct doubledMidway_shows as (_ & Ht & _ & _ & Hi & Hf3 & _).
  repeat split; try assumption.
  unfold remaining. cbn. lra.
Qed.

(** ** The playback index *)

(** C8 fails on the three stops.  Play at speed 1.25, pause during the first
    segment, set the speed to 4 and play again: a second call of
    [playSequence] runs beside the first, finishes both segments and brings
    the index to 2; the closure of the first call then ends its first
    segment and writes 1. *)
Theorem C8_index_steps_back :
  currentIndex (run (Examples.viewport 100) Examples.threeStops
                    Examples.replayFaster Examples.threeLoaded) = 2%nat
  /\ currentIndex (run (Examples.viewport 100) Examples.threeStops
                       (Examples.replayFaster ++ [AnimationFrame 3200])
                       Examples.threeLoaded) = 1%nat.
Proof.
  destruct replayFaster_shows as (tr & _ & _ & _ & _ & Hi & _).
  destruct replayFaster_then_frame as (_ & _ & _ & _ & Hi' & _).
  split; assumption.
Qed.

(** ** The theorems on the example routes *)

Lemma viewport_measures (w : R) : 0 <= w -> measuresNonnegative (Examples.viewport w).
Proof.
  intros Hw lab f w0 h0 H. cbn in H. injection H as <- <-. lra.
Qed.

Lemma C1_positions_within_padding_witness :
  List.length (fst (geographicLayout (Examples.viewport 400) Examples.twoStops))
  = List.length Examples.twoStops.
Proof.
  exact (proj1 (proj1
           (C1_positions_within_padding (Examples.viewport 400)
              [Input.mkNPoint (Input.Fin 0) (Input.Fin 0) "South Harbour Terminal";
               Input.mkNPoint (Input.Fin 4) (Input.Fin 0) "North Ridge Interchange"]
              Examples.twoStops
              (viewport_measures 400 ltac:(lra))
              eq_refl
              ltac:(discriminate)))).
Defined.

Lemma C3_projection_monotonic_witness :
  projectX (Examples.viewport 400) Examples.twoStops (mkPoint 0 0 "A")
  <= projectX (Examples.viewport 400) Examples.twoStops (mkPoint 0 1 "B")
  /\ projectX (Examples.viewport 400) Examples.twoStops (mkPoint 0 0 "A")
     <> projectX (Examples.viewport 400) Examples.twoStops (mkPoint 0 1 "B").
Proof.
  exact (proj1 (C3_projection_monotonic (Examples.viewport 400) Examples.twoStops
                  (mkPoint 0 0 "A") (mkPoint 0 1 "B"))
               ltac:(cbn; lra)).
Defined.

Lemma C10_toggle_moves_traveller_to_start_witness :
  travellerAtStart
    (revertToGeographic (Examples.viewport 100) Examples.threeStops
                        Examples.threeLoaded)
  /\ currentIndex (revertToGeographic (Examples.viewport 100) Examples.threeStops
                                      Examples.threeLoaded)
     = currentIndex Examples.threeLoaded.
Proof.
  exact (proj1 (proj2
           (C10_toggle_moves_traveller_to_start
              (Examples.viewport 100) Examples.threeStops Examples.threeLoaded
              ltac:(discriminate) eq_refl
              (reach_load (Examples.viewport 100) Examples.threeStops)))).
Defined.

(** * Further properties of the code *)

(** ** Great-circle distance: range and symmetry *)

Lemma asin_nonneg (v : R) : 0 <= v -> 0 <= asin v.
Proof.
  intros Hv. pose proof PI_RGT_0 as Hpi. unfold asin.
  destruct (Rle_dec v (-1)); [lra |].
  destruct (Rle_dec 1 v); [lra |].
  rewrite <- atan_0.
  assert (Hs : 0 < R_sqrt.sqrt (1 - v²)).
  { apply sqrt_lt_R0. unfold Rsqr. nra. }
  assert (Hq : 0 <= v / R_sqrt.sqrt (1 - v²)).
  { apply Rmult_le_pos; [exact Hv |]. left. now apply Rinv_0_lt_compat. }
  destruct Hq as [Hq | <-]; [| lra].
  left. now apply atan_increasing.
Qed.

Lemma haversineKm_range (lat1 lon1 lat2 lon2 : R) :
  0 <= haversineKm lat1 lon1 lat2 lon2 <= 6371 * PI.
Proof.
  rewrite haversineKm_formula. unfold haversine_formula, hav. cbv zeta.
  match goal with |- context [asin ?v] => set (s := v) end.
  pose proof (asin_bound s) as [_ Hhi].
  assert (H0 : 0 <= asin s) by (apply asin_nonneg, sqrt_pos).
  split; nra.
Qed.

Lemma haversineKm_haversineA (lat1 lon1 lat2 lon2 : R) :
  haversineKm lat1 lon1 lat2 lon2
  = 2 * 6371 * asin (R_sqrt.sqrt (haversineA lat1 lon1 lat2 lon2)).
Proof.
  rewrite haversineKm_formula. unfold haversine_formula, haversineA, hav, toRad.
  unfold JsMath.sin, JsMath.cos, Rsqr. cbv zeta.
  do 2 f_equal. f_equal.
  replace ((lat2 - lat1) * PI / 180 / 2) with ((lat2 * PI / 180 - lat1 * PI / 180) / 2)
    by field.
  replace ((lon2 - lon1) * PI / 180 / 2) with ((lon2 * PI / 180 - lon1 * PI / 180) / 2)
    by field.
  ring.
Qed.

Lemma haversineA_range (lat1 lon1 lat2 lon2 : R) :
  0 <= haversineA lat1 lon1 lat2 lon2 <= 1.
Proof.
  unfold haversineA, toRad, JsMath.sin, JsMath.cos. cbv zeta.
  replace ((lat2 - lat1) * PI / 180 / 2) with ((lat2 * PI / 180 - lat1 * PI / 180) / 2)
    by field.
  exact (hav_sum_range (lat1 * PI / 180) (lat2 * PI / 180) ((lon2 - lon1) * PI / 180 / 2)).
Qed.

Lemma haversineKm_below_half_turn (lat1 lon1 lat2 lon2 : R) :
  haversineA lat1 lon1 lat2 lon2 < 1 ->
  haversineKm lat1 lon1 lat2 lon2 < 6371 * PI.
Proof.
  intros Ha. rewrite haversineKm_haversineA.
  pose proof (haversineA_range lat1 lon1 lat2 lon2) as [H0 _].
  assert (Hs : 0 <= R_sqrt.sqrt (haversineA lat1 lon1 lat2 lon2) < 1).
  { split; [apply sqrt_pos |]. rewrite <- sqrt_1. apply sqrt_lt_1; lra. }
  pose proof (asin_bound_lt (R_sqrt.sqrt (haversineA lat1 lon1 lat2 lon2))
                ltac:(lra)) as [_ Hlt].
  lra.
Qed.

(** For two points with valid latitudes that are not antipodal up to
    rounding, the distance is never negative and less than half the
    circumference of the sphere, and it does not depend on the direction;
    [calculateDistance] is the same function. *)
Theorem haversineKm_range_symmetric (lat1 lon1 lat2 lon2 : R) :
  clearOfAntipode lat1 lon1 lat2 lon2 ->
  0 <= haversineKm lat1 lon1 lat2 lon2 < 6371 * PI
  /\ haversineKm lat1 lon1 lat2 lon2 = haversineKm lat2 lon2 lat1 lon1
  /\ calculateDistance (mkCoord lat1 lon1) (mkCoord lat2 lon2)
     = haversineKm lat1 lon1 lat2 lon2
  /\ calculateDistance (mkCoord lat1 lon1) (mkCoord lat2 lon2)
     = calculateDistance (mkCoord lat2 lon2) (mkCoord lat1 lon1).
Proof.
  intros (_ & _ & Ha).
  assert (Hsym : forall a1 o1 a2 o2,
             haversineKm a1 o1 a2 o2 = haversineKm a2 o2 a1 o1).
  { intros a1 o1 a2 o2. rewrite !haversineKm_formula.
    unfold haversine_formula, hav. cbv zeta.
    assert (Hs : forall u v, Rsqr (Rtrigo_def.sin ((u - v) / 2))
                             = Rsqr (Rtrigo_def.sin ((v - u) / 2))).
    { intros u v. replace ((u - v) / 2) with (- ((v - u) / 2)) by field.
      rewrite sin_neg. unfold Rsqr. ring. }
    rewrite (Hs (a2 * PI / 180) (a1 * PI / 180)).
    rewrite (Hs (o2 * PI / 180) (o1 * PI / 180)).
    rewrite (Rmult_comm (Rtrigo_def.cos (a1 * PI / 180))). reflexivity. }
  split; [| split; [| split]].
  - split; [apply haversineKm_range |].
    apply haversineKm_below_half_turn. lra.
  - apply Hsym.
  - apply calculateDistance_haversineKm.
  - rewrite !calculateDistance_haversineKm. apply Hsym.
Qed.

(** One degree of longitude on the equator. *)
Lemma clearOfAntipode_one_degree : clearOfAntipode 0 0 0 1.
Proof.
  unfold clearOfAntipode. split; [lra |]. split; [lra |].
  unfold haversineA, toRad, JsMath.sin, JsMath.cos. cbv zeta.
  replace ((0 - 0) * PI / 180 / 2) with 0 by field.
  replace (0 * PI / 180) with 0 by field.
  replace ((1 - 0) * PI / 180 / 2) with (PI / 360) by field.
  rewrite sin_0, cos_0.
  pose proof PI_bounds as [Hp1 Hp2].
  assert (H1 : Rtrigo_def.sin (PI / 360) < PI / 360) by (apply sin_lt_x; lra).
  assert (H2 : 0 < Rtrigo_def.sin (PI / 360)) by (apply sin_gt_0; lra).
  nra.
Qed.

Lemma haversineKm_range_symmetric_instance :
  0 <= haversineKm 0 0 0 1 < 6371 * PI
  /\ haversineKm 0 0 0 1 = haversineKm 0 1 0 0.
Proof.
  pose proof (haversineKm_range_symmetric 0 0 0 1 clearOfAntipode_one_degree)
    as (H1 & H2 & _).
  split; [exact H1 | exact H2].
Defined.

(** ** Label metrics *)

Lemma round_monotone (u v : R) : u <= v -> JsMath.round u <= JsMath.round v.
Proof.
  intros Huv. unfold JsMath.round. apply IZR_le.
  destruct (base_Int_part (u + / 2)) as [Hu1 _].
  destruct (base_Int_part (v + / 2)) as [_ Hv2].
  assert (H : IZR (Int_part (u + / 2)) < IZR (Int_part (v + / 2) + 1)).
  { rewrite plus_IZR. lra. }
  apply lt_IZR in H. lia.
Qed.

Lemma max_min_monotone (lo hi u v : R) :
  u <= v -> JsMath.max lo (JsMath.min hi u) <= JsMath.max lo (JsMath.min hi v).
Proof.
  intros Huv. unfold JsMath.max, JsMath.min.
  apply Rle_max_compat_l. apply Rle_min_compat_l. exact Huv.
Qed.

(** The radius of a node shrinks as the route grows: it never grows with the
    number of points, it is 24 up to 34 points and 8 from 241 points on; the
    font follows it between 10 and 20. *)
Theorem nodeSize_shrinks (ps qs : list Point) :
  (1 <= List.length ps)%nat ->
  (List.length ps <= List.length qs)%nat ->
  nodeSize qs <= nodeSize ps
  /\ nodeFont qs <= nodeFont ps
  /\ (8 <= nodeSize ps <= 24 /\ 10 <= nodeFont ps <= 20)
  /\ ((List.length ps <= 34)%nat -> nodeSize ps = 24 /\ nodeFont ps = 20)
  /\ ((241 <= List.length ps)%nat -> nodeSize ps = 8 /\ nodeFont ps = 10).
Proof.
  intros H1 Hle.
  assert (Hn : 1 <= INR (List.length ps)).
  { replace 1 with (INR 1) by reflexivity. now apply le_INR. }
  assert (Hm : INR (List.length ps) <= INR (List.length qs)) by now apply le_INR.
  assert (Hsize : nodeSize qs <= nodeSize ps).
  { unfold nodeSize. apply max_min_monotone.
    apply Rplus_le_compat_r, round_monotone.
    unfold Rdiv. apply Rmult_le_compat_l; [lra |].
    apply Rinv_le_contravar; lra. }
  split; [exact Hsize |]. split.
  { unfold nodeFont. apply max_min_monotone, round_monotone. lra. }
  split; [split; [apply nodeSize_bounds | apply nodeFont_bounds] |].
  split.
  - intros H34.
    assert (Hi : INR (List.length ps) <= 34).
    { replace 34 with (INR 34) by (simpl; lra). now apply le_INR. }
    assert (Hq : 17.6 <= 600 / INR (List.length ps)).
    { apply (Rmult_le_reg_r (INR (List.length ps))); [lra |].
      unfold Rdiv. rewrite Rmult_assoc, Rinv_l by lra. lra. }
    assert (Hs : nodeSize ps = 24).
    { unfold nodeSize, JsMath.max, JsMath.min.
      pose proof (round_monotone _ _ Hq) as Hr.
      assert (H18 : JsMath.round 17.6 = 18).
      { unfold JsMath.round. change 18 with (IZR 18). f_equal. symmetry.
        apply Int_part_spec. lra. }
      rewrite Rmin_left by lra. apply Rmax_right; lra. }
    split; [exact Hs |].
    unfold nodeFont. rewrite Hs. unfold JsMath.max, JsMath.min.
    pose proof (round_bounds (24 * 0.9)) as [Hr _].
    rewrite Rmin_left by lra. apply Rmax_right; lra.
  - intros H241.
    assert (Hi : 241 <= INR (List.length ps)).
    { replace 241 with (INR 241) by (simpl; lra). now apply le_INR. }
    assert (Hq : 600 / INR (List.length ps) <= 2.49).
    { apply (Rmult_le_reg_r (INR (List.length ps))); [lra |].
      unfold Rdiv. rewrite Rmult_assoc, Rinv_l by lra. lra. }
    assert (Hs : nodeSize ps = 8).
    { unfold nodeSize, JsMath.max, JsMath.min.
      pose proof (round_monotone _ _ Hq) as Hr.
      assert (H2 : JsMath.round 2.49 = 2).
      { unfold JsMath.round. change 2 with (IZR 2). f_equal. symmetry.
        apply Int_part_spec. lra. }
      rewrite Rmin_right by lra. apply Rmax_left; lra. }
    split; [exact Hs |].
    unfold nodeFont. rewrite Hs. unfold JsMath.max, JsMath.min.
    pose proof (round_bounds (8 * 0.9)) as [_ Hr].
    rewrite Rmin_right by lra. apply Rmax_left; lra.
Qed.

Lemma nodeSize_shrinks_instance :
  nodeSize Examples.threeStops <= nodeSize Examples.twoStops.
Proof.
  exact (proj1 (nodeSize_shrinks Examples.twoStops Examples.threeStops
                  ltac:(cbn; lia) ltac:(cbn; lia))).
Defined.

Lemma length_append (s t : string) :
  String.length (s ++ t) = (String.length s + String.length t)%nat.
Proof. induction s as [|c s IH]; simpl; [reflexivity | now rewrite IH]. Qed.

Lemma length_substring_0 (n : nat) (s : string) :
  (n <= String.length s)%nat -> String.length (substring 0 n s) = n.
Proof.
  revert s. induction n as [|n IH]; intros s Hn.
  - destruct s; reflexivity.
  - destruct s as [|c s]; simpl in *; [lia |]. rewrite IH by lia. reflexivity.
Qed.

Lemma string_of_uint_empty (d : Decimal.uint) :
  NilEmpty.string_of_uint d = EmptyString -> d = Decimal.Nil.
Proof. destruct d; simpl; intros H; try discriminate. reflexivity. Qed.

Lemma decimal_nonempty (n : nat) : n <> 0%nat -> decimal n <> EmptyString.
Proof.
  intros Hn He. unfold decimal in He. apply string_of_uint_empty in He.
  pose proof (DecimalNat.Unsigned.of_to n) as Hof. rewrite He in Hof.
  cbv in Hof. congruence.
Qed.

(** The label of a node is the name of the point, or its 1-based index when
    the name is empty; it is never empty and never longer than 60 characters:
    a longer one is cut to its first 57 characters and three dots. *)
Theorem makeLabel_length (i : nat) (p : Point) :
  (1 <= String.length (makeLabel i p) <= 60)%nat
  /\ (name p <> EmptyString -> (String.length (name p) <= 60)%nat ->
      makeLabel i p = name p)
  /\ ((60 < String.length (name p))%nat ->
      makeLabel i p = (substring 0 57 (name p) ++ "...")%string)
  /\ (name p = EmptyString -> (String.length (decimal (i + 1)) <= 60)%nat ->
      makeLabel i p = decimal (i + 1)).
Proof.
  unfold makeLabel. cbv zeta.
  set (l := if String.eqb (name p) EmptyString then decimal (i + 1) else name p).
  assert (Hl : l <> EmptyString).
  { unfold l. destruct (String.eqb_spec (name p) EmptyString) as [He | He].
    - apply decimal_nonempty. lia.
    - exact He. }
  assert (Hlen : (1 <= String.length l)%nat).
  { destruct l; [congruence | simpl; lia]. }
  split; [| split; [| split]].
  - destruct (60 <? String.length l)%nat eqn:Hc.
    + apply Nat.ltb_lt in Hc.
      rewrite length_append, length_substring_0 by lia. simpl. lia.
    + apply Nat.ltb_ge in Hc. lia.
  - intros Hn H60. unfold l.
    destruct (String.eqb_spec (name p) EmptyString) as [He | He]; [contradiction |].
    assert (Hc : (60 <? String.length (name p))%nat = false) by (apply Nat.ltb_ge; lia).
    now rewrite Hc.
  - intros H60. unfold l.
    destruct (String.eqb_spec (name p) EmptyString) as [He | He].
    + rewrite He in H60. simpl in H60. lia.
    + assert (Hc : (60 <? String.length (name p))%nat = true) by (apply Nat.ltb_lt; lia).
      now rewrite Hc.
  - intros He H60. unfold l. rewrite He.
    change (String.eqb EmptyString EmptyString) with true. cbv iota.
    assert (Hc : (60 <? String.length (decimal (i + 1)))%nat = false)
      by (apply Nat.ltb_ge; lia).
    now rewrite Hc.
Qed.

Lemma makeLabel_length_instance :
  makeLabel 0 (mkPoint 0 0 "South Harbour Terminal") = "South Harbour Terminal"%string.
Proof.
  exact (proj1 (proj2 (makeLabel_length 0 (mkPoint 0 0 "South Harbour Terminal")))
               ltac:(discriminate) ltac:(cbn; lia)).
Defined.

(** As [computeAllPositions] leaves a node, the box of its label does not
    cross the padding on either side, the circle does not cross the padding
    at the top, the label is never wider than the padded canvas, and the
    baseline of the label, below the node or flipped above it, stays
    inside the padding at the bottom. *)
Theorem computePosition_label_inside (E : Env) (points : list Point)
        (i : nat) (p : Point) :
  measuresNonnegative E ->
  let n := computePosition E points i p in
  pad <= x n - labelWidth n / 2
  /\ x n + labelWidth n / 2 <= width E - pad
  /\ 0 <= labelWidth n <= width E - 2 * pad
  /\ pad <= y n - sizeScale n
  /\ y n + labelY n + 4 <= height E - pad.
Proof.
  intros HE. cbv zeta.
  pose proof (computePosition_inBounds E points i p HE) as [_ [_ Hyb]].
  revert Hyb.
  unfold computePosition. cbv zeta. cbn [x y labelWidth sizeScale labelY].
  pose proof (width_ge E) as Hw. pose proof (height_ge E) as Hh.
  pose proof (nodeSize_bounds points) as [Hs1 Hs2].
  pose proof (nodeFont_bounds points) as [Hf1 Hf2].
  destruct (measure_nonneg E (makeLabel i p) (nodeFont points) HE) as [Hm1 Hm2]; [lra |].
  set (lw := JsMath.min (width E - 2 * pad) (fst (measure E (makeLabel i p) (nodeFont points)))).
  set (lh := JsMath.or_else (snd (measure E (makeLabel i p) (nodeFont points)))
                            (nodeFont points + 4)).
  assert (Hlw : 0 <= lw <= width E - 2 * pad).
  { unfold lw, JsMath.min. split; [| apply Rmin_l].
    apply Rmin_glb; [unfold pad; lra | exact Hm1]. }
  set (cx := JsMath.max (pad + lw / 2)
                        (JsMath.min (width E - pad - lw / 2) (xScale E points (lng p)))).
  set (cy := JsMath.max (pad + nodeSize points)
                        (JsMath.min (height E - pad - nodeSize points - lh - 4)
                                    (yScale E points (lat p)))).
  assert (Hcx : pad + lw / 2 <= cx <= width E - pad - lw / 2).
  { unfold cx. apply max_bounds. unfold pad in *. lra. }
  assert (Hcy : pad + nodeSize points <= cy).
  { unfold cy, JsMath.max. apply Rmax_l. }
  intros Hyb.
  assert (Hr : 0 <= JsMath.round (nodeFont points / 2)).
  { apply round_nonneg. lra. }
  repeat split; try lra.
  destruct (Rlt_dec (height E - pad) (cy + (nodeSize points + JsMath.round (nodeFont points / 1.5)) + 4));
    lra.
Qed.

Lemma computePosition_label_inside_instance :
  pad <= x (computePosition (Examples.viewport 200) Examples.twoStops 0
                            (mkPoint 0 0 "South Harbour Terminal"))
         - labelWidth (computePosition (Examples.viewport 200) Examples.twoStops 0
                                       (mkPoint 0 0 "South Harbour Terminal")) / 2.
Proof.
  exact (proj1 (computePosition_label_inside
                  (Examples.viewport 200) Examples.twoStops 0
                  (mkPoint 0 0 "South Harbour Terminal")
                  (viewport_measures 200 ltac:(lra)))).
Defined.

(** ** The relaxation loops only move nodes *)

Lemma sameMetrics_refl (p : NodePos) : sameMetrics p p.
Proof. repeat split. Qed.

Lemma sameMetrics_set_xy (q p : NodePos) (u v : R) :
  sameMetrics q p -> sameMetrics q (set_xy p u v).
Proof. intros H. exact H. Qed.

Lemma Forall2_refl {A : Type} (R : A -> A -> Prop) (l : list A) :
  (forall a, R a a) -> Forall2 R l l.
Proof. intros HR. induction l; constructor; auto. Qed.

Lemma Forall2_list_set {A : Type} (R : A -> A -> Prop) (l0 l : list A)
      (i : nat) (a a' : A) :
  Forall2 R l0 l -> nth_error l i = Some a ->
  (forall q, R q a -> R q a') ->
  Forall2 R l0 (list_set i a' l).
Proof.
  intros HF. revert i. induction HF as [|q h t0 t Hq Ht IH]; intros [|i] Hn Ha;
    simpl in *; try discriminate.
  - injection Hn as ->. constructor; auto.
  - constructor; [exact Hq |]. now apply IH.
Qed.

Section OnlyPositions.

Variable E : Env.
Variable points : list Point.
Variable l0 : list NodePos.

Lemma write_pair_metrics (i j : nat) (pa pb : R * R) (l : list NodePos) :
  Forall2 sameMetrics l0 l -> Forall2 sameMetrics l0 (write_pair i j pa pb l).
Proof.
  intros HF. unfold write_pair.
  assert (H1 : Forall2 sameMetrics l0
                 (match nth_error l i with
                  | Some a => list_set i (set_xy a (fst pa) (snd pa)) l
                  | None => l
                  end)).
  { destruct (nth_error l i) as [a|] eqn:Ha; [| exact HF].
    apply (Forall2_list_set _ _ _ _ a); auto. }
  destruct (nth_error _ j) as [b|] eqn:Hb; [| exact H1].
  apply (Forall2_list_set _ _ _ _ b); auto.
Qed.

Lemma separatePair_metrics (i j : nat) (s : Relax) :
  Forall2 sameMetrics l0 (nodes s) ->
  Forall2 sameMetrics l0 (nodes (separatePair E points i j s)).
Proof.
  intros HF. unfold separatePair.
  destruct (nth_error (nodes s) i) as [a|]; [| exact HF].
  destruct (nth_error (nodes s) j) as [b|]; [| exact HF].
  destruct (direction E a b (calls s)) as [[[dx dy] dist] rng'].
  destruct (Rlt_dec dist (minSep points i j a b)); [| exact HF].
  destruct (pushed E a b dx dy dist (minSep points i j a b)) as [pa pb].
  now apply write_pair_metrics.
Qed.

Lemma relaxPair_metrics (i j : nat) (s : Relax) :
  Forall2 sameMetrics l0 (nodes s) ->
  Forall2 sameMetrics l0 (nodes (relaxPair E i j s)).
Proof.
  intros HF. unfold relaxPair.
  destruct (nth_error (nodes s) i) as [a|]; [| exact HF].
  destruct (nth_error (nodes s) j) as [b|]; [| exact HF].
  destruct (direction E a b (calls s)) as [[[dx dy] dist] rng'].
  destruct (Rlt_dec dist (baseSep a b)); [| exact HF].
  destruct (pushed E a b dx dy dist (baseSep a b)) as [pa pb].
  now apply write_pair_metrics.
Qed.

Lemma nudgeTriple_metrics (i j k : nat) (s : Relax) :
  Forall2 sameMetrics l0 (nodes s) ->
  Forall2 sameMetrics l0 (nodes (nudgeTriple E points i j k s)).
Proof.
  intros HF. unfold nudgeTriple.
  destruct ((i =? j)%nat || (j =? k)%nat || (i =? k)%nat); [exact HF |].
  destruct (nth_error (nodes s) i) as [a|]; [| exact HF].
  destruct (nth_error (nodes s) j) as [b|] eqn:Hb; [| exact HF].
  destruct (nth_error (nodes s) k) as [c|]; [| exact HF].
  cbv zeta.
  destruct (Rlt_dec _ 1e-6); [exact HF |].
  destruct (Rlt_dec _ 1e-6); [exact HF |].
  match goal with |- context [if ?c then _ else _] => destruct c end; [| exact HF].
  simpl. apply (Forall2_list_set _ _ _ _ b); auto.
Qed.

Lemma separationLoop_metrics (k : nat) (l : list NodePos) (c : nat) :
  Forall2 sameMetrics l0 l ->
  Forall2 sameMetrics l0 (fst (fst (separationLoop E points k l c))).
Proof.
  revert l c. induction k as [|k IH]; intros l c HF; simpl; [exact HF |].
  assert (Hp : Forall2 sameMetrics l0
                 (nodes (separationPass E points (mkRelax l c false)))).
  { unfold separationPass.
    apply (for_range_ind (fun s => Forall2 sameMetrics l0 (nodes s))); [| exact HF].
    intros i s1.
    apply (for_range_ind (fun s => Forall2 sameMetrics l0 (nodes s))). intros j s2.
    apply separatePair_metrics. }
  destruct (flag (separationPass E points (mkRelax l c false))).
  - now apply IH.
  - exact Hp.
Qed.

Lemma collinearityLoop_metrics (k : nat) (l : list NodePos) (c : nat) :
  Forall2 sameMetrics l0 l ->
  Forall2 sameMetrics l0 (fst (collinearityLoop E points k l c)).
Proof.
  revert l c. induction k as [|k IH]; intros l c HF; simpl; [exact HF |].
  assert (Hp : Forall2 sameMetrics l0 (nodes (resolveCollinearity E points l c))).
  { unfold resolveCollinearity.
    apply (for_range_ind (fun s => Forall2 sameMetrics l0 (nodes s))); [| exact HF].
    intros i s1.
    apply (for_range_ind (fun s => Forall2 sameMetrics l0 (nodes s))). intros j s2.
    apply (for_range_ind (fun s => Forall2 sameMetrics l0 (nodes s))). intros k' s3.
    apply nudgeTriple_metrics. }
  destruct (flag (resolveCollinearity E points l c)).
  - now apply IH.
  - exact Hp.
Qed.

Lemma relaxLoop_metrics (k : nat) (l : list NodePos) (c : nat) :
  Forall2 sameMetrics l0 l ->
  Forall2 sameMetrics l0 (fst (relaxLoop E points k l c)).
Proof.
  revert l c. induction k as [|k IH]; intros l c HF; simpl; [exact HF |].
  assert (Hp : Forall2 sameMetrics l0 (nodes (relaxPass E points (mkRelax l c false)))).
  { unfold relaxPass.
    apply (for_range_ind (fun s => Forall2 sameMetrics l0 (nodes s))); [| exact HF].
    intros i s1.
    apply (for_range_ind (fun s => Forall2 sameMetrics l0 (nodes s))). intros j s2.
    apply relaxPair_metrics. }
  destruct (flag (relaxPass E points (mkRelax l c false))).
  - now apply IH.
  - exact Hp.
Qed.

End OnlyPositions.

(** The collision resolver and the lighter relaxation of the way back move
    nodes and do nothing else: entry by entry the result has the label, the
    sizes, the label offset and the drawn mark of the array they were given,
    and as many entries. *)
Theorem resolver_only_moves (E : Env) (points : list Point)
        (l : list NodePos) (c k : nat) :
  Forall2 sameMetrics l (fst (resolveCollisions E points l c))
  /\ Forall2 sameMetrics l (fst (relaxLoop E points k l c))
  /\ List.length (fst (resolveCollisions E points l c)) = List.length l
  /\ List.length (fst (relaxLoop E points k l c)) = List.length l.
Proof.
  assert (H1 : Forall2 sameMetrics l (fst (resolveCollisions E points l c))).
  { unfold resolveCollisions.
    pose proof (separationLoop_metrics E points l 25 l c
                  (Forall2_refl _ _ sameMetrics_refl)) as Hs.
    destruct (separationLoop E points 25 l c) as [[l1 c1] early]. simpl in Hs.
    now apply collinearityLoop_metrics. }
  assert (H2 : Forall2 sameMetrics l (fst (relaxLoop E points k l c))).
  { apply relaxLoop_metrics, Forall2_refl, sameMetrics_refl. }
  repeat split; try assumption.
  - symmetry. exact (Forall2_length H1).
  - symmetry. exact (Forall2_length H2).
Qed.

(** ** One push *)

Lemma hypot_scale (k u v : R) :
  0 <= k -> JsMath.hypot (k * u) (k * v) = k * JsMath.hypot u v.
Proof.
  intros Hk. unfold JsMath.hypot.
  replace (k * u * (k * u) + k * v * (k * v)) with ((k * k) * (u * u + v * v)) by ring.
  rewrite sqrt_mult by nra. now rewrite sqrt_square.
Qed.

(** A push that the clamp does not touch is symmetric and exact: the two
    nodes move by the same amount in opposite directions along the line that
    joins them (their midpoint stays), and they end exactly the required
    separation apart. *)
Theorem push_reaches_separation (E : Env) (a b : NodePos) (sep : R) :
  let dx := x b - x a in
  let dy := y b - y a in
  let dist := pixelDistance a b in
  let o := (sep - dist) / 2 in
  dist <> 0 -> dist < sep ->
  pad <= x a - dx / dist * o <= width E - pad ->
  pad <= y a - dy / dist * o <= height E - pad ->
  pad <= x b + dx / dist * o <= width E - pad ->
  pad <= y b + dy / dist * o <= height E - pad ->
  let pa := fst (pushed E a b dx dy dist sep) in
  let pb := snd (pushed E a b dx dy dist sep) in
  JsMath.hypot (fst pb - fst pa) (snd pb - snd pa) = sep
  /\ fst pa + fst pb = x a + x b
  /\ snd pa + snd pb = y a + y b
  /\ JsMath.hypot (fst pa - x a) (snd pa - y a) = o
  /\ JsMath.hypot (fst pb - x b) (snd pb - y b) = o.
Proof.
  intros dx dy dist o Hd Hlt Hax Hay Hbx Hby. cbv zeta.
  assert (Hpos : 0 < dist).
  { pose proof (hypot_nonneg (x b - x a) (y b - y a)). unfold dist, pixelDistance in *. lra. }
  unfold pushed. cbn [fst snd]. rewrite (or_else_nonzero _ _ Hd).
  fold o. rewrite !clampX_id, !clampY_id by assumption.
  assert (Ho : 0 < o) by (unfold o; lra).
  assert (Hunit : JsMath.hypot (dx / dist) (dy / dist) = 1).
  { replace (dx / dist) with (/ dist * dx) by (field; lra).
    replace (dy / dist) with (/ dist * dy) by (field; lra).
    rewrite hypot_scale by (left; now apply Rinv_0_lt_compat).
    change (JsMath.hypot dx dy) with dist. field. lra. }
  repeat split.
  - replace (x b + dx / dist * o - (x a - dx / dist * o)) with ((sep / dist) * dx)
      by (unfold o, dx; field; lra).
    replace (y b + dy / dist * o - (y a - dy / dist * o)) with ((sep / dist) * dy)
      by (unfold o, dy; field; lra).
    rewrite hypot_scale.
    + change (JsMath.hypot dx dy) with dist. field. lra.
    + apply Rmult_le_pos; [lra |]. left. now apply Rinv_0_lt_compat.
  - ring.
  - ring.
  - replace (x a - dx / dist * o - x a) with (o * (- (dx / dist))) by ring.
    replace (y a - dy / dist * o - y a) with (o * (- (dy / dist))) by ring.
    rewrite hypot_scale by lra.
    assert (Hneg : JsMath.hypot (- (dx / dist)) (- (dy / dist)) = 1).
    { rewrite <- Hunit. unfold JsMath.hypot. f_equal. ring. }
    rewrite Hneg. ring.
  - replace (x b + dx / dist * o - x b) with (o * (dx / dist)) by ring.
    replace (y b + dy / dist * o - y b) with (o * (dy / dist)) by ring.
    rewrite hypot_scale by lra. rewrite Hunit. ring.
Qed.

Lemma push_reaches_separation_instance :
  let E := Examples.viewport 40 in
  let a := mkNodePos 100 200 EmptyString 20 24 38 40 24 false in
  let b := mkNodePos 110 200 EmptyString 20 24 38 40 24 false in
  JsMath.hypot
    (fst (snd (pushed E a b (x b - x a) (y b - y a) (pixelDistance a b) 20))
     - fst (fst (pushed E a b (x b - x a) (y b - y a) (pixelDistance a b) 20)))
    (snd (snd (pushed E a b (x b - x a) (y b - y a) (pixelDistance a b) 20))
     - snd (fst (pushed E a b (x b - x a) (y b - y a) (pixelDistance a b) 20)))
  = 20.
Proof.
  intros E a b.
  assert (Hd : pixelDistance a b = 10).
  { unfold pixelDistance, a, b. cbn [x y].
    replace (110 - 100) with 10 by lra. replace (200 - 200) with 0 by lra.
    apply hypot_x_0. lra. }
  assert (Hw : width E = 600) by apply viewport_width.
  assert (Hh : height E = 400) by apply viewport_height.
  refine (proj1 (push_reaches_separation E a b 20 _ _ _ _ _ _));
    rewrite ?Hd, ?Hw, ?Hh; unfold a, b, pad; cbn [x y]; lra.
Defined.

(** ** Layouts that need no push *)

Lemma for_range_fixed {S : Type} (lo hi : nat) (body : nat -> S -> S) (s : S) :
  (forall i, (lo <= i < hi)%nat -> body i s = s) -> for_range lo hi body s = s.
Proof.
  intros Hb. unfold for_range.
  assert (Hin : forall i, In i (seq lo (hi - lo)) -> body i s = s).
  { intros i Hi. apply in_seq in Hi. apply Hb. lia. }
  revert Hin. generalize (seq lo (hi - lo)) as idx.
  induction idx as [|i t IH]; intros Hin; simpl; [reflexivity |].
  rewrite (Hin i) by now left. apply IH. intros k Hk. apply Hin. now right.
Qed.

Section NoPush.

Variable E : Env.
Variable points : list Point.

Lemma direction_nonzero (a b : NodePos) (c : nat) :
  pixelDistance a b <> 0 ->
  direction E a b c = (x b - x a, y b - y a, pixelDistance a b, c).
Proof.
  intros Hd. unfold direction. fold (pixelDistance a b).
  destruct (Req_dec_T (pixelDistance a b) 0); [contradiction | reflexivity].
Qed.

Lemma separatePair_apart (i j : nat) (s : Relax) :
  (forall a b, nth_error (nodes s) i = Some a -> nth_error (nodes s) j = Some b ->
               pixelDistance a b <> 0 /\ minSep points i j a b <= pixelDistance a b) ->
  separatePair E points i j s = s.
Proof.
  intros H. unfold separatePair.
  destruct (nth_error (nodes s) i) as [a|]; [| reflexivity].
  destruct (nth_error (nodes s) j) as [b|]; [| reflexivity].
  destruct (H a b eq_refl eq_refl) as [Hd Hsep].
  rewrite (direction_nonzero a b _ Hd).
  destruct (Rlt_dec (pixelDistance a b) (minSep points i j a b)); [lra |].
  now destruct s.
Qed.

Lemma relaxPair_apart (i j : nat) (s : Relax) :
  (forall a b, nth_error (nodes s) i = Some a -> nth_error (nodes s) j = Some b ->
               pixelDistance a b <> 0 /\ baseSep a b <= pixelDistance a b) ->
  relaxPair E i j s = s.
Proof.
  intros H. unfold relaxPair.
  destruct (nth_error (nodes s) i) as [a|]; [| reflexivity].
  destruct (nth_error (nodes s) j) as [b|]; [| reflexivity].
  destruct (H a b eq_refl eq_refl) as [Hd Hsep].
  rewrite (direction_nonzero a b _ Hd).
  destruct (Rlt_dec (pixelDistance a b) (baseSep a b)); [lra |].
  now destruct s.
Qed.

Lemma separationPass_apart (l : list NodePos) (c : nat) (f : bool) :
  apart (minSep points) (List.length points) l ->
  separationPass E points (mkRelax l c f) = mkRelax l c f.
Proof.
  intros H. unfold separationPass.
  apply for_range_fixed. intros i Hi.
  apply for_range_fixed. intros j Hj.
  apply separatePair_apart. cbn [nodes]. intros a b Ha Hb.
  apply (H i j a b); [lia | exact Ha | exact Hb].
Qed.

Lemma relaxPass_apart (l : list NodePos) (c : nat) (f : bool) :
  apart (fun _ _ => baseSep) (List.length points) l ->
  relaxPass E points (mkRelax l c f) = mkRelax l c f.
Proof.
  intros H. unfold relaxPass.
  apply for_range_fixed. intros i Hi.
  apply for_range_fixed. intros j Hj.
  apply relaxPair_apart. cbn [nodes]. intros a b Ha Hb.
  apply (H i j a b); [lia | exact Ha | exact Hb].
Qed.

Lemma relaxLoop_apart (k : nat) (l : list NodePos) (c : nat) :
  apart (fun _ _ => baseSep) (List.length points) l ->
  relaxLoop E points k l c = (l, c).
Proof.
  intros H. destruct k as [|k]; [reflexivity |].
  cbn [relaxLoop]. cbv zeta. now rewrite (relaxPass_apart l c false H).
Qed.

End NoPush.

(** A layout whose nodes are all at different positions and as far apart as
    the resolver asks is a fixed point of the pairwise loop: the first pass
    moves nothing, draws no random number, and the loop leaves through
    [break] whatever its budget of passes. *)
Theorem separated_layout_fixed (E : Env) (points : list Point)
        (l : list NodePos) (c k : nat) :
  apart (minSep points) (List.length points) l ->
  separationLoop E points (S k) l c = (l, c, true).
Proof.
  intros H. cbn [separationLoop]. cbv zeta.
  now rewrite (separationPass_apart E points l c false H).
Qed.

Lemma separated_layout_fixed_instance :
  separationLoop (Examples.viewport 100) Examples.twoStops 25
                 (computeAllPositions (Examples.viewport 100) Examples.twoStops) 0
  = (computeAllPositions (Examples.viewport 100) Examples.twoStops, 0%nat, true).
Proof.
  apply (separated_layout_fixed (Examples.viewport 100) Examples.twoStops).
  assert (Hw : 0 < 100 <= 520) by lra.
  pose proof (column_computed 100 Hw) as Hcol.
  destruct (column_distance 100 _ 308 64 Hcol ltac:(lra)) as (a & b & Ha & Hb & Hd & Hm).
  intros i j a' b' Hij Ha' Hb'. simpl in Hij.
  assert (i = 0%nat) by lia. assert (j = 1%nat) by lia. subst i j.
  rewrite Ha in Ha'. rewrite Hb in Hb'.
  injection Ha' as <-. injection Hb' as <-.
  rewrite Hd, Hm. split; lra.
Defined.

(** Going back from the uniform layout when the geographic positions do not
    overlap: the layout is exactly the one [computeAllPositions] gives, no
    random number is drawn, and the traveller sits on the first node. *)
Theorem revert_without_overlap (E : Env) (points : list Point) (st : App) :
  apart (fun _ _ => baseSep) (List.length points) (computeAllPositions E points) ->
  nodePositions (revertToGeographic E points st) = computeAllPositions E points
  /\ randomCalls (revertToGeographic E points st) = randomCalls st
  /\ traveller (revertToGeographic E points st)
     = travellerToStart (computeAllPositions E points) (traveller st).
Proof.
  intros H. unfold revertToGeographic.
  rewrite (relaxLoop_apart E points 20 _ _ H).
  unfold set_layout. cbn [nodePositions randomCalls traveller]. auto.
Qed.

Lemma revert_without_overlap_instance :
  nodePositions (revertToGeographic (Examples.viewport 100) Examples.twoStops
                   (load (Examples.viewport 100) Examples.twoStops))
  = computeAllPositions (Examples.viewport 100) Examples.twoStops.
Proof.
  refine (proj1 (revert_without_overlap (Examples.viewport 100) Examples.twoStops
                   (load (Examples.viewport 100) Examples.twoStops) _)).
  assert (Hw : 0 < 100 <= 520) by lra.
  pose proof (column_computed 100 Hw) as Hcol.
  destruct Hcol as (a & b & Hl & (Ha1 & Ha2 & Ha3 & Ha4) & (Hb1 & Hb2 & Hb3 & Hb4)).
  rewrite Hl.
  intros i j a' b' Hij Ha' Hb'. simpl in Hij.
  assert (i = 0%nat) by lia. assert (j = 1%nat) by lia. subst i j.
  simpl in Ha', Hb'. injection Ha' as <-. injection Hb' as <-.
  rewrite (baseSep_24 a b 100 Ha3 Hb3 Ha4 Hb4).
  unfold pixelDistance. replace (x b - x a) with 0 by lra.
  rewrite hypot_0_abs, Rabs_left1 by lra. split; lra.
Defined.

(** ** The projection and the padded canvas *)

Lemma Rpower_06_small (h : R) : 0 < h <= 1 -> h <= Rpower h 0.6.
Proof.
  intros [H0 H1]. unfold Rpower.
  rewrite <- (exp_ln h H0) at 1.
  assert (Hl : ln h <= 0).
  { destruct (Req_dec_T h 1) as [-> | Hn]; [rewrite ln_1; lra |].
    rewrite <- ln_1. left. apply ln_increasing; lra. }
  destruct (Req_dec_T (ln h) 0) as [Hz | Hz].
  - rewrite Hz. replace (0.6 * 0) with 0 by ring. lra.
  - left. apply exp_increasing. lra.
Qed.

Lemma Rpower_06_large (h : R) : 1 < h -> 1 < Rpower h 0.6 < h.
Proof.
  intros H1. split.
  - rewrite <- (Rpower_O h) by lra. apply Rpower_lt; lra.
  - rewrite <- (Rpower_1 h) at 2 by lra. apply Rpower_lt; lra.
Qed.

Lemma compress_monotone (c u v : R) : u <= v -> compress c u <= compress c v.
Proof.
  intros [H | ->]; [left; now apply compress_increasing | lra].
Qed.

Lemma fold_Rmin_map (f : R -> R) (t : list R) (v : R) :
  (forall u w, u <= w -> f u <= f w) ->
  fold_left Rmin (map f t) (f v) = f (fold_left Rmin t v).
Proof.
  intros Hf. revert v. induction t as [|h t IH]; intros v; simpl; [reflexivity |].
  rewrite <- IH. f_equal. unfold Rmin.
  destruct (Rle_dec v h) as [H | H]; destruct (Rle_dec (f v) (f h)) as [H' | H'];
    try reflexivity.
  - exfalso. apply H', Hf, H.
  - apply Rle_antisym; [exact H' | apply Hf; lra].
Qed.

Lemma fold_Rmax_map (f : R -> R) (t : list R) (v : R) :
  (forall u w, u <= w -> f u <= f w) ->
  fold_left Rmax (map f t) (f v) = f (fold_left Rmax t v).
Proof.
  intros Hf. revert v. induction t as [|h t IH]; intros v; simpl; [reflexivity |].
  rewrite <- IH. f_equal. unfold Rmax.
  destruct (Rle_dec v h) as [H | H]; destruct (Rle_dec (f v) (f h)) as [H' | H'];
    try reflexivity.
  - exfalso. apply H', Hf, H.
  - apply Rle_antisym; [apply Hf; lra | exact H'].
Qed.

Lemma fold_Rmin_In (t : list R) (v : R) :
  fold_left Rmin t v = v \/ In (fold_left Rmin t v) t.
Proof.
  revert v. induction t as [|h t IH]; intros v; simpl; [now left |].
  destruct (IH (Rmin v h)) as [H | H]; [| now right; right].
  rewrite H. unfold Rmin. destruct (Rle_dec v h); [now left | now right; left].
Qed.

Lemma fold_Rmax_In (t : list R) (v : R) :
  fold_left Rmax t v = v \/ In (fold_left Rmax t v) t.
Proof.
  revert v. induction t as [|h t IH]; intros v; simpl; [now left |].
  destruct (IH (Rmax v h)) as [H | H]; [| now right; right].
  rewrite H. unfold Rmax. destruct (Rle_dec v h); [now right; left | now left].
Qed.

Lemma fold_Rmin_lower (t : list R) (v u : R) : In u t -> fold_left Rmin t v <= u.
Proof.
  revert v. induction t as [|h t IH]; intros v; simpl; [tauto |].
  intros [-> | H]; [| now apply IH].
  eapply Rle_trans; [apply fold_Rmin_le | apply Rmin_r].
Qed.

Lemma fold_Rmax_upper (t : list R) (v u : R) : In u t -> u <= fold_left Rmax t v.
Proof.
  revert v. induction t as [|h t IH]; intros v; simpl; [tauto |].
  intros [-> | H]; [| now apply IH].
  eapply Rle_trans; [apply Rmax_r | apply fold_Rmax_ge].
Qed.

Lemma d3_bounds (l : list R) (u : R) : In u l -> d3_min l <= u <= d3_max l.
Proof.
  destruct l as [|h t]; simpl; [tauto |].
  intros [<- | H].
  - split; [apply fold_Rmin_le | apply fold_Rmax_ge].
  - split; [now apply fold_Rmin_lower | now apply fold_Rmax_upper].
Qed.

Lemma d3_attained (l : list R) : l <> [] -> In (d3_min l) l /\ In (d3_max l) l.
Proof.
  destruct l as [|h t]; [congruence |]. intros _. simpl. split.
  - destruct (fold_Rmin_In t h) as [-> | H]; [now left | now right].
  - destruct (fold_Rmax_In t h) as [-> | H]; [now left | now right].
Qed.

Lemma widen_sum (lo hi : R) : fst (widen lo hi) + snd (widen lo hi) = lo + hi.
Proof.
  unfold widen. destruct (Rlt_dec _ _); simpl; lra.
Qed.

Lemma widen_contains (lo hi : R) :
  fst (widen lo hi) <= lo /\ hi <= snd (widen lo hi).
Proof.
  unfold widen. destruct (Rlt_dec _ _); simpl; lra.
Qed.

Lemma widen_wide (lo hi : R) : 1e-6 <= hi - lo -> widen lo hi = (lo, hi).
Proof.
  intros H. unfold widen, JsMath.abs.
  destruct (Rlt_dec _ _) as [Hs | Hs]; [| reflexivity].
  rewrite Rabs_pos_eq in Hs by lra. lra.
Qed.

(** One axis of the projector: the domain of the scale, built from the
    values [l] of the axis as the script builds it. *)
Section Axis.

Variable l : list R.
Hypothesis l_nonempty : l <> [].

Local Abbreviation lo := (d3_min l).
Local Abbreviation hi := (d3_max l).
Local Abbreviation c :=
  ((fst (widen (d3_min l) (d3_max l)) + snd (widen (d3_min l) (d3_max l))) / 2).
Local Abbreviation T :=
  (widen (d3_min (map (compress c) l)) (d3_max (map (compress c) l))).

Lemma axis_center : c = (lo + hi) / 2.
Proof. now rewrite widen_sum. Qed.

Lemma axis_min : d3_min (map (compress c) l) = compress c lo.
Proof.
  destruct l as [|h t]; [congruence |]. simpl map. unfold d3_min at 1 3.
  apply fold_Rmin_map. intros u w. apply compress_monotone.
Qed.

Lemma axis_max : d3_max (map (compress c) l) = compress c hi.
Proof.
  destruct l as [|h t]; [congruence |]. simpl map. unfold d3_max at 1 3.
  apply fold_Rmax_map. intros u w. apply compress_monotone.
Qed.

(** The compressed extremes, by the half-span [h] of the axis. *)
Lemma axis_extremes :
  let h := (hi - lo) / 2 in
  (h = 0 /\ compress c lo = c /\ compress c hi = c)
  \/ (0 < h /\ compress c lo = c - Rpower h 0.6 /\ compress c hi = c + Rpower h 0.6).
Proof.
  cbv zeta. pose proof (d3_min_le_max l) as Hle. pose proof axis_center as Hc.
  destruct (Req_dec_T (hi - lo) 0) as [Hz | Hz].
  - left. split; [lra |].
    destruct (compress_offset c lo) as (_ & H2 & _).
    destruct (compress_offset c hi) as (_ & H2' & _).
    cbv zeta in H2, H2'. split; [specialize (H2 ltac:(lra)) | specialize (H2' ltac:(lra))]; lra.
  - right. split; [lra |].
    destruct (compress_offset c lo) as (H1 & _ & _).
    destruct (compress_offset c hi) as (_ & _ & H3).
    cbv zeta in H1, H3.
    destruct (H1 ltac:(lra)) as [H1' _]. destruct (H3 ltac:(lra)) as [H3' _].
    unfold JsMath.pow, compressionExp in H1', H3'.
    destruct (Req_dec_T (c - lo) 0); [lra |]. destruct (Req_dec_T (hi - c) 0); [lra |].
    replace (c - lo) with ((hi - lo) / 2) in H1' by lra.
    replace (hi - c) with ((hi - lo) / 2) in H3' by lra.
    split; lra.
Qed.

Lemma axis_symmetric : fst T + snd T = 2 * c.
Proof.
  rewrite widen_sum, axis_min, axis_max.
  destruct axis_extremes as [(_ & H1 & H2) | (_ & H1 & H2)]; rewrite H1, H2; lra.
Qed.

Lemma axis_lt : fst T < snd T.
Proof. apply widen_lt, d3_min_le_max. Qed.

(** A span of at most two units: the domain covers every value. *)
Lemma axis_covers (v : R) : hi - lo <= 2 -> In v l -> fst T <= v <= snd T.
Proof.
  intros Hspan Hv. pose proof (d3_bounds l v Hv) as Hb. pose proof axis_center as Hc.
  assert (Hlo : fst T <= compress c lo) by (rewrite <- axis_min; apply widen_contains).
  assert (Hhi : compress c hi <= snd T) by (rewrite <- axis_max; apply widen_contains).
  destruct axis_extremes as [(Hh & H1 & H2) | (Hh & H1 & H2)].
  - rewrite H1 in Hlo. rewrite H2 in Hhi. lra.
  - rewrite H1 in Hlo. rewrite H2 in Hhi.
    pose proof (Rpower_06_small ((hi - lo) / 2) ltac:(lra)). lra.
Qed.

(** A wider span: the domain ends strictly inside the values. *)
Lemma axis_overshoot : 2 < hi - lo -> lo < fst T /\ snd T < hi.
Proof.
  intros Hspan. pose proof axis_center as Hc.
  destruct axis_extremes as [(Hh & H1 & H2) | (Hh & H1 & H2)]; [lra |].
  pose proof (Rpower_06_large ((hi - lo) / 2) ltac:(lra)) as [Hp1 Hp2].
  rewrite axis_min, axis_max, H1, H2.
  rewrite widen_wide by lra. simpl. lra.
Qed.

End Axis.

Lemma scaleLinear_inside (d0 d1 r0 r1 v : R) :
  d0 < d1 -> r0 < r1 ->
  (r0 <= scaleLinear d0 d1 r0 r1 v <= r1 <-> d0 <= v <= d1).
Proof.
  intros Hd Hr. unfold scaleLinear.
  destruct (Req_dec_T (d1 - d0) 0) as [H0 | H0]; [lra |].
  assert (Hi : 0 < / (d1 - d0)) by (apply Rinv_0_lt_compat; lra).
  set (t := (v - d0) / (d1 - d0)).
  replace (r0 * (1 - t) + r1 * t) with (r0 + (r1 - r0) * t) by ring.
  assert (He : t * (d1 - d0) = v - d0) by (unfold t; field; lra).
  assert (Ht : (0 <= t <-> d0 <= v) /\ (t <= 1 <-> v <= d1)).
  { split; split; intros H; nra. }
  destruct Ht as [Ht0 Ht1]. split.
  - intros [H1 H2]. split; [apply Ht0 | apply Ht1]; nra.
  - intros [H1 H2]. apply Ht0 in H1. apply Ht1 in H2. split; nra.
Qed.

Lemma scaleLinear_reversed (d0 d1 r0 r1 v : R) :
  d1 < d0 -> r0 < r1 ->
  (r0 <= scaleLinear d0 d1 r0 r1 v <= r1 <-> d1 <= v <= d0).
Proof.
  intros Hd Hr.
  assert (Hflip : scaleLinear d0 d1 r0 r1 v = r0 + r1 - scaleLinear d1 d0 r0 r1 v).
  { unfold scaleLinear.
    destruct (Req_dec_T (d1 - d0) 0) as [H0 | H0]; [lra |].
    destruct (Req_dec_T (d0 - d1) 0) as [H1 | H1]; [lra |].
    field. split; lra. }
  pose proof (scaleLinear_inside d1 d0 r0 r1 v Hd Hr) as H.
  rewrite Hflip. split; intros H'; [apply H | apply H in H']; lra.
Qed.

Lemma scaleLinear_mirror (d0 d1 r0 r1 c d : R) :
  d0 + d1 = 2 * c ->
  scaleLinear d0 d1 r0 r1 (c + d) + scaleLinear d0 d1 r0 r1 (c - d) = r0 + r1.
Proof.
  intros Hc. unfold scaleLinear.
  destruct (Req_dec_T (d1 - d0) 0) as [H0 | H0]; [lra |].
  replace c with ((d0 + d1) / 2) by lra. field. lra.
Qed.

Lemma axis_symmetric_all (l : list R) :
  let c := (fst (widen (d3_min l) (d3_max l)) + snd (widen (d3_min l) (d3_max l))) / 2 in
  fst (widen (d3_min (map (compress c) l)) (d3_max (map (compress c) l)))
  + snd (widen (d3_min (map (compress c) l)) (d3_max (map (compress c) l)))
  = 2 * c.
Proof.
  cbv zeta. destruct l as [|h t].
  - simpl map. rewrite !widen_sum. simpl. lra.
  - apply axis_symmetric. discriminate.
Qed.

(** The projection is point-symmetric about the centre of the coordinate
    range: the centre longitude and latitude go to the centre of the canvas,
    and two values at the same offset on either side of the centre go to
    mirror positions.  The compression of the domain does not break this. *)
Theorem projection_centred (E : Env) (points : list Point) (d : R) :
  xScale E points (lonCenter points + d) + xScale E points (lonCenter points - d)
  = width E
  /\ yScale E points (latCenter points + d) + yScale E points (latCenter points - d)
     = height E
  /\ xScale E points (lonCenter points) = width E / 2
  /\ yScale E points (latCenter points) = height E / 2.
Proof.
  assert (Hx : forall d', xScale E points (lonCenter points + d')
                          + xScale E points (lonCenter points - d') = width E).
  { intros d'. unfold xScale. rewrite scaleLinear_mirror; [lra |].
    apply (axis_symmetric_all (longitudes points)). }
  assert (Hy : forall d', yScale E points (latCenter points + d')
                          + yScale E points (latCenter points - d') = height E).
  { intros d'. unfold yScale. rewrite scaleLinear_mirror; [lra |].
    rewrite Rplus_comm. apply (axis_symmetric_all (latitudes points)). }
  split; [apply Hx |]. split; [apply Hy |]. split.
  - specialize (Hx 0). replace (lonCenter points + 0) with (lonCenter points) in Hx by ring.
    replace (lonCenter points - 0) with (lonCenter points) in Hx by ring. lra.
  - specialize (Hy 0). replace (latCenter points + 0) with (latCenter points) in Hy by ring.
    replace (latCenter points - 0) with (latCenter points) in Hy by ring. lra.
Qed.

Lemma xScale_inside (E : Env) (points : list Point) (v : R) :
  pad <= xScale E points v <= width E - pad
  <-> fst (lonTDomain points) <= v <= snd (lonTDomain points).
Proof.
  unfold xScale. apply scaleLinear_inside.
  - apply (lonTDomain_lt E).
  - pose proof (width_ge E). unfold pad. lra.
Qed.

Lemma yScale_inside (E : Env) (points : list Point) (v : R) :
  pad <= yScale E points v <= height E - pad
  <-> fst (latTDomain points) <= v <= snd (latTDomain points).
Proof.
  unfold yScale. apply scaleLinear_reversed.
  - apply (latTDomain_lt E).
  - pose proof (height_ge E). unfold pad. lra.
Qed.

(** When the raw projection needs no clamp: every waypoint is projected
    inside the padded canvas exactly when neither the longitudes nor the
    latitudes span more than two degrees.  (The scales are applied to the
    raw coordinates, while their domain is the compressed range, and the
    compression [|d|^0.6] shrinks offsets from the centre above one degree.) *)
Theorem projection_inside_iff (E : Env) (points : list Point) :
  (forall p, In p points ->
             pad <= projectX E points p <= width E - pad
             /\ pad <= projectY E points p <= height E - pad)
  <-> (d3_max (longitudes points) - d3_min (longitudes points) <= 2
       /\ d3_max (latitudes points) - d3_min (latitudes points) <= 2).
Proof.
  destruct points as [|p0 t].
  { unfold longitudes, latitudes. simpl. split; [intros _; lra | intros _ p []]. }
  set (points := p0 :: t).
  assert (Hlon : longitudes points <> []) by discriminate.
  assert (Hlat : latitudes points <> []) by discriminate.
  split.
  - intros Hall. split.
    + destruct (Rle_dec (d3_max (longitudes points) - d3_min (longitudes points)) 2)
        as [H | H]; [exact H | exfalso].
      destruct (axis_overshoot (longitudes points) Hlon ltac:(lra)) as [H1 _].
      destruct (d3_attained _ Hlon) as [Hin _].
      apply in_map_iff in Hin as (p & Hp & Hin).
      destruct (Hall p Hin) as [Hx _]. unfold projectX in Hx.
      apply xScale_inside in Hx. rewrite Hp in Hx.
      unfold lonTDomain, lonTrans, lonCenter, lonDomain in Hx. lra.
    + destruct (Rle_dec (d3_max (latitudes points) - d3_min (latitudes points)) 2)
        as [H | H]; [exact H | exfalso].
      destruct (axis_overshoot (latitudes points) Hlat ltac:(lra)) as [H1 _].
      destruct (d3_attained _ Hlat) as [Hin _].
      apply in_map_iff in Hin as (p & Hp & Hin).
      destruct (Hall p Hin) as [_ Hy]. unfold projectY in Hy.
      apply yScale_inside in Hy. rewrite Hp in Hy.
      unfold latTDomain, latTrans, latCenter, latDomain in Hy. lra.
  - intros [Hlo Hla] p Hin. split.
    + apply xScale_inside.
      apply (axis_covers (longitudes points) Hlon); [exact Hlo |].
      apply in_map. exact Hin.
    + apply yScale_inside.
      apply (axis_covers (latitudes points) Hlat); [exact Hla |].
      apply in_map. exact Hin.
Qed.

Lemma projection_inside_iff_instance :
  ~ (forall p, In p Examples.twoStops ->
               pad <= projectX (Examples.viewport 100) Examples.twoStops p
                   <= width (Examples.viewport 100) - pad
               /\ pad <= projectY (Examples.viewport 100) Examples.twoStops p
                      <= height (Examples.viewport 100) - pad).
Proof.
  intros H.
  apply (proj1 (projection_inside_iff (Examples.viewport 100) Examples.twoStops)) in H.
  destruct H as [_ H]. unfold latitudes, Examples.twoStops in H. simpl in H.
  unfold Rmax, Rmin in H. destruct (Rle_dec 0 4); lra.
Defined.

(** ** The playback variables stay in range *)

Lemma parseSpeed_nonzero (v : option R) : parseSpeed v <> 0.
Proof.
  unfold parseSpeed, JsMath.or_else. destruct v as [r|]; [| lra].
  destruct (Req_dec_T r 0); lra.
Qed.

Lemma baseMs_bounds (a b : R * R) : 400 <= baseMs a b <= 6000.
Proof. unfold baseMs. apply max_bounds. lra. Qed.

Section PlaybackRange.

Variable E : Env.
Variable points : list Point.

Local Abbreviation n := (List.length points).

Lemma animateTo_ok (next : nat) (st : App) :
  (1 <= next <= n - 1)%nat -> playbackOk n st ->
  playbackOk n (animateTo E points next st).
Proof.
  intros Hn (Hi & Hs & Hc). unfold animateTo, playbackOk, set_frameCallbacks.
  cbn [currentIndex speed frameCallbacks]. repeat split; try assumption.
  apply Forall_app. split; [exact Hc |]. constructor; [| constructor].
  split; cbn [a_next a_duration]; [exact Hn |].
  match goal with |- baseMs ?a ?b / _ <> 0 => pose proof (baseMs_bounds a b) as Hb end.
  intros H0. apply (Rmult_eq_compat_r (speed st)) in H0.
  unfold Rdiv in H0. rewrite Rmult_assoc, Rinv_l, Rmult_1_r, Rmult_0_l in H0 by exact Hs.
  lra.
Qed.

Lemma playLoop_range (st : App) : playbackOk n st -> playbackOk n (playLoop E points st).
Proof.
  intros Hok. unfold playLoop.
  destruct (playing st && (currentIndex st <? n - 1)%nat) eqn:Hc.
  - apply andb_prop in Hc as [_ Hlt]. apply Nat.ltb_lt in Hlt.
    apply animateTo_ok; [lia |]. exact Hok.
  - exact Hok.
Qed.

Lemma runCallback_range (ts : R) (st : App) (a : Anim) :
  closureOk n a -> playbackOk n st -> playbackOk n (runCallback ts st a).
Proof.
  intros [Ha Hd] (Hi & Hs & Hc). unfold runCallback, step.
  destruct (negb (playing st)); cbn [negb].
  - unfold playbackOk. cbn. repeat split; try assumption.
    apply Forall_app. split; [exact Hc |]. constructor; [| constructor]. now split.
  - match goal with |- context [JsMath.lt ?t 1] => destruct (JsMath.lt t 1) end; cbn.
    + unfold playbackOk. cbn. repeat split; try assumption.
      apply Forall_app. split; [exact Hc |]. constructor; [| constructor]. now split.
    + unfold playbackOk. cbn. repeat split; try assumption. lia.
Qed.

Lemma animationFrame_range (ts : R) (st : App) :
  playbackOk n st -> playbackOk n (animationFrame ts st).
Proof.
  intros (Hi & Hs & Hc). unfold animationFrame.
  assert (H : forall l s, Forall (closureOk n) l -> playbackOk n s ->
                          playbackOk n (fold_left (runCallback ts) l s)).
  { induction l as [|a t IH]; intros s Hl Hs'; simpl; [exact Hs' |].
    inversion Hl; subst. apply IH; [assumption |]. now apply runCallback_range. }
  apply H; [exact Hc |]. unfold playbackOk. cbn. auto.
Qed.

Lemma load_range : playbackOk n (load E points).
Proof.
  unfold load. destruct (geographicLayout E points) as [l c].
  assert (H0 : forall b, playbackOk n (mkApp l (travellerToStart l (travellerToStart (drawNode 0 (computeAllPositions E points)) (0, 0))) false (parseSpeed (speedRangeValue E)) 0 b c [] [])).
  { intros b. unfold playbackOk. cbn. repeat split; [lia | apply parseSpeed_nonzero | constructor]. }
  destruct (hasUniformBtn E); [| apply H0].
  destruct (applyUniformLinkLayout_frame E points 250
              (set_isUniform (mkApp l (travellerToStart l (travellerToStart (drawNode 0 (computeAllPositions E points)) (0, 0))) false (parseSpeed (speedRangeValue E)) 0 false c [] []) true))
    as (_ & H2 & H3 & _ & H5 & _).
  unfold playbackOk. rewrite H2, H3, H5. apply (H0 true).
Qed.

Lemma handle_range (st : App) (e : Event) :
  playbackOk n st -> playbackOk n (handle E points st e).
Proof.
  intros Hok. destruct e; simpl.
  - unfold clickPlay. destruct (playing st); [exact Hok |].
    unfold playSequence. destruct (n - 1 <=? currentIndex st)%nat; [exact Hok |].
    apply playLoop_range. exact Hok.
  - exact Hok.
  - destruct Hok as (Hi & _ & Hc). unfold playbackOk. cbn.
    repeat split; [exact Hi | apply parseSpeed_nonzero | exact Hc].
  - unfold clickUniform. destruct (hasUniformBtn E); [| exact Hok].
    destruct (isUniform (set_isUniform st (negb (isUniform st)))).
    + destruct (applyUniformLinkLayout_frame E points 320
                  (set_isUniform st (negb (isUniform st)))) as (_ & H2 & H3 & _ & H5 & _).
      unfold playbackOk. rewrite H2, H3, H5. exact Hok.
    + destruct (revertToGeographic_frame E points
                  (set_isUniform st (negb (isUniform st)))) as (_ & H2 & H3 & _ & H5 & _).
      unfold playbackOk. rewrite H2, H3, H5. exact Hok.
  - now apply animationFrame_range.
  - unfold timeout. destruct (timeouts st) as [|due rest]; [exact Hok |].
    destruct (Rle_dec due now); [| exact Hok].
    apply playLoop_range. exact Hok.
Qed.

End PlaybackRange.

(** Whatever the user does, the playback variables stay in range: the index
    never runs past the last node, the speed is never zero (an unparseable or
    zero slider value reads as 1), and every animation closure aims at one of
    the nodes after the first over a duration that is not zero, so that
    neither [baseMs / speed] nor [(ts - start) / duration] divides by zero. *)
Theorem playback_in_range (E : Env) (points : list Point) (st : App) :
  reachable E points st -> playbackOk (List.length points) st.
Proof.
  induction 1 as [| st e Hr IH].
  - apply load_range.
  - now apply handle_range.
Qed.

Lemma playback_in_range_instance :
  playbackOk 2 (handle (Examples.viewport 100) Examples.twoStops
                       (load (Examples.viewport 100) Examples.twoStops) ClickPlay).
Proof.
  apply (playback_in_range (Examples.viewport 100) Examples.twoStops).
  apply reach_step. apply reach_load.
Defined.

(** ** Playback without Pause *)

Section NoPause.

Variable E : Env.
Variable points : list Point.

Lemma load_single_sequence : singleSequence (load E points).
Proof.
  left. unfold load. destruct (geographicLayout E points) as [l c].
  destruct (hasUniformBtn E); [| cbn; auto].
  match goal with
  | |- context [applyUniformLinkLayout E points 250 ?s] =>
      destruct (applyUniformLinkLayout_frame E points 250 s) as (H1 & _ & _ & _ & H5 & H6)
  end.
  rewrite H1, H5, H6. cbn. auto.
Qed.

Lemma singleSequence_frame (st st' : App) :
  playing st' = playing st -> currentIndex st' = currentIndex st ->
  frameCallbacks st' = frameCallbacks st -> timeouts st' = timeouts st ->
  singleSequence st -> singleSequence st'.
Proof.
  unfold singleSequence. intros -> -> -> ->. exact (fun H => H).
Qed.

Lemma playLoop_single_sequence (st : App) :
  playing st = true -> frameCallbacks st = [] -> timeouts st = [] ->
  singleSequence (playLoop E points st)
  /\ currentIndex (playLoop E points st) = currentIndex st.
Proof.
  intros Hp Hc Ht. unfold playLoop. rewrite Hp. cbn [andb].
  destruct (currentIndex st <? List.length points - 1)%nat.
  - split; [| reflexivity]. right; left. unfold animateTo. cbn.
    rewrite Hp, Hc, Ht. repeat split. eexists. split; [reflexivity |]. cbn. lia.
  - split; [| reflexivity]. left. cbn. auto.
Qed.

Lemma handle_single_sequence (st : App) (e : Event) :
  e <> ClickPause -> singleSequence st ->
  singleSequence (handle E points st e)
  /\ (currentIndex st <= currentIndex (handle E points st e) <= S (currentIndex st))%nat.
Proof.
  intros He Hs. destruct e; simpl; try congruence.
  - (* Play *)
    unfold clickPlay. destruct (playing st) eqn:Hp; [split; [exact Hs | lia] |].
    unfold playSequence.
    destruct (List.length points - 1 <=? currentIndex st)%nat; [split; [exact Hs | lia] |].
    destruct Hs as [(_ & Hc & Ht) | [(Hp' & _) | (Hp' & _)]]; try congruence.
    destruct (playLoop_single_sequence (set_playing st true) eq_refl Hc Ht) as [H1 H2].
    split; [exact H1 |]. rewrite H2. cbn. lia.
  - (* the speed slider *)
    split; [| cbn; lia]. revert Hs. now apply singleSequence_frame.
  - (* the layout button *)
    unfold clickUniform. destruct (hasUniformBtn E); [| split; [exact Hs | lia]].
    destruct (isUniform (set_isUniform st (negb (isUniform st)))).
    + destruct (applyUniformLinkLayout_frame E points 320
                  (set_isUniform st (negb (isUniform st)))) as (H1 & _ & H3 & _ & H5 & H6).
      split; [| rewrite H3; cbn; lia].
      revert Hs. now apply singleSequence_frame.
    + destruct (revertToGeographic_frame E points
                  (set_isUniform st (negb (isUniform st)))) as (H1 & _ & H3 & _ & H5 & H6).
      split; [| rewrite H3; cbn; lia].
      revert Hs. now apply singleSequence_frame.
  - (* a frame *)
    unfold animationFrame.
    destruct Hs as [(Hp & Hc & Ht) | [(Hp & Ht & a & Hc & Ha) | (Hp & Hc & d & Ht)]];
      rewrite Hc; cbn [fold_left].
    + split; [| cbn; lia]. left. cbn. auto.
    + unfold runCallback, step. cbn [playing set_frameCallbacks traveller]. rewrite Hp.
      cbn [negb].
      match goal with |- context [JsMath.lt ?t 1] => destruct (JsMath.lt t 1) end;
        cbn [negb].
      * split; [| cbn; lia]. right; left. cbn. rewrite Hp, Ht. repeat split.
        eexists. split; [reflexivity |]. cbn. exact Ha.
      * split; [| cbn; lia]. right; right. cbn. rewrite Hp, Ht. repeat split.
        eexists. reflexivity.
    + split; [| cbn; lia]. right; right. cbn. rewrite Hp, Ht. repeat split.
      now exists d.
  - (* the end of a pause *)
    unfold timeout.
    destruct Hs as [(Hp & Hc & Ht) | [(Hp & Ht & a & Hc & Ha) | (Hp & Hc & d & Ht)]];
      rewrite Ht.
    + split; [| lia]. left. auto.
    + split; [| lia]. right; left. repeat split; try assumption. now exists a.
    + destruct (Rle_dec d now).
      * destruct (playLoop_single_sequence (set_timeouts st []) Hp Hc eq_refl) as [H1 H2].
        split; [exact H1 |]. rewrite H2. cbn. lia.
      * split; [| lia]. right; right. repeat split; try assumption. now exists d.
Qed.

Lemma run_single_sequence (es : list Event) (st : App) :
  noPause es -> singleSequence st -> singleSequence (run E points es st).
Proof.
  revert st. induction es as [|e t IH]; intros st Hn Hs; [exact Hs |].
  inversion Hn; subst. simpl. apply IH; [assumption |].
  now apply handle_single_sequence.
Qed.

End NoPause.

(** As long as Pause is never clicked, one [playSequence] at most is alive
    (the page is idle, or a single closure animates towards the node after
    the current one, or a single pause is pending), and every event leaves
    the index where it is or moves it one node forward.  Clicking Play
    again, moving the slider or switching the layout in the middle of the
    playback does not disturb this. *)
Theorem playback_without_pause (E : Env) (points : list Point)
        (es : list Event) (e : Event) :
  noPause (es ++ [e]) ->
  let st := run E points es (load E points) in
  singleSequence (handle E points st e)
  /\ (currentIndex st <= currentIndex (handle E points st e) <= S (currentIndex st))%nat.
Proof.
  intros Hn. cbv zeta. unfold noPause in Hn. apply Forall_app in Hn as [Hes He].
  inversion He; subst.
  apply handle_single_sequence; [assumption |].
  apply run_single_sequence; [exact Hes | apply load_single_sequence].
Qed.

Lemma playback_without_pause_instance :
  singleSequence
    (handle (Examples.viewport 100) Examples.threeStops
       (run (Examples.viewport 100) Examples.threeStops [ClickPlay; AnimationFrame 10]
            (load (Examples.viewport 100) Examples.threeStops))
       ClickPlay).
Proof.
  refine (proj1 (playback_without_pause (Examples.viewport 100) Examples.threeStops
                   [ClickPlay; AnimationFrame 10] ClickPlay _)).
  repeat constructor; discriminate.
Defined.

(** ** The marks of the drawn nodes *)

Lemma map_list_set {A B : Type} (f : A -> B) (i : nat) (v : A) (l : list A) :
  map f (list_set i v l) = list_set i (f v) (map f l).
Proof.
  revert i. induction l as [|h t IH]; intros [|i]; simpl; try reflexivity.
  now rewrite IH.
Qed.

Lemma nth_error_list_set_eq {A : Type} (i : nat) (v : A) (l : list A) :
  (i < List.length l)%nat -> nth_error (list_set i v l) i = Some v.
Proof.
  revert i. induction l as [|h t IH]; intros [|i]; simpl; try lia; [reflexivity |].
  intros H. apply IH. lia.
Qed.

Lemma nth_error_list_set_neq {A : Type} (i j : nat) (v : A) (l : list A) :
  i <> j -> nth_error (list_set i v l) j = nth_error l j.
Proof.
  revert i j. induction l as [|h t IH]; intros [|i] [|j] H; simpl;
    try reflexivity; try congruence.
  apply IH. congruence.
Qed.

Lemma drawnFlags_length (l : list NodePos) :
  List.length (drawnFlags l) = List.length l.
Proof. apply length_map. Qed.

Lemma drawnFlags_sameMetrics (l l' : list NodePos) :
  Forall2 sameMetrics l l' -> drawnFlags l' = drawnFlags l.
Proof.
  induction 1 as [|p q t t' Hpq Ht IH]; [reflexivity |].
  unfold drawnFlags in *. simpl. rewrite IH. f_equal.
  destruct Hpq as (_ & _ & _ & _ & _ & _ & Hd). now rewrite Hd.
Qed.

Lemma drawnFlags_drawNode (i : nat) (l : list NodePos) :
  drawnFlags (drawNode i l) = list_set i true (drawnFlags l).
Proof.
  unfold drawNode, drawnFlags.
  destruct (nth_error l i) as [pre|] eqn:Hn.
  - destruct (_drawn pre) eqn:Hd.
    + symmetry. apply list_set_same. rewrite nth_error_map, Hn. simpl. now rewrite Hd.
    + now rewrite map_list_set.
  - symmetry. apply nth_error_None in Hn.
    assert (H : forall (A : Type) (k : nat) (v : A) (m : list A),
               (List.length m <= k)%nat -> list_set k v m = m).
    { intros A k v m. revert k. induction m as [|h t IH]; intros [|k]; simpl;
        try reflexivity; try lia. intros Hk. f_equal. apply IH. lia. }
    apply H. now rewrite length_map.
Qed.

Lemma drawNode_length (i : nat) (l : list NodePos) :
  List.length (drawNode i l) = List.length l.
Proof.
  rewrite <- !drawnFlags_length, drawnFlags_drawNode. apply list_set_length.
Qed.

Lemma drawnUpTo_drawNode (m : nat) (l : list NodePos) :
  drawnUpTo m l -> drawnUpTo (S m) (drawNode (S m) l).
Proof.
  intros H j Hj Hlen. rewrite drawNode_length in Hlen. rewrite drawnFlags_drawNode.
  destruct (Nat.eq_dec (S m) j) as [<- | Hne].
  - apply nth_error_list_set_eq. now rewrite drawnFlags_length.
  - rewrite nth_error_list_set_neq by exact Hne. apply H; lia.
Qed.

Lemma drawnUpTo_first (l : list NodePos) : drawnUpTo 0 (drawNode 0 l).
Proof.
  intros j Hj Hlen. rewrite drawNode_length in Hlen. rewrite drawnFlags_drawNode.
  assert (j = 0%nat) by lia. subst j.
  apply nth_error_list_set_eq. now rewrite drawnFlags_length.
Qed.

Lemma drawnUpTo_flags (m : nat) (l l' : list NodePos) :
  drawnFlags l' = drawnFlags l -> drawnUpTo m l -> drawnUpTo m l'.
Proof.
  intros Hf H j Hj Hlen. rewrite Hf. apply H; [exact Hj |].
  rewrite <- drawnFlags_length, <- Hf, drawnFlags_length. exact Hlen.
Qed.

Lemma drawnUpTo_all (l : list NodePos) :
  drawnUpTo (List.length l - 1) l -> Forall (fun p => _drawn p = true) l.
Proof.
  intros H. apply Forall_forall. intros p Hp.
  apply In_nth_error in Hp as [j Hj].
  assert (Hlt : (j < List.length l)%nat) by (apply nth_error_Some; congruence).
  specialize (H j ltac:(lia) Hlt). unfold drawnFlags in H.
  rewrite nth_error_map, Hj in H. simpl in H. congruence.
Qed.

Lemma computeFrom_flags (E : Env) (points ps : list Point) (i : nat) :
  Forall (fun p => _drawn p = false) (computeFrom E points i ps).
Proof.
  revert i. induction ps as [|p t IH]; intros i; simpl; constructor; [reflexivity | apply IH].
Qed.

Section Flags.

Variable E : Env.
Variable points : list Point.

Lemma resolveCollisions_flags (l : list NodePos) (c : nat) :
  drawnFlags (fst (resolveCollisions E points l c)) = drawnFlags l.
Proof.
  apply drawnFlags_sameMetrics. unfold resolveCollisions.
  pose proof (separationLoop_metrics E points l 25 l c
                (Forall2_refl sameMetrics l sameMetrics_refl)) as H1.
  destruct (separationLoop E points 25 l c) as [[l1 c1] b]. simpl in H1.
  apply collinearityLoop_metrics. exact H1.
Qed.

Lemma relaxLoop_flags (k : nat) (l : list NodePos) (c : nat) :
  drawnFlags (fst (relaxLoop E points k l c)) = drawnFlags l.
Proof.
  apply drawnFlags_sameMetrics. apply relaxLoop_metrics.
  apply Forall2_refl, sameMetrics_refl.
Qed.

Lemma writeBack_flags (settled : nat -> R * R) (l : list NodePos) (s : SimNode) :
  drawnFlags (writeBack E settled l s) = drawnFlags l.
Proof.
  unfold writeBack. destruct (nth_error l (sn_id s)) as [old|] eqn:Hn; [| reflexivity].
  unfold drawnFlags. rewrite map_list_set. cbn [_drawn].
  apply list_set_same. now rewrite nth_error_map, Hn.
Qed.

Lemma applyUniformLinkLayout_flags (target : R) (st : App) :
  drawnFlags (nodePositions (applyUniformLinkLayout E points target st))
  = drawnFlags (nodePositions st).
Proof.
  unfold applyUniformLinkLayout.
  destruct (List.length points <=? 1)%nat; [reflexivity |]. cbv zeta. cbn [nodePositions set_layout].
  generalize (simulate E (simNodesFrom E points (nodePositions st) 0 points) target
                       (width E) (height E)) as settled.
  intros settled.
  generalize (simNodesFrom E points (nodePositions st) 0 points) as sims.
  generalize (nodePositions st) as l.
  intros l sims. revert l. induction sims as [|s t IH]; intros l; simpl; [reflexivity |].
  rewrite IH. apply writeBack_flags.
Qed.

End Flags.

(** Going back to the geographic layout forgets which nodes are drawn:
    [computeAllPositions] writes every entry anew, without its [_drawn]
    mark, and the relaxation that follows only moves entries.  The node
    groups of the canvas stay where they are, so from here on the array no
    longer tells [drawNode] that a node is on the canvas already.  The
    uniform layout, which merges its result into the old entries, keeps the
    marks. *)
Theorem revert_forgets_drawn (E : Env) (points : list Point) (st : App) (target : R) :
  Forall (fun p => _drawn p = false) (nodePositions (revertToGeographic E points st))
  /\ List.length (nodePositions (revertToGeographic E points st)) = List.length points
  /\ drawnFlags (nodePositions (applyUniformLinkLayout E points target st))
     = drawnFlags (nodePositions st).
Proof.
  assert (H : Forall (fun p => _drawn p = false)
                     (nodePositions (revertToGeographic E points st))
              /\ List.length (nodePositions (revertToGeographic E points st))
                 = List.length points).
  {
    unfold revertToGeographic.
    pose proof (relaxLoop_flags E points 20 (computeAllPositions E points) (randomCalls st))
      as Hf.
    destruct (relaxLoop E points 20 (computeAllPositions E points) (randomCalls st))
      as [l c]. cbn [fst] in Hf. cbn [nodePositions set_layout].
    assert (Hall : Forall (fun b => b = false) (drawnFlags l)).
    { rewrite Hf. unfold drawnFlags. apply Forall_map.
      apply computeFrom_flags. }
    split.
    - unfold drawnFlags in Hall. now apply Forall_map in Hall.
    - rewrite <- drawnFlags_length, Hf, drawnFlags_length.
      apply computeFrom_length. }
  destruct H as [H1 H2].
  split; [exact H1 | split; [exact H2 | apply applyUniformLinkLayout_flags]].
Qed.

(** ** Playing the route to its end *)

Section LoadedPage.

Variable E : Env.
Variable points : list Point.

Lemma load_shows :
  shows (load E points) (coords (nodePositions (load E points)))
        (traveller (load E points)) false (parseSpeed (speedRangeValue E)) 0 [] [].
Proof.
  unfold shows. repeat split; unfold load;
    destruct (geographicLayout E points) as [l c];
    (destruct (hasUniformBtn E); [| reflexivity]);
    match goal with
    | |- context [applyUniformLinkLayout E points 250 ?s] =>
        destruct (applyUniformLinkLayout_frame E points 250 s)
          as (H1 & H2 & H3 & _ & H5 & H6)
    end; try rewrite H1; try rewrite H2; try rewrite H3; try rewrite H5; try rewrite H6;
    reflexivity.
Qed.

Lemma load_length : List.length (nodePositions (load E points)) = List.length points.
Proof.
  exact (proj1 (load_ok E points (fun _ => True)
                  (fun _ _ _ _ _ _ _ _ _ => I) (fun _ _ => I) (fun _ _ => I))).
Qed.

Lemma load_drawn : drawnUpTo 0 (nodePositions (load E points)).
Proof.
  apply (drawnUpTo_flags 0 (drawNode 0 (computeAllPositions E points)));
    [| apply drawnUpTo_first].
  unfold load, geographicLayout.
  pose proof (resolveCollisions_flags E points
                (drawNode 0 (computeAllPositions E points)) 0) as Hf.
  destruct (resolveCollisions E points (drawNode 0 (computeAllPositions E points)) 0)
    as [l c]. cbn [fst] in Hf.
  destruct (hasUniformBtn E); [| exact Hf].
  rewrite applyUniformLinkLayout_flags. exact Hf.
Qed.

Lemma clickPlay_draws (st : App) :
  playing st = false -> (currentIndex st < List.length points - 1)%nat ->
  nodePositions (clickPlay E points st)
  = drawNode (currentIndex st + 1) (nodePositions st).
Proof.
  intros Hp Hi. unfold clickPlay. rewrite Hp. unfold playSequence.
  assert (Hle : (List.length points - 1 <=? currentIndex st)%nat = false)
    by (apply Nat.leb_gt; lia).
  rewrite Hle. unfold playLoop. cbn [playing set_playing currentIndex andb].
  assert (Hlt : (currentIndex st <? List.length points - 1)%nat = true)
    by now apply Nat.ltb_lt.
  rewrite Hlt. reflexivity.
Qed.

Lemma timeout_draws (st : App) (now due : R) (rest : list R) :
  timeouts st = due :: rest -> due <= now ->
  playing st = true -> (currentIndex st < List.length points - 1)%nat ->
  nodePositions (timeout E points now st)
  = drawNode (currentIndex st + 1) (nodePositions st).
Proof.
  intros Ht Hdue Hp Hi. unfold timeout. rewrite Ht.
  destruct (Rle_dec due now); [| lra].
  unfold playLoop. cbn [playing set_timeouts currentIndex]. rewrite Hp. cbn [andb].
  assert (Hlt : (currentIndex st <? List.length points - 1)%nat = true)
    by now apply Nat.ltb_lt.
  rewrite Hlt. reflexivity.
Qed.

Lemma timeout_finish (st : App) cs tr v i (now due : R) :
  shows st cs tr true v i [] [due] -> due <= now ->
  (List.length points - 1 <= i)%nat ->
  shows (timeout E points now st) cs tr false v i [] []
  /\ nodePositions (timeout E points now st) = nodePositions st.
Proof.
  intros (H1 & H2 & H3 & H4 & H5 & H6 & H7) Hdue Hi.
  unfold timeout. rewrite H7. destruct (Rle_dec due now); [| lra].
  unfold playLoop. cbn [playing set_timeouts currentIndex]. rewrite H3, H5. cbn [andb].
  assert (Hlt : (i <? List.length points - 1)%nat = false) by (apply Nat.ltb_ge; lia).
  rewrite Hlt. split; [| reflexivity]. repeat split; assumption.
Qed.

End LoadedPage.

Section Completes.

Variable E : Env.
Variable points : list Point.
Variables v d : R.
Variable cs : list (R * R).

Hypothesis v_pos : 0 < v.
Hypothesis d_long : 6000 / v <= d.

Local Abbreviation closure i pa pb :=
  (mkAnim (i + 1) (fst pa) (snd pa) (fst pb) (snd pb) (baseMs pa pb / v) None).

Lemma duration_bounds (pa pb : R * R) : 0 < baseMs pa pb / v <= d.
Proof.
  pose proof (baseMs_bounds pa pb) as [H1 H2].
  assert (Hi : 0 < / v) by now apply Rinv_0_lt_compat.
  unfold Rdiv in *. split; [apply Rmult_lt_0_compat; lra |].
  eapply Rle_trans; [| exact d_long].
  apply Rmult_le_compat_r; lra.
Qed.

(** The two frames of a segment: the first anchors the animation, the
    second ends it. *)
Lemma segment_shows (st : App) (tr : R * R) (i : nat) (pa pb : R * R) (t : R) :
  shows st cs tr true v i [closure i pa pb] [] -> t <> 0 ->
  shows (animationFrame (t + d) (animationFrame t st)) cs pb true v (i + 1) []
        [t + d + 250]
  /\ nodePositions (animationFrame (t + d) (animationFrame t st)) = nodePositions st.
Proof.
  intros Hs Ht. split; [| now rewrite !animationFrame_nodePositions].
  destruct (frame_start t _ _ _ _ _ _ _ _ Hs) as [Hf1 Hs1].
  cbn [fold_left] in Hf1.
  pose proof (runCallback_anchor t _ (closure i pa pb) _ _ _ _ _ _ Hs1 eq_refl) as Hs2.
  rewrite <- Hf1 in Hs2. cbn [app a_ax a_ay with_start a_next a_bx a_by a_duration] in Hs2.
  destruct (frame_start (t + d) _ _ _ _ _ _ _ _ Hs2) as [Hf3 Hs3].
  cbn [fold_left] in Hf3.
  destruct (duration_bounds pa pb) as [Hd1 Hd2].
  pose proof (runCallback_done (t + d) _
                (mkAnim (i + 1) (fst pa) (snd pa) (fst pb) (snd pb)
                        (baseMs pa pb / v) (Some t))
                t _ _ _ _ _ _ Hs3 eq_refl Ht Hd1
                ltac:(cbn [a_duration]; lra)) as Hs4.
  change (with_start (closure i pa pb) (Some t))
    with (mkAnim (i + 1) (fst pa) (snd pa) (fst pb) (snd pb) (baseMs pa pb / v) (Some t))
    in Hf3.
  rewrite <- Hf3 in Hs4. cbn [app a_bx a_by a_next] in Hs4.
  destruct pb as [bx by']. exact Hs4.
Qed.

Hypothesis cs_length : List.length cs = List.length points.

Lemma playThrough_runs (k : nat) :
  forall (i : nat) (st : App) (tr pa pb : R * R) (t : R),
    (i + S k = List.length points - 1)%nat -> 0 < t ->
    nth_error cs i = Some pa -> nth_error cs (i + 1) = Some pb ->
    shows st cs tr true v i [closure i pa pb] [] ->
    drawnUpTo (i + 1) (nodePositions st) ->
    let st' := run E points (playThrough (S k) t d) st in
    exists pz,
      nth_error cs (List.length points - 1) = Some pz
      /\ shows st' cs pz false v (List.length points - 1) [] []
      /\ drawnUpTo (List.length points - 1) (nodePositions st').
Proof.
  induction k as [|k IH]; intros i st tr pa pb t Hik Ht Ha Hb Hs Hd; cbv zeta.
  - (* the last segment *)
    destruct (segment_shows st tr i pa pb t Hs ltac:(lra)) as [Hs2 Hn2].
    cbn [playThrough segmentEvents app run fold_left handle].
    destruct (timeout_finish E points _ _ _ _ _ (t + d + 250) _ Hs2 ltac:(lra) ltac:(lia))
      as [Hs3 Hn3].
    replace (i + 1)%nat with (List.length points - 1)%nat in * by lia.
    exists pb. split; [exact Hb |]. split; [exact Hs3 |].
    rewrite Hn3, Hn2. exact Hd.
  - destruct (segment_shows st tr i pa pb t Hs ltac:(lra)) as [Hs2 Hn2].
    change (playThrough (S (S k)) t d)
      with (segmentEvents t d ++ playThrough (S k) (t + d + 250) d).
    rewrite run_app. cbn [segmentEvents run fold_left handle].
    assert (Hlt : (i + 1 + 1 < List.length cs)%nat) by lia.
    destruct (nth_error cs (i + 1 + 1)) as [pc|] eqn:Hc;
      [| apply nth_error_None in Hc; lia].
    pose proof (timeout_shows E points _ _ _ _ _ _ _ (t + d + 250) _ pb pc
                  Hs2 ltac:(lra) ltac:(lia) Hb Hc) as Hs3.
    cbn [app] in Hs3.
    assert (Hn3 : nodePositions (timeout E points (t + d + 250)
                                   (animationFrame (t + d) (animationFrame t st)))
                  = drawNode (i + 1 + 1) (nodePositions st)).
    { destruct Hs2 as (_ & _ & Hp & _ & Hi & _ & Hto).
      rewrite (timeout_draws E points _ (t + d + 250) (t + d + 250) [] Hto
                 ltac:(lra) Hp ltac:(lia)).
      now rewrite Hi, Hn2. }
    apply (IH (i + 1)%nat _ pb pb pc (t + d + 250)); try assumption; try lia.
    + pose proof (duration_bounds pa pb). lra.
    + rewrite Hn3. replace (i + 1 + 1)%nat with (S (i + 1)) by lia.
      now apply drawnUpTo_drawNode.
Qed.

(** From the loaded page: Play, then every segment in turn. *)
Lemma play_from_start (st0 : App) (tr0 : R * R) (t : R) :
  points <> [] ->
  shows st0 cs tr0 false v 0 [] [] ->
  drawnUpTo 0 (nodePositions st0) ->
  (List.length points = 1%nat -> nth_error cs 0 = Some tr0) ->
  0 < t ->
  exists pz,
    nth_error cs (List.length points - 1) = Some pz
    /\ shows (run E points (ClickPlay :: playThrough (List.length points - 1) t d) st0)
             cs pz false v (List.length points - 1) [] []
    /\ drawnUpTo (List.length points - 1)
                 (nodePositions
                    (run E points
                         (ClickPlay :: playThrough (List.length points - 1) t d) st0)).
Proof.
  intros Hne Hs Hdr Hone Ht.
  destruct (Nat.eq_dec (List.length points) 1) as [Hn | Hn].
  - (* a single point: Play does nothing *)
    rewrite Hn. cbn [Nat.sub playThrough run fold_left handle].
    assert (Hcp : clickPlay E points st0 = st0).
    { unfold clickPlay. destruct Hs as (_ & _ & Hp & _ & Hi & _).
      rewrite Hp. unfold playSequence. rewrite Hi, Hn. reflexivity. }
    rewrite Hcp. exists tr0. split; [exact (Hone Hn) |]. split; [exact Hs | exact Hdr].
  - (* two points or more *)
    assert (Hlen : (2 <= List.length points)%nat).
    { destruct points as [|p0 [|p1 t0]]; [congruence | simpl in Hn; congruence |].
      simpl. lia. }
    cbn [run fold_left handle].
    destruct (nth_error cs 0) as [pa|] eqn:Ha; [| apply nth_error_None in Ha; lia].
    destruct (nth_error cs (0 + 1)) as [pb|] eqn:Hb; [| apply nth_error_None in Hb; lia].
    pose proof (clickPlay_shows E points st0 cs tr0 v 0 [] [] pa pb Hs
                  ltac:(lia) Ha Hb) as Hs1.
    cbn [app] in Hs1.
    assert (Hn1 : nodePositions (clickPlay E points st0)
                  = drawNode (0 + 1) (nodePositions st0)).
    { destruct Hs as (_ & _ & Hp & _ & Hi & _).
      rewrite (clickPlay_draws E points st0 Hp ltac:(rewrite Hi; lia)).
      now rewrite Hi. }
    assert (Hk : exists k, (List.length points - 1 = S k)%nat /\ (0 + S k = List.length points - 1)%nat).
    { exists (List.length points - 2)%nat. lia. }
    destruct Hk as (k & Hk1 & Hk2).
    replace (playThrough (List.length points - 1) t d) with (playThrough (S k) t d)
      by now rewrite Hk1.
    apply (playThrough_runs k 0%nat (clickPlay E points st0) tr0 pa pb t Hk2 Ht Ha Hb Hs1).
    rewrite Hn1. apply (drawnUpTo_drawNode 0). exact Hdr.
Qed.

(** What the finished playback looks like. *)
Lemma shows_finished (st : App) (pz : R * R) :
  nth_error cs (List.length points - 1) = Some pz ->
  shows st cs pz false v (List.length points - 1) [] [] ->
  drawnUpTo (List.length points - 1) (nodePositions st) ->
  playing st = false
  /\ currentIndex st = (List.length points - 1)%nat
  /\ frameCallbacks st = [] /\ timeouts st = []
  /\ (exists p, nth_error (nodePositions st) (List.length points - 1) = Some p
                /\ traveller st = (x p, y p))
  /\ Forall (fun p => _drawn p = true) (nodePositions st)
  /\ coords (nodePositions st) = cs.
Proof.
  intros Hz (H1 & H2 & H3 & H4 & H5 & H6 & H7) Hdz.
  repeat split; try assumption.
  - rewrite <- H1 in Hz. unfold coords in Hz. rewrite nth_error_map in Hz.
    destruct (nth_error (nodePositions st) (List.length points - 1)) as [p|];
      [| discriminate].
    exists p. split; [reflexivity |]. simpl in Hz. congruence.
  - apply drawnUpTo_all.
    assert (Hl : List.length (nodePositions st) = List.length points).
    { rewrite <- cs_length, <- H1. unfold coords. now rewrite length_map. }
    now rewrite Hl.
Qed.

End Completes.

(** Played without interruption, the route is played to its end.  After
    Play, let every segment get a frame that anchors its animation, a frame
    at least [6000 / speed] milliseconds later, and the end of the pause
    that follows.  Then playback has stopped by itself on the last node:
    the index is the last one, the marker sits exactly on the last node,
    nothing is pending, every node has been drawn, and no node has moved. *)
Theorem playback_completes (E : Env) (points : list Point) (t d : R) :
  points <> [] ->
  0 < parseSpeed (speedRangeValue E) ->
  0 < t ->
  6000 / parseSpeed (speedRangeValue E) <= d ->
  let n := List.length points in
  let st := run E points (ClickPlay :: playThrough (n - 1) t d) (load E points) in
  playing st = false
  /\ currentIndex st = (n - 1)%nat
  /\ frameCallbacks st = [] /\ timeouts st = []
  /\ (exists p, nth_error (nodePositions st) (n - 1) = Some p
                /\ traveller st = (x p, y p))
  /\ Forall (fun p => _drawn p = true) (nodePositions st)
  /\ coords (nodePositions st) = coords (nodePositions (load E points)).
Proof.
  intros Hne Hv Ht Hd. cbv zeta.
  assert (Hcs : List.length (coords (nodePositions (load E points)))
                = List.length points).
  { unfold coords. rewrite length_map. apply load_length. }
  assert (Hone : List.length points = 1%nat ->
                 nth_error (coords (nodePositions (load E points))) 0
                 = Some (traveller (load E points))).
  { intros Hn.
    destruct (reachable_single E points Hne (load E points) Hn (reach_load E points))
      as (_ & _ & p & Hp0 & Htr).
    unfold coords. rewrite nth_error_map, Hp0, Htr. reflexivity. }
  destruct (play_from_start E points (parseSpeed (speedRangeValue E)) d
              (coords (nodePositions (load E points))) Hv Hd Hcs
              (load E points) (traveller (load E points)) t
              Hne (load_shows E points) (load_drawn E points) Hone Ht)
    as (pz & Hz & Hsz & Hdz).
  exact (shows_finished points (parseSpeed (speedRangeValue E))
           (coords (nodePositions (load E points))) Hcs _ pz Hz Hsz Hdz).
Qed.

Lemma viewport_speed (w : R) : parseSpeed (speedRangeValue (Examples.viewport w)) = 1.
Proof.
  unfold parseSpeed, Examples.viewport, JsMath.or_else. cbn [speedRangeValue].
  destruct (Req_dec_T 1 0); [lra | reflexivity].
Qed.

Lemma playback_completes_instance :
  currentIndex
    (run (Examples.viewport 100) Examples.threeStops
         (ClickPlay :: playThrough (List.length Examples.threeStops - 1) 10 6000)
         (load (Examples.viewport 100) Examples.threeStops))
  = (List.length Examples.threeStops - 1)%nat.
Proof.
  refine (proj1 (proj2 (playback_completes (Examples.viewport 100) Examples.threeStops
                          10 6000 _ _ _ _))).
  - discriminate.
  - rewrite viewport_speed. lra.
  - lra.
  - rewrite viewport_speed. lra.
Defined.

(** ** The graph of the route page *)

Section RouteGraph.

Import RoutePage.

Lemma mapIndexed_length {A B : Type} (f : nat -> A -> B) (i : nat) (l : list A) :
  List.length (mapIndexed f i l) = List.length l.
Proof.
  revert i. induction l as [|a t IH]; intros i; simpl; [reflexivity | now rewrite IH].
Qed.

Lemma mapIndexed_nth {A B : Type} (f : nat -> A -> B) (i k : nat) (l : list A) :
  nth_error (mapIndexed f i l) k
  = match nth_error l k with
    | Some a => Some (f (i + k)%nat a)
    | None => None
    end.
Proof.
  revert i k. induction l as [|a t IH]; intros i [|k]; simpl; try reflexivity.
  - now rewrite Nat.add_0_r.
  - rewrite IH. now replace (S i + k)%nat with (i + S k)%nat by lia.
Qed.

Lemma makeNodes_nth (G : GraphEnv) (route : list string) (n i : nat) (d : GraphNode) :
  nth_error (makeNodes G route n) i = Some d ->
  exists cityName, nth_error route i = Some cityName /\ d = makeNode G route n i cityName.
Proof.
  unfold makeNodes. rewrite mapIndexed_nth.
  destruct (nth_error route i) as [c|]; [| discriminate].
  intros H. injection H as <-. now exists c.
Qed.

Lemma makeNode_id (G : GraphEnv) (route : list string) (n i : nat) (c : string) :
  g_id (makeNode G route n i c) = IdEnd i \/ g_id (makeNode G route n i c) = IdIndex i.
Proof.
  unfold makeNode. cbn [g_id].
  match goal with |- context [if ?b then _ else _] => destruct b end; auto.
Qed.

Lemma makeNodes_ids (G : GraphEnv) (route : list string) (n : nat) :
  NoDup (map g_id (makeNodes G route n)).
Proof.
  unfold makeNodes.
  assert (H : forall l i,
             NoDup (map g_id (mapIndexed (makeNode G route n) i l))
             /\ forall id, In id (map g_id (mapIndexed (makeNode G route n) i l)) ->
                           exists k, (i <= k)%nat /\ (id = IdEnd k \/ id = IdIndex k)).
  { induction l as [|c t IH]; intros i; cbn [mapIndexed map].
    - split; [constructor | intros id []].
    - destruct (IH (S i)) as [Hnd Hin]. split.
      + constructor; [| exact Hnd]. intros Hc.
        destruct (Hin _ Hc) as (k & Hk & Hid).
        destruct (makeNode_id G route n i c) as [He | He]; rewrite He in Hid;
          destruct Hid as [Hid | Hid]; inversion Hid; lia.
      + intros id [<- | Hi].
        * exists i. split; [lia | apply makeNode_id].
        * destruct (Hin _ Hi) as (k & Hk & Hid). exists k. split; [lia | exact Hid]. }
  apply H.
Qed.

(** The nodes of the graph: one node for each entry of the route, in order
    and ranked from 1; the ids are pairwise different; only the first node
    is the start; a node is marked as the end only at the index of the last
    coordinate, past the first node, and only when the route has more than
    one entry and returns to its first city; the string id [end-<index>] is
    given to such a node when it is also the last entry of the route, and to
    no other node.  Every node starts within 50 pixels of the centre of the
    canvas when [Math.random()] is in its range. *)
Theorem routeGraph_nodes (G : GraphEnv) (route : list string) (n : nat) :
  List.length (makeNodes G route n) = List.length route
  /\ NoDup (map g_id (makeNodes G route n))
  /\ forall i d,
       nth_error (makeNodes G route n) i = Some d ->
       originalIndex d = i /\ rank d = (i + 1)%nat
       /\ nth_error route i = Some (g_name d)
       /\ (isStart d = true <-> i = 0%nat)
       /\ (isEnd d = true <->
           (i = n - 1 /\ 0 < i /\ 1 < List.length route)%nat /\ sameEnds route = true)
       /\ (g_id d = IdEnd i <-> isEnd d = true /\ i = (List.length route - 1)%nat)
       /\ (g_id d <> IdEnd i -> g_id d = IdIndex i)
       /\ ((forall k, 0 <= randomAt G k < 1) ->
           Rabs (g_x d - graphWidth G / 2) <= 50
           /\ Rabs (g_y d - graphHeight G / 2) <= 50).
Proof.
  split; [apply mapIndexed_length |]. split; [apply makeNodes_ids |].
  intros i d Hd. destruct (makeNodes_nth G route n i d Hd) as (c & Hc & ->).
  unfold makeNode. cbn [originalIndex rank g_name isStart isEnd g_id g_x g_y].
  split; [reflexivity |]. split; [reflexivity |]. split; [exact Hc |].
  split; [apply Nat.eqb_eq |].
  assert (Hrand : (forall k, 0 <= randomAt G k < 1) ->
                  Rabs (graphWidth G / 2 + (randomAt G (2 * i) - 0.5) * 100
                        - graphWidth G / 2) <= 50
                  /\ Rabs (graphHeight G / 2 + (randomAt G (2 * i + 1) - 0.5) * 100
                           - graphHeight G / 2) <= 50).
  { intros Hr. pose proof (Hr (2 * i)%nat). pose proof (Hr (2 * i + 1)%nat).
    split; apply Rabs_le; lra. }
  destruct (Nat.eqb_spec i (n - 1)) as [H1 | H1];
    destruct (Nat.ltb_spec 1 (List.length route)) as [H2 | H2];
    destruct (sameEnds route) eqn:H3;
    destruct (Nat.eqb_spec i 0) as [H4 | H4];
    destruct (Nat.eqb_spec i (List.length route - 1)) as [H5 | H5];
    cbn [andb negb];
    (split; [split; [intros H; repeat split; first [reflexivity | easy | lia]
                    | intros [(Ha & Hb & Hc') Hd']; first [reflexivity | easy | lia]]
            |]);
    (split; [split; [intros H; split; first [reflexivity | easy | lia]
                    | intros [Ha Hb]; first [reflexivity | easy | lia]]
            |]);
    (split; [intros H; first [reflexivity | easy] | exact Hrand]).
Qed.

Lemma toFixed1_close (v : R) : Rabs (toFixed1 v - v) <= 0.05.
Proof.
  unfold toFixed1. pose proof (round_bounds (v * 10)) as [H1 H2].
  apply Rabs_le. lra.
Qed.

Lemma toFixed1_nonneg (v : R) : 0 <= v -> 0 <= toFixed1 v.
Proof.
  intros Hv. unfold toFixed1.
  pose proof (round_nonneg (v * 10) ltac:(lra)). lra.
Qed.

Lemma toFixed1_tenths (z : Z) : toFixed1 (IZR z / 10) = IZR z / 10.
Proof.
  unfold toFixed1. replace (IZR z / 10 * 10) with (IZR z) by field.
  now rewrite round_IZR.
Qed.

Lemma linkDistance_bounds (l : GraphLink) :
  0 <= distance l ->
  120 <= linkDistance l <= 200
  /\ (distance l <= 800 -> linkDistance l = 120 + distance l / 10)
  /\ (800 <= distance l -> linkDistance l = 200).
Proof.
  intros H0. unfold linkDistance, JsMath.min. split; [| split].
  - split.
    + apply Rmin_case; lra.
    + pose proof (Rmin_r (distance l / 10) 80). lra.
  - intros H. rewrite Rmin_left by lra. reflexivity.
  - intros H. rewrite Rmin_right by lra. lra.
Qed.

Lemma collect_links (nodes : list GraphNode) (cs : list Coord) (idx : list nat)
      (acc : list GraphLink) :
  (forall i, In i idx -> (i + 1 < List.length cs)%nat) ->
  exists ls,
    fold_left (fun acc i => match makeLink nodes cs i with
                            | Some l => acc ++ [l]
                            | None => acc
                            end) idx acc = acc ++ ls
    /\ List.length ls = List.length idx
    /\ forall k i, nth_error idx k = Some i -> nth_error ls k = makeLink nodes cs i.
Proof.
  revert acc. induction idx as [|i t IH]; intros acc Hin; simpl.
  - exists []. rewrite app_nil_r. repeat split. intros [|k] i; discriminate.
  - assert (Hi : (i + 1 < List.length cs)%nat) by (apply Hin; now left).
    destruct (makeLink nodes cs i) as [l|] eqn:Hl.
    + destruct (IH (acc ++ [l]) (fun j Hj => Hin j (or_intror Hj))) as (ls & H1 & H2 & H3).
      exists (l :: ls). rewrite H1, <- app_assoc. simpl. repeat split; [now rewrite H2 |].
      intros [|k] j Hk; simpl in *.
      * injection Hk as <-. now rewrite Hl.
      * now apply H3.
    + exfalso. unfold makeLink in Hl.
      destruct (nth_error cs i) eqn:Ha; [| apply nth_error_None in Ha; lia].
      destruct (nth_error cs (i + 1)) eqn:Hb; [discriminate | apply nth_error_None in Hb; lia].
Qed.

Lemma makeLinks_nth (nodes : list GraphNode) (cs : list Coord) :
  List.length (makeLinks nodes cs) = (List.length cs - 1)%nat
  /\ forall i, (i < List.length cs - 1)%nat ->
               nth_error (makeLinks nodes cs) i = makeLink nodes cs i.
Proof.
  unfold makeLinks, for_range.
  destruct (collect_links nodes cs (seq 0 (List.length cs - 1 - 0)) [])
    as (ls & H1 & H2 & H3).
  { intros i Hi. apply in_seq in Hi. lia. }
  rewrite H1. simpl. rewrite H2, length_seq. split; [lia |].
  intros i Hi. apply H3. rewrite nth_error_seq.
  assert (Hlt : (i <? List.length cs - 1 - 0)%nat = true) by (apply Nat.ltb_lt; lia).
  now rewrite Hlt.
Qed.

(** The links of the graph: one link for every two consecutive coordinates,
    in order, from node [i] to node [i + 1].  Where the two coordinates have
    valid latitudes and are not antipodal up to rounding, the label of the
    link is their great-circle distance to one decimal, never negative and
    within 0.05 km of the distance, and the length the link force aims at
    lies between 120 and 200 pixels, grows by a pixel for every 10 km and
    stays at 200 from 800 km on. *)
Theorem routeGraph_links (nodes : list GraphNode) (cs : list Coord) :
  List.length (makeLinks nodes cs) = (List.length cs - 1)%nat
  /\ forall i l,
       nth_error (makeLinks nodes cs) i = Some l ->
       source l = nth_error nodes i
       /\ target l = nth_error nodes (i + 1)
       /\ exists a b,
            nth_error cs i = Some a /\ nth_error cs (i + 1) = Some b
            /\ (clearOfAntipode (c_lat a) (c_lng a) (c_lat b) (c_lng b) ->
                distance l = toFixed1 (calculateDistance a b)
                /\ Rabs (distance l - calculateDistance a b) <= 0.05
                /\ 0 <= distance l < 6371 * PI + 0.05
                /\ 120 <= linkDistance l <= 200
                /\ (distance l <= 800 -> linkDistance l = 120 + distance l / 10)
                /\ (800 <= distance l -> linkDistance l = 200)).
Proof.
  destruct (makeLinks_nth nodes cs) as [Hlen Hnth]. split; [exact Hlen |].
  intros i l Hl.
  assert (Hi : (i < List.length cs - 1)%nat).
  { rewrite <- Hlen. apply nth_error_Some. congruence. }
  rewrite (Hnth i Hi) in Hl. unfold makeLink in Hl.
  destruct (nth_error cs i) as [a|] eqn:Ha; [| discriminate].
  destruct (nth_error cs (i + 1)) as [b|] eqn:Hb; [| discriminate].
  injection Hl as <-. cbn [source target distance].
  split; [reflexivity |]. split; [reflexivity |].
  exists a, b. split; [reflexivity |]. split; [reflexivity |].
  intros (_ & _ & Hclear).
  assert (H0 : 0 <= toFixed1 (calculateDistance a b)).
  { apply toFixed1_nonneg. rewrite calculateDistance_haversineKm.
    apply haversineKm_range. }
  pose proof (toFixed1_close (calculateDistance a b)) as Hc.
  assert (Hd : calculateDistance a b < 6371 * PI).
  { rewrite calculateDistance_haversineKm. apply haversineKm_below_half_turn. lra. }
  split; [reflexivity |]. split; [exact Hc |]. split.
  { split; [exact H0 |]. revert Hc. unfold Rabs. destruct (Rcase_abs _); lra. }
  apply (linkDistance_bounds (mkGraphLink (nth_error nodes i) (nth_error nodes (i + 1))
                                          (toFixed1 (calculateDistance a b)))).
  exact H0.
Qed.

(** Two coordinates one degree apart on the equator: one link, 111.2 km. *)
Lemma routeGraph_links_instance :
  List.length (makeLinks [] [mkCoord 0 0; mkCoord 0 1]) = 1%nat
  /\ forall l, nth_error (makeLinks [] [mkCoord 0 0; mkCoord 0 1]) 0 = Some l ->
               120 <= linkDistance l <= 200.
Proof.
  destruct (routeGraph_links [] [mkCoord 0 0; mkCoord 0 1]) as [H1 H2].
  split; [exact H1 |].
  intros l Hl. destruct (H2 0%nat l Hl) as (_ & _ & a & b & Ha & Hb & H).
  injection Ha as <-. injection Hb as <-.
  exact (proj1 (proj2 (proj2 (proj2 (H clearOfAntipode_one_degree))))).
Defined.

(** The text under a node has at most 18 characters: a name of up to 15
    characters is shown as it is, a longer one is cut to its first 15
    characters followed by three dots.  The border of a node is 4 wide for
    the start and the end and 3 for the others. *)
Theorem cityLabel_length (d : GraphNode) :
  (String.length (cityLabel d) <= 18)%nat
  /\ ((String.length (g_name d) <= 15)%nat -> cityLabel d = g_name d)
  /\ ((15 < String.length (g_name d))%nat ->
      cityLabel d = (substring 0 15 (g_name d) ++ "...")%string
      /\ String.length (cityLabel d) = 18%nat)
  /\ (strokeWidth d = 4 <-> isStart d = true \/ isEnd d = true)
  /\ (strokeWidth d = 3 <-> isStart d = false /\ isEnd d = false).
Proof.
  unfold cityLabel. cbv zeta.
  destruct (Nat.ltb_spec 15 (String.length (g_name d))) as [H | H].
  - assert (Hl : String.length (substring 0 15 (g_name d) ++ "...") = 18%nat).
    { rewrite length_append, length_substring_0 by lia. reflexivity. }
    split; [lia |]. split; [lia |]. split; [intros _; now split |].
    unfold strokeWidth. destruct (isStart d), (isEnd d); cbn; split; split;
      intros H'; first [reflexivity | lra | tauto | (destruct H'; discriminate) | idtac]; auto.
  - split; [lia |]. split; [reflexivity |]. split; [lia |].
    unfold strokeWidth. destruct (isStart d), (isEnd d); cbn; split; split;
      intros H'; first [reflexivity | lra | tauto | (destruct H'; discriminate) | idtac]; auto.
Qed.

End RouteGraph.

(** ** The CSRF cookie *)

Section CookieLookup.

Import Cookie.

Lemma eqList_spec (a b : list ascii) : eqList a b = true <-> a = b.
Proof.
  revert b. induction a as [|c a IH]; intros [|d b]; simpl; split;
    try discriminate; try reflexivity.
  - intros H. apply andb_prop in H as [H1 H2].
    apply Ascii.eqb_eq in H1. apply IH in H2. now subst.
  - intros H. injection H as -> ->. rewrite Ascii.eqb_refl. now apply IH.
Qed.

Lemma without_app (s : string) (a b : list ascii) :
  without s (a ++ b) = without s a && without s b.
Proof.
  unfold without. rewrite existsb_app. now destruct (existsb (charEq s) a).
Qed.

Lemma without_cons (s : string) (c : ascii) (a : list ascii) :
  without s (c :: a) = negb (charEq s c) && without s a.
Proof. unfold without. cbn [existsb]. now destruct (charEq s c). Qed.

Lemma split_nonempty (l : list ascii) : split l <> [].
Proof.
  induction l as [|c t IH]; cbn [split]; [discriminate |].
  destruct (charEq ";" c); [discriminate |].
  destruct (split t); discriminate.
Qed.

Lemma split_plain (a : list ascii) : without ";" a = true -> split a = [a].
Proof.
  induction a as [|c a IH]; [reflexivity |].
  rewrite without_cons. intros H. apply andb_prop in H as [H1 H2]. cbn [split].
  destruct (charEq ";" c); [discriminate |]. now rewrite (IH H2).
Qed.

Lemma split_app (a r : list ascii) (c : ascii) :
  without ";" a = true -> charEq ";" c = true ->
  split (a ++ c :: r) = a :: split r.
Proof.
  intros Ha Hc. induction a as [|d a IH]; cbn [app split].
  - now rewrite Hc.
  - rewrite without_cons in Ha. apply andb_prop in Ha as [H1 H2].
    destruct (charEq ";" d); [discriminate |]. now rewrite (IH H2).
Qed.

Lemma plainCookie_parts (e : list ascii * list ascii) :
  plainCookie e = true ->
  without ";" (pair e) = true /\ without "=" (fst e) = true /\ trim (pair e) = pair e.
Proof.
  unfold plainCookie. intros H.
  apply andb_prop in H as [H H4]. apply andb_prop in H as [H H3].
  apply andb_prop in H as [H1 H2].
  split; [| split; [exact H3 | now apply eqList_spec]].
  unfold pair. rewrite !without_app, H1, H2. reflexivity.
Qed.

Lemma split_serialize (e : list ascii * list ascii)
      (rest : list (list ascii * list ascii)) :
  forallb plainCookie (e :: rest) = true ->
  split (serialize (e :: rest))
  = pair e :: map (fun e' => " "%char :: pair e') rest.
Proof.
  revert e. induction rest as [|e' t IH]; intros e H.
  - simpl in H. apply andb_prop in H as [H _].
    destruct (plainCookie_parts e H) as (H1 & _). simpl. now apply split_plain.
  - cbn [forallb] in H. apply andb_prop in H as [He H].
    destruct (plainCookie_parts e He) as (H1 & _).
    change (serialize (e :: e' :: t))
      with (pair e ++ ";"%char :: " "%char :: serialize (e' :: t)).
    rewrite (split_app (pair e) (" "%char :: serialize (e' :: t)) ";"%char H1 eq_refl).
    change (split (" "%char :: serialize (e' :: t)))
      with (match split (serialize (e' :: t)) with
            | h :: r => (" "%char :: h) :: r
            | [] => [[" "%char]]
            end).
    rewrite (IH e' H). reflexivity.
Qed.

Lemma trim_space (l : list ascii) : trim (" "%char :: l) = trim l.
Proof. reflexivity. Qed.

(** A cookie starts with [name=] exactly when it is called [name]. *)
Lemma prefix_key (k name v : list ascii) :
  without "=" k = true -> without "=" name = true ->
  (firstn (List.length name + 1) (k ++ equals ++ v) = name ++ equals <-> k = name).
Proof.
  revert name. induction k as [|a k IH]; intros [|c n'] Hk Hn.
  - simpl. tauto.
  - rewrite without_cons in Hn. apply andb_prop in Hn as [Hc _].
    simpl. split; [| discriminate]. intros H. injection H as H _. subst c. discriminate.
  - rewrite without_cons in Hk. apply andb_prop in Hk as [Ha _].
    simpl. split; [| discriminate]. intros H. injection H as H. subst a. discriminate.
  - rewrite without_cons in Hk, Hn.
    apply andb_prop in Hk as [_ Hk]. apply andb_prop in Hn as [_ Hn].
    specialize (IH n' Hk Hn). simpl. split.
    + intros H. injection H as -> H. f_equal. now apply IH.
    + intros H. injection H as -> ->. f_equal. now apply IH.
Qed.

Lemma skipn_key (name v : list ascii) :
  skipn (List.length name + 1) (name ++ equals ++ v) = v.
Proof. induction name as [|c n' IH]; simpl; [reflexivity | exact IH]. Qed.

Variable decodeURIComponent : list ascii -> option (list ascii).

Lemma scan_lookup (name : list ascii) (raws : list (list ascii))
      (entries : list (list ascii * list ascii)) :
  without "=" name = true ->
  forallb plainCookie entries = true ->
  Forall2 (fun raw e => trim raw = pair e) raws entries ->
  scan decodeURIComponent name raws
  = match lookup name entries with
    | Some v => match decodeURIComponent v with
                | Some d => Returned (Some d)
                | None => Threw
                end
    | None => Returned None
    end.
Proof.
  intros Hn Hall HF. induction HF as [|raw e raws entries Hraw HF IH]; [reflexivity |].
  cbn [forallb] in Hall. apply andb_prop in Hall as [He Hall].
  destruct (plainCookie_parts e He) as (_ & Hk & _).
  cbn [scan lookup]. cbv zeta. rewrite Hraw.
  pose proof (prefix_key (fst e) name (snd e) Hk Hn) as Hp.
  destruct (eqList (fst e) name) eqn:Hkey.
  - apply eqList_spec in Hkey.
    assert (Hpre : eqList (firstn (List.length name + 1) (pair e)) (name ++ equals) = true)
      by (apply eqList_spec, Hp, Hkey).
    rewrite Hpre. unfold pair. rewrite Hkey, skipn_key. reflexivity.
  - assert (Hpre : eqList (firstn (List.length name + 1) (pair e)) (name ++ equals) = false).
    { destruct (eqList (firstn (List.length name + 1) (pair e)) (name ++ equals)) eqn:Hq;
        [| reflexivity].
      apply eqList_spec, Hp, eqList_spec in Hq. congruence. }
    rewrite Hpre. now apply IH.
Qed.

End CookieLookup.

(** [getCookie] finds the cookie it is asked for.  When [document.cookie]
    lists cookies without white space around them, without semicolons and
    without an equals sign in their names, the call returns the decoded
    value of the first cookie of the given name, returns [null] when there
    is none, and throws exactly when [decodeURIComponent] throws on that
    value; a cookie whose name only starts or ends with the given name is
    not taken for it. *)
Theorem getCookie_lookup (decodeURIComponent : list ascii -> option (list ascii))
        (entries : list (list ascii * list ascii)) (name : list ascii) :
  forallb Cookie.plainCookie entries = true ->
  Cookie.without "=" name = true ->
  Cookie.getCookie decodeURIComponent (Cookie.serialize entries) name
  = match Cookie.lookup name entries with
    | Some v => match decodeURIComponent v with
                | Some d => Cookie.Returned (Some d)
                | None => Cookie.Threw
                end
    | None => Cookie.Returned None
    end.
Proof.
  intros Hall Hn. destruct entries as [|e rest]; [reflexivity |].
  unfold Cookie.getCookie.
  destruct (Cookie.serialize (e :: rest)) as [|c0 jar] eqn:Hjar.
  { exfalso. pose proof (split_serialize e rest Hall) as Hs. rewrite Hjar in Hs.
    simpl in Hs. injection Hs as Hs _.
    unfold Cookie.pair, Cookie.equals in Hs. destruct (fst e); discriminate. }
  rewrite <- Hjar, (split_serialize e rest Hall).
  apply scan_lookup; [exact Hn | exact Hall |].
  cbn [forallb] in Hall. apply andb_prop in Hall as [He Hrest].
  constructor; [apply (plainCookie_parts e He) |].
  clear Hjar. induction rest as [|e' t IH]; [constructor |].
  cbn [forallb] in Hrest. apply andb_prop in Hrest as [He' Hrest].
  cbn [map]. constructor; [| now apply IH].
  rewrite trim_space. apply (plainCookie_parts e' He').
Qed.

Lemma getCookie_lookup_instance :
  Cookie.getCookie (fun v => Some v)
    (Cookie.serialize
       [(list_ascii_of_string "xcsrftoken", list_ascii_of_string "no");
        (list_ascii_of_string "csrftoken", list_ascii_of_string "a1b2");
        (list_ascii_of_string "csrftoken", list_ascii_of_string "late")])
    (list_ascii_of_string "csrftoken")
  = Cookie.Returned (Some (list_ascii_of_string "a1b2")).
Proof.
  exact (getCookie_lookup (fun v => Some v)
           [(list_ascii_of_string "xcsrftoken", list_ascii_of_string "no");
            (list_ascii_of_string "csrftoken", list_ascii_of_string "a1b2");
            (list_ascii_of_string "csrftoken", list_ascii_of_string "late")]
           (list_ascii_of_string "csrftoken") eq_refl eq_refl).
Defined.

(** ** The zoom fallback *)

(** The manual zoom keeps the scale between 0.2 and 6, and multiplies it by
    the factor when that stays in range.  The point of the screen that stays
    where it is, is the centre of the svg shifted by the current pan, not
    the centre: the centre stays only when the view has not been panned on
    that axis or the scale does not change.  Accordingly a zoom in followed
    by a zoom out restores the scale but not the view, which has moved by a
    thirtieth of the centre offset. *)
Theorem zoom_fallback_fixed_point (w h s : R) (t : Zoom.Transform) :
  Zoom.zk t <> 0 ->
  let t' := Zoom.zoomFallback w h s t in
  0.2 <= Zoom.zk t' <= 6
  /\ (0.2 <= Zoom.zk t * s <= 6 -> Zoom.zk t' = Zoom.zk t * s)
  /\ Zoom.applyX t' (Zoom.invertX t (w / 2 + Zoom.zx t)) = w / 2 + Zoom.zx t
  /\ Zoom.applyY t' (Zoom.invertY t (h / 2 + Zoom.zy t)) = h / 2 + Zoom.zy t
  /\ (Zoom.applyX t' (Zoom.invertX t (w / 2)) = w / 2
      <-> Zoom.zx t = 0 \/ Zoom.zk t' = Zoom.zk t)
  /\ (Zoom.applyY t' (Zoom.invertY t (h / 2)) = h / 2
      <-> Zoom.zy t = 0 \/ Zoom.zk t' = Zoom.zk t)
  /\ (0.2 <= Zoom.zk t * 1.2 <= 6 -> 0.2 <= Zoom.zk t <= 6 ->
      Zoom.zoomFallback w h (1 / 1.2) (Zoom.zoomFallback w h 1.2 t)
      = Zoom.mkTransform (Zoom.zk t) (Zoom.zx t - w / 2 / 30) (Zoom.zy t - h / 2 / 30)).
Proof.
  intros Hk. cbv zeta.
  assert (Hb : forall v, 0.2 <= JsMath.max 0.2 (JsMath.min 6 v) <= 6)
    by (intros v; apply max_bounds; lra).
  assert (Hid : forall v, 0.2 <= v <= 6 -> JsMath.max 0.2 (JsMath.min 6 v) = v).
  { intros v [H1 H2]. unfold JsMath.max, JsMath.min.
    rewrite Rmin_right by lra. now rewrite Rmax_right. }
  unfold Zoom.zoomFallback, Zoom.applyX, Zoom.applyY, Zoom.invertX, Zoom.invertY.
  cbn [Zoom.zk Zoom.zx Zoom.zy].
  set (k' := JsMath.max 0.2 (JsMath.min 6 (Zoom.zk t * s))).
  split; [apply Hb |]. split; [apply Hid |].
  split; [field; exact Hk |]. split; [field; exact Hk |].
  assert (Hc : forall c p, (c - p) / Zoom.zk t * k' + (p - c * (k' / Zoom.zk t - 1)) = c
                           <-> p = 0 \/ k' = Zoom.zk t).
  { intros c p.
    replace ((c - p) / Zoom.zk t * k' + (p - c * (k' / Zoom.zk t - 1)))
      with (c + p * (1 - k' / Zoom.zk t)) by (field; exact Hk).
    split.
    - intros H. assert (H0 : p * (1 - k' / Zoom.zk t) = 0) by lra.
      apply Rmult_integral in H0 as [H0 | H0]; [now left | right].
      assert (H1 : k' / Zoom.zk t = 1) by lra.
      apply (Rmult_eq_compat_r (Zoom.zk t)) in H1.
      unfold Rdiv in H1. rewrite Rmult_assoc, Rinv_l, Rmult_1_r, Rmult_1_l in H1 by exact Hk.
      exact H1.
    - intros [-> | ->]; [ring | field; exact Hk]. }
  split; [apply Hc |]. split; [apply Hc |].
  intros H12 H1. subst k'.
  rewrite (Hid (Zoom.zk t * 1.2) H12).
  replace (Zoom.zk t * 1.2 * (1 / 1.2)) with (Zoom.zk t) by lra.
  rewrite (Hid (Zoom.zk t) H1).
  replace 1.2 with (6 / 5) by lra.
  f_equal; field; exact Hk.
Qed.

Lemma zoom_fallback_fixed_point_instance :
  Zoom.zk (Zoom.zoomFallback 600 400 1.2 (Zoom.mkTransform 1 30 0)) = 1 * 1.2.
Proof.
  refine (proj1 (proj2 (zoom_fallback_fixed_point 600 400 1.2
                          (Zoom.mkTransform 1 30 0) _)) _);
    cbn [Zoom.zk]; lra.
Defined.

(** ** Routes with finite coordinates *)

(** What the unary plus reads from some strings: white space around the
    numeral goes, the no-break space included; a hexadecimal numeral is an
    integer; a decimal numeral beyond the range of the doubles is
    [Infinity], the largest double and what rounds to it are finite; what is
    not a numeral is [NaN]. *)
Lemma StringToNumber_samples :
  Input.StringToNumber (String (ascii_of_nat 160) "0x1F") = Input.Fin 31
  /\ Input.StringToNumber "1e1000" = Input.Infinity false
  /\ Input.StringToNumber "-1e1000" = Input.Infinity true
  /\ Input.StringToNumber "1.7976931348623159e308" = Input.Infinity false
  /\ Input.StringToNumber "1.7976931348623158e308"
     = Input.Fin (17976931348623158 * powerRZ 10 292)
  /\ Input.StringToNumber "" = Input.Fin 0
  /\ Input.StringToNumber "12px" = Input.NaN
  /\ Input.StringToNumber "-0x1F" = Input.NaN.
Proof. repeat split. Qed.

(** A record with a coordinate beyond the range of the doubles is kept and
    is not finite: the canvas is not the one of the finite model. *)
Lemma overflowing_record_not_finite (E : Env) :
  viewGraph E (Some (Input.mkRouteData
                       (Some [Input.mkRaw (Input.JString "1e1000")
                                          (Input.JNumber (Input.Fin 2))
                                          Input.JUndefined Input.JUndefined None None])
                       None))
  = CanvasNotFinite [Input.mkNPoint (Input.Infinity false) (Input.Fin 2) ""].
Proof. reflexivity. Qed.

Lemma finite_points_kept (l : list Input.RawPoint) :
  Forall (fun p => exists la lo nm,
              Input.normalizePoint p
              = Some (Input.mkNPoint (Input.Fin la) (Input.Fin lo) nm)) l ->
  exists ps,
    finitePoints (Input.filterBoolean (map Input.normalizePoint l)) = Some ps
    /\ List.length (Input.filterBoolean (map Input.normalizePoint l)) = List.length l
    /\ Forall2 (fun p q =>
                  Input.normalizePoint p
                  = Some (Input.mkNPoint (Input.Fin (lat q)) (Input.Fin (lng q)) (name q)))
               l ps.
Proof.
  induction 1 as [|p t (la & lo & nm & Hp) Ht (ps & H1 & H2 & H3)].
  - exists []. repeat split. constructor.
  - exists (mkPoint la lo nm :: ps). cbn [map]. rewrite Hp.
    cbn [Input.filterBoolean finitePoints finitePoint Input.n_lat Input.n_lng Input.n_name].
    rewrite H1. split; [reflexivity |]. split; [cbn [List.length]; now rewrite H2 |].
    constructor; [exact Hp | exact H3].
Qed.

(** A route whose records all carry finite coordinates (in either shape,
    as numbers or as numerals) is drawn in full: the canvas gets one point
    for every record, in the order of the records and with the coordinates
    and the name the normalisation reads from it, and the page state is the
    loaded page of exactly these points.  [coordinates] is not looked at
    when [route_with_coords] is there. *)
Theorem finite_route_drawn (E : Env) (l : list Input.RawPoint)
        (c : option (list Input.RawPoint)) :
  l <> [] ->
  Forall (fun p => exists la lo nm,
              Input.normalizePoint p
              = Some (Input.mkNPoint (Input.Fin la) (Input.Fin lo) nm)) l ->
  exists ps,
    viewGraph E (Some (Input.mkRouteData (Some l) c)) = Canvas ps (load E ps)
    /\ Forall2 (fun p q =>
                  Input.normalizePoint p
                  = Some (Input.mkNPoint (Input.Fin (lat q)) (Input.Fin (lng q)) (name q)))
               l ps.
Proof.
  intros Hne Hall. destruct (finite_points_kept l Hall) as (ps & H1 & H2 & H3).
  exists ps. split; [| exact H3].
  unfold viewGraph, Input.normalize, Input.rawPoints. cbn [Input.route_with_coords].
  cbv zeta. rewrite H2, H1.
  destruct l as [|p t]; [congruence | reflexivity].
Qed.

(** A route of two records, one in each shape, the first with its latitude
    as a numeral. *)
Lemma finite_route_drawn_instance :
  exists ps,
    viewGraph (Examples.viewport 100)
      (Some (Input.mkRouteData
               (Some [Input.mkRaw (Input.JString " 48.85 ") (Input.JNumber (Input.Fin 2))
                                  Input.JUndefined Input.JUndefined
                                  (Some "Paris"%string) None;
                      Input.mkRaw Input.JUndefined Input.JUndefined
                                  (Input.JNumber (Input.Fin 52)) (Input.JString "0x0D")
                                  None (Some "Berlin"%string)])
               None))
    = Canvas ps (load (Examples.viewport 100) ps)
    /\ List.length ps = 2%nat.
Proof.
  destruct (finite_route_drawn (Examples.viewport 100)
              [Input.mkRaw (Input.JString " 48.85 ") (Input.JNumber (Input.Fin 2))
                           Input.JUndefined Input.JUndefined
                           (Some "Paris"%string) None;
               Input.mkRaw Input.JUndefined Input.JUndefined
                           (Input.JNumber (Input.Fin 52)) (Input.JString "0x0D")
                           None (Some "Berlin"%string)]
              None ltac:(discriminate)
              ltac:(constructor;
                    [eexists _, _, _; reflexivity
                    | constructor; [eexists _, _, _; reflexivity | constructor]]))
    as (ps & H1 & H2).
  exists ps. split; [exact H1 |].
  apply Forall2_length in H2. simpl in H2. congruence.
Defined.

(** ** The uniform layout writes the settled positions back *)

Section WriteBack.

Variable E : Env.
Variable points : list Point.
Variable settled : nat -> R * R.
Variable l0 : list NodePos.

Local Abbreviation written i p old :=
  (mkNodePos (clampX E (fst (settled i))) (clampY E (snd (settled i))) (label old)
             (sn_fontSize (simNode E points l0 i p))
             (sn_sizeScale (simNode E points l0 i p))
             (labelY old)
             (sn_labelWidth (simNode E points l0 i p))
             (sn_labelHeight (simNode E points l0 i p))
             (_drawn old)).

Lemma simNode_id (i : nat) (p : Point) : sn_id (simNode E points l0 i p) = i.
Proof. unfold simNode. destruct (nth_error l0 i); reflexivity. Qed.

Lemma writeBack_other (l : list NodePos) (s : SimNode) (i : nat) :
  i <> sn_id s -> nth_error (writeBack E settled l s) i = nth_error l i.
Proof.
  intros Hi. unfold writeBack. destruct (nth_error l (sn_id s)); [| reflexivity].
  apply nth_error_list_set_neq. congruence.
Qed.

Lemma fold_writeBack_below (ps : list Point) :
  forall (k : nat) (l : list NodePos) (i : nat),
    (i < k)%nat ->
    nth_error (fold_left (writeBack E settled) (simNodesFrom E points l0 k ps) l) i
    = nth_error l i.
Proof.
  induction ps as [|p t IH]; intros k l i Hi; [reflexivity |].
  cbn [simNodesFrom fold_left]. rewrite IH by lia.
  apply writeBack_other. rewrite simNode_id. lia.
Qed.

Lemma fold_writeBack_at (ps : list Point) :
  forall (k : nat) (l : list NodePos) (i : nat) (old : NodePos) (p : Point),
    (k <= i)%nat ->
    nth_error l i = Some old ->
    nth_error ps (i - k) = Some p ->
    nth_error (fold_left (writeBack E settled) (simNodesFrom E points l0 k ps) l) i
    = Some (written i p old).
Proof.
  induction ps as [|q t IH]; intros k l i old p Hk Hold Hp.
  - destruct (i - k)%nat; discriminate.
  - cbn [simNodesFrom fold_left].
    destruct (Nat.eq_dec i k) as [-> | Hne].
    + rewrite Nat.sub_diag in Hp. injection Hp as ->.
      rewrite fold_writeBack_below by lia.
      unfold writeBack. rewrite simNode_id, Hold.
      apply nth_error_list_set_eq. apply nth_error_Some. congruence.
    + apply IH; [lia | |].
      * rewrite writeBack_other by (rewrite simNode_id; exact Hne). exact Hold.
      * replace (i - k)%nat with (S (i - S k)) in Hp by lia. exact Hp.
Qed.

End WriteBack.

(** What the uniform layout leaves in [nodePositions].  With at most one
    point it does nothing.  Otherwise entry [i] gets the position at which
    the simulation has settled node [i], clamped to the padded canvas; its
    label, label offset and drawn mark stay; and its radius, font size and
    label box stay too unless they are zero, in which case the fallback
    values of the simulation node are written. *)
Theorem uniform_layout_positions (E : Env) (points : list Point)
        (target : R) (st : App) :
  ((List.length points <= 1)%nat -> applyUniformLinkLayout E points target st = st)
  /\ ((2 <= List.length points)%nat ->
      forall i pre p,
        nth_error (nodePositions st) i = Some pre ->
        nth_error points i = Some p ->
        let settled := simulate E (simNodesFrom E points (nodePositions st) 0 points)
                                target (width E) (height E) in
        nth_error (nodePositions (applyUniformLinkLayout E points target st)) i
        = Some (mkNodePos (clampX E (fst (settled i))) (clampY E (snd (settled i)))
                          (label pre)
                          (JsMath.or_else (fontSize pre) 12)
                          (JsMath.or_else (sizeScale pre) (nodeSize points))
                          (labelY pre)
                          (JsMath.or_else (labelWidth pre) (fallbackLabelWidth i p))
                          (JsMath.or_else (labelHeight pre) 12)
                          (_drawn pre))).
Proof.
  split.
  - intros Hn. unfold applyUniformLinkLayout.
    apply Nat.leb_le in Hn. now rewrite Hn.
  - intros Hn i pre p Hpre Hp. cbv zeta. unfold applyUniformLinkLayout.
    assert (Hle : (List.length points <=? 1)%nat = false) by (apply Nat.leb_gt; lia).
    rewrite Hle. cbv zeta. cbn [nodePositions set_layout].
    rewrite (fold_writeBack_at E points _ (nodePositions st) points 0 (nodePositions st)
               i pre p ltac:(lia) Hpre ltac:(now rewrite Nat.sub_0_r)).
    unfold simNode. rewrite Hpre. reflexivity.
Qed.

Lemma uniform_layout_positions_instance :
  let a := mkNodePos 100 100 "A" 20 24 38 40 24 true in
  let b := mkNodePos 200 100 "B" 20 24 38 40 24 false in
  let st := mkApp [a; b] (100, 100) false 1 0 true 0 [] [] in
  nth_error (nodePositions (applyUniformLinkLayout (Examples.viewport 100)
                              Examples.twoStops 320 st)) 1
  = Some (mkNodePos
            (clampX (Examples.viewport 100)
               (fst (simulate (Examples.viewport 100)
                       (simNodesFrom (Examples.viewport 100) Examples.twoStops
                                     (nodePositions st) 0 Examples.twoStops)
                       320 (width (Examples.viewport 100))
                       (height (Examples.viewport 100)) 1%nat)))
            (clampY (Examples.viewport 100)
               (snd (simulate (Examples.viewport 100)
                       (simNodesFrom (Examples.viewport 100) Examples.twoStops
                                     (nodePositions st) 0 Examples.twoStops)
                       320 (width (Examples.viewport 100))
                       (height (Examples.viewport 100)) 1%nat)))
            (label b)
            (JsMath.or_else (fontSize b) 12)
            (JsMath.or_else (sizeScale b) (nodeSize Examples.twoStops))
            (labelY b)
            (JsMath.or_else (labelWidth b)
               (fallbackLabelWidth 1 (mkPoint 4 0 "North Ridge Interchange")))
            (JsMath.or_else (labelHeight b) 12)
            (_drawn b)).
Proof.
  intros a b st.
  exact (proj2 (uniform_layout_positions (Examples.viewport 100) Examples.twoStops 320 st)
               (le_n 2) 1%nat b (mkPoint 4 0 "North Ridge Interchange") eq_refl eq_refl).
Defined.

(** ** A collinearity nudge *)

(** What a nudge does.  For three different nodes [a], [b], [c] that are not
    on top of each other and whose angle at [b] is below 45 degrees or
    within 45 degrees of a straight line, the pass moves the middle node
    [b] and nothing else, sets [adjusted], and draws no random number.
    Before the clamp, the move is perpendicular to the line from [b] to
    [a], at least 10 pixels long, and turned to the left of that line for an
    even index [j] and to the right for an odd one. *)
Theorem collinearity_nudge (E : Env) (points : list Point) (i j k : nat)
        (s : Relax) (a b c : NodePos) :
  i <> j -> j <> k -> i <> k ->
  nth_error (nodes s) i = Some a ->
  nth_error (nodes s) j = Some b ->
  nth_error (nodes s) k = Some c ->
  1e-6 <= pixelDistance b a ->
  1e-6 <= pixelDistance b c ->
  nearCollinear a b c = true ->
  let dir := if (j mod 2 =? 0)%nat then 1 else -1 in
  exists nudge,
    nudgeTriple E points i j k s
    = mkRelax (list_set j
                 (set_xy b
                    (clampX E (x b + - ((y a - y b) / pixelDistance b a) * nudge * dir))
                    (clampY E (y b + (x a - x b) / pixelDistance b a * nudge * dir)))
                 (nodes s))
              (calls s) true
    /\ 10 <= nudge
    /\ JsMath.hypot (- ((y a - y b) / pixelDistance b a) * nudge * dir)
                    ((x a - x b) / pixelDistance b a * nudge * dir) = nudge
    /\ (- ((y a - y b) / pixelDistance b a) * nudge * dir) * (x a - x b)
       + ((x a - x b) / pixelDistance b a * nudge * dir) * (y a - y b) = 0
    /\ (x a - x b) * ((x a - x b) / pixelDistance b a * nudge * dir)
       - (y a - y b) * (- ((y a - y b) / pixelDistance b a) * nudge * dir)
       = dir * nudge * pixelDistance b a.
Proof.
  intros Hij Hjk Hik Ha Hb Hc Hm1 Hm2 Hnear. cbv zeta.
  unfold nudgeTriple.
  apply Nat.eqb_neq in Hij, Hjk, Hik. rewrite Hij, Hjk, Hik. cbn [orb].
  rewrite Ha, Hb, Hc. cbv zeta.
  change (JsMath.hypot (x a - x b) (y a - y b)) with (pixelDistance b a).
  change (JsMath.hypot (x c - x b) (y c - y b)) with (pixelDistance b c).
  destruct (Rlt_dec (pixelDistance b a) 1e-6) as [H | _]; [lra |].
  destruct (Rlt_dec (pixelDistance b c) 1e-6) as [H | _]; [lra |].
  unfold nearCollinear, angleAt in Hnear. cbv zeta in Hnear.
  change (JsMath.hypot (x a - x b) (y a - y b)) with (pixelDistance b a) in Hnear.
  change (JsMath.hypot (x c - x b) (y c - y b)) with (pixelDistance b c) in Hnear.
  rewrite Hnear.
  eexists. split; [reflexivity |].
  match goal with |- 10 <= ?n /\ _ => set (nudge := n) end.
  set (m := pixelDistance b a) in *.
  set (dir := if (j mod 2 =? 0)%nat then 1 else -1).
  assert (Hn : 10 <= nudge) by (unfold nudge, JsMath.max; apply Rmax_l).
  assert (Hm : 0 < m) by lra.
  assert (Hmm : m * m = (x a - x b) * (x a - x b) + (y a - y b) * (y a - y b)).
  { unfold m, pixelDistance, JsMath.hypot. rewrite sqrt_sqrt; [reflexivity |].
    apply Rplus_le_le_0_compat; apply Rle_0_sqr. }
  assert (Hdir : dir * dir = 1) by (unfold dir; destruct (j mod 2 =? 0)%nat; lra).
  split; [exact Hn |]. split; [| split].
  - unfold JsMath.hypot.
    replace (- ((y a - y b) / m) * nudge * dir * (- ((y a - y b) / m) * nudge * dir)
             + (x a - x b) / m * nudge * dir * ((x a - x b) / m * nudge * dir))
      with (nudge * nudge * (dir * dir)
            * (((x a - x b) * (x a - x b) + (y a - y b) * (y a - y b)) / (m * m)))
      by (field; lra).
    rewrite <- Hmm, Hdir.
    replace (nudge * nudge * 1 * (m * m / (m * m))) with (nudge * nudge) by (field; lra).
    apply sqrt_square. lra.
  - field. lra.
  - replace ((x a - x b) * ((x a - x b) / m * nudge * dir)
             - (y a - y b) * (- ((y a - y b) / m) * nudge * dir))
      with (dir * nudge * (((x a - x b) * (x a - x b) + (y a - y b) * (y a - y b)) / m))
      by (field; lra).
    rewrite <- Hmm. field. lra.
Qed.

Lemma hypot_horizontal (v : R) : JsMath.hypot v 0 = Rabs v.
Proof.
  unfold JsMath.hypot. replace (v * v + 0 * 0) with (Rsqr v) by (unfold Rsqr; ring).
  apply sqrt_Rsqr_abs.
Qed.

Lemma collinearity_nudge_instance :
  let a := mkNodePos 100 200 "A" 20 24 38 40 24 true in
  let b := mkNodePos 200 200 "B" 20 24 38 40 24 false in
  let c := mkNodePos 300 200 "C" 20 24 38 40 24 false in
  flag (nudgeTriple (Examples.viewport 100) Examples.threeStops 0 1 2
                    (mkRelax [a; b; c] 0 false)) = true.
Proof.
  intros a b c.
  assert (Hba : pixelDistance b a = 100).
  { unfold pixelDistance, a, b. cbn [x y].
    replace (200 - 200) with 0 by lra. rewrite hypot_horizontal.
    rewrite Rabs_left by lra. lra. }
  assert (Hbc : pixelDistance b c = 100).
  { unfold pixelDistance, c, b. cbn [x y].
    replace (200 - 200) with 0 by lra. rewrite hypot_horizontal.
    rewrite Rabs_right by lra. lra. }
  assert (Hang : angleAt a b c = PI).
  { unfold angleAt. cbv zeta.
    change (JsMath.hypot (x a - x b) (y a - y b)) with (pixelDistance b a).
    change (JsMath.hypot (x c - x b) (y c - y b)) with (pixelDistance b c).
    rewrite Hba, Hbc. unfold a, b, c. cbn [x y].
    replace (((100 - 200) * (300 - 200) + (200 - 200) * (200 - 200)) / (100 * 100))
      with (-1) by (field; lra).
    unfold JsMath.max, JsMath.min, JsMath.acos.
    rewrite Rmin_right by lra. rewrite Rmax_left by lra.
    replace (-1) with (- (1)) by lra.
    rewrite acos_opp, acos_1. lra. }
  destruct (collinearity_nudge (Examples.viewport 100) Examples.threeStops 0 1 2
              (mkRelax [a; b; c] 0 false) a b c) as (nudge & Heq & _).
  - discriminate.
  - discriminate.
  - discriminate.
  - reflexivity.
  - reflexivity.
  - reflexivity.
  - rewrite Hba. lra.
  - rewrite Hbc. lra.
  - unfold nearCollinear. cbv zeta. rewrite Hang.
    replace (PI - PI) with 0 by ring.
    unfold JsMath.abs. rewrite Rabs_R0.
    pose proof PI_RGT_0 as Hpi.
    rewrite (lt_true 0 (45 * PI / 180)) by lra.
    apply orb_true_r.
  - rewrite Heq. reflexivity.
Defined.

(** * The resolver at its end *)

(** ** A pair in either order *)

Lemma haversineKm_sym (a1 o1 a2 o2 : R) :
  haversineKm a1 o1 a2 o2 = haversineKm a2 o2 a1 o1.
Proof.
  rewrite !haversineKm_formula.
  unfold haversine_formula, hav. cbv zeta.
  assert (Hs : forall u v, Rsqr (Rtrigo_def.sin ((u - v) / 2))
                           = Rsqr (Rtrigo_def.sin ((v - u) / 2))).
  { intros u v. replace ((u - v) / 2) with (- ((v - u) / 2)) by field.
    rewrite sin_neg. unfold Rsqr. ring. }
  rewrite (Hs (a2 * PI / 180) (a1 * PI / 180)).
  rewrite (Hs (o2 * PI / 180) (o1 * PI / 180)).
  rewrite (Rmult_comm (Rtrigo_def.cos (a1 * PI / 180))). reflexivity.
Qed.

Lemma minSep_sym (points : list Point) (i j : nat) (a b : NodePos) :
  minSep points i j a b = minSep points j i b a.
Proof.
  unfold minSep, baseSep, proximityFactor, realKm.
  rewrite (Rplus_comm (sizeScale a)), (Rmax_comm (JsMath.or_else (labelWidth a) 0)).
  unfold JsMath.max.
  destruct (nth_error points i) as [p|], (nth_error points j) as [q|]; try reflexivity.
  now rewrite (haversineKm_sym (lat p)).
Qed.

Lemma pixelDistance_sym (a b : NodePos) : pixelDistance a b = pixelDistance b a.
Proof.
  unfold pixelDistance, JsMath.hypot. f_equal. ring.
Qed.

Lemma pinnedOn_sym (lo hi u v : R) : pinnedOn lo hi u v -> pinnedOn lo hi v u.
Proof. unfold pinnedOn. intuition. Qed.

Lemma pinned_sym (E : Env) (a b : NodePos) : pinned E a b -> pinned E b a.
Proof. intros [H1 H2]. split; now apply pinnedOn_sym. Qed.

Lemma zeroDirection_sym (E : Env) (a b : NodePos) :
  zeroDirection E a b -> zeroDirection E b a.
Proof. intros [H1 H2]. split; [now rewrite pixelDistance_sym | exact H2]. Qed.

(** ** What a quiet pass has seen of a pair *)

(** A direction drawn by [Math.random()] is shorter than a pixel. *)
Lemma hypot_draws_small (u v : R) :
  0 <= u < 1 -> 0 <= v < 1 -> JsMath.hypot ((u - 0.5) * 1) ((v - 0.5) * 1) < 1.
Proof.
  intros Hu Hv. unfold JsMath.hypot.
  set (s := (u - 0.5) * 1 * ((u - 0.5) * 1) + (v - 0.5) * 1 * ((v - 0.5) * 1)).
  assert (Hu' : 0 <= u * (1 - u)) by (apply Rmult_le_pos; lra).
  assert (Hv' : 0 <= v * (1 - v)) by (apply Rmult_le_pos; lra).
  pose proof (Rle_0_sqr (u - 0.5)) as Hu2. pose proof (Rle_0_sqr (v - 0.5)) as Hv2.
  unfold Rsqr in Hu2, Hv2.
  assert (Ha : (u - 0.5) * (u - 0.5) <= 0.25) by lra.
  assert (Hb : (v - 0.5) * (v - 0.5) <= 0.25) by lra.
  assert (Hs : s = (u - 0.5) * (u - 0.5) + (v - 0.5) * (v - 0.5)) by (unfold s; ring).
  assert (H : R_sqrt.sqrt s < R_sqrt.sqrt 1).
  { apply sqrt_lt_1; lra. }
  now rewrite sqrt_1 in H.
Qed.

Lemma minSep_ge_8 (points : list Point) (i j : nat) (a b : NodePos) :
  0 <= sizeScale a /\ 0 <= labelWidth a ->
  0 <= sizeScale b /\ 0 <= labelWidth b ->
  8 <= minSep points i j a b.
Proof.
  intros [Ha1 Ha2] [Hb1 Hb2]. unfold minSep, baseSep.
  rewrite !or_else_same. unfold JsMath.max.
  pose proof (Rmax_l (labelWidth a) (labelWidth b)) as Hm.
  assert (Hf : 1 <= proximityFactor points i j).
  { unfold proximityFactor. destruct (realKm points i j) as [km|]; [| lra].
    destruct (Rlt_dec km 1000); lra. }
  nra.
Qed.

(** Where the two ends of a range are apart, a clamp cannot undo both a
    step and the opposite step from one place. *)
Lemma clamp_undoes_both (lo hi u n : R) :
  lo < hi -> lo <= u <= hi ->
  JsMath.max lo (JsMath.min hi (u - n)) = u ->
  JsMath.max lo (JsMath.min hi (u + n)) = u ->
  n = 0.
Proof.
  intros Hlh Hu H1 H2.
  destruct (Rtotal_order n 0) as [Hn | [Hn | Hn]]; [| exact Hn |].
  - assert (u = hi) by (apply (clamp_fixed_above lo hi u (u - n)); lra).
    assert (u = lo) by (apply (clamp_fixed_below lo hi u (u + n)); lra).
    lra.
  - assert (u = lo) by (apply (clamp_fixed_below lo hi u (u - n)); lra).
    assert (u = hi) by (apply (clamp_fixed_above lo hi u (u + n)); lra).
    lra.
Qed.

Lemma settled_cases (E : Env) (points : list Point) (i j : nat) (a b : NodePos) :
  randomInUnit E ->
  inBounds E a -> inBounds E b ->
  8 <= minSep points i j a b ->
  (exists k,
      minSep points i j a b <= snd (fst (direction E a b k))
      \/ pushed E a b (fst (fst (fst (direction E a b k))))
                (snd (fst (fst (direction E a b k))))
                (snd (fst (direction E a b k)))
                (minSep points i j a b)
         = ((x a, y a), (x b, y b))) ->
  minSep points i j a b <= pixelDistance a b
  \/ (pixelDistance a b <> 0 /\ pinned E a b)
  \/ zeroDirection E a b.
Proof.
  intros Hr Ha Hb Hsep [k H]. unfold direction in H.
  fold (pixelDistance a b) in H.
  destruct (Req_dec_T (pixelDistance a b) 0) as [Hz | Hz]; cbn [fst snd] in H.
  - pose proof (hypot_draws_small _ _ (Hr k) (Hr (S k))) as Hsmall.
    pose proof (hypot_nonneg ((random E k - 0.5) * 1) ((random E (S k) - 0.5) * 1)) as H0.
    destruct H as [Hfar | Hp]; [lra |].
    right; right. split; [exact Hz |]. exists k.
    set (dist := JsMath.hypot ((random E k - 0.5) * 1) ((random E (S k) - 0.5) * 1)) in *.
    unfold pushed in Hp. injection Hp as H1 H2 H3 H4.
    destruct (hypot_eq_0 _ _ Hz) as [Hx Hy].
    assert (Hxb : x b = x a) by lra. assert (Hyb : y b = y a) by lra.
    rewrite Hxb in H3. rewrite Hyb in H4.
    destruct Ha as [Hax Hay].
    pose proof (width_ge E) as Hw. pose proof (height_ge E) as Hh.
    assert (Hd : JsMath.or_else dist 1 <> 0).
    { unfold JsMath.or_else. destruct (Req_dec_T dist 0); lra. }
    assert (Hov : 0 < (minSep points i j a b - dist) / 2) by lra.
    assert (Hnx : (random E k - 0.5) * 1 / JsMath.or_else dist 1
                  * ((minSep points i j a b - dist) / 2) = 0).
    { apply (clamp_undoes_both pad (width E - pad) (x a)); try assumption.
      unfold pad. lra. }
    assert (Hny : (random E (S k) - 0.5) * 1 / JsMath.or_else dist 1
                  * ((minSep points i j a b - dist) / 2) = 0).
    { apply (clamp_undoes_both pad (height E - pad) (y a)); try assumption.
      unfold pad. lra. }
    apply Rmult_integral in Hnx as [Hnx | Hnx]; [| lra].
    apply Rmult_integral in Hny as [Hny | Hny]; [| lra].
    unfold Rdiv in Hnx, Hny.
    apply Rmult_integral in Hnx as [Hnx | Hnx];
      [| exfalso; revert Hnx; now apply Rinv_neq_0_compat].
    apply Rmult_integral in Hny as [Hny | Hny];
      [| exfalso; revert Hny; now apply Rinv_neq_0_compat].
    split; lra.
  - destruct H as [Hfar | Habs]; [now left |].
    destruct (Rle_dec (minSep points i j a b) (pixelDistance a b)) as [Hle | Hnle];
      [now left |].
    right; left. split; [exact Hz |].
    apply (absorbed_pinned E a b (minSep points i j a b)); try assumption. lra.
Qed.

(** ** The array the pairwise loop leaves *)

Lemma NodePos_eq_dec (p q : NodePos) : {p = q} + {p <> q}.
Proof.
  decide equality; first [apply Req_dec_T | apply string_dec | apply bool_dec].
Qed.

Lemma entry_eq_dec (u v : option NodePos) : {u = v} + {u <> v}.
Proof. decide equality. apply NodePos_eq_dec. Qed.

Lemma sizes_kept (l0 l : list NodePos) :
  Forall2 sameMetrics l0 l ->
  Forall (fun p => 0 <= sizeScale p /\ 0 <= labelWidth p) l0 ->
  Forall (fun p => 0 <= sizeScale p /\ 0 <= labelWidth p) l.
Proof.
  induction 1 as [|p q l0 l Hpq _ IH]; intros Hall; [constructor |].
  inversion Hall as [|? ? Hp Ht]; subst.
  destruct Hpq as (_ & _ & Hs & _ & Hw & _).
  constructor; [rewrite <- Hs, <- Hw; exact Hp | now apply IH].
Qed.

Section AfterSeparation.

Variable E : Env.
Variable points : list Point.
Hypothesis measures : measuresNonnegative E.
Hypothesis draws : randomInUnit E.

Local Abbreviation start := (drawNode 0 (computeAllPositions E points)).

Lemma start_inBounds : layoutOk (inBounds E) (List.length points) start.
Proof.
  apply (drawNode_ok points (inBounds E) (inBounds_drawn E)).
  apply (computeAllPositions_ok E points (inBounds E)).
  intros i p. now apply computePosition_inBounds.
Qed.

Lemma start_sizes :
  Forall (fun p => 0 <= sizeScale p /\ 0 <= labelWidth p) start.
Proof.
  apply (drawNode_ok points (fun p => 0 <= sizeScale p /\ 0 <= labelWidth p)).
  - intros p H. exact H.
  - apply (computeAllPositions_ok E points
             (fun p => 0 <= sizeScale p /\ 0 <= labelWidth p)).
    intros i p. unfold computePosition. cbv zeta. cbn [sizeScale labelWidth].
    pose proof (nodeSize_bounds points) as Hn.
    pose proof (nodeFont_bounds points) as Hf.
    pose proof (measure_nonneg E (makeLabel i p) (nodeFont points) measures ltac:(lra))
      as [Hm _].
    pose proof (width_ge E) as Hw.
    split; [lra |]. unfold JsMath.min. apply Rmin_glb; [unfold pad; lra | exact Hm].
Qed.

(** Two entries of the array the loop leaves through [break]. *)
Lemma separation_ordered (l' : list NodePos) (c' : nat) (i j : nat) (a b : NodePos) :
  separationLoop E points 25 start 0 = (l', c', true) ->
  (i < j)%nat ->
  nth_error l' i = Some a -> nth_error l' j = Some b ->
  minSep points i j a b <= pixelDistance a b
  \/ (pixelDistance a b <> 0 /\ pinned E a b)
  \/ zeroDirection E a b.
Proof.
  intros Hloop Hij Ha Hb.
  pose proof (separationLoop_ok E points (inBounds E) (inBounds_written E) 25 start 0
                start_inBounds) as Hok.
  pose proof (separationLoop_metrics E points start 25 start 0
                (Forall2_refl _ _ sameMetrics_refl)) as Hmet.
  rewrite Hloop in Hok, Hmet. cbn [fst] in Hok, Hmet.
  destruct Hok as [Hlen Hall].
  pose proof (sizes_kept _ _ Hmet start_sizes) as Hsz.
  assert (Hj : (j < List.length points)%nat).
  { rewrite <- Hlen. apply nth_error_Some. congruence. }
  apply settled_cases.
  - exact draws.
  - exact (nth_error_Forall _ _ _ _ Hall Ha).
  - exact (nth_error_Forall _ _ _ _ Hall Hb).
  - apply minSep_ge_8.
    + exact (nth_error_Forall _ _ _ _ Hsz Ha).
    + exact (nth_error_Forall _ _ _ _ Hsz Hb).
  - exact (separationLoop_settled E points 25 start 0 l' c' Hloop i j
             (conj Hij Hj) a b Ha Hb).
Qed.

Lemma separation_pair (l' : list NodePos) (c' : nat) (i j : nat) (a b : NodePos) :
  separationLoop E points 25 start 0 = (l', c', true) ->
  i <> j ->
  nth_error l' i = Some a -> nth_error l' j = Some b ->
  minSep points i j a b <= pixelDistance a b
  \/ (pixelDistance a b <> 0 /\ pinned E a b)
  \/ zeroDirection E a b.
Proof.
  intros Hloop Hij Ha Hb.
  destruct (Nat.lt_ge_cases i j) as [Hlt | Hge].
  - exact (separation_ordered l' c' i j a b Hloop Hlt Ha Hb).
  - assert (Hji : (j < i)%nat) by lia.
    destruct (separation_ordered l' c' j i b a Hloop Hji Hb Ha) as [H | [[H1 H2] | H]].
    + left. now rewrite minSep_sym, pixelDistance_sym.
    + right; left. split; [now rewrite pixelDistance_sym | now apply pinned_sym].
    + right; right. now apply zeroDirection_sym.
Qed.

End AfterSeparation.

(** C2, as the script has it.  When the resolver has finished, every two
    different nodes are at least their required separation apart (no
    tolerance is needed over the reals), or the pairwise loop has used up
    its 25 passes, or one of three things has happened to the pair: the two
    nodes are pinned against opposite borders of the padded canvas on every
    axis on which they differ, so that the clamp undid the push; or they sit
    on one spot and both calls of [Math.random()] returned one half, so that
    there was no direction to push them in; or a collinearity nudge, which
    looks at no separation, has displaced one of them afterwards.  When the
    first collinearity pass adjusts nothing, no node is displaced. *)
Theorem C2_separated_or_pinned (E : Env) (points : list Point) :
  measuresNonnegative E ->
  randomInUnit E ->
  (forall i j a b,
      i <> j ->
      nth_error (fst (geographicLayout E points)) i = Some a ->
      nth_error (fst (geographicLayout E points)) j = Some b ->
      minSep points i j a b <= pixelDistance a b
      \/ budgetExhausted E points (drawNode 0 (computeAllPositions E points)) 0
      \/ (pixelDistance a b <> 0 /\ pinned E a b)
      \/ zeroDirection E a b
      \/ nudged E points i \/ nudged E points j) /\
  (flag (resolveCollinearity E points (fst (fst (afterSeparation E points)))
                             (snd (fst (afterSeparation E points)))) = false ->
   forall i, ~ nudged E points i).
Proof.
  intros HE Hr.
  unfold nudged, budgetExhausted, geographicLayout, resolveCollisions, afterSeparation.
  destruct (separationLoop E points 25 (drawNode 0 (computeAllPositions E points)) 0)
    as [[l' c'] early] eqn:Hloop.
  cbn [fst snd]. split.
  - intros i j a b Hij Ha Hb. destruct early; [| right; left; reflexivity].
    destruct (entry_eq_dec (nth_error (fst (collinearityLoop E points 6 l' c')) i)
                           (nth_error l' i)) as [Hi | Hi];
      [| right; right; right; right; left; exact Hi].
    destruct (entry_eq_dec (nth_error (fst (collinearityLoop E points 6 l' c')) j)
                           (nth_error l' j)) as [Hj | Hj];
      [| right; right; right; right; right; exact Hj].
    rewrite Hi in Ha. rewrite Hj in Hb.
    destruct (separation_pair E points HE Hr l' c' i j a b Hloop Hij Ha Hb)
      as [H | [H | H]].
    + left. exact H.
    + right; right; left. exact H.
    + right; right; right; left. exact H.
  - intros Hf i Hn. apply Hn. cbn [collinearityLoop]. rewrite Hf. cbn [fst].
    now rewrite (resolveCollinearity_unmoved E points l' c' Hf).
Qed.

Lemma viewport_draws (w : R) : randomInUnit (Examples.viewport w).
Proof. intros k. cbn. lra. Qed.

Lemma C2_separated_or_pinned_witness :
  exists a b,
    nth_error (fst (geographicLayout (Examples.viewport 400) Examples.twoStops)) 0 = Some a
    /\ nth_error (fst (geographicLayout (Examples.viewport 400) Examples.twoStops)) 1 = Some b
    /\ pixelDistance a b = 320
    /\ (minSep Examples.twoStops 0 1 a b <= pixelDistance a b
        \/ budgetExhausted (Examples.viewport 400) Examples.twoStops
             (drawNode 0 (computeAllPositions (Examples.viewport 400) Examples.twoStops)) 0
        \/ (pixelDistance a b <> 0 /\ pinned (Examples.viewport 400) a b)
        \/ zeroDirection (Examples.viewport 400) a b
        \/ nudged (Examples.viewport 400) Examples.twoStops 0
        \/ nudged (Examples.viewport 400) Examples.twoStops 1).
Proof.
  destruct cramped_layout as (l & Hl & Hc).
  destruct (column_distance 400 l 360 40 Hc) as (a & b & Ha & Hb & Hd & Hm); [lra |].
  assert (Ha' : nth_error (fst (geographicLayout (Examples.viewport 400) Examples.twoStops)) 0
                = Some a) by (rewrite Hl; exact Ha).
  assert (Hb' : nth_error (fst (geographicLayout (Examples.viewport 400) Examples.twoStops)) 1
                = Some b) by (rewrite Hl; exact Hb).
  exists a, b.
  split; [exact Ha' |]. split; [exact Hb' |]. split; [rewrite Hd; lra |].
  exact (proj1 (C2_separated_or_pinned (Examples.viewport 400) Examples.twoStops
                  (viewport_measures 400 ltac:(lra)) (viewport_draws 400))
               0%nat 1%nat a b ltac:(lia) Ha' Hb').
Defined.

(** ** Too close within the budget: a pinned pair *)

(** Two stops 445 km apart on one meridian, with labels 400 pixels wide, in
    a 600 by 400 viewport: the loop leaves after its second pass, the budget
    is not used up, and the two nodes are 320 pixels apart where 409.6 are
    required. *)
Lemma pinned_pair_too_close :
  ~ (separated Examples.twoStops 1
       (fst (geographicLayout (Examples.viewport 400) Examples.twoStops))
     \/ budgetExhausted (Examples.viewport 400) Examples.twoStops
          (drawNode 0 (computeAllPositions (Examples.viewport 400) Examples.twoStops))
          0).
Proof.
  intros [Hsep | Hbud].
  - destruct cramped_layout as (l & Hl & Hc).
    rewrite Hl in Hsep. simpl in Hsep.
    destruct (column_distance 400 l 360 40 Hc) as (a & b & Ha & Hb & Hd & Hm); [lra |].
    specialize (Hsep 0%nat 1%nat a b ltac:(lia) Ha Hb).
    rewrite Hd, Hm in Hsep. lra.
  - destruct cramped_separation as (l & Hs & _).
    unfold budgetExhausted in Hbud. rewrite Hs in Hbud. discriminate.
Qed.

(** ** Too close within the budget: two nodes on one spot *)

Section Twins.

Variable w : R.
Hypothesis w_range : 0 < w <= 520.

Local Abbreviation E := (Examples.evenDraws w).
Local Abbreviation pts := Examples.twins.

Lemma evenDraws_width : width E = 600.
Proof. unfold width, Examples.evenDraws, JsMath.max; simpl. apply Rmax_left; lra. Qed.

Lemma evenDraws_height : height E = 400.
Proof. unfold height, Examples.evenDraws, JsMath.max; simpl. apply Rmax_left; lra. Qed.

Lemma twins_nodeSize : nodeSize pts = 24.
Proof.
  unfold nodeSize, Examples.twins, JsMath.max, JsMath.min. simpl List.length.
  replace (600 / INR 2) with (IZR 300) by (simpl; field).
  rewrite round_IZR. rewrite Rmin_left by lra. apply Rmax_right; lra.
Qed.

Lemma twins_nodeFont : nodeFont pts = 20.
Proof.
  unfold nodeFont. rewrite twins_nodeSize. unfold JsMath.max, JsMath.min.
  pose proof (round_bounds (24 * 0.9)) as [Hr _].
  rewrite Rmin_left by lra. apply Rmax_right; lra.
Qed.

Lemma widen_point : widen 0 0 = (0 - 0.5, 0 + 0.5).
Proof.
  unfold widen, JsMath.abs. replace (0 - 0) with 0 by ring. rewrite Rabs_R0.
  destruct (Rlt_dec 0 1e-6); [reflexivity | lra].
Qed.

Lemma compress_centre : compress 0 0 = 0.
Proof. unfold compress. replace (0 - 0) with 0 by ring. rewrite sign_zero. ring. Qed.

Lemma twins_xScale : xScale E pts 0 = 300.
Proof.
  unfold xScale. rewrite evenDraws_width.
  unfold lonTDomain, lonTrans, lonCenter, lonDomain, longitudes, Examples.twins.
  cbn [map lng d3_min d3_max fold_left].
  rewrite (Rmin_left 0 0), (Rmax_left 0 0) by lra.
  rewrite widen_point. cbn [fst snd].
  replace ((0 - 0.5 + (0 + 0.5)) / 2) with 0 by field.
  rewrite compress_centre.
  rewrite (Rmin_left 0 0), (Rmax_left 0 0) by lra. rewrite widen_point. cbn [fst snd].
  unfold scaleLinear, pad.
  destruct (Req_dec_T (0 + 0.5 - (0 - 0.5)) 0); [lra |]. field. lra.
Qed.

Lemma twins_yScale : yScale E pts 0 = 200.
Proof.
  unfold yScale. rewrite evenDraws_height.
  unfold latTDomain, latTrans, latCenter, latDomain, latitudes, Examples.twins.
  cbn [map lat d3_min d3_max fold_left].
  rewrite (Rmin_left 0 0), (Rmax_left 0 0) by lra.
  rewrite widen_point. cbn [fst snd].
  replace ((0 - 0.5 + (0 + 0.5)) / 2) with 0 by field.
  rewrite compress_centre.
  rewrite (Rmin_left 0 0), (Rmax_left 0 0) by lra. rewrite widen_point. cbn [fst snd].
  unfold scaleLinear, pad.
  destruct (Req_dec_T (0 - 0.5 - (0 + 0.5)) 0); [lra |]. field. lra.
Qed.

(** Both entries are put in the middle of the canvas. *)
Lemma twins_positions : column w (computeAllPositions E pts) 200 200.
Proof.
  unfold column, computeAllPositions. unfold Examples.twins at 2.
  cbn [computeFrom].
  eexists. eexists. split; [reflexivity |].
  unfold computePosition. cbv zeta. cbn [x y sizeScale labelWidth lat lng].
  fold Examples.twins.
  rewrite evenDraws_width, evenDraws_height, twins_nodeSize, twins_nodeFont.
  rewrite twins_xScale, twins_yScale.
  assert (Hm : forall l, measure E l 20 = (w, 24)) by reflexivity.
  rewrite !Hm. cbn [fst snd].
  rewrite (or_else_nonzero 24) by lra.
  unfold pad, JsMath.max, JsMath.min.
  rewrite (Rmin_right (600 - 2 * 40) w) by lra.
  repeat split.
  - rewrite Rmin_right by lra. rewrite Rmax_right by lra. reflexivity.
  - rewrite Rmin_right by lra. rewrite Rmax_right by lra. reflexivity.
  - rewrite Rmin_right by lra. rewrite Rmax_right by lra. reflexivity.
  - rewrite Rmin_right by lra. rewrite Rmax_right by lra. reflexivity.
Qed.

(** The pair is looked at, two numbers are drawn, and nothing moves: the
    direction is the zero vector. *)
Lemma twins_pair (l : list NodePos) (c : nat) :
  column w l 200 200 ->
  separatePair E pts 0 1 (mkRelax l c false) = mkRelax l (S (S c)) false.
Proof.
  intros (a & b & -> & (Ha1 & Ha2 & Ha3 & Ha4) & (Hb1 & Hb2 & Hb3 & Hb4)).
  unfold separatePair. cbn [nodes calls flag nth_error].
  unfold direction.
  assert (Hd : JsMath.hypot (x b - x a) (y b - y a) = 0).
  { replace (x b - x a) with 0 by lra. replace (y b - y a) with 0 by lra.
    apply hypot_x_0. lra. }
  rewrite Hd. destruct (Req_dec_T 0 0) as [_ | H]; [| congruence].
  change (random E c) with 0.5. change (random E (S c)) with 0.5.
  replace ((0.5 - 0.5) * 1) with 0 by lra.
  rewrite (hypot_x_0 0) by lra.
  assert (Hsep : 8 <= minSep pts 0 1 a b) by (apply minSep_ge_8; lra).
  destruct (Rlt_dec 0 (minSep pts 0 1 a b)) as [_ | H]; [| lra].
  unfold pushed.
  assert (Hz : forall t, 0 / JsMath.or_else 0 1 * t = 0) by (intros; unfold Rdiv; ring).
  rewrite !Hz, !Rminus_0_r, !Rplus_0_r.
  rewrite !clampX_id by (rewrite evenDraws_width; unfold pad; lra).
  rewrite !clampY_id by (rewrite evenDraws_height; unfold pad; lra).
  rewrite !xy_changed_same. cbn [orb].
  rewrite (write_pair_same 0 1 a b [a; b]) by reflexivity.
  reflexivity.
Qed.

Lemma twins_separation :
  exists l,
    separationLoop E pts 25 (drawNode 0 (computeAllPositions E pts)) 0
    = (l, 2%nat, true)
    /\ column w l 200 200.
Proof.
  pose proof (column_drawn w w_range _ _ _ twins_positions) as H0.
  exists (drawNode 0 (computeAllPositions E pts)). split; [| exact H0].
  rewrite (separationLoop_step E pts 24 _ 0
             (mkRelax (drawNode 0 (computeAllPositions E pts)) 2 false)).
  - reflexivity.
  - rewrite separationPass_two by reflexivity. now apply twins_pair.
Qed.

Lemma twins_layout :
  exists l, geographicLayout E pts = (l, 2%nat) /\ column w l 200 200.
Proof.
  destruct twins_separation as (l & Hs & Hc).
  exists l. split; [| exact Hc].
  unfold geographicLayout, resolveCollisions. rewrite Hs.
  apply collinearityLoop_two. reflexivity.
Qed.

End Twins.

(** The same stop twice, with [Math.random()] returning one half: the two
    nodes are put on one spot and stay there, after one pass of 25. *)
Lemma twins_too_close :
  ~ (separated Examples.twins 1
       (fst (geographicLayout (Examples.evenDraws 100) Examples.twins))
     \/ budgetExhausted (Examples.evenDraws 100) Examples.twins
          (drawNode 0 (computeAllPositions (Examples.evenDraws 100) Examples.twins))
          0).
Proof.
  assert (Hw : 0 < 100 <= 520) by lra.
  intros [Hsep | Hbud].
  - destruct (twins_layout 100 Hw) as (l & Hl & Hc).
    rewrite Hl in Hsep. cbn [fst] in Hsep.
    destruct Hc as (a & b & -> & (Ha1 & Ha2 & Ha3 & Ha4) & (Hb1 & Hb2 & Hb3 & Hb4)).
    specialize (Hsep 0%nat 1%nat a b ltac:(lia) eq_refl eq_refl).
    assert (Hsep8 : 8 <= minSep Examples.twins 0 1 a b) by (apply minSep_ge_8; lra).
    assert (Hd : pixelDistance a b = 0).
    { unfold pixelDistance. replace (x b - x a) with 0 by lra.
      replace (y b - y a) with 0 by lra. apply hypot_x_0. lra. }
    lra.
  - destruct (twins_separation 100 Hw) as (l & Hs & _).
    unfold budgetExhausted in Hbud. rewrite Hs in Hbud. discriminate.
Qed.

(** ** Too close within the budget: a node displaced by a nudge *)

(** *** The test of a triple *)

Lemma inv_sqrt2 : 0 < / R_sqrt.sqrt 2 /\ / R_sqrt.sqrt 2 * / R_sqrt.sqrt 2 = / 2.
Proof.
  assert (H2 : 0 < R_sqrt.sqrt 2) by (apply sqrt_lt_R0; lra).
  split; [now apply Rinv_0_lt_compat |].
  rewrite <- Rinv_mult. now rewrite sqrt_sqrt by lra.
Qed.

Lemma cos_quarter : Rtrigo_def.cos (PI / 4) = / R_sqrt.sqrt 2.
Proof. rewrite cos_PI4. unfold Rdiv. ring. Qed.

Lemma cos_three_quarters : Rtrigo_def.cos (3 * (PI / 4)) = - / R_sqrt.sqrt 2.
Proof. rewrite cos_3PI4. unfold Rdiv. ring. Qed.

(** A cosine between [-1/sqrt 2] and [1/sqrt 2] is that of an angle between
    45 and 135 degrees. *)
Lemma acos_wide (t : R) :
  2 * (t * t) <= 1 -> PI / 4 <= Ratan.acos t <= 3 * (PI / 4).
Proof.
  intros Ht. destruct inv_sqrt2 as [Hs Hss]. pose proof PI_RGT_0 as Hpi.
  assert (Hr : -1 <= t <= 1) by nra.
  assert (Hts : - / R_sqrt.sqrt 2 <= t <= / R_sqrt.sqrt 2) by nra.
  pose proof (acos_bound t) as [Hlo Hhi].
  pose proof (cos_acos t Hr) as Hc.
  split.
  - destruct (Rle_lt_dec (PI / 4) (Ratan.acos t)) as [H | H]; [exact H |].
    pose proof (cos_decreasing_1 (Ratan.acos t) (PI / 4)
                  Hlo ltac:(lra) ltac:(lra) ltac:(lra) H) as Hd.
    rewrite cos_quarter, Hc in Hd. lra.
  - destruct (Rle_lt_dec (Ratan.acos t) (3 * (PI / 4))) as [H | H]; [exact H |].
    pose proof (cos_decreasing_1 (3 * (PI / 4)) (Ratan.acos t)
                  ltac:(lra) ltac:(lra) ltac:(lra) Hhi H) as Hd.
    rewrite cos_three_quarters, Hc in Hd. lra.
Qed.

(** A cosine above [1/sqrt 2] is that of an angle below 45 degrees. *)
Lemma acos_narrow (t : R) :
  / R_sqrt.sqrt 2 < t -> Ratan.acos (Rmax (-1) (Rmin 1 t)) < PI / 4.
Proof.
  intros Ht. destruct inv_sqrt2 as [Hs Hss]. pose proof PI_RGT_0 as Hpi.
  assert (Hs1 : / R_sqrt.sqrt 2 < 1) by nra.
  set (u := Rmax (-1) (Rmin 1 t)).
  assert (Hu : -1 <= u <= 1 /\ / R_sqrt.sqrt 2 < u).
  { unfold u. destruct (Rle_dec 1 t).
    - rewrite Rmin_left by assumption. rewrite Rmax_right by lra. lra.
    - rewrite Rmin_right by lra. rewrite Rmax_right by lra. lra. }
  destruct Hu as [Hr Hsu].
  pose proof (acos_bound u) as [Hlo Hhi].
  pose proof (cos_acos u Hr) as Hc.
  destruct (Rlt_le_dec (Ratan.acos u) (PI / 4)) as [H | H]; [exact H |].
  pose proof (cos_decr_1 (PI / 4) (Ratan.acos u)
                ltac:(lra) ltac:(lra) Hlo Hhi H) as Hd.
  rewrite cos_quarter, Hc in Hd. lra.
Qed.

Section TripleTest.

Variables a b c : NodePos.

Local Abbreviation v1x := (x a - x b).
Local Abbreviation v1y := (y a - y b).
Local Abbreviation v2x := (x c - x b).
Local Abbreviation v2y := (y c - y b).
Local Abbreviation dot := (v1x * v2x + v1y * v2y).

Hypothesis apart1 : 0 < v1x * v1x + v1y * v1y.
Hypothesis apart2 : 0 < v2x * v2x + v2y * v2y.

Lemma cosine_square :
  0 < JsMath.hypot v1x v1y * JsMath.hypot v2x v2y
  /\ (dot / (JsMath.hypot v1x v1y * JsMath.hypot v2x v2y))
     * (dot / (JsMath.hypot v1x v1y * JsMath.hypot v2x v2y))
     = dot * dot / ((v1x * v1x + v1y * v1y) * (v2x * v2x + v2y * v2y)).
Proof.
  unfold JsMath.hypot.
  set (m1 := R_sqrt.sqrt (v1x * v1x + v1y * v1y)).
  set (m2 := R_sqrt.sqrt (v2x * v2x + v2y * v2y)).
  assert (H1 : 0 < m1) by (apply sqrt_lt_R0; exact apart1).
  assert (H2 : 0 < m2) by (apply sqrt_lt_R0; exact apart2).
  assert (H11 : m1 * m1 = v1x * v1x + v1y * v1y) by (apply sqrt_sqrt; lra).
  assert (H22 : m2 * m2 = v2x * v2x + v2y * v2y) by (apply sqrt_sqrt; lra).
  split; [now apply Rmult_lt_0_compat |].
  rewrite <- H11, <- H22. field. lra.
Qed.

(** The angle at [b] is between 45 and 135 degrees: no nudge. *)
Lemma nearCollinear_wide :
  2 * (dot * dot) <= (v1x * v1x + v1y * v1y) * (v2x * v2x + v2y * v2y) ->
  nearCollinear a b c = false.
Proof.
  intros H. destruct cosine_square as [Hm Hsq].
  unfold nearCollinear, angleAt. cbv zeta.
  set (t := dot / (JsMath.hypot v1x v1y * JsMath.hypot v2x v2y)) in *.
  assert (Ht : 2 * (t * t) <= 1).
  { rewrite Hsq.
    assert (Hp : 0 < (v1x * v1x + v1y * v1y) * (v2x * v2x + v2y * v2y))
      by now apply Rmult_lt_0_compat.
    apply (Rmult_le_reg_r ((v1x * v1x + v1y * v1y) * (v2x * v2x + v2y * v2y)));
      [exact Hp |].
    replace (2 * (dot * dot / ((v1x * v1x + v1y * v1y) * (v2x * v2x + v2y * v2y)))
             * ((v1x * v1x + v1y * v1y) * (v2x * v2x + v2y * v2y)))
      with (2 * (dot * dot)) by (field; lra).
    lra. }
  assert (Hr : -1 <= t <= 1) by nra.
  unfold JsMath.max, JsMath.min, JsMath.acos, JsMath.abs.
  rewrite (Rmin_right 1 t) by lra. rewrite (Rmax_right (-1) t) by lra.
  pose proof (acos_wide t Ht) as [Hlo Hhi]. pose proof PI_RGT_0 as Hpi.
  rewrite (lt_false (Ratan.acos t) (45 * PI / 180)) by lra.
  rewrite Rabs_pos_eq by lra.
  rewrite (lt_false (PI - Ratan.acos t) (45 * PI / 180)) by lra.
  reflexivity.
Qed.

(** The angle at [b] is below 45 degrees: a nudge. *)
Lemma nearCollinear_narrow :
  0 < dot ->
  (v1x * v1x + v1y * v1y) * (v2x * v2x + v2y * v2y) < 2 * (dot * dot) ->
  nearCollinear a b c = true.
Proof.
  intros Hd H. destruct cosine_square as [Hm Hsq].
  destruct inv_sqrt2 as [Hs Hss].
  unfold nearCollinear, angleAt. cbv zeta.
  set (t := dot / (JsMath.hypot v1x v1y * JsMath.hypot v2x v2y)) in *.
  assert (Ht0 : 0 < t).
  { unfold t. apply Rmult_lt_0_compat; [exact Hd |]. now apply Rinv_0_lt_compat. }
  assert (Ht : 1 < 2 * (t * t)).
  { rewrite Hsq.
    assert (Hp : 0 < (v1x * v1x + v1y * v1y) * (v2x * v2x + v2y * v2y))
      by now apply Rmult_lt_0_compat.
    apply (Rmult_lt_reg_r ((v1x * v1x + v1y * v1y) * (v2x * v2x + v2y * v2y)));
      [exact Hp |].
    replace (2 * (dot * dot / ((v1x * v1x + v1y * v1y) * (v2x * v2x + v2y * v2y)))
             * ((v1x * v1x + v1y * v1y) * (v2x * v2x + v2y * v2y)))
      with (2 * (dot * dot)) by (field; lra).
    lra. }
  assert (Hst : / R_sqrt.sqrt 2 < t) by nra.
  unfold JsMath.max, JsMath.min, JsMath.acos.
  pose proof (acos_narrow t Hst) as Hn.
  rewrite (lt_true _ (45 * PI / 180)) by lra.
  reflexivity.
Qed.

End TripleTest.

(** A triple that passes the test is left alone. *)
Lemma nudgeTriple_wide (E : Env) (points : list Point) (i j k : nat)
      (s : Relax) (a b c : NodePos) :
  nth_error (nodes s) i = Some a ->
  nth_error (nodes s) j = Some b ->
  nth_error (nodes s) k = Some c ->
  nearCollinear a b c = false ->
  nudgeTriple E points i j k s = s.
Proof.
  intros Ha Hb Hc Hnear. unfold nudgeTriple.
  destruct ((i =? j)%nat || (j =? k)%nat || (i =? k)%nat); [reflexivity |].
  rewrite Ha, Hb, Hc. cbv zeta.
  destruct (Rlt_dec _ 1e-6); [reflexivity |].
  destruct (Rlt_dec _ 1e-6); [reflexivity |].
  unfold nearCollinear, angleAt in Hnear. cbv zeta in Hnear.
  rewrite Hnear. reflexivity.
Qed.

(** *** Distances *)

Lemma hypot_ge (u v d : R) : 0 <= d -> d * d <= u * u + v * v -> d <= JsMath.hypot u v.
Proof.
  intros Hd H. unfold JsMath.hypot.
  rewrite <- (sqrt_square d) by exact Hd. apply sqrt_le_1; nra.
Qed.

Lemma hypot_lt (u v d : R) : 0 <= d -> u * u + v * v < d * d -> JsMath.hypot u v < d.
Proof.
  intros Hd H. unfold JsMath.hypot.
  rewrite <- (sqrt_square d) by exact Hd. apply sqrt_lt_1; nra.
Qed.

Lemma minSep_le (points : list Point) (i j : nat) (a b : NodePos) :
  0 <= baseSep a b -> baseSep a b <= minSep points i j a b <= baseSep a b * 1.6.
Proof.
  intros H. unfold minSep, proximityFactor.
  destruct (realKm points i j) as [km|]; [destruct (Rlt_dec km 1000) |]; lra.
Qed.

(** Along the equator the distance is the arc of the difference of the
    longitudes. *)
Lemma haversineKm_equator (lon1 lon2 : R) :
  0 <= lon2 - lon1 < 180 ->
  haversineKm 0 lon1 0 lon2 = 6371 * ((lon2 - lon1) * PI / 180).
Proof.
  intros [Hlo Hhi]. pose proof PI_bounds as [Hp1 Hp2].
  unfold haversineKm, toRad, JsMath.sin, JsMath.cos, JsMath.sqrt. cbv zeta.
  replace ((0 - 0) * PI / 180 / 2) with 0 by field.
  replace (0 * PI / 180) with 0 by field.
  rewrite sin_0, cos_0.
  set (u := (lon2 - lon1) * PI / 180 / 2).
  assert (Hu : 0 <= u < PI / 2).
  { unfold u. split.
    - apply Rmult_le_pos; [| lra]. apply Rmult_le_pos; [| lra].
      apply Rmult_le_pos; lra.
    - assert ((lon2 - lon1) * PI < 180 * PI) by (apply Rmult_lt_compat_r; lra). lra. }
  set (s := Rtrigo_def.sin u). set (c := Rtrigo_def.cos u).
  assert (Hs : 0 <= s) by (apply sin_ge_0; lra).
  assert (Hc : 0 < c) by (apply cos_gt_0; lra).
  assert (Hsc : s * s + c * c = 1).
  { pose proof (sin2_cos2 u) as H. unfold Rsqr in H. exact H. }
  replace (0 * 0 + 1 * 1 * s * s) with (s * s) by ring.
  replace (1 - s * s) with (c * c) by lra.
  rewrite !sqrt_square by lra.
  rewrite atan2_pos_x by exact Hc.
  change (s / c) with (tan u).
  rewrite atan_tan by lra.
  unfold u. field.
Qed.

Lemma square_le (p q : R) : - q <= p <= q -> p * p <= q * q.
Proof.
  intros [H1 H2].
  assert (H : 0 <= (q - p) * (q + p)) by (apply Rmult_le_pos; lra).
  lra.
Qed.

Lemma sin_square_le (v : R) : Rtrigo_def.sin v * Rtrigo_def.sin v <= v * v.
Proof.
  pose proof PI_bounds as [Hp1 Hp2]. pose proof (SIN_bound v) as [Hb1 Hb2].
  destruct (Rtotal_order v 0) as [H | [-> | H]].
  - replace (v * v) with ((- v) * (- v)) by ring. apply square_le.
    pose proof (sin_gt_x v H) as H1.
    destruct (Rle_lt_dec (-1) v) as [H4 | H4].
    + pose proof (sin_lt_0_var v ltac:(lra) H). lra.
    + lra.
  - rewrite sin_0. lra.
  - apply square_le.
    pose proof (sin_lt_x v H) as H1.
    destruct (Rle_lt_dec v 1) as [H4 | H4].
    + pose proof (sin_gt_0 v H ltac:(lra)). lra.
    + lra.
Qed.

Lemma sin_one_thirteenth : 1 / 20 < Rtrigo_def.sin (1 / 13).
Proof.
  assert (H := SIN (1 / 13) ltac:(lra) ltac:(pose proof PI_bounds; lra)).
  destruct H as [H _].
  unfold sin_lb, sin_approx, sin_term in H. simpl in H.
  lra.
Qed.

(** Two points at most four degrees apart in latitude and in longitude are
    less than 1000 km apart. *)
Lemma haversineKm_short (lat1 lon1 lat2 lon2 : R) :
  -4 <= lat2 - lat1 <= 4 -> -4 <= lon2 - lon1 <= 4 ->
  haversineKm lat1 lon1 lat2 lon2 < 1000.
Proof.
  intros Hlat Hlon. pose proof PI_bounds as [Hp1 Hp2].
  rewrite haversineKm_haversineA.
  pose proof (haversineA_range lat1 lon1 lat2 lon2) as [HA0 _].
  assert (HA : haversineA lat1 lon1 lat2 lon2 < 0.05 * 0.05).
  { unfold haversineA, toRad, JsMath.sin, JsMath.cos. cbv zeta.
    set (u := (lat2 - lat1) * PI / 180 / 2).
    set (v := (lon2 - lon1) * PI / 180 / 2).
    pose proof (sin_square_le u) as Hu. pose proof (sin_square_le v) as Hv.
    pose proof (COS_bound (lat1 * PI / 180)) as [Hc1 Hc2].
    pose proof (COS_bound (lat2 * PI / 180)) as [Hc3 Hc4].
    set (c1 := Rtrigo_def.cos (lat1 * PI / 180)) in *.
    set (c2 := Rtrigo_def.cos (lat2 * PI / 180)) in *.
    set (su := Rtrigo_def.sin u) in *. set (sv := Rtrigo_def.sin v) in *.
    assert (Hcc : c1 * c2 <= 1) by nra.
    assert (Hsv : 0 <= sv * sv) by nra.
    assert (Hprod : c1 * c2 * sv * sv <= sv * sv).
    { replace (c1 * c2 * sv * sv) with ((c1 * c2) * (sv * sv)) by ring. nra. }
    assert (Hub : -0.0350 <= u <= 0.0350) by (unfold u; nra).
    assert (Hvb : -0.0350 <= v <= 0.0350) by (unfold v; nra).
    assert (Hu2 : u * u <= 0.0350 * 0.0350) by nra.
    assert (Hv2 : v * v <= 0.0350 * 0.0350) by nra.
    lra. }
  set (s := R_sqrt.sqrt (haversineA lat1 lon1 lat2 lon2)).
  assert (Hs : 0 <= s < 0.05).
  { split; [apply sqrt_pos |]. unfold s.
    rewrite <- (sqrt_square 0.05) by lra. apply sqrt_lt_1; lra. }
  pose proof (asin_bound s) as [Hlo Hhi].
  assert (Hasin : asin s < 1 / 13).
  { destruct (Rlt_le_dec (asin s) (1 / 13)) as [H | H]; [exact H |].
    pose proof (sin_incr_1 (1 / 13) (asin s) ltac:(lra) ltac:(lra) Hlo Hhi H) as Hi.
    rewrite sin_asin in Hi by lra.
    pose proof sin_one_thirteenth. lra. }
  lra.
Qed.

(** *** Passes over three nodes *)

Lemma nudgeTriple_iij (E : Env) (points : list Point) (i k : nat) (s : Relax) :
  nudgeTriple E points i i k s = s.
Proof. unfold nudgeTriple. now rewrite Nat.eqb_refl. Qed.

Lemma nudgeTriple_ijj (E : Env) (points : list Point) (i j : nat) (s : Relax) :
  nudgeTriple E points i j j s = s.
Proof. unfold nudgeTriple. now rewrite (Nat.eqb_refl j), orb_true_r. Qed.

Lemma nudgeTriple_iji (E : Env) (points : list Point) (i j : nat) (s : Relax) :
  nudgeTriple E points i j i s = s.
Proof. unfold nudgeTriple. now rewrite (Nat.eqb_refl i), orb_true_r. Qed.

(** The six triples of three nodes, in the order of the three loops. *)
Lemma resolveCollinearity_three (E : Env) (points : list Point)
      (l : list NodePos) (c : nat) :
  List.length points = 3%nat ->
  resolveCollinearity E points l c
  = nudgeTriple E points 2 1 0
      (nudgeTriple E points 2 0 1
         (nudgeTriple E points 1 2 0
            (nudgeTriple E points 1 0 2
               (nudgeTriple E points 0 2 1
                  (nudgeTriple E points 0 1 2 (mkRelax l c false)))))).
Proof.
  intros H. unfold resolveCollinearity, for_range. rewrite H.
  cbn [Nat.sub seq fold_left].
  now rewrite !nudgeTriple_iij, !nudgeTriple_ijj, !nudgeTriple_iji.
Qed.

Lemma collinearityLoop_step (E : Env) (points : list Point) (k : nat)
      (l : list NodePos) (c : nat) (s : Relax) :
  resolveCollinearity E points l c = s ->
  collinearityLoop E points (S k) l c
  = if flag s then collinearityLoop E points k (nodes s) (calls s)
    else (nodes s, calls s).
Proof. intros <-. reflexivity. Qed.

(** *** Three stops around a corner *)

Section Corner.

Local Abbreviation E := Examples.monospace.
Local Abbreviation pts := Examples.cornerStops.

Lemma monospace_width : width E = 600.
Proof. unfold width, Examples.monospace, JsMath.max; simpl. apply Rmax_left; lra. Qed.

Lemma monospace_height : height E = 400.
Proof. unfold height, Examples.monospace, JsMath.max; simpl. apply Rmax_left; lra. Qed.

Lemma corner_nodeSize : nodeSize pts = 24.
Proof.
  unfold nodeSize, Examples.cornerStops, JsMath.max, JsMath.min. simpl List.length.
  replace (600 / INR 3) with (IZR 200) by (simpl; field).
  rewrite round_IZR. rewrite Rmin_left by lra. apply Rmax_right; lra.
Qed.

Lemma corner_nodeFont : nodeFont pts = 20.
Proof.
  unfold nodeFont. rewrite corner_nodeSize. unfold JsMath.max, JsMath.min.
  pose proof (round_bounds (24 * 0.9)) as [Hr _].
  rewrite Rmin_left by lra. apply Rmax_right; lra.
Qed.

Lemma widen_four (lo : R) : widen lo (lo + 4) = (lo, lo + 4).
Proof.
  unfold widen, JsMath.abs. replace (lo + 4 - lo) with 4 by ring.
  rewrite Rabs_pos_eq by lra.
  destruct (Rlt_dec 4 1e-6); [lra | reflexivity].
Qed.

Lemma compress_two (center : R) :
  compress center (center - 2) = center - Rpower 2 0.6
  /\ compress center (center + 2) = center + Rpower 2 0.6.
Proof.
  split.
  - destruct (compress_offset center (center - 2)) as (H & _ & _).
    destruct H as [H _]; [lra |].
    replace (center - (center - 2)) with 2 in H by ring.
    unfold JsMath.pow, compressionExp in H.
    destruct (Req_dec_T 2 0); [lra |]. lra.
  - destruct (compress_offset center (center + 2)) as (_ & _ & H).
    destruct H as [H _]; [lra |].
    replace (center + 2 - center) with 2 in H by ring.
    unfold JsMath.pow, compressionExp in H.
    destruct (Req_dec_T 2 0); [lra |]. lra.
Qed.

(** The two longitudes fall outside the compressed domain. *)
Lemma corner_xScale : xScale E pts 0 < 40 /\ 560 < xScale E pts 4.
Proof.
  pose proof Rpower_2_06 as [Hc1 Hc2].
  unfold xScale. rewrite monospace_width.
  unfold lonTDomain, lonTrans, lonCenter, lonDomain, longitudes, Examples.cornerStops.
  cbn [map lng d3_min d3_max fold_left].
  rewrite (Rmin_left 0 4), (Rmin_left 0 0), (Rmax_right 0 4), (Rmax_left 4 0) by lra.
  assert (Hw : widen 0 4 = (0, 4)).
  { pose proof (widen_four 0) as H. now replace (0 + 4) with 4 in H by ring. }
  rewrite !Hw. cbn [fst snd].
  replace ((0 + 4) / 2) with 2 by field.
  destruct (compress_two 2) as [H0 H4].
  replace (2 - 2) with 0 in H0 by ring. replace (2 + 2) with 4 in H4 by ring.
  rewrite H0, H4.
  set (c := Rpower 2 0.6) in *.
  rewrite (Rmin_left (2 - c) (2 + c)), (Rmin_left (2 - c) (2 - c)),
    (Rmax_right (2 - c) (2 + c)), (Rmax_left (2 + c) (2 - c)) by lra.
  assert (Hw2 : widen (2 - c) (2 + c) = (2 - c, 2 + c)).
  { unfold widen, JsMath.abs. rewrite Rabs_pos_eq by lra.
    destruct (Rlt_dec (2 + c - (2 - c)) 1e-6); [lra | reflexivity]. }
  rewrite Hw2. cbn [fst snd].
  unfold scaleLinear, pad.
  destruct (Req_dec_T (2 + c - (2 - c)) 0); [lra |].
  assert (Hi : 0 < / c) by (apply Rinv_0_lt_compat; lra).
  assert (Hci : c * / c = 1) by (apply Rinv_r; lra).
  replace ((0 - (2 - c)) / (2 + c - (2 - c))) with (/ 2 - / c) by (field; lra).
  replace ((4 - (2 - c)) / (2 + c - (2 - c))) with (/ 2 + / c) by (field; lra).
  assert (Hh : / 2 < / c) by nra.
  split; nra.
Qed.

(** So do the two latitudes. *)
Lemma corner_yScale : yScale E pts 0 < 40 /\ 360 < yScale E pts (-4).
Proof.
  pose proof Rpower_2_06 as [Hc1 Hc2].
  unfold yScale. rewrite monospace_height.
  unfold latTDomain, latTrans, latCenter, latDomain, latitudes, Examples.cornerStops.
  cbn [map lat d3_min d3_max fold_left].
  rewrite (Rmin_left 0 0), (Rmin_right 0 (-4)), (Rmax_left 0 0), (Rmax_left 0 (-4)) by lra.
  assert (Hw : widen (-4) 0 = (-4, 0)).
  { pose proof (widen_four (-4)) as H. now replace (-4 + 4) with 0 in H by ring. }
  rewrite !Hw. cbn [fst snd].
  replace ((-4 + 0) / 2) with (-2) by field.
  destruct (compress_two (-2)) as [H0 H4].
  replace (-2 - 2) with (-4) in H0 by ring. replace (-2 + 2) with 0 in H4 by ring.
  rewrite H0, H4.
  set (c := Rpower 2 0.6) in *.
  rewrite (Rmin_left (-2 + c) (-2 + c)), (Rmin_right (-2 + c) (-2 - c)),
    (Rmax_left (-2 + c) (-2 + c)), (Rmax_left (-2 + c) (-2 - c)) by lra.
  assert (Hw2 : widen (-2 - c) (-2 + c) = (-2 - c, -2 + c)).
  { unfold widen, JsMath.abs. rewrite Rabs_pos_eq by lra.
    destruct (Rlt_dec (-2 + c - (-2 - c)) 1e-6); [lra | reflexivity]. }
  rewrite Hw2. cbn [fst snd].
  unfold scaleLinear, pad.
  destruct (Req_dec_T (-2 - c - (-2 + c)) 0); [lra |].
  assert (Hi : 0 < / c) by (apply Rinv_0_lt_compat; lra).
  assert (Hci : c * / c = 1) by (apply Rinv_r; lra).
  replace ((0 - (-2 + c)) / (-2 - c - (-2 + c))) with (/ 2 - / c) by (field; lra).
  replace ((-4 - (-2 + c)) / (-2 - c - (-2 + c))) with (/ 2 + / c) by (field; lra).
  assert (Hh : / 2 < / c) by nra.
  split; nra.
Qed.

(** The three entries as [computeAllPositions] leaves them: each is clamped
    on both axes. *)
Lemma corner_positions : corner (computeAllPositions E pts) 64.
Proof.
  destruct corner_xScale as [Hx0 Hx4]. destruct corner_yScale as [Hy0 Hy4].
  unfold corner, computeAllPositions. unfold Examples.cornerStops at 2.
  cbn [computeFrom].
  do 3 eexists. split; [reflexivity |].
  unfold computePosition. cbv zeta. cbn [x y sizeScale labelWidth lat lng].
  fold Examples.cornerStops.
  rewrite monospace_width, monospace_height, corner_nodeSize, corner_nodeFont.
  assert (Hm0 : measure E (makeLabel 0 (mkPoint 0 0 "Ur")) 20 = (10 * INR 2, 24))
    by reflexivity.
  assert (Hm1 : measure E (makeLabel 1 (mkPoint 0 4 "Llanfairpwllgwyngyll Interchange")) 20
                = (10 * INR 32, 24)) by reflexivity.
  assert (Hm2 : measure E (makeLabel 2 (mkPoint (-4) 0 "North Harbour Station")) 20
                = (10 * INR 21, 24)) by reflexivity.
  rewrite Hm0, Hm1, Hm2. cbn [fst snd].
  rewrite !INR_IZR_INZ. cbn [Z.of_nat Pos.of_succ_nat Pos.succ].
  rewrite (or_else_nonzero 24) by lra.
  unfold pad, JsMath.max, JsMath.min.
  rewrite (Rmin_right (600 - 2 * 40) (10 * 2)) by lra.
  rewrite (Rmin_right (600 - 2 * 40) (10 * 32)) by lra.
  rewrite (Rmin_right (600 - 2 * 40) (10 * 21)) by lra.
  repeat split; try lra.
  - rewrite Rmin_right by lra. rewrite Rmax_left by lra. lra.
  - rewrite Rmin_right by lra. rewrite Rmax_left by lra. lra.
  - rewrite Rmin_left by lra. rewrite Rmax_right by lra. lra.
  - rewrite Rmin_right by lra. rewrite Rmax_left by lra. lra.
  - rewrite Rmin_right by lra. rewrite Rmax_left by lra. lra.
  - rewrite Rmin_left by lra. rewrite Rmax_right by lra. lra.
Qed.

Lemma corner_drawn (l : list NodePos) (y1 : R) :
  corner l y1 -> corner (drawNode 0 l) y1.
Proof.
  intros (a & b & c & -> & Ha & Hb & Hc).
  unfold drawNode. cbn [nth_error].
  destruct (_drawn a).
  - exists a, b, c. repeat split; tauto.
  - exists (set_drawn a), b, c. cbn [list_set]. repeat split; try tauto; apply Ha.
Qed.

Lemma corner_baseSep (l : list NodePos) (y1 : R) :
  corner l y1 ->
  exists a b c,
    l = [a; b; c]
    /\ baseSep a b = 216 /\ baseSep a c = 161 /\ baseSep b c = 216.
Proof.
  intros (a & b & c & -> & (Ha1 & Ha2 & Ha3 & Ha4) & (Hb1 & Hb2 & Hb3 & Hb4)
          & (Hc1 & Hc2 & Hc3 & Hc4)).
  exists a, b, c. split; [reflexivity |].
  unfold baseSep. rewrite Ha3, Ha4, Hb3, Hb4, Hc3, Hc4, !or_else_same.
  unfold JsMath.max.
  rewrite (Rmax_right 20 320), (Rmax_right 20 210), (Rmax_left 320 210) by lra.
  repeat split; lra.
Qed.

(** The three nodes are as far apart as the pairwise loop asks. *)
Lemma corner_apart (l : list NodePos) :
  corner l 64 -> apart (minSep pts) (List.length pts) l.
Proof.
  intros Hl. destruct (corner_baseSep l 64 Hl) as (a & b & c & -> & Hab & Hac & Hbc).
  destruct Hl as (a' & b' & c' & Heq & (Ha1 & Ha2 & _) & (Hb1 & Hb2 & _) & (Hc1 & Hc2 & _)).
  injection Heq as <- <- <-.
  pose proof (minSep_le pts 0 1 a b ltac:(lra)) as H01.
  pose proof (minSep_le pts 0 2 a c ltac:(lra)) as H02.
  pose proof (minSep_le pts 1 2 b c ltac:(lra)) as H12.
  assert (D01 : 345.6 <= pixelDistance a b).
  { unfold pixelDistance. rewrite Ha1, Ha2, Hb1, Hb2. apply hypot_ge; lra. }
  assert (D02 : 257.6 <= pixelDistance a c).
  { unfold pixelDistance. rewrite Ha1, Ha2, Hc1, Hc2. apply hypot_ge; lra. }
  assert (D12 : 345.6 <= pixelDistance b c).
  { unfold pixelDistance. rewrite Hb1, Hb2, Hc1, Hc2. apply hypot_ge; lra. }
  intros i j p q Hij Hp Hq. change (List.length pts) with 3%nat in Hij.
  assert (Hcases : ((i = 0 /\ j = 1) \/ (i = 0 /\ j = 2) \/ (i = 1 /\ j = 2))%nat) by lia.
  destruct Hcases as [[-> ->] | [[-> ->] | [-> ->]]];
    cbn [nth_error] in Hp, Hq; injection Hp as <-; injection Hq as <-; split; lra.
Qed.

Lemma corner_separation :
  exists l,
    separationLoop E pts 25 (drawNode 0 (computeAllPositions E pts)) 0
    = (l, 0%nat, true)
    /\ corner l 64.
Proof.
  pose proof (corner_drawn _ _ corner_positions) as H0.
  exists (drawNode 0 (computeAllPositions E pts)). split; [| exact H0].
  rewrite (separationLoop_step E pts 24 _ 0
             (mkRelax (drawNode 0 (computeAllPositions E pts)) 0 false)).
  - reflexivity.
  - apply separationPass_apart. now apply corner_apart.
Qed.

(** The first two stops are 445 km apart. *)
Lemma corner_close :
  realKm pts 0 1 = Some (6371 * ((4 - 0) * PI / 180))
  /\ 6371 * ((4 - 0) * PI / 180) <> 0
  /\ 6371 * ((4 - 0) * PI / 180) < 1000.
Proof.
  pose proof PI_bounds as [Hp1 Hp2].
  split; [| split; lra].
  unfold realKm, Examples.cornerStops. cbn [nth_error lat lng].
  now rewrite haversineKm_equator by lra.
Qed.

(** The angle at the second node, between the first and the third, is below
    45 degrees: the node is nudged 46.08 pixels down. *)
Lemma corner_nudge (l : list NodePos) (n : nat) :
  corner l 64 ->
  exists l',
    nudgeTriple E pts 0 1 2 (mkRelax l n false) = mkRelax l' n true
    /\ corner l' 110.08.
Proof.
  intros (a & b & c & -> & (Ha1 & Ha2 & Ha3 & Ha4) & (Hb1 & Hb2 & Hb3 & Hb4)
          & (Hc1 & Hc2 & Hc3 & Hc4)).
  assert (Hnear : nearCollinear a b c = true).
  { apply nearCollinear_narrow; rewrite ?Ha1, ?Ha2, ?Hb1, ?Hb2, ?Hc1, ?Hc2; lra. }
  assert (Hm1 : JsMath.hypot (x a - x b) (y a - y b) = 350).
  { rewrite Ha1, Ha2, Hb1, Hb2. replace (64 - 64) with 0 by ring.
    rewrite hypot_horizontal. rewrite Rabs_left by lra. lra. }
  assert (Hm2 : 1 <= JsMath.hypot (x c - x b) (y c - y b)).
  { rewrite Hb1, Hb2, Hc1, Hc2. apply hypot_ge; lra. }
  destruct corner_close as (Hkm & Hkm0 & Hkm1).
  unfold nudgeTriple. cbn [Nat.eqb orb nodes calls nth_error]. cbv zeta.
  destruct (Rlt_dec (JsMath.hypot (x a - x b) (y a - y b)) 1e-6) as [H | _]; [lra |].
  destruct (Rlt_dec (JsMath.hypot (x c - x b) (y c - y b)) 1e-6) as [H | _]; [lra |].
  unfold nearCollinear, angleAt in Hnear. cbv zeta in Hnear. rewrite Hnear.
  eexists. split; [reflexivity |].
  exists a.
  eexists. exists c. split; [reflexivity |].
  split; [repeat split; assumption |]. split; [| repeat split; assumption].
  cbn [x y sizeScale labelWidth set_xy].
  rewrite Hm1, Hkm.
  destruct (nth_error pts 2) as [p2|] eqn:Hp2; [| discriminate].
  destruct (nth_error pts 1) as [p1|] eqn:Hp1; [| discriminate].
  unfold realKm. rewrite Hp2, Hp1.
  destruct (Req_dec_T (6371 * ((4 - 0) * PI / 180)) 0) as [H | _]; [contradiction |].
  rewrite (lt_true _ 1000 Hkm1). cbn [orb].
  rewrite Ha1, Ha2, Ha3, Hb1, Hb2, Hc3.
  rewrite !(or_else_nonzero 24) by lra.
  change ((1 mod 2 =? 0)%nat) with false. cbv iota.
  unfold JsMath.max. rewrite (Rmax_right 10) by lra.
  repeat split; try assumption.
  - replace (400 + - ((64 - 64) / 350) * ((24 + 24) * 0.6 * 1.6) * -1) with 400 by lra.
    apply clampX_id. rewrite monospace_width. unfold pad. lra.
  - replace (64 + (50 - 400) / 350 * ((24 + 24) * 0.6 * 1.6) * -1) with 110.08 by lra.
    apply clampY_id. rewrite monospace_height. unfold pad. lra.
Qed.

(** With the second node at [(400, 110.08)] the three angles are 61.2,
    45.3 and 73.5 degrees: no triple is near a line. *)
Lemma corner_wide (a b c : NodePos) :
  corner [a; b; c] 110.08 ->
  nearCollinear a b c = false /\ nearCollinear c b a = false
  /\ nearCollinear a c b = false /\ nearCollinear b c a = false
  /\ nearCollinear b a c = false /\ nearCollinear c a b = false.
Proof.
  intros (a' & b' & c' & Heq & (Ha1 & Ha2 & _) & (Hb1 & Hb2 & _) & (Hc1 & Hc2 & _)).
  injection Heq as <- <- <-.
  repeat split; apply nearCollinear_wide;
    rewrite ?Ha1, ?Ha2, ?Hb1, ?Hb2, ?Hc1, ?Hc2; lra.
Qed.

Lemma corner_untouched (l : list NodePos) (s : Relax) :
  corner l 110.08 -> nodes s = l ->
  nudgeTriple E pts 2 1 0
    (nudgeTriple E pts 2 0 1
       (nudgeTriple E pts 1 2 0
          (nudgeTriple E pts 1 0 2
             (nudgeTriple E pts 0 2 1 s)))) = s.
Proof.
  intros Hl Hs. pose proof Hl as (a & b & c & Heq & _). subst l.
  rewrite Heq in Hl.
  destruct (corner_wide a b c Hl) as (H1 & H2 & H3 & H4 & H5 & H6).
  rewrite (nudgeTriple_wide E pts 0 2 1 s a c b) by (rewrite ?Heq; first [reflexivity | assumption]).
  rewrite (nudgeTriple_wide E pts 1 0 2 s b a c) by (rewrite ?Heq; first [reflexivity | assumption]).
  rewrite (nudgeTriple_wide E pts 1 2 0 s b c a) by (rewrite ?Heq; first [reflexivity | assumption]).
  rewrite (nudgeTriple_wide E pts 2 0 1 s c a b) by (rewrite ?Heq; first [reflexivity | assumption]).
  rewrite (nudgeTriple_wide E pts 2 1 0 s c b a) by (rewrite ?Heq; first [reflexivity | assumption]).
  reflexivity.
Qed.

(** The first collinearity pass nudges the second node, once. *)
Lemma corner_first_pass (l : list NodePos) (n : nat) :
  corner l 64 ->
  exists l', resolveCollinearity E pts l n = mkRelax l' n true /\ corner l' 110.08.
Proof.
  intros Hl. destruct (corner_nudge l n Hl) as (l' & Hn & Hl').
  exists l'. split; [| exact Hl'].
  rewrite resolveCollinearity_three by reflexivity.
  rewrite Hn. now apply (corner_untouched l').
Qed.

(** The second pass finds nothing to do. *)
Lemma corner_second_pass (l : list NodePos) (n : nat) :
  corner l 110.08 -> resolveCollinearity E pts l n = mkRelax l n false.
Proof.
  intros Hl. rewrite resolveCollinearity_three by reflexivity.
  pose proof Hl as (a & b & c & Heq & _).
  assert (H0 : nudgeTriple E pts 0 1 2 (mkRelax l n false) = mkRelax l n false).
  { rewrite Heq in Hl. destruct (corner_wide a b c Hl) as (H1 & _).
    apply (nudgeTriple_wide E pts 0 1 2 _ a b c); cbn [nodes]; rewrite ?Heq;
      first [reflexivity | assumption]. }
  rewrite H0. now apply (corner_untouched l).
Qed.

Lemma corner_layout :
  exists l, geographicLayout E pts = (l, 0%nat) /\ corner l 110.08.
Proof.
  destruct corner_separation as (l & Hs & Hl).
  destruct (corner_first_pass l 0 Hl) as (l' & H1 & Hl').
  exists l'. split; [| exact Hl'].
  unfold geographicLayout, resolveCollisions. rewrite Hs.
  rewrite (collinearityLoop_step E pts 5 l 0 _ H1). cbn [flag nodes calls].
  rewrite (collinearityLoop_step E pts 4 l' 0 _ (corner_second_pass l' 0 Hl')).
  reflexivity.
Qed.

(** The second and the third stop are less than 1000 km apart. *)
Lemma corner_proximity : proximityFactor pts 1 2 = 1.6.
Proof.
  unfold proximityFactor, realKm, Examples.cornerStops. cbn [nth_error lat lng].
  pose proof (haversineKm_short 0 4 (-4) 0 ltac:(lra) ltac:(lra)) as H.
  destruct (Rlt_dec (haversineKm 0 4 (-4) 0) 1000); [reflexivity | lra].
Qed.

End Corner.

Lemma apart_separated (points : list Point) (l : list NodePos) :
  List.length l = List.length points ->
  apart (minSep points) (List.length points) l -> separated points 0 l.
Proof.
  intros Hlen H i j a b Hij Ha Hb.
  assert (Hi : (i < List.length points)%nat).
  { rewrite <- Hlen. apply nth_error_Some. congruence. }
  assert (Hj : (j < List.length points)%nat).
  { rewrite <- Hlen. apply nth_error_Some. congruence. }
  destruct (Nat.lt_ge_cases i j) as [Hlt | Hge].
  - destruct (H i j a b ltac:(lia) Ha Hb) as [_ H1]. lra.
  - destruct (H j i b a ltac:(lia) Hb Ha) as [_ H1].
    rewrite minSep_sym, pixelDistance_sym. lra.
Qed.

(** Three stops whose nodes the pairwise loop finds far enough apart, at
    its first pass; the first collinearity pass then moves the second node
    46.08 pixels towards the third, and they end 322.8 pixels apart where
    345.6 are required. *)
Lemma nudged_pair_too_close :
  separated Examples.cornerStops 0
    (fst (fst (afterSeparation Examples.monospace Examples.cornerStops)))
  /\ ~ (separated Examples.cornerStops 1
          (fst (geographicLayout Examples.monospace Examples.cornerStops))
        \/ budgetExhausted Examples.monospace Examples.cornerStops
             (drawNode 0 (computeAllPositions Examples.monospace Examples.cornerStops))
             0).
Proof.
  destruct corner_separation as (l0 & Hs & Hl0).
  split.
  - unfold afterSeparation. rewrite Hs. cbn [fst].
    apply apart_separated; [| now apply corner_apart].
    destruct Hl0 as (a & b & c & -> & _). reflexivity.
  - intros [Hsep | Hbud].
    + destruct corner_layout as (l & Hl & Hc).
      rewrite Hl in Hsep. cbn [fst] in Hsep.
      destruct (corner_baseSep l _ Hc) as (a & b & c & -> & _ & _ & Hbc).
      destruct Hc as (a' & b' & c' & Heq & _ & (Hb1 & Hb2 & _) & (Hc1 & Hc2 & _)).
      injection Heq as <- <- <-.
      specialize (Hsep 1%nat 2%nat b c ltac:(lia) eq_refl eq_refl).
      unfold minSep in Hsep. rewrite Hbc, corner_proximity in Hsep.
      assert (Hd : pixelDistance b c < 323).
      { unfold pixelDistance. rewrite Hb1, Hb2, Hc1, Hc2. apply hypot_lt; lra. }
      lra.
    + unfold budgetExhausted in Hbud. rewrite Hs in Hbud. discriminate.
Qed.

(** C2 as the spec words it fails in three ways, each within the budget of
    25 passes: two nodes that the clamp pins against opposite borders
    ([pinned_pair_too_close]); two nodes on one spot for which
    [Math.random()] gives no direction ([twins_too_close]); and a node that
    a collinearity nudge moves towards another one after the pairwise loop
    has found all pairs far enough apart ([nudged_pair_too_close]). *)
Lemma C2_too_close_within_budget :
  ~ (separated Examples.twoStops 1
       (fst (geographicLayout (Examples.viewport 400) Examples.twoStops))
     \/ budgetExhausted (Examples.viewport 400) Examples.twoStops
          (drawNode 0 (computeAllPositions (Examples.viewport 400) Examples.twoStops))
          0)
  /\ ~ (separated Examples.twins 1
          (fst (geographicLayout (Examples.evenDraws 100) Examples.twins))
        \/ budgetExhausted (Examples.evenDraws 100) Examples.twins
             (drawNode 0 (computeAllPositions (Examples.evenDraws 100) Examples.twins))
             0)
  /\ (separated Examples.cornerStops 0
         (fst (fst (afterSeparation Examples.monospace Examples.cornerStops)))
      /\ ~ (separated Examples.cornerStops 1
              (fst (geographicLayout Examples.monospace Examples.cornerStops))
            \/ budgetExhausted Examples.monospace Examples.cornerStops
                 (drawNode 0 (computeAllPositions Examples.monospace
                                                  Examples.cornerStops))
                 0)).
Proof.
  split; [exact pinned_pair_too_close |].
  split; [exact twins_too_close | exact nudged_pair_too_close].
Qed.
